(** * mparith: multi-precision signed integers

    A shallow embedding of [mparith.hpp] (class template [Integer<Width>])
    and the properties of its arithmetic kernels, operators and decimal
    serialization.

    - A [std::bitset<8>] word is a [Z] in [0, 256); bit [j] is [Z.testbit].
    - The word vector [_bits] is a [list Z], least significant word first.
    - A [std::bitset<kBits_Cnt>] temporary is a [Z] in [0, 2^kBits_Cnt).
    - The template parameter [Width] becomes a run-time tag carried by the
      value; [kUnlimited] is the largest [size_t], so [std::max] makes it
      absorbing.
    - [throw] and writes past the end of a vector are results of the
      [outcome] monad; [bool &] out-parameters are threaded explicitly. *)

From Stdlib Require Import String Ascii.
From Stdlib Require Import ZArith List Bool Lia Arith PeanoNat Factorial.
Import ListNotations.

Local Open Scope Z_scope.

(** ** Types and constants *)

Inductive t_Width : Type :=
| Fixed (n : nat)
| kUnlimited.

Definition kWidth_Min : nat := 4.
Definition kWord_Bits_Cnt : nat := 8.

Definition Get_Max (lhs rhs : t_Width) : t_Width :=
  match lhs, rhs with
  | Fixed a, Fixed b => Fixed (Nat.max a b)
  | _, _ => kUnlimited
  end.

Definition Is_Unlimited (width : t_Width) : bool :=
  match width with
  | kUnlimited => true
  | Fixed _ => false
  end.

Definition Is_Limited (width : t_Width) : bool := negb (Is_Unlimited width).

Record Integer : Type := mkInteger {
  Width : t_Width;
  _bits : list Z
}.

(** What a call can do besides returning: throw one of the two exception
    classes, write past the end of a vector (undefined behaviour), or, for
    the two unbounded loops, exhaust the fuel of the model.

    There is one constructor for each kind of [throw] statement of the
    header: [ArithmeticException msg] for [throw ArithmeticException{msg}],
    [OverflowException result] for [throw OverflowException<W>(result)].
    In the header the second class derives from the first (and passes it
    the text "Overflow Detected [...]"), so a handler for
    [ArithmeticException] catches both. *)
Inductive outcome (A : Type) : Type :=
| Ok (a : A)
| ArithmeticException (msg : string)
| OverflowException (result : Integer)
| OutOfBounds
| OutOfFuel.

Arguments Ok {A} a.
Arguments ArithmeticException {A} msg.
Arguments OverflowException {A} result.
Arguments OutOfBounds {A}.
Arguments OutOfFuel {A}.

Definition bind {A B : Type} (m : outcome A) (k : A -> outcome B) : outcome B :=
  match m with
  | Ok a => k a
  | ArithmeticException msg => ArithmeticException msg
  | OverflowException r => OverflowException r
  | OutOfBounds => OutOfBounds
  | OutOfFuel => OutOfFuel
  end.

Declare Scope outcome_scope.
Delimit Scope outcome_scope with outcome.
Notation "x <- m ;; k" := (bind m (fun x => k))
  (at level 100, m at next level, right associativity) : outcome_scope.
Notation "' p <- m ;; k" := (bind m (fun p => k))
  (at level 100, p pattern, m at next level, right associativity) : outcome_scope.
Local Open Scope outcome_scope.

(** ** Words and bit access *)

Definition bitset_test (w : Z) (j : nat) : bool := Z.testbit w (Z.of_nat j).

Definition bitset_assign (w : Z) (j : nat) (b : bool) : Z :=
  if b then Z.setbit w (Z.of_nat j) else Z.clearbit w (Z.of_nat j).

(** [bitset.flip()] on one word. *)
Definition bitset_flip (w : Z) : Z := Z.lxor w 255.

(** [v[k] = w]; an index outside the vector is not reached on well-formed
    operands and leaves the model's vector as it is. *)
Fixpoint vec_set (v : list Z) (k : nat) (w : Z) : list Z :=
  match v, k with
  | [], _ => []
  | _ :: t, O => w :: t
  | h :: t, S k' => h :: vec_set t k' w
  end.

(** [vector::resize]: truncate, or append zero words. *)
Definition vec_resize (v : list Z) (n : nat) : list Z :=
  firstn n v ++ repeat 0 (n - length v).

(** [operator[]] const: [_bits[idx / 8][idx % 8]]. *)
Definition operator_index (x : Integer) (idx : nat) : bool :=
  bitset_test (nth (idx / kWord_Bits_Cnt) (_bits x) 0) (idx mod kWord_Bits_Cnt).

(** Assignment through the reference returned by the non-const [operator[]]. *)
Definition assign_index (x : Integer) (idx : nat) (b : bool) : Integer :=
  mkInteger (Width x)
    (vec_set (_bits x) (idx / kWord_Bits_Cnt)
       (bitset_assign (nth (idx / kWord_Bits_Cnt) (_bits x) 0) (idx mod kWord_Bits_Cnt) b)).

(** ** Constructors *)

(** [Integer()]: [Width] zero words, or [kWidth_Min] when unlimited. *)
Definition Integer_new (W : t_Width) : Integer :=
  mkInteger W (repeat 0 (match W with Fixed n => n | kUnlimited => kWidth_Min end)).

(** Converting copy: [_bits(rhs._bits)], the vector is taken as it is. *)
Definition Integer_copy (W : t_Width) (rhs : Integer) : Integer :=
  mkInteger W (_bits rhs).

(** [Integer(const std::bitset<Bits_Cnt> &)]: starts from [Integer()] and
    sets every bit that is set in the argument. *)
Definition Integer_of_bitset (W : t_Width) (Bits_Cnt : nat) (bitset : Z) : Integer :=
  fold_left
    (fun r idx => if Z.testbit bitset (Z.of_nat idx) then assign_index r idx true else r)
    (seq 0 ((Bits_Cnt / kWord_Bits_Cnt) * kWord_Bits_Cnt))
    (Integer_new W).

Definition kZero (W : t_Width) : Integer := Integer_new W.
Definition kOne (W : t_Width) : Integer := assign_index (Integer_new W) 0 true.
Definition kTwo (W : t_Width) : Integer := assign_index (Integer_new W) 1 true.
Definition kTen (W : t_Width) : Integer :=
  assign_index (assign_index (Integer_new W) 1 true) 3 true.

(** ** Utility functions *)

Definition Get_Actual_Width (x : Integer) : nat :=
  match Width x with
  | Fixed n => n
  | kUnlimited => length (_bits x)
  end.

Definition Get_Actual_Bits_Cnt (x : Integer) : nat :=
  (Get_Actual_Width x * kWord_Bits_Cnt)%nat.

(** [kBits_Cnt = Width * kWord_Bits_Cnt], used for limited widths only. *)
Definition kBits_Cnt (W : t_Width) : nat :=
  match W with
  | Fixed n => (n * kWord_Bits_Cnt)%nat
  | kUnlimited => 0%nat
  end.

Definition Is_Positive (x : Integer) : bool :=
  negb (bitset_test (nth (Get_Actual_Width x - 1) (_bits x) 0) (kWord_Bits_Cnt - 1)).

(** [Get_Bitset]: the first [Width] words gathered into one bitset. *)
Definition Get_Bitset (x : Integer) : Z :=
  fold_left
    (fun bitset idx => if operator_index x idx then Z.setbit bitset (Z.of_nat idx) else bitset)
    (seq 0 (kBits_Cnt (Width x)))
    0.

(** [Get_Normalized<New_Width>(actual_width)].  [std::ranges::copy] into the
    resized vector writes past its end when [_bits] is longer than
    [actual_width], and the flipped range starts past the end when
    [Get_Actual_Width() > actual_width]. *)
Definition Get_Normalized (New_Width : t_Width) (x : Integer) (actual_width : nat)
  : outcome Integer :=
  if Nat.eqb (Get_Actual_Width x) actual_width then Ok (Integer_copy New_Width x)
  else if Nat.ltb actual_width (length (_bits x)) then OutOfBounds
  else
    let result_bits := _bits x ++ repeat 0 (actual_width - length (_bits x)) in
    if Is_Positive x then Ok (mkInteger New_Width result_bits)
    else if Nat.ltb actual_width (Get_Actual_Width x) then OutOfBounds
    else Ok (mkInteger New_Width
               (firstn (Get_Actual_Width x) result_bits
                ++ map bitset_flip (skipn (Get_Actual_Width x) result_bits))).

Definition Get_Normalized_New (Width_ : t_Width) (actual_width : nat) : outcome Integer :=
  Get_Normalized Width_ (Integer_new Width_) actual_width.

Definition Get_Normalized_Existing (New_Width : t_Width) (integer : Integer)
  (actual_width : nat) : outcome Integer :=
  Get_Normalized New_Width integer actual_width.

(** [Get_Msb_Idx]: scans from the top bit down to bit 1. *)
Fixpoint Get_Msb_Idx_from (x : Integer) (i : nat) : nat :=
  match i with
  | O => O
  | S i' => if operator_index x i then i else Get_Msb_Idx_from x i'
  end.

Definition Get_Msb_Idx (x : Integer) : nat :=
  Get_Msb_Idx_from x (Get_Actual_Bits_Cnt x - 1).

(** ** The add kernel *)

(** The ripple-carry loop: [k] bits remain, [i] is the current bit. *)
Fixpoint Add_loop (k i : nat) (left right result : Integer) (carry : bool)
  : Integer * bool :=
  match k with
  | O => (result, carry)
  | S k' =>
      let l := operator_index left i in
      let r := operator_index right i in
      Add_loop k' (S i) left right
        (assign_index result i (xorb (xorb l r) carry))
        (orb (andb l r) (andb (xorb l r) carry))
  end.

Definition vec_push_back (x : Integer) (w : Z) : Integer :=
  mkInteger (Width x) (_bits x ++ [w]).

(** [Add(lhs, rhs, overflow_flag, carry_flag)]; returns the result with the
    two flags as the caller sees them afterwards. *)
Definition Add (lhs rhs : Integer) (overflow_flag carry_flag : bool)
  : outcome (Integer * bool * bool) :=
  let Result_Width := Get_Max (Width lhs) (Width rhs) in
  let Result_Actual_Width := Nat.max (Get_Actual_Width lhs) (Get_Actual_Width rhs) in
  left <- Get_Normalized_Existing Result_Width lhs Result_Actual_Width ;;
  right <- Get_Normalized_Existing Result_Width rhs Result_Actual_Width ;;
  result0 <- (if Is_Unlimited Result_Width
              then Get_Normalized_Existing Result_Width (Integer_new Result_Width)
                     Result_Actual_Width
              else Ok (Integer_new Result_Width)) ;;
  let '(result1, carry) :=
    Add_loop (Get_Actual_Bits_Cnt left) 0 left right result0 false in
  let result :=
    if Is_Unlimited Result_Width then
      if Is_Positive left && Is_Positive right && negb (Is_Positive result1)
      then vec_push_back result1 0
      else if negb (Is_Positive left) && negb (Is_Positive right) && Is_Positive result1
      then vec_push_back result1 255
      else result1
    else result1 in
  let overflow_flag' :=
    if Is_Limited Result_Width then
      if (Is_Positive left && Is_Positive right && negb (Is_Positive result))
         || (negb (Is_Positive left) && negb (Is_Positive right) && Is_Positive result)
      then true else overflow_flag
    else overflow_flag in
  let carry_flag' := if carry then true else carry_flag in
  Ok (result, overflow_flag', carry_flag').

(** ** Inverse, complement, positive projection *)

Fixpoint Get_Inverse_loop (k i : nat) (this result : Integer) : Integer :=
  match k with
  | O => result
  | S k' => Get_Inverse_loop k' (S i) this
              (assign_index result i (negb (operator_index this i)))
  end.

Definition Get_Inverse (x : Integer) : Integer :=
  if Is_Limited (Width x) then
    Integer_of_bitset (Width x) (kBits_Cnt (Width x))
      (Z.lxor (Get_Bitset x) (Z.ones (Z.of_nat (kBits_Cnt (Width x)))))
  else Get_Inverse_loop (Get_Actual_Bits_Cnt x) 0 x x.

(** [Add(Get_Inverse(), kOne, _, _)]: both flags are discarded. *)
Definition Get_Complement (x : Integer) : outcome Integer :=
  '(result, _, _) <- Add (Get_Inverse x) (kOne (Width x)) false false ;;
  Ok result.

Definition Get_Positive (x : Integer) : outcome Integer :=
  if Is_Positive x then Ok x else Get_Complement x.

(** ** Shifts *)

(** [result[i] = result[i - shift]] for [i] from the top bit down to [shift]. *)
Fixpoint shl_loop (k shift : nat) (result : Integer) : Integer :=
  match k with
  | O => result
  | S k' => shl_loop k' shift
              (assign_index result (k' + shift) (operator_index result k'))
  end.

(** [result[i - shift] = result[i]] for [i] from [shift] up to the top bit. *)
Fixpoint shr_loop (k i shift : nat) (result : Integer) : Integer :=
  match k with
  | O => result
  | S k' => shr_loop k' (S i) shift
              (assign_index result (i - shift) (operator_index result i))
  end.

Definition clear_range (start len : nat) (result : Integer) : Integer :=
  fold_left (fun r i => assign_index r i false) (seq start len) result.

(** [operator<<]: a [std::bitset] shift for limited widths, the bit loop
    over the current words otherwise. *)
Definition operator_shl (x : Integer) (shift : nat) : Integer :=
  if Nat.eqb shift 0 then x
  else if Is_Limited (Width x) then
    Integer_of_bitset (Width x) (kBits_Cnt (Width x))
      (Z.shiftl (Get_Bitset x) (Z.of_nat shift) mod 2 ^ Z.of_nat (kBits_Cnt (Width x)))
  else
    clear_range 0 shift (shl_loop (Get_Actual_Bits_Cnt x - shift) shift x).

(** [operator>>]: zero-fill right shift. *)
Definition operator_shr (x : Integer) (shift : nat) : Integer :=
  if Nat.eqb shift 0 then x
  else if Is_Limited (Width x) then
    Integer_of_bitset (Width x) (kBits_Cnt (Width x))
      (Z.shiftr (Get_Bitset x) (Z.of_nat shift))
  else
    clear_range (Get_Actual_Bits_Cnt x - shift) shift
      (shr_loop (Get_Actual_Bits_Cnt x - shift) shift shift x).

(** ** Equality *)

Definition operator_eq (lhs rhs : Integer) : outcome bool :=
  if xorb (Is_Positive lhs) (Is_Positive rhs) then Ok false
  else
    let Result_Width := Get_Max (Width lhs) (Width rhs) in
    let Result_Actual_Width := Nat.max (Get_Actual_Width lhs) (Get_Actual_Width rhs) in
    left <- Get_Normalized_Existing Result_Width lhs Result_Actual_Width ;;
    right <- Get_Normalized_Existing Result_Width rhs Result_Actual_Width ;;
    if negb (Is_Unlimited Result_Width) then
      Ok (Z.eqb (Get_Bitset left) (Get_Bitset right))
    else
      Ok (forallb (fun i => Bool.eqb (operator_index left i) (operator_index right i))
            (seq 0 (Get_Actual_Bits_Cnt left))).

Definition operator_ne (lhs rhs : Integer) : outcome bool :=
  b <- operator_eq lhs rhs ;; Ok (negb b).

(** ** Sign-aware addition and subtraction *)

Definition operator_neg (x : Integer) : outcome Integer := Get_Complement x.

Definition operator_add (lhs rhs : Integer) : outcome Integer :=
  '(result, overflow_flag, _) <- Add lhs rhs false false ;;
  if (overflow_flag : bool) then OverflowException result else Ok result.

Definition operator_sub (lhs rhs : Integer) : outcome Integer :=
  c <- Get_Complement rhs ;; operator_add lhs c.

(** ** The multiply kernel *)

(** The local [carry_flag] is latched by every [Add] of the loop; the first
    flag of [Add] goes to a scratch variable. *)
Fixpoint Mul_loop (k : nat) (left right result : Integer) (carry_flag : bool)
  : outcome (Integer * bool) :=
  match k with
  | O => Ok (result, carry_flag)
  | S k' =>
      '(result', carry_flag') <-
        (if operator_index right 0
         then '(r, _, c) <- Add result left false carry_flag ;; Ok (r, c)
         else Ok (result, carry_flag)) ;;
      Mul_loop k' (operator_shl left 1) (operator_shr right 1) result' carry_flag'
  end.

Definition Shrink (integer : Integer) : Integer :=
  let msb_idx := Get_Msb_Idx integer in
  let size := Nat.max ((msb_idx + 1) / kWord_Bits_Cnt + 1) kWidth_Min in
  mkInteger (Width integer) (vec_resize (_bits integer) size).

(** [Mul(lhs, rhs, overflow_flag)].  The loop's [carry_flag] starts clear, as
    in the documented revision of the header ([bool _, carry_flag = false]). *)
Definition Mul (lhs rhs : Integer) (overflow_flag : bool) : outcome (Integer * bool) :=
  let Result_Width := Get_Max (Width lhs) (Width rhs) in
  let Result_Actual_Width := Nat.max (Get_Actual_Width lhs) (Get_Actual_Width rhs) in
  let result_is_positive := negb (xorb (Is_Positive lhs) (Is_Positive rhs)) in
  lpos <- Get_Positive lhs ;;
  left0 <- Get_Normalized_Existing Result_Width lpos Result_Actual_Width ;;
  rpos <- Get_Positive rhs ;;
  right0 <- Get_Normalized_Existing Result_Width rpos Result_Actual_Width ;;
  let result0 := Integer_new Result_Width in
  left <- (if Is_Unlimited Result_Width
           then Get_Normalized_Existing Result_Width left0 (2 * Result_Actual_Width)
           else Ok left0) ;;
  right <- (if Is_Unlimited Result_Width
            then Get_Normalized_Existing Result_Width right0 (2 * Result_Actual_Width)
            else Ok right0) ;;
  let right_msb := Get_Msb_Idx right in
  '(result1, carry_flag) <- Mul_loop (S right_msb) left right result0 false ;;
  let overflow_flag' :=
    if Is_Limited Result_Width then
      if carry_flag || negb (Is_Positive result1) then true else overflow_flag
    else overflow_flag in
  let result := if Is_Unlimited Result_Width then Shrink result1 else result1 in
  if result_is_positive then Ok (result, overflow_flag')
  else c <- Get_Complement result ;; Ok (c, overflow_flag').

Definition operator_mul (lhs rhs : Integer) : outcome Integer :=
  '(result, overflow_flag) <- Mul lhs rhs false ;;
  if (overflow_flag : bool) then OverflowException result else Ok result.

(** ** The divide/modulo kernel *)

(** One pass per numerator bit, [idx = k - 1] running from the most
    significant set bit down to bit 0. *)
Fixpoint Div_Mod_loop (k : nat) (numerator denominator quotient remainder : Integer)
  : outcome (Integer * Integer) :=
  match k with
  | O => Ok (quotient, remainder)
  | S idx =>
      let remainder1 := operator_shl remainder 1 in
      let remainder2 := assign_index remainder1 0 (operator_index numerator idx) in
      difference <- operator_sub remainder2 denominator ;;
      if Is_Positive difference
      then Div_Mod_loop idx numerator denominator (assign_index quotient idx true) difference
      else Div_Mod_loop idx numerator denominator quotient remainder2
  end.

(** [Div_Mod] is a static member of the left operand's class, so its
    [kZero] has the left operand's width. *)
Definition Div_Mod (lhs rhs : Integer) : outcome (Integer * Integer) :=
  rhs_is_zero <- operator_eq rhs (kZero (Width lhs)) ;;
  if (rhs_is_zero : bool) then ArithmeticException "Division By Zero"
  else
    lhs_is_zero <- operator_eq lhs (kZero (Width lhs)) ;;
    let Result_Width := Get_Max (Width lhs) (Width rhs) in
    if (lhs_is_zero : bool)
    then Ok (Integer_copy Result_Width (kZero (Width lhs)),
             Integer_copy Result_Width (kZero (Width lhs)))
    else
      let Result_Actual_Width := Nat.max (Get_Actual_Width lhs) (Get_Actual_Width rhs) in
      let result_is_positive := negb (xorb (Is_Positive lhs) (Is_Positive rhs)) in
      lpos <- Get_Positive lhs ;;
      numerator <- Get_Normalized_Existing Result_Width lpos Result_Actual_Width ;;
      rpos <- Get_Positive rhs ;;
      denominator <- Get_Normalized_Existing Result_Width rpos Result_Actual_Width ;;
      quotient0 <- Get_Normalized_New Result_Width Result_Actual_Width ;;
      remainder0 <- Get_Normalized_New Result_Width Result_Actual_Width ;;
      let numerator_msb := Get_Msb_Idx numerator in
      '(quotient, remainder) <-
        Div_Mod_loop (S numerator_msb) numerator denominator quotient0 remainder0 ;;
      if result_is_positive then Ok (quotient, remainder)
      else c <- Get_Complement quotient ;; Ok (c, remainder).

Definition operator_div (lhs rhs : Integer) : outcome Integer :=
  p <- Div_Mod lhs rhs ;; Ok (fst p).

Definition operator_mod (lhs rhs : Integer) : outcome Integer :=
  p <- Div_Mod lhs rhs ;; Ok (snd p).

(** ** Factorial *)

(** The loop [for (multiplier = kTwo; multiplier != *this; ++multiplier)];
    [fuel] bounds the number of passes. *)
Fixpoint Factorial_loop (fuel : nat) (this multiplier result : Integer)
  (overflow_flag : bool) : outcome (Integer * bool) :=
  continue <- operator_ne multiplier this ;;
  if (continue : bool) then
    match fuel with
    | O => OutOfFuel
    | S fuel' =>
        '(result', overflow_flag') <- Mul result multiplier overflow_flag ;;
        multiplier' <- operator_add multiplier (kOne (Width multiplier)) ;;
        Factorial_loop fuel' this multiplier' result' overflow_flag'
    end
  else Ok (result, overflow_flag).

Definition Factorial (fuel : nat) (x : Integer) : outcome Integer :=
  if negb (Is_Positive x) then ArithmeticException "Factorial Of Negative Number"
  else
    is_zero <- operator_eq x (kZero (Width x)) ;;
    is_one <- (if (is_zero : bool) then Ok true else operator_eq x (kOne (Width x))) ;;
    if (is_one : bool) then Ok (kOne (Width x))
    else
      '(result, overflow_flag) <- Factorial_loop fuel x (kTwo (Width x)) x false ;;
      if (overflow_flag : bool) then OverflowException result else Ok result.

(** ** Serialization *)

(** The low word of [mod] as a decimal digit character. *)
Definition digit_char (mod_ : Integer) : ascii :=
  let bitset :=
    fold_left
      (fun b i => if operator_index mod_ i then Z.setbit b (Z.of_nat i) else b)
      (seq 0 kWord_Bits_Cnt) 0 in
  ascii_of_nat (Z.to_nat ((bitset + 48) mod 256)).

(** [for (; copy != kZero; copy /= kTen)]: the stack is a list whose head is
    its top. *)
Fixpoint Serialize_loop (fuel : nat) (W : t_Width) (copy : Integer) (stack : list ascii)
  : outcome (list ascii) :=
  continue <- operator_ne copy (kZero W) ;;
  if (continue : bool) then
    match fuel with
    | O => OutOfFuel
    | S fuel' =>
        mod_ <- operator_mod copy (kTen W) ;;
        copy' <- operator_div copy (kTen W) ;;
        Serialize_loop fuel' W copy' (digit_char mod_ :: stack)
    end
  else Ok stack.

Definition Serialize (fuel : nat) (x : Integer) : outcome string :=
  '(copy, is_positive) <-
    (if negb (Is_Positive x)
     then c <- Get_Complement x ;; Ok (c, false)
     else Ok (x, true)) ;;
  is_zero <- operator_eq x (kZero (Width x)) ;;
  if (is_zero : bool) then Ok "0"%string
  else
    stack <- Serialize_loop fuel (Width x) copy [] ;;
    Ok (if (is_positive : bool)
        then string_of_list_ascii stack
        else String "-" (string_of_list_ascii stack)).

(** The character [c - '0'] stored into a [std::bitset<8>]. *)
Definition char_bits (c : ascii) : Z := (Z.of_nat (nat_of_ascii c) - 48) mod 256.

(** The body of the [for] over the characters of [str]; the state is
    [(result, is_positive, overflow_flag)]. *)
Fixpoint Deserialize_loop (W : t_Width) (i : nat) (str : list ascii)
  (result : Integer) (is_positive overflow_flag : bool)
  : outcome (Integer * bool * bool) :=
  match str with
  | [] => Ok (result, is_positive, overflow_flag)
  | c :: rest =>
      if Nat.eqb i 0 && Ascii.eqb c "+"%char then
        Deserialize_loop W (S i) rest result is_positive overflow_flag
      else if Nat.eqb i 0 && Ascii.eqb c "-"%char then
        Deserialize_loop W (S i) rest result false overflow_flag
      else
        '(result1, overflow1) <-
          (if Nat.eqb i 0 then Ok (result, overflow_flag)
           else Mul result (kTen W) overflow_flag) ;;
        '(result2, overflow2, _) <-
          Add result1 (Integer_of_bitset W kWord_Bits_Cnt (char_bits c)) overflow1 false ;;
        Deserialize_loop W (S i) rest result2 is_positive overflow2
  end.

Definition Deserialize (W : t_Width) (str : string) : outcome Integer :=
  '(result, is_positive, overflow_flag) <-
    Deserialize_loop W 0 (list_ascii_of_string str) (Integer_new W) true false ;;
  if (overflow_flag : bool) then OverflowException result
  else if (is_positive : bool) then Ok result
  else Get_Complement result.

(** [Integer(const std::string &)]. *)
Definition Integer_of_string (W : t_Width) (str : string) : outcome Integer :=
  Deserialize W str.

(** ** Operators that rebind the receiver *)

(** A member function that may assign to [*this]: from the receiver before
    the call to the receiver after it, with how the call ended. *)
Definition member (A : Type) : Type := Integer -> Integer * outcome A.

Definition member_eval {A : Type} (f : Integer -> outcome A) : member A :=
  fun this => (this, f this).

(** [*this = v]. *)
Definition member_assign (v : Integer) : member unit :=
  fun _ => (v, Ok tt).

Definition member_bind {A B : Type} (m : member A) (k : A -> member B) : member B :=
  fun this =>
    match m this with
    | (this', Ok a) => k a this'
    | (this', ArithmeticException msg) => (this', ArithmeticException msg)
    | (this', OverflowException r) => (this', OverflowException r)
    | (this', OutOfBounds) => (this', OutOfBounds)
    | (this', OutOfFuel) => (this', OutOfFuel)
    end.

(** [*this = lhs op rhs] where [lhs] is the receiver: the right-hand side is
    evaluated first. *)
Definition assign_result (op : Integer -> outcome Integer) : member unit :=
  member_bind (member_eval op) member_assign.

Definition operator_add_assign (rhs : Integer) : member unit :=
  assign_result (fun this => operator_add this rhs).
Definition operator_sub_assign (rhs : Integer) : member unit :=
  assign_result (fun this => operator_sub this rhs).
Definition operator_mul_assign (rhs : Integer) : member unit :=
  assign_result (fun this => operator_mul this rhs).
Definition operator_div_assign (rhs : Integer) : member unit :=
  assign_result (fun this => operator_div this rhs).
Definition operator_mod_assign (rhs : Integer) : member unit :=
  assign_result (fun this => operator_mod this rhs).
Definition operator_inc : member unit :=
  assign_result (fun this => operator_add this (kOne (Width this))).
Definition operator_dec : member unit :=
  assign_result (fun this => operator_sub this (kOne (Width this))).

(** ** The terminal ([MPTerm.hpp]) *)

Definition kBank_Size : nat := 5.

(** [kWhitespaces]: space, tab, line feed, carriage return. *)
Definition kWhitespaces : list ascii := [" "; "009"; "010"; "013"]%char.

Definition is_whitespace (c : ascii) : bool := existsb (Ascii.eqb c) kWhitespaces.

(** [std::string::find_first_not_of(kWhitespaces)], counting from [pos];
    [None] is [npos]. *)
Fixpoint find_first_not_of (str : list ascii) (pos : nat) : option nat :=
  match str with
  | [] => None
  | c :: rest => if is_whitespace c then find_first_not_of rest (S pos) else Some pos
  end.

(** [std::string::find_last_not_of(kWhitespaces)]. *)
Fixpoint find_last_not_of (str : list ascii) (pos : nat) : option nat :=
  match str with
  | [] => None
  | c :: rest =>
      match find_last_not_of rest (S pos) with
      | Some k => Some k
      | None => if is_whitespace c then None else Some pos
      end
  end.

(** [std::string::substr(pos, len)] for [pos] within the string. *)
Definition substr (str : list ascii) (pos len : nat) : list ascii :=
  firstn len (skipn pos str).

(** [Strip_Whitespaces].  When [begin] is found, [find_last_not_of] finds a
    position too; the model keeps the rest of the string in the other
    case. *)
Definition Strip_Whitespaces (str : string) : string :=
  let chars := list_ascii_of_string str in
  match find_first_not_of chars 0 with
  | None => EmptyString
  | Some begin =>
      match find_last_not_of chars 0 with
      | Some end_ => string_of_list_ascii (substr chars begin (end_ - begin + 1))
      | None => string_of_list_ascii (skipn begin chars)
      end
  end.

(** How a call of the terminal on its number type ends: in whatever the
    number's own operation ends in, or in [std::out_of_range]. *)
Inductive term_outcome (A : Type) : Type :=
| Returned (o : outcome A)
| Out_Of_Range (what : string).

Arguments Returned {A} o.
Arguments Out_Of_Range {A} what.

(** [sym[1] - '0'] converted to [size_t]: the character is promoted to
    [int] ([char] taken as signed, [size_t] as 64 bits; an unsigned [char]
    gives 80 to 207 for the same characters, above every bank size as
    well). *)
Definition placeholder_index (c : ascii) : Z :=
  let v := Z.of_nat (nat_of_ascii c) in
  ((if v <? 128 then v else v - 256) - 48) mod 2 ^ 64.

(** [Save_Result]: the newest result goes to the front, the oldest is
    dropped once the bank is full. *)
Definition Save_Result {Number : Type} (bank : list Number) (number : Number)
  : list Number :=
  number :: (if Nat.leb kBank_Size (length bank) then removelast bank else bank).

(** [Get_Number]: a placeholder [$k] reads the bank, anything else goes to
    the number's constructor from a string.  [sym[1]] of the one-character
    string is the terminating zero; [$0] indexes the deque at
    [size_t(-1)]. *)
Definition Get_Number {Number : Type} (Number_of_string : string -> outcome Number)
  (bank : list Number) (sym : string) : term_outcome Number :=
  match sym with
  | String "$" rest =>
      let c := match rest with String c _ => c | EmptyString => zero end in
      let num := placeholder_index c in
      if Z.of_nat (length bank) <? num then Out_Of_Range "Out Of Bank Range"
      else if num =? 0 then Returned OutOfBounds
      else match nth_error bank (Z.to_nat (num - 1)) with
           | Some number => Returned (Ok number)
           | None => Returned OutOfBounds
           end
  | _ => Returned (Number_of_string sym)
  end.

(** * Specification vocabulary

    What the word vector of a value means, and the notions the properties
    below are stated with. *)

(** ** Values *)

Definition word_ok (w : Z) : Prop := 0 <= w < 256.

(** The unsigned reading of a word list, least significant word first. *)
Fixpoint uval_words (ws : list Z) : Z :=
  match ws with
  | [] => 0
  | w :: t => w + 256 * uval_words t
  end.

Definition uval (x : Integer) : Z := uval_words (_bits x).

(** Number of bits held by the word vector. *)
Definition nbits (x : Integer) : Z := 8 * Z.of_nat (length (_bits x)).

Definition words_ok (x : Integer) : Prop := Forall word_ok (_bits x).

(** The data-model invariant: [Width] words for a limited width, at least
    [kWidth_Min] words otherwise, every word an 8-bit pattern. *)
Definition wf (x : Integer) : Prop :=
  words_ok x /\
  (kWidth_Min <= length (_bits x))%nat /\
  match Width x with
  | Fixed n => length (_bits x) = n
  | kUnlimited => True
  end.

(** Two's-complement reading of the whole word vector. *)
Definition sval (x : Integer) : Z :=
  if Z.ltb (uval x) (2 ^ (nbits x - 1)) then uval x else uval x - 2 ^ nbits x.

(** What a result tag asks of a word count. *)
Definition fits_width (W : t_Width) (aw : nat) : Prop :=
  (kWidth_Min <= aw)%nat /\
  match W with Fixed n => aw = n | kUnlimited => True end.

(** The [static_assert] of [Assert_Minimal_Width]. *)
Definition admissible (W : t_Width) : Prop :=
  match W with Fixed n => (kWidth_Min <= n)%nat | kUnlimited => True end.

(** Whether [s] is representable in [n] bits, two's complement. *)
Definition in_range (n : Z) (s : Z) : bool :=
  (- 2 ^ (n - 1) <=? s) && (s <? 2 ^ (n - 1)).

(** The word count of a freshly constructed value of a width. *)
Definition min_words (W : t_Width) : nat :=
  match W with Fixed n => n | kUnlimited => kWidth_Min end.

(** The most negative value of a limited width: only the sign bit set. *)
Definition most_negative (n : nat) : Integer :=
  mkInteger (Fixed n) (repeat 0 (n - 1) ++ [128]).

(** ** Outcomes *)

(** The call did not return a value. *)
Definition failed {A : Type} (o : outcome A) : bool :=
  match o with Ok _ => false | _ => true end.

(** The call raised an exception of class [ArithmeticException]: thrown as
    such, or as the derived class [OverflowException]. *)
Definition is_ArithmeticException {A : Type} (o : outcome A) : bool :=
  match o with
  | ArithmeticException _ | OverflowException _ => true
  | _ => false
  end.

(** The call did not end in a statement [throw ArithmeticException{msg}]
    of the base class.  It may still have raised the derived class: the
    overflow error is an [ArithmeticException] too. *)
Definition no_base_throw {A : Type} (o : outcome A) : Prop :=
  match o with ArithmeticException _ => False | _ => True end.

(** ** Factorial and decimal notation *)

Definition Zfact (n : Z) : Z := Z.of_nat (fact (Z.to_nat n)).

(** The character of a digit value. *)
Definition digit_ascii (d : Z) : ascii := ascii_of_nat (Z.to_nat ((d + 48) mod 256)).

(** Digits of [u], most significant first, pushed in front of [acc]. *)
Fixpoint decimal_digits (fuel : nat) (u : Z) (acc : list Z) : list Z :=
  if Z.eqb u 0 then acc
  else match fuel with
       | O => acc
       | S fuel' => decimal_digits fuel' (u / 10) (u mod 10 :: acc)
       end.

(** Value of a digit list read from the left, starting from [a]. *)
Definition horner (a : Z) (ds : list Z) : Z := fold_left (fun a d => 10 * a + d) ds a.

Definition is_digit (d : Z) : Prop := 0 <= d <= 9.

(** The string [Serialize] produces for the number [v]. *)
Definition decimal_string (fuel : nat) (v : Z) : string :=
  if Z.eqb v 0 then "0"%string
  else
    let digits := string_of_list_ascii (map digit_ascii (decimal_digits fuel (Z.abs v) [])) in
    if Z.leb 0 v then digits else String "-" digits.

(** ** Sample values *)

(** 12345, the most negative and the largest value, and 5, all of width 4;
    and 2^31 in five words of unlimited width. *)
Definition x12345 : Integer := mkInteger (Fixed 4) [57; 48; 0; 0].
Definition x_min4 : Integer := mkInteger (Fixed 4) [0; 0; 0; 128].
Definition x_max4 : Integer := mkInteger (Fixed 4) [255; 255; 255; 127].
Definition x5 : Integer := mkInteger (Fixed 4) [5; 0; 0; 0].
Definition u_2p31 : Integer := mkInteger kUnlimited [0; 0; 0; 128; 0].

(** ** Proof automation *)

(** Abstract every power of two, so that linear arithmetic sees atoms. *)
Ltac hide_pows :=
  repeat match goal with
    | |- context [2 ^ ?e] =>
        let P := fresh "P" in set (P := 2 ^ e) in *; clearbody P
    | H : context [2 ^ ?e] |- _ =>
        let P := fresh "P" in set (P := 2 ^ e) in *; clearbody P
    end.

(** Well-formedness of a literal value. *)
Ltac wf_concrete :=
  unfold wf, words_ok, word_ok, kWidth_Min; cbn [_bits Width length];
  repeat split; try lia; repeat constructor; lia.

(** * Properties *)

(** ** Bits of a [Z] as arithmetic *)

Lemma pow2_pos (n : Z) : 0 <= n -> 0 < 2 ^ n.
Proof. intros. apply Z.pow_pos_nonneg; lia. Qed.

Lemma pow2_succ (n : Z) : 0 <= n -> 2 ^ (n + 1) = 2 * 2 ^ n.
Proof. intros. rewrite Z.pow_add_r by lia. rewrite Z.pow_1_r. lia. Qed.

Lemma setbit_clear_arith (a n : Z) :
  0 <= n -> Z.testbit a n = false -> Z.setbit a n = a + 2 ^ n.
Proof.
  intros Hn Hb. rewrite Z.setbit_spec'.
  rewrite <- (Z.add_lor_land a (2 ^ n)).
  assert (Z.land a (2 ^ n) = 0) as ->; [|lia].
  apply Z.bits_inj'. intros m Hm.
  rewrite Z.land_spec, Z.bits_0, Z.pow2_bits_eqb by lia.
  destruct (Z.eqb_spec n m); subst; rewrite ?Hb, ?andb_false_r; reflexivity.
Qed.

Lemma setbit_set_arith (a n : Z) :
  0 <= n -> Z.testbit a n = true -> Z.setbit a n = a.
Proof.
  intros Hn Hb. apply Z.bits_inj'. intros m Hm.
  rewrite Z.setbit_eqb by lia.
  destruct (Z.eqb_spec n m); subst; rewrite ?Hb; reflexivity.
Qed.

Lemma clearbit_clear_arith (a n : Z) :
  Z.testbit a n = false -> Z.clearbit a n = a.
Proof.
  intros Hb. apply Z.bits_inj'. intros m Hm.
  rewrite Z.clearbit_eqb.
  destruct (Z.eqb_spec n m); subst; rewrite ?Hb, ?andb_true_r; reflexivity.
Qed.

Lemma clearbit_set_arith (a n : Z) :
  0 <= n -> Z.testbit a n = true -> Z.clearbit a n = a - 2 ^ n.
Proof.
  intros Hn Hb.
  assert (Z.setbit (Z.clearbit a n) n = a) as E.
  { apply Z.bits_inj'. intros m Hm.
    rewrite Z.setbit_eqb, Z.clearbit_eqb by lia.
    destruct (Z.eqb_spec n m); subst; rewrite ?Hb, ?andb_true_r; reflexivity. }
  rewrite setbit_clear_arith in E by (auto using Z.clearbit_eq). lia.
Qed.

Lemma assign_arith (a n : Z) (b : bool) :
  0 <= n ->
  (if b then Z.setbit a n else Z.clearbit a n)
  = a + (Z.b2z b - Z.b2z (Z.testbit a n)) * 2 ^ n.
Proof.
  intros Hn. destruct b, (Z.testbit a n) eqn:E; cbn [Z.b2z].
  - rewrite setbit_set_arith by auto. lia.
  - rewrite setbit_clear_arith by auto. lia.
  - rewrite clearbit_set_arith by auto. lia.
  - rewrite clearbit_clear_arith by auto. lia.
Qed.

Lemma assign_testbit (a n m : Z) (b : bool) :
  0 <= n ->
  Z.testbit (if b then Z.setbit a n else Z.clearbit a n) m
  = if Z.eqb n m then b else Z.testbit a m.
Proof.
  intros Hn. destruct b.
  - rewrite Z.setbit_eqb by lia. destruct (Z.eqb n m); reflexivity.
  - rewrite Z.clearbit_eqb. destruct (Z.eqb n m); cbn; rewrite ?andb_false_r, ?andb_true_r; reflexivity.
Qed.

Lemma mod_pow2_succ (a i : Z) :
  0 <= i -> a mod 2 ^ (i + 1) = a mod 2 ^ i + Z.b2z (Z.testbit a i) * 2 ^ i.
Proof.
  intros Hi. rewrite Z.testbit_spec' by lia.
  rewrite Z.pow_add_r, Z.pow_1_r by lia.
  rewrite Z.rem_mul_r by (pose proof (pow2_pos i Hi); lia). lia.
Qed.

Lemma testbit_bound_false (a n : Z) : 0 <= a < 2 ^ n -> 0 <= n -> Z.testbit a n = false.
Proof.
  intros Ha Hn. rewrite Z.testbit_eqb by lia. rewrite Z.div_small by lia. reflexivity.
Qed.

Lemma testbit_high_false (a n m : Z) : 0 <= a < 2 ^ n -> 0 <= n <= m -> Z.testbit a m = false.
Proof.
  intros Ha Hn. apply testbit_bound_false; [|lia].
  split; [lia|]. apply Z.lt_le_trans with (2 ^ n); [lia|].
  apply Z.pow_le_mono_r; lia.
Qed.

(** The top bit of an [n+1]-bit number says in which half it lies. *)
Lemma testbit_top (a n : Z) :
  0 <= n -> 0 <= a < 2 ^ (n + 1) -> Z.testbit a n = (2 ^ n <=? a).
Proof.
  intros Hn Ha. rewrite pow2_succ in Ha by lia.
  pose proof (pow2_pos n Hn).
  rewrite Z.testbit_eqb by lia.
  destruct (Z.leb_spec (2 ^ n) a).
  - assert (a / 2 ^ n = 1) as ->; [|reflexivity].
    symmetry. apply Z.div_unique with (a - 2 ^ n); lia.
  - rewrite Z.div_small by lia. reflexivity.
Qed.

(** ** Word vectors as numbers *)

Lemma pow256 (n : nat) : 256 ^ Z.of_nat n = 2 ^ (8 * Z.of_nat n).
Proof. rewrite Z.pow_mul_r by lia. reflexivity. Qed.

Lemma uval_words_range (ws : list Z) :
  Forall word_ok ws -> 0 <= uval_words ws < 2 ^ (8 * Z.of_nat (length ws)).
Proof.
  induction 1 as [|w t Hw Ht IH]; cbn [uval_words length].
  - cbn. lia.
  - replace (8 * Z.of_nat (S (length t))) with (8 + 8 * Z.of_nat (length t)) by lia.
    rewrite Z.pow_add_r by lia. change (2 ^ 8) with 256. unfold word_ok in Hw.
    set (P := 2 ^ _) in *. clearbody P. lia.
Qed.

Lemma uval_words_app (a b : list Z) :
  uval_words (a ++ b) = uval_words a + 2 ^ (8 * Z.of_nat (length a)) * uval_words b.
Proof.
  induction a as [|w t IH]; cbn [uval_words app].
  - change (Z.of_nat (length (@nil Z))) with 0. change (2 ^ (8 * 0)) with 1. lia.
  - rewrite IH.
    cbn [length]. replace (8 * Z.of_nat (S (length t))) with (8 + 8 * Z.of_nat (length t)) by lia.
    rewrite Z.pow_add_r by lia. change (2 ^ 8) with 256. ring.
Qed.

Lemma uval_words_repeat0 (n : nat) : uval_words (repeat 0 n) = 0.
Proof. induction n; cbn [repeat uval_words]; lia. Qed.

Lemma Forall_repeat0 (n : nat) : Forall word_ok (repeat 0 n).
Proof. induction n; cbn; constructor; auto. unfold word_ok; lia. Qed.

Lemma uval_words_repeat255 (n : nat) :
  uval_words (repeat 255 n) = 2 ^ (8 * Z.of_nat n) - 1.
Proof.
  induction n; cbn [repeat uval_words].
  - reflexivity.
  - rewrite IHn.
    replace (8 * Z.of_nat (S n)) with (8 + 8 * Z.of_nat n) by lia.
    rewrite Z.pow_add_r by lia. change (2 ^ 8) with 256. lia.
Qed.

Lemma nat_div_mod_8 (i : nat) :
  Z.of_nat (i / 8) = Z.of_nat i / 8 /\ Z.of_nat (i mod 8) = Z.of_nat i mod 8.
Proof.
  split; [apply (Nat2Z.inj_div i 8) | apply (Nat2Z.inj_mod i 8)].
Qed.

Lemma testbit_uval_words (ws : list Z) (i : nat) :
  Forall word_ok ws ->
  Z.testbit (uval_words ws) (Z.of_nat i)
  = bitset_test (nth (i / 8) ws 0) (i mod 8).
Proof.
  intros H. revert i. induction H as [|w t Hw Ht IH]; intros i.
  - cbn [uval_words]. unfold bitset_test. destruct (i / 8)%nat; cbn [nth]; now rewrite !Z.bits_0.
  - cbn [uval_words]. unfold bitset_test.
    destruct (Nat.ltb_spec i 8) as [Hlt|Hge].
    + rewrite Nat.div_small, Nat.mod_small by lia. cbn [nth].
      rewrite <- (Z.mod_pow2_bits_low (w + 256 * uval_words t) 8) by lia.
      change (2 ^ 8) with 256.
      replace (w + 256 * uval_words t) with (w + uval_words t * 256) by lia.
      rewrite Z.mod_add by lia.
      rewrite Z.mod_small by (unfold word_ok in Hw; lia). reflexivity.
    + replace i with ((i - 8) + 1 * 8)%nat at 2 3 by lia.
      rewrite Nat.div_add, Nat.Div0.mod_add by lia.
      replace (((i - 8) / 8 + 1))%nat with (S ((i - 8) / 8)) by lia. cbn [nth].
      specialize (IH (i - 8)%nat). unfold bitset_test in IH. rewrite <- IH.
      replace (Z.of_nat i) with (Z.of_nat (i - 8) + 8) by lia.
      rewrite <- Z.div_pow2_bits by lia. change (2 ^ 8) with 256.
      f_equal. symmetry. apply Z.div_unique with w; unfold word_ok in Hw; lia.
Qed.

Lemma vec_set_length (v : list Z) (k : nat) (w : Z) : length (vec_set v k w) = length v.
Proof. revert k; induction v; intros [|k]; cbn; auto. Qed.

Lemma vec_set_Forall (v : list Z) (k : nat) (w : Z) :
  Forall word_ok v -> word_ok w -> Forall word_ok (vec_set v k w).
Proof.
  intros H Hw. revert k. induction H; intros [|k]; cbn; auto.
Qed.

Lemma uval_words_vec_set (v : list Z) (k : nat) (w : Z) :
  (k < length v)%nat ->
  uval_words (vec_set v k w)
  = uval_words v + (w - nth k v 0) * 2 ^ (8 * Z.of_nat k).
Proof.
  revert k. induction v as [|h t IH]; intros k Hk; cbn [length] in Hk; [lia|].
  destruct k as [|k]; cbn [vec_set uval_words nth].
  - cbn. lia.
  - rewrite IH by lia.
    replace (8 * Z.of_nat (S k)) with (8 + 8 * Z.of_nat k) by lia.
    rewrite Z.pow_add_r by lia. change (2 ^ 8) with 256. ring.
Qed.

Lemma nth_word_ok (v : list Z) (k : nat) : Forall word_ok v -> word_ok (nth k v 0).
Proof.
  intros H. revert k. induction H; intros [|k]; cbn; auto; unfold word_ok; lia.
Qed.

Lemma bitset_assign_ok (w : Z) (j : nat) (b : bool) :
  word_ok w -> (j < 8)%nat -> word_ok (bitset_assign w j b).
Proof.
  intros Hw Hj. unfold bitset_assign.
  assert (forall m, 8 <= m -> Z.testbit (if b then Z.setbit w (Z.of_nat j) else Z.clearbit w (Z.of_nat j)) m = false) as Hhi.
  { intros m Hm. rewrite assign_testbit by lia.
    destruct (Z.eqb_spec (Z.of_nat j) m); [lia|].
    apply testbit_high_false with 8; [exact Hw | lia]. }
  set (r := if b then _ else _) in *.
  assert (0 <= r) as Hr0.
  { subst r. destruct b.
    - rewrite Z.setbit_spec'. apply Z.lor_nonneg. split; [apply Hw|]. apply Z.pow_nonneg; lia.
    - rewrite Z.clearbit_spec'. apply Z.ldiff_nonneg. left. apply Hw. }
  split; [exact Hr0|].
  destruct (Z.eq_dec r 0) as [->|Hnz]; [lia|].
  change 256 with (2 ^ 8). apply Z.log2_lt_pow2; [lia|].
  destruct (Z.lt_ge_cases (Z.log2 r) 8) as [|Hge]; [assumption|].
  specialize (Hhi (Z.log2 r) Hge). rewrite Z.bit_log2 in Hhi by lia. discriminate.
Qed.

(** ** Bit access on integers *)

Lemma operator_index_testbit (x : Integer) (i : nat) :
  words_ok x -> operator_index x i = Z.testbit (uval x) (Z.of_nat i).
Proof.
  intros H. unfold operator_index, uval, kWord_Bits_Cnt.
  now rewrite testbit_uval_words.
Qed.

Lemma assign_index_Width (x : Integer) (i : nat) (b : bool) :
  Width (assign_index x i b) = Width x.
Proof. reflexivity. Qed.

Lemma assign_index_length (x : Integer) (i : nat) (b : bool) :
  length (_bits (assign_index x i b)) = length (_bits x).
Proof. apply vec_set_length. Qed.

Lemma assign_index_ok (x : Integer) (i : nat) (b : bool) :
  words_ok x -> words_ok (assign_index x i b).
Proof.
  intros H. unfold words_ok, assign_index; cbn [_bits].
  apply vec_set_Forall; [exact H|].
  apply bitset_assign_ok; [now apply nth_word_ok|].
  unfold kWord_Bits_Cnt. apply Nat.mod_upper_bound. lia.
Qed.

Lemma uval_assign_index (x : Integer) (i : nat) (b : bool) :
  words_ok x -> (i < 8 * length (_bits x))%nat ->
  uval (assign_index x i b)
  = if b then Z.setbit (uval x) (Z.of_nat i) else Z.clearbit (uval x) (Z.of_nat i).
Proof.
  intros H Hi. rewrite assign_arith by lia.
  unfold uval, assign_index, kWord_Bits_Cnt; cbn [_bits].
  assert (i / 8 < length (_bits x))%nat as Hk by (apply Nat.Div0.div_lt_upper_bound; lia).
  rewrite uval_words_vec_set by exact Hk.
  unfold bitset_assign. rewrite assign_arith by lia.
  rewrite (testbit_uval_words _ i H). unfold bitset_test.
  set (w := nth (i / 8) (_bits x) 0).
  set (d := Z.b2z b - Z.b2z (Z.testbit w (Z.of_nat (i mod 8)))).
  replace (w + d * 2 ^ Z.of_nat (i mod 8) - w) with (d * 2 ^ Z.of_nat (i mod 8)) by lia.
  rewrite <- Z.mul_assoc, <- Z.pow_add_r by lia.
  do 3 f_equal. pose proof (Nat.div_mod_eq i 8). lia.
Qed.

Lemma testbit_assign_index (x : Integer) (i : nat) (b : bool) (m : Z) :
  words_ok x -> (i < 8 * length (_bits x))%nat ->
  Z.testbit (uval (assign_index x i b)) m
  = if Z.eqb (Z.of_nat i) m then b else Z.testbit (uval x) m.
Proof.
  intros H Hi. rewrite uval_assign_index by assumption. apply assign_testbit. lia.
Qed.

Lemma uval_range (x : Integer) : words_ok x -> 0 <= uval x < 2 ^ nbits x.
Proof. apply uval_words_range. Qed.

Lemma nbits_nonneg (x : Integer) : 0 <= nbits x.
Proof. unfold nbits. lia. Qed.

(** ** Well-formed values and their meaning *)

Lemma wf_words_ok (x : Integer) : wf x -> words_ok x.
Proof. now intros [H _]. Qed.

Lemma wf_Get_Actual_Width (x : Integer) : wf x -> Get_Actual_Width x = length (_bits x).
Proof.
  intros (_ & _ & H). unfold Get_Actual_Width. destruct (Width x); auto.
Qed.

Lemma wf_nbits (x : Integer) : wf x -> 32 <= nbits x.
Proof. intros (_ & H & _). unfold nbits, kWidth_Min in *. lia. Qed.

Lemma wf_Get_Actual_Bits_Cnt (x : Integer) :
  wf x -> Z.of_nat (Get_Actual_Bits_Cnt x) = nbits x.
Proof.
  intros H. unfold Get_Actual_Bits_Cnt, nbits, kWord_Bits_Cnt.
  rewrite wf_Get_Actual_Width by assumption. lia.
Qed.

(** The sign test reads the top bit of the vector. *)
Lemma Is_Positive_testbit (x : Integer) :
  words_ok x -> (0 < Get_Actual_Width x)%nat ->
  Is_Positive x = negb (Z.testbit (uval x) (8 * Z.of_nat (Get_Actual_Width x) - 1)).
Proof.
  intros H Hpos. unfold Is_Positive, kWord_Bits_Cnt.
  replace (8 * Z.of_nat (Get_Actual_Width x) - 1)
    with (Z.of_nat (8 * (Get_Actual_Width x - 1) + 7)) by lia.
  unfold uval. rewrite testbit_uval_words by assumption.
  replace ((8 * (Get_Actual_Width x - 1) + 7) / 8)%nat with (Get_Actual_Width x - 1)%nat.
  2:{ apply Nat.div_unique with 7%nat; lia. }
  replace ((8 * (Get_Actual_Width x - 1) + 7) mod 8)%nat with 7%nat.
  2:{ apply Nat.mod_unique with (Get_Actual_Width x - 1)%nat; lia. }
  reflexivity.
Qed.

Lemma Is_Positive_uval (x : Integer) :
  wf x -> Is_Positive x = Z.ltb (uval x) (2 ^ (nbits x - 1)).
Proof.
  intros H. pose proof (wf_nbits x H) as Hn.
  pose proof (uval_range x (wf_words_ok x H)) as Hr.
  rewrite Is_Positive_testbit; [|now apply wf_words_ok|].
  2:{ rewrite wf_Get_Actual_Width by assumption. destruct H as (_ & H & _). unfold kWidth_Min in H. lia. }
  rewrite wf_Get_Actual_Width by assumption. fold (nbits x).
  rewrite testbit_top; [| lia | now replace (nbits x - 1 + 1) with (nbits x) by lia].
  destruct (Z.leb_spec (2 ^ (nbits x - 1)) (uval x)), (Z.ltb_spec (uval x) (2 ^ (nbits x - 1)));
    try reflexivity; lia.
Qed.

Lemma sval_Is_Positive (x : Integer) :
  wf x -> sval x = if Is_Positive x then uval x else uval x - 2 ^ nbits x.
Proof. intros H. unfold sval. now rewrite Is_Positive_uval. Qed.

Lemma pow2_half (n : Z) : 1 <= n -> 2 ^ n = 2 * 2 ^ (n - 1).
Proof. intros. rewrite <- pow2_succ by lia. f_equal. lia. Qed.

Lemma sval_range (x : Integer) :
  wf x -> - 2 ^ (nbits x - 1) <= sval x < 2 ^ (nbits x - 1).
Proof.
  intros H. pose proof (wf_nbits x H) as Hn.
  pose proof (uval_range x (wf_words_ok x H)) as Hr.
  unfold sval. rewrite (pow2_half (nbits x)) in * by lia.
  destruct (Z.ltb_spec (uval x) (2 ^ (nbits x - 1))); lia.
Qed.

Lemma Is_Positive_sval (x : Integer) : wf x -> Is_Positive x = Z.leb 0 (sval x).
Proof.
  intros H. pose proof (wf_nbits x H) as Hn.
  pose proof (uval_range x (wf_words_ok x H)) as Hr.
  rewrite Is_Positive_uval by assumption. unfold sval.
  rewrite (pow2_half (nbits x)) in * by lia.
  destruct (Z.ltb_spec (uval x) (2 ^ (nbits x - 1))), (Z.leb_spec 0 (uval x));
    try destruct (Z.leb_spec 0 (uval x - 2 * 2 ^ (nbits x - 1))); try reflexivity; lia.
Qed.

Lemma uval_sval_mod (x : Integer) : wf x -> uval x = sval x mod 2 ^ nbits x.
Proof.
  intros H. pose proof (uval_range x (wf_words_ok x H)) as Hr.
  unfold sval. destruct (Z.ltb (uval x) (2 ^ (nbits x - 1))).
  - now rewrite Z.mod_small.
  - replace (uval x - 2 ^ nbits x) with (uval x + (-1) * 2 ^ nbits x) by lia.
    rewrite Z.mod_add by lia. now rewrite Z.mod_small.
Qed.

(** A value is determined by its tag, its length and its number. *)
Lemma uval_words_inj (a b : list Z) :
  Forall word_ok a -> Forall word_ok b -> length a = length b ->
  uval_words a = uval_words b -> a = b.
Proof.
  intros Ha. revert b. induction Ha as [|w t Hw Ht IH]; intros b Hb Hlen E.
  - destruct b; [reflexivity | discriminate].
  - destruct Hb as [|w' t' Hw' Ht']; [discriminate|].
    cbn [uval_words length] in *. unfold word_ok in *.
    assert (w = w') by lia. subst w'.
    f_equal. apply IH; auto; lia.
Qed.

Lemma Integer_ext (x y : Integer) :
  words_ok x -> words_ok y -> Width x = Width y ->
  length (_bits x) = length (_bits y) -> uval x = uval y -> x = y.
Proof.
  destruct x as [wx bx], y as [wy by_]; cbn. intros Hx Hy -> Hl E.
  f_equal. now apply uval_words_inj.
Qed.

Lemma pow2_le (a b : Z) : 0 <= a <= b -> 2 ^ a <= 2 ^ b.
Proof. intros. apply Z.pow_le_mono_r; lia. Qed.

Lemma pow2_lt (a b : Z) : 0 <= a < b -> 2 ^ a < 2 ^ b.
Proof. intros. apply Z.pow_lt_mono_r; lia. Qed.

(** ** Normalization *)

Lemma sval_of_parts (x : Integer) (u n : Z) :
  uval x = u -> nbits x = n ->
  sval x = if Z.ltb u (2 ^ (n - 1)) then u else u - 2 ^ n.
Proof. intros <- <-. reflexivity. Qed.

Lemma bitset_flip_repeat0 (n : nat) : map bitset_flip (repeat 0 n) = repeat 255 n.
Proof. induction n; cbn [repeat map]; [reflexivity|]. now rewrite IHn. Qed.

Lemma Forall_repeat255 (n : nat) : Forall word_ok (repeat 255 n).
Proof. induction n; cbn; constructor; auto. unfold word_ok; lia. Qed.

Lemma Get_Normalized_spec (W' : t_Width) (x : Integer) (aw : nat) :
  wf x -> (length (_bits x) <= aw)%nat ->
  exists y, Get_Normalized W' x aw = Ok y /\
            Width y = W' /\ length (_bits y) = aw /\ words_ok y /\
            sval y = sval x.
Proof.
  intros Hwf Hle. pose proof (wf_words_ok x Hwf) as Hok.
  pose proof (uval_range x Hok) as Hr. pose proof (wf_nbits x Hwf) as Hn.
  unfold Get_Normalized. rewrite wf_Get_Actual_Width by assumption.
  destruct (Nat.eqb_spec (length (_bits x)) aw) as [E|NE].
  - eexists; split; [reflexivity|]. unfold Integer_copy. repeat split; auto.
  - destruct (Nat.ltb_spec aw (length (_bits x))) as [Hlt|_]; [lia|].
    assert (length (_bits x) < aw)%nat as Hlt by lia.
    assert (length (_bits x ++ repeat 0 (aw - length (_bits x))) = aw) as Hlen.
    { rewrite length_app, repeat_length. lia. }
    assert (2 ^ nbits x <= 2 ^ (8 * Z.of_nat aw - 1)) as Hpw.
    { apply pow2_le. unfold nbits. lia. }
    rewrite Is_Positive_uval by assumption.
    destruct (Z.ltb_spec (uval x) (2 ^ (nbits x - 1))) as [Hpos|Hneg].
    + eexists; split; [reflexivity|]. cbn [Width _bits]. repeat split; auto.
      * unfold words_ok; cbn [_bits]. apply Forall_app. split; [exact Hok | apply Forall_repeat0].
      * erewrite sval_of_parts.
        2:{ unfold uval; cbn [_bits]. rewrite uval_words_app, uval_words_repeat0. rewrite Z.mul_0_r, Z.add_0_r. reflexivity. }
        2:{ unfold nbits; cbn [_bits]. rewrite Hlen. reflexivity. }
        unfold sval. fold (uval x).
        destruct (Z.ltb_spec (uval x) (2 ^ (nbits x - 1))); [|lia].
        destruct (Z.ltb_spec (uval x) (2 ^ (8 * Z.of_nat aw - 1))); [reflexivity|lia].
    + destruct (Nat.ltb_spec aw (length (_bits x))) as [Hlt'|_]; [lia|].
      rewrite firstn_app, skipn_app, firstn_all, skipn_all, Nat.sub_diag.
      cbn [firstn skipn app]. rewrite app_nil_r, bitset_flip_repeat0.
      eexists; split; [reflexivity|]. cbn [Width _bits].
      assert (length (_bits x ++ repeat 255 (aw - length (_bits x))) = aw) as Hlen'.
      { rewrite length_app, repeat_length. lia. }
      repeat split; auto.
      * unfold words_ok; cbn [_bits]. apply Forall_app. split; [exact Hok | apply Forall_repeat255].
      * erewrite sval_of_parts.
        2:{ unfold uval; cbn [_bits]. rewrite uval_words_app, uval_words_repeat255. reflexivity. }
        2:{ unfold nbits; cbn [_bits]. rewrite Hlen'. reflexivity. }
        fold (uval x). fold (nbits x).
        assert (2 ^ nbits x * 2 ^ (8 * Z.of_nat (aw - length (_bits x))) = 2 ^ (8 * Z.of_nat aw)) as Hsplit.
        { rewrite <- Z.pow_add_r by (unfold nbits; lia). f_equal. unfold nbits. lia. }
        unfold sval.
        destruct (Z.ltb_spec (uval x) (2 ^ (nbits x - 1))); [lia|].
        rewrite (pow2_half (8 * Z.of_nat aw)) in * by lia.
        rewrite (pow2_half (nbits x)) in * by lia.
        destruct (Z.ltb_spec (uval x + 2 * 2 ^ (nbits x - 1) * (2 ^ (8 * Z.of_nat (aw - length (_bits x))) - 1))
                    (2 ^ (8 * Z.of_nat aw - 1))); hide_pows; nia.
Qed.

Lemma Get_Normalized_wf (W' : t_Width) (x y : Integer) (aw : nat) :
  Get_Normalized W' x aw = Ok y ->
  Width y = W' -> length (_bits y) = aw -> words_ok y -> fits_width W' aw -> wf y.
Proof.
  intros _ HW Hl Hok [Hmin Hfit]. repeat split; auto; [lia|].
  rewrite HW. destruct W'; auto. lia.
Qed.

(** ** The ripple-carry loop *)

Lemma full_adder (l r c : bool) :
  Z.b2z (xorb (xorb l r) c) + 2 * Z.b2z (orb (andb l r) (andb (xorb l r) c))
  = Z.b2z l + Z.b2z r + Z.b2z c.
Proof. destruct l, r, c; reflexivity. Qed.

Lemma Add_loop_spec (k : nat) :
  forall (i : nat) (left right result : Integer) (carry : bool),
    words_ok left -> words_ok right -> words_ok result ->
    (i + k <= 8 * length (_bits result))%nat ->
    0 <= uval result < 2 ^ Z.of_nat i ->
    uval result + Z.b2z carry * 2 ^ Z.of_nat i
    = uval left mod 2 ^ Z.of_nat i + uval right mod 2 ^ Z.of_nat i ->
    exists result' carry',
      Add_loop k i left right result carry = (result', carry') /\
      words_ok result' /\ Width result' = Width result /\
      length (_bits result') = length (_bits result) /\
      0 <= uval result' < 2 ^ Z.of_nat (i + k) /\
      uval result' + Z.b2z carry' * 2 ^ Z.of_nat (i + k)
      = uval left mod 2 ^ Z.of_nat (i + k) + uval right mod 2 ^ Z.of_nat (i + k).
Proof.
  induction k as [|k IH]; intros i left right result carry Hl Hr Hres Hlen Hrange Hinv.
  - cbn [Add_loop]. rewrite Nat.add_0_r. eauto 10.
  - cbn [Add_loop].
    set (l := operator_index left i). set (r := operator_index right i).
    set (s := xorb (xorb l r) carry).
    set (c' := orb (andb l r) (andb (xorb l r) carry)).
    assert (uval (assign_index result i s) = uval result + Z.b2z s * 2 ^ Z.of_nat i) as Hu.
    { rewrite uval_assign_index by (auto; lia). rewrite assign_arith by lia.
      rewrite (testbit_bound_false (uval result) (Z.of_nat i)) by (auto; lia).
      cbn [Z.b2z]. lia. }
    assert (0 < 2 ^ Z.of_nat i) as Hp by (apply pow2_pos; lia).
    assert (2 ^ Z.of_nat (S i) = 2 * 2 ^ Z.of_nat i) as Hs.
    { rewrite Nat2Z.inj_succ, <- Z.add_1_r. apply pow2_succ. lia. }
    destruct (IH (S i) left right (assign_index result i s) c') as (res' & cf & E & H1 & H2 & H3 & H4 & H5).
    + assumption.
    + assumption.
    + now apply assign_index_ok.
    + rewrite assign_index_length. lia.
    + rewrite Hu, Hs. destruct s; cbn [Z.b2z]; lia.
    + rewrite Hu.
      replace (Z.of_nat (S i)) with (Z.of_nat i + 1) by lia.
      rewrite !mod_pow2_succ by lia.
      rewrite <- !operator_index_testbit by assumption. fold l r.
      pose proof (full_adder l r carry) as FA. fold s c' in FA.
      rewrite pow2_succ by lia.
      set (P := 2 ^ Z.of_nat i) in *. clearbody P. nia.
    + exists res', cf. rewrite assign_index_Width, assign_index_length in *.
      replace (i + S k)%nat with (S i + k)%nat by lia. auto 10.
Qed.

Lemma fits_Get_Max (lhs rhs : Integer) :
  wf lhs -> wf rhs ->
  fits_width (Get_Max (Width lhs) (Width rhs))
    (Nat.max (length (_bits lhs)) (length (_bits rhs))).
Proof.
  intros (_ & H1 & H2) (_ & H3 & H4). split; [lia|].
  destruct (Width lhs), (Width rhs); cbn; auto; lia.
Qed.

Lemma wf_admissible (x : Integer) : wf x -> admissible (Width x).
Proof. intros (_ & H1 & H2). unfold admissible. destruct (Width x); auto. lia. Qed.

Lemma Integer_new_facts (W : t_Width) :
  admissible W ->
  wf (Integer_new W) /\ uval (Integer_new W) = 0 /\ Width (Integer_new W) = W /\
  length (_bits (Integer_new W)) = match W with Fixed n => n | kUnlimited => kWidth_Min end.
Proof.
  intros H. unfold Integer_new, wf, words_ok, uval; cbn [_bits Width].
  rewrite repeat_length, uval_words_repeat0.
  repeat split; auto using Forall_repeat0; destruct W; cbn in *; auto.
Qed.

Lemma mod_neg_shift (s M : Z) : - M <= s < 0 -> s mod M = s + M.
Proof. intros. symmetry. apply Z.mod_unique with (-1); lia. Qed.

Lemma sval_unique (x : Integer) (s : Z) :
  words_ok x -> 1 <= nbits x ->
  uval x = s mod 2 ^ nbits x ->
  - 2 ^ (nbits x - 1) <= s < 2 ^ (nbits x - 1) ->
  sval x = s.
Proof.
  intros Hok Hn Hu Hs. unfold sval. rewrite Hu.
  rewrite (pow2_half (nbits x)) in * by lia.
  assert (0 < 2 ^ (nbits x - 1)) by (apply pow2_pos; lia).
  destruct (Z.leb_spec 0 s).
  - rewrite Z.mod_small by lia.
    destruct (Z.ltb_spec s (2 ^ (nbits x - 1))); lia.
  - rewrite (mod_neg_shift s (2 * 2 ^ (nbits x - 1))) by lia.
    destruct (Z.ltb_spec (s + 2 * 2 ^ (nbits x - 1)) (2 ^ (nbits x - 1))); lia.
Qed.

Lemma sval_zero_uval (x : Integer) : wf x -> sval x = 0 -> uval x = 0.
Proof.
  intros H E. rewrite (uval_sval_mod x H), E. apply Z.mod_0_l.
  pose proof (pow2_pos (nbits x) (nbits_nonneg x)). lia.
Qed.

Lemma vec_push_back_0 (x : Integer) :
  words_ok x ->
  words_ok (vec_push_back x 0) /\ uval (vec_push_back x 0) = uval x /\
  length (_bits (vec_push_back x 0)) = S (length (_bits x)) /\
  Width (vec_push_back x 0) = Width x.
Proof.
  intros H. unfold vec_push_back, words_ok, uval; cbn [_bits Width].
  rewrite length_app, uval_words_app. cbn [length uval_words].
  repeat split; try lia.
  apply Forall_app; split; auto. constructor; auto. unfold word_ok; lia.
Qed.

Lemma vec_push_back_255 (x : Integer) :
  words_ok x ->
  words_ok (vec_push_back x 255) /\
  uval (vec_push_back x 255) = uval x + 255 * 2 ^ nbits x /\
  length (_bits (vec_push_back x 255)) = S (length (_bits x)) /\
  Width (vec_push_back x 255) = Width x.
Proof.
  intros H. unfold vec_push_back, words_ok, uval, nbits; cbn [_bits Width].
  rewrite length_app, uval_words_app. cbn [length uval_words].
  repeat split; try lia.
  apply Forall_app; split; auto. constructor; auto. unfold word_ok; lia.
Qed.

Lemma Add_spec (lhs rhs : Integer) (overflow_flag carry_flag : bool) :
  wf lhs -> wf rhs ->
  let W := Get_Max (Width lhs) (Width rhs) in
  let A := Nat.max (length (_bits lhs)) (length (_bits rhs)) in
  let M := 2 ^ (8 * Z.of_nat A) in
  let s := sval lhs + sval rhs in
  exists result overflow_flag' carry_flag',
    Add lhs rhs overflow_flag carry_flag = Ok (result, overflow_flag', carry_flag') /\
    wf result /\ Width result = W /\
    carry_flag' = carry_flag || (M <=? sval lhs mod M + sval rhs mod M) /\
    if Is_Unlimited W
    then sval result = s /\ overflow_flag' = overflow_flag /\
         length (_bits result) = (if in_range (8 * Z.of_nat A) s then A else S A)
    else length (_bits result) = A /\ uval result = s mod M /\
         overflow_flag' = overflow_flag || negb (in_range (8 * Z.of_nat A) s).
Proof.
  intros Hl Hr W A M s.
  pose proof (fits_Get_Max lhs rhs Hl Hr) as Hfit. fold W A in Hfit.
  assert (4 <= A)%nat as HA4 by apply Hfit.
  destruct (Get_Normalized_spec W lhs A Hl) as (l' & El & HWl & Hlenl & Hokl & Hsl); [lia|].
  destruct (Get_Normalized_spec W rhs A Hr) as (r' & Er & HWr & Hlenr & Hokr & Hsr); [lia|].
  pose proof (Get_Normalized_wf _ _ _ _ El HWl Hlenl Hokl Hfit) as Hwfl.
  pose proof (Get_Normalized_wf _ _ _ _ Er HWr Hlenr Hokr Hfit) as Hwfr.
  assert (admissible W) as Hadm.
  { destruct Hfit as [F1 F2]. unfold admissible. destruct W; auto. lia. }
  destruct (Integer_new_facts W Hadm) as (Hwf0 & Hu0 & HW0 & Hlen0).
  assert (exists result0,
             (if Is_Unlimited W then Get_Normalized_Existing W (Integer_new W) A
              else Ok (Integer_new W)) = Ok result0 /\
             words_ok result0 /\ Width result0 = W /\ length (_bits result0) = A /\
             uval result0 = 0) as (res0 & E0 & Hok0 & HWr0 & Hlenr0 & Hur0).
  { destruct W as [n|] eqn:EW; cbn [Is_Unlimited].
    - exists (Integer_new (Fixed n)). destruct Hfit as [_ ->].
      repeat split; auto. now apply wf_words_ok.
    - destruct (Get_Normalized_spec kUnlimited (Integer_new kUnlimited) A Hwf0)
        as (y & Ey & Hy1 & Hy2 & Hy3 & Hy4).
      { rewrite Hlen0. apply Hfit. }
      exists y. unfold Get_Normalized_Existing. repeat split; auto.
      apply sval_zero_uval.
      + eapply Get_Normalized_wf; eauto.
      + rewrite Hy4. unfold sval. rewrite Hu0.
        destruct (Z.ltb_spec 0 (2 ^ (nbits (Integer_new kUnlimited) - 1))); [reflexivity|].
        pose proof (pow2_pos (nbits (Integer_new kUnlimited) - 1)).
        pose proof (wf_nbits _ Hwf0). lia. }
  assert (nbits l' = 8 * Z.of_nat A) as Hnl by (unfold nbits; now rewrite Hlenl).
  assert (nbits r' = 8 * Z.of_nat A) as Hnr by (unfold nbits; now rewrite Hlenr).
  pose proof (uval_range l' Hokl) as Hrl. pose proof (uval_range r' Hokr) as Hrr.
  rewrite Hnl in Hrl. rewrite Hnr in Hrr. fold M in Hrl, Hrr.
  destruct (Add_loop_spec (Get_Actual_Bits_Cnt l') 0 l' r' res0 false)
    as (res1 & c & Eloop & Hok1 & HW1 & Hlen1 & Hr1 & Hsum); auto.
  { unfold Get_Actual_Bits_Cnt, kWord_Bits_Cnt. rewrite wf_Get_Actual_Width by assumption. lia. }
  { rewrite Hur0. cbn. lia. }
  { rewrite Hur0. cbn. rewrite !Z.mod_1_r. reflexivity. }
  assert (Z.of_nat (0 + Get_Actual_Bits_Cnt l') = 8 * Z.of_nat A) as Hbits.
  { unfold Get_Actual_Bits_Cnt, kWord_Bits_Cnt. rewrite wf_Get_Actual_Width by assumption. lia. }
  rewrite Hbits in Hr1, Hsum. fold M in Hr1, Hsum.
  rewrite (Z.mod_small (uval l')), (Z.mod_small (uval r')) in Hsum by assumption.
  assert (uval l' = sval lhs mod M) as Hul.
  { rewrite (uval_sval_mod l' Hwfl), Hnl, Hsl. reflexivity. }
  assert (uval r' = sval rhs mod M) as Hur.
  { rewrite (uval_sval_mod r' Hwfr), Hnr, Hsr. reflexivity. }
  assert (wf res1) as Hwf1.
  { repeat split; auto.
    - rewrite Hlen1, Hlenr0. apply Hfit.
    - rewrite HW1, HWr0, Hlen1, Hlenr0. destruct Hfit as [_ F]. destruct W; auto. }
  assert (nbits res1 = 8 * Z.of_nat A) as Hn1 by (unfold nbits; now rewrite Hlen1, Hlenr0).
  assert (c = (M <=? sval lhs mod M + sval rhs mod M)) as Hc.
  { rewrite <- Hul, <- Hur, <- Hsum.
    destruct c; cbn [Z.b2z]; destruct (Z.leb_spec M (uval res1 + 0 * M));
      try destruct (Z.leb_spec M (uval res1 + 1 * M)); try reflexivity; lia. }
  assert (uval res1 = s mod M) as Hu1.
  { unfold s. rewrite Z.add_mod by lia. rewrite <- Hul, <- Hur, <- Hsum.
    destruct c; cbn [Z.b2z].
    - rewrite Z.mod_add by lia. now rewrite Z.mod_small.
    - rewrite Z.mul_0_l, Z.add_0_r. now rewrite Z.mod_small. }
  pose proof (sval_range lhs Hl) as Hsrl. pose proof (sval_range rhs Hr) as Hsrr.
  assert (8 * Z.of_nat A - 1 >= nbits lhs - 1 /\ 8 * Z.of_nat A - 1 >= nbits rhs - 1) as [HA1 HA2]
    by (unfold nbits; lia).
  assert (2 ^ (nbits lhs - 1) <= 2 ^ (8 * Z.of_nat A - 1)) as Hpl
    by (apply pow2_le; pose proof (wf_nbits lhs Hl); lia).
  assert (2 ^ (nbits rhs - 1) <= 2 ^ (8 * Z.of_nat A - 1)) as Hpr
    by (apply pow2_le; pose proof (wf_nbits rhs Hr); lia).
  assert (M = 2 * 2 ^ (8 * Z.of_nat A - 1)) as HM.
  { unfold M. apply pow2_half. destruct Hfit as [F _]. unfold kWidth_Min in F. lia. }
  assert (0 < 2 ^ (8 * Z.of_nat A - 1)) as HM0.
  { apply pow2_pos. destruct Hfit as [F _]. unfold kWidth_Min in F. lia. }
  set (H := 2 ^ (8 * Z.of_nat A - 1)) in *.
  assert (Is_Positive l' = (0 <=? sval lhs)) as Hpl' by (rewrite Is_Positive_sval, Hsl by assumption; reflexivity).
  assert (Is_Positive r' = (0 <=? sval rhs)) as Hpr' by (rewrite Is_Positive_sval, Hsr by assumption; reflexivity).
  assert (Is_Positive res1 = (uval res1 <? H)) as Hp1.
  { rewrite Is_Positive_uval by assumption. rewrite Hn1. reflexivity. }
  unfold Add, Get_Normalized_Existing in *.
  rewrite (wf_Get_Actual_Width lhs), (wf_Get_Actual_Width rhs) by assumption.
  fold W A. rewrite El. cbn [bind]. rewrite Er. cbn [bind].
  rewrite E0. cbn [bind]. rewrite Eloop.
  unfold Is_Limited.
  destruct (Is_Unlimited W) eqn:EU; cbn [negb].
  - (* unlimited: the vector grows when the sign came out wrong *)
    rewrite Hpl', Hpr', Hp1.
    assert (carry_flag || c = (if c then true else carry_flag)) as Hcf
      by (destruct carry_flag, c; reflexivity).
    rewrite <- Hc.
    destruct (Z.leb_spec 0 (sval lhs)) as [Hl0|Hl0];
      destruct (Z.leb_spec 0 (sval rhs)) as [Hr0|Hr0];
      destruct (Z.ltb_spec (uval res1) H) as [Hp|Hp]; cbn [andb negb orb].
    all: eexists _, _, _; split; [reflexivity|].
    all: assert (Hlenres : length (_bits res1) = A) by (now rewrite Hlen1).
    all: unfold in_range; fold H; unfold s in *.
    all: pose proof Hu1 as Hu1'.
    all: try (rewrite Z.mod_small in Hu1' by lia).
    all: try (rewrite mod_neg_shift in Hu1' by lia).
    all: destruct (Z.leb_spec (- H) (sval lhs + sval rhs)) as [Hlo|Hlo];
      destruct (Z.ltb_spec (sval lhs + sval rhs) H) as [Hhi|Hhi]; cbn [andb]; try lia.
    all: try (split; [exact Hwf1|]; split; [now rewrite HW1|];
              split; [now rewrite Hcf |];
              split; [|split; [reflexivity | exact Hlenres]];
              apply sval_unique; [auto | rewrite Hn1; lia | rewrite Hn1; exact Hu1 | rewrite Hn1; fold H; lia]).
    + (* both non-negative, sum reaches the sign bit *)
      destruct (vec_push_back_0 res1 Hok1) as (P1 & P2 & P3 & P4).
      split; [|split; [now rewrite P4, HW1 | split; [now rewrite Hcf|]]].
      { repeat split; auto; [rewrite P3; destruct Hwf1 as (_ & ? & _); lia |].
        rewrite P4, HW1, HWr0. destruct W; [discriminate | exact I]. }
      split; [|split; [reflexivity | rewrite P3, Hlenres; reflexivity]].
      apply sval_unique; auto.
      * unfold nbits. rewrite P3. lia.
      * rewrite P2, Hu1. unfold nbits. rewrite P3, Hlen1, Hlenr0.
        replace (8 * Z.of_nat (S A)) with (8 + 8 * Z.of_nat A) by lia.
        rewrite Z.pow_add_r by lia. fold M. change (2 ^ 8) with 256.
        rewrite !Z.mod_small by lia. reflexivity.
      * unfold nbits. rewrite P3, Hlen1, Hlenr0.
        replace (8 * Z.of_nat (S A) - 1) with (7 + 8 * Z.of_nat A) by lia.
        rewrite Z.pow_add_r by lia. fold M. change (2 ^ 7) with 128.
        lia.
    + (* both negative, sum lost the sign bit *)
      destruct (vec_push_back_255 res1 Hok1) as (P1 & P2 & P3 & P4).
      split; [|split; [now rewrite P4, HW1 | split; [now rewrite Hcf|]]].
      { repeat split; auto; [rewrite P3; destruct Hwf1 as (_ & ? & _); lia |].
        rewrite P4, HW1, HWr0. destruct W; [discriminate | exact I]. }
      split; [|split; [reflexivity | rewrite P3, Hlenres; reflexivity]].
      apply sval_unique; auto.
      * unfold nbits. rewrite P3. lia.
      * rewrite P2, Hu1, Hn1. fold M. unfold nbits. rewrite P3, Hlen1, Hlenr0.
        replace (8 * Z.of_nat (S A)) with (8 + 8 * Z.of_nat A) by lia.
        rewrite Z.pow_add_r by lia. fold M. change (2 ^ 8) with 256.
        rewrite !mod_neg_shift by lia. lia.
      * unfold nbits. rewrite P3, Hlen1, Hlenr0.
        replace (8 * Z.of_nat (S A) - 1) with (7 + 8 * Z.of_nat A) by lia.
        rewrite Z.pow_add_r by lia. fold M. change (2 ^ 7) with 128.
        lia.
  - (* limited: the truncated sum, with the sign rule for the flag *)
    rewrite Hpl', Hpr', Hp1.
    eexists _, _, _; split; [reflexivity|].
    split; [exact Hwf1|]. split; [now rewrite HW1|].
    split; [rewrite <- Hc; destruct carry_flag, c; reflexivity|].
    split; [now rewrite Hlen1|]. split; [exact Hu1|].
    unfold in_range. fold H. unfold s in *.
    destruct (Z.leb_spec 0 (sval lhs)) as [Hl0|Hl0];
      destruct (Z.leb_spec 0 (sval rhs)) as [Hr0|Hr0];
      destruct (Z.ltb_spec (uval res1) H) as [Hp|Hp]; cbn [andb negb orb];
      try (rewrite Z.mod_small in Hu1 by lia);
      try (rewrite mod_neg_shift in Hu1 by lia);
      destruct (Z.leb_spec (- H) (sval lhs + sval rhs));
      destruct (Z.ltb_spec (sval lhs + sval rhs) H); cbn [andb negb];
      rewrite ?orb_true_r, ?orb_false_r; try reflexivity; try lia.
Qed.

(** ** Constants *)

Lemma Integer_new_nbits (W : t_Width) :
  admissible W -> 32 <= nbits (Integer_new W).
Proof. intros H. apply wf_nbits. now apply Integer_new_facts. Qed.

Lemma assign_index_wf (x : Integer) (i : nat) (b : bool) :
  wf x -> wf (assign_index x i b).
Proof.
  intros (H1 & H2 & H3). repeat split.
  - now apply assign_index_ok.
  - now rewrite assign_index_length.
  - rewrite assign_index_Width, assign_index_length. exact H3.
Qed.

Lemma kZero_facts (W : t_Width) :
  admissible W -> wf (kZero W) /\ Width (kZero W) = W /\ uval (kZero W) = 0 /\ sval (kZero W) = 0.
Proof.
  intros H. destruct (Integer_new_facts W H) as (H1 & H2 & H3 & H4).
  unfold kZero. split; [exact H1|]. split; [exact H3|]. split; [exact H2|].
  unfold sval. rewrite H2.
  pose proof (pow2_pos (nbits (Integer_new W) - 1)). pose proof (wf_nbits _ H1).
  destruct (Z.ltb_spec 0 (2 ^ (nbits (Integer_new W) - 1))); lia.
Qed.

Lemma sval_small (x : Integer) (v : Z) :
  wf x -> uval x = v -> 0 <= v < 2 ^ 31 -> sval x = v.
Proof.
  intros H E Hv. unfold sval. rewrite E.
  pose proof (wf_nbits x H).
  assert (2 ^ 31 <= 2 ^ (nbits x - 1)) by (apply pow2_le; lia).
  destruct (Z.ltb_spec v (2 ^ (nbits x - 1))); lia.
Qed.

Lemma small_const_facts (W : t_Width) (x : Integer) (v : Z) :
  wf x -> Width x = W -> uval x = v -> 0 <= v < 2 ^ 31 ->
  wf x /\ Width x = W /\ uval x = v /\ sval x = v.
Proof. intros. split; [|split; [|split]]; auto. now apply sval_small. Qed.

Lemma kOne_facts (W : t_Width) :
  admissible W -> wf (kOne W) /\ Width (kOne W) = W /\ uval (kOne W) = 1 /\ sval (kOne W) = 1.
Proof.
  intros H. destruct (Integer_new_facts W H) as (H1 & H2 & H3 & H4).
  pose proof (wf_nbits _ H1) as Hn. unfold nbits in Hn.
  apply small_const_facts; [now apply assign_index_wf | exact H3 | | cbn; lia].
  unfold kOne. rewrite uval_assign_index by (try apply H1; lia). now rewrite H2.
Qed.

Lemma kTwo_facts (W : t_Width) :
  admissible W -> wf (kTwo W) /\ Width (kTwo W) = W /\ uval (kTwo W) = 2 /\ sval (kTwo W) = 2.
Proof.
  intros H. destruct (Integer_new_facts W H) as (H1 & H2 & H3 & H4).
  pose proof (wf_nbits _ H1) as Hn. unfold nbits in Hn.
  apply small_const_facts; [now apply assign_index_wf | exact H3 | | cbn; lia].
  unfold kTwo. rewrite uval_assign_index by (try apply H1; lia). now rewrite H2.
Qed.

Lemma kTen_facts (W : t_Width) :
  admissible W -> wf (kTen W) /\ Width (kTen W) = W /\ uval (kTen W) = 10 /\ sval (kTen W) = 10.
Proof.
  intros H. destruct (Integer_new_facts W H) as (H1 & H2 & H3 & H4).
  pose proof (wf_nbits _ H1) as Hn. unfold nbits in Hn.
  apply small_const_facts; [now do 2 apply assign_index_wf | exact H3 | | cbn; lia].
  unfold kTen.
  rewrite uval_assign_index; [| apply assign_index_ok, H1 | rewrite assign_index_length; lia].
  rewrite uval_assign_index by (try apply H1; lia). now rewrite H2.
Qed.

(** ** Signed addition *)

Lemma operator_add_spec (lhs rhs : Integer) :
  wf lhs -> wf rhs ->
  let W := Get_Max (Width lhs) (Width rhs) in
  let A := Nat.max (length (_bits lhs)) (length (_bits rhs)) in
  let s := sval lhs + sval rhs in
  exists result,
    wf result /\ Width result = W /\
    if Is_Unlimited W
    then operator_add lhs rhs = Ok result /\ sval result = s /\
         length (_bits result) = (if in_range (8 * Z.of_nat A) s then A else S A)
    else length (_bits result) = A /\ uval result = s mod 2 ^ (8 * Z.of_nat A) /\
         if in_range (8 * Z.of_nat A) s
         then operator_add lhs rhs = Ok result /\ sval result = s
         else operator_add lhs rhs = OverflowException result.
Proof.
  intros Hl Hr W A s.
  destruct (Add_spec lhs rhs false false Hl Hr) as (res & o & c & E & Hwf & HW & Hc & Hrest).
  fold W A s in Hrest. exists res. split; [exact Hwf|]. split; [exact HW|].
  unfold operator_add. rewrite E. cbn [bind].
  destruct (Is_Unlimited W).
  - destruct Hrest as (H1 & -> & H3). auto.
  - destruct Hrest as (H1 & H2 & ->). cbn [orb].
    split; [exact H1|]. split; [exact H2|].
    destruct (in_range (8 * Z.of_nat A) s) eqn:Er; cbn [negb]; [|reflexivity].
    split; [reflexivity|].
    assert (nbits res = 8 * Z.of_nat A) as Hn by (unfold nbits; now rewrite H1).
    unfold in_range in Er. apply andb_prop in Er. destruct Er as [E1 E2].
    apply Z.leb_le in E1. apply Z.ltb_lt in E2.
    apply sval_unique; [now apply wf_words_ok | | now rewrite Hn | rewrite Hn; lia].
    pose proof (wf_nbits res Hwf). lia.
Qed.

(** ** Bitsets *)

Lemma gather_bits (f : nat -> bool) (u : Z) (n : nat) :
  (forall i, (i < n)%nat -> f i = Z.testbit u (Z.of_nat i)) ->
  fold_left (fun b idx => if f idx then Z.setbit b (Z.of_nat idx) else b) (seq 0 n) 0
  = u mod 2 ^ Z.of_nat n.
Proof.
  induction n as [|n IH]; intros Hf.
  - cbn. now rewrite Z.mod_1_r.
  - rewrite seq_S, fold_left_app. cbn [fold_left Nat.add].
    rewrite IH by (intros; apply Hf; lia).
    rewrite Nat2Z.inj_succ, <- Z.add_1_r, mod_pow2_succ by lia.
    rewrite Hf by lia.
    destruct (Z.testbit u (Z.of_nat n)); cbn [Z.b2z]; [|lia].
    rewrite setbit_clear_arith; [lia | lia |].
    apply Z.mod_pow2_bits_high. lia.
Qed.

Lemma Get_Bitset_spec (x : Integer) :
  words_ok x -> Get_Bitset x = uval x mod 2 ^ Z.of_nat (kBits_Cnt (Width x)).
Proof.
  intros H. unfold Get_Bitset. apply gather_bits.
  intros. now apply operator_index_testbit.
Qed.

Lemma kBits_Cnt_wf (x : Integer) :
  wf x -> Is_Unlimited (Width x) = false -> Z.of_nat (kBits_Cnt (Width x)) = nbits x.
Proof.
  intros (_ & _ & H) E. unfold kBits_Cnt, nbits, kWord_Bits_Cnt.
  destruct (Width x); [subst; lia | discriminate].
Qed.

Lemma Get_Bitset_wf (x : Integer) :
  wf x -> Is_Unlimited (Width x) = false -> Get_Bitset x = uval x.
Proof.
  intros H E. rewrite Get_Bitset_spec by now apply wf_words_ok.
  rewrite kBits_Cnt_wf by assumption.
  apply Z.mod_small, uval_range. now apply wf_words_ok.
Qed.

Lemma scatter_bits (b : Z) (n : nat) :
  forall r0 : Integer,
    words_ok r0 -> uval r0 = 0 -> (n <= 8 * length (_bits r0))%nat ->
    let r := fold_left
               (fun r idx => if Z.testbit b (Z.of_nat idx) then assign_index r idx true else r)
               (seq 0 n) r0 in
    words_ok r /\ Width r = Width r0 /\ length (_bits r) = length (_bits r0) /\
    uval r = b mod 2 ^ Z.of_nat n.
Proof.
  induction n as [|n IH]; intros r0 Hok Hu Hn.
  - cbn. rewrite Z.mod_1_r. auto.
  - rewrite seq_S, fold_left_app. cbn [fold_left Nat.add].
    destruct (IH r0 Hok Hu) as (H1 & H2 & H3 & H4); [lia|].
    set (r := fold_left _ (seq 0 n) r0) in *.
    rewrite Nat2Z.inj_succ, <- Z.add_1_r, mod_pow2_succ by lia.
    destruct (Z.testbit b (Z.of_nat n)); cbn [Z.b2z].
    + rewrite assign_index_Width, assign_index_length.
      split; [now apply assign_index_ok|]. split; [exact H2|]. split; [exact H3|].
      rewrite uval_assign_index by (auto; lia).
      rewrite setbit_clear_arith; [lia | lia |].
      rewrite H4. apply Z.mod_pow2_bits_high. lia.
    + repeat split; auto. lia.
Qed.

Lemma Integer_of_bitset_spec (W : t_Width) (Bits_Cnt : nat) (bitset : Z) :
  admissible W ->
  (Bits_Cnt mod 8 = 0)%nat ->
  (Bits_Cnt <= 8 * length (_bits (Integer_new W)))%nat ->
  0 <= bitset < 2 ^ Z.of_nat Bits_Cnt ->
  let r := Integer_of_bitset W Bits_Cnt bitset in
  wf r /\ Width r = W /\ length (_bits r) = length (_bits (Integer_new W)) /\
  uval r = bitset.
Proof.
  intros Hadm Hmod Hle Hb.
  destruct (Integer_new_facts W Hadm) as (H1 & H2 & H3 & H4).
  unfold Integer_of_bitset, kWord_Bits_Cnt.
  replace (Bits_Cnt / 8 * 8)%nat with Bits_Cnt
    by (pose proof (Nat.div_mod_eq Bits_Cnt 8); lia).
  destruct (scatter_bits bitset Bits_Cnt (Integer_new W)) as (R1 & R2 & R3 & R4); auto.
  { now apply wf_words_ok. }
  cbv zeta. set (r := fold_left _ _ _) in *.
  split; [|split; [congruence | split; [exact R3|]]].
  - destruct H1 as (_ & Hmin & Hw). repeat split; auto; [lia|].
    rewrite R2, R3. exact Hw.
  - rewrite R4. now apply Z.mod_small.
Qed.

(** ** Inverse *)

Lemma lxor_ones (u n : Z) : 0 <= n -> 0 <= u < 2 ^ n -> Z.lxor u (Z.ones n) = 2 ^ n - 1 - u.
Proof.
  intros Hn Hu.
  assert (Z.lxor u (Z.ones n) + u = Z.ones n) as E.
  { rewrite Z.add_nocarry_lxor.
    - rewrite Z.lxor_comm, <- Z.lxor_assoc, Z.lxor_nilpotent. apply Z.lxor_0_l.
    - apply Z.bits_inj'. intros m Hm.
      rewrite Z.land_spec, Z.lxor_spec, Z.bits_0.
      rewrite Z.testbit_ones_nonneg by lia.
      destruct (Z.ltb_spec m n).
      + destruct (Z.testbit u m); reflexivity.
      + rewrite (testbit_high_false u n m) by lia. reflexivity. }
  pose proof (Z.ones_equiv n) as Ho. set (o := Z.ones n) in *. lia.
Qed.

Lemma Get_Inverse_loop_spec (k : nat) :
  forall (i : nat) (this result : Integer),
    words_ok this -> words_ok result ->
    (i + k <= 8 * length (_bits result))%nat ->
    uval result = Z.lxor (uval this) (Z.ones (Z.of_nat i)) ->
    let r := Get_Inverse_loop k i this result in
    words_ok r /\ Width r = Width result /\ length (_bits r) = length (_bits result) /\
    uval r = Z.lxor (uval this) (Z.ones (Z.of_nat (i + k))).
Proof.
  induction k as [|k IH]; intros i this result Ht Hr Hlen Hu.
  - cbn. rewrite Nat.add_0_r. auto.
  - cbn [Get_Inverse_loop].
    destruct (IH (S i) this (assign_index result i (negb (operator_index this i))))
      as (H1 & H2 & H3 & H4); auto.
    + now apply assign_index_ok.
    + rewrite assign_index_length. lia.
    + apply Z.bits_inj'. intros m Hm.
      rewrite testbit_assign_index by (auto; lia).
      rewrite Hu, !Z.lxor_spec, !Z.testbit_ones_nonneg by lia.
      rewrite operator_index_testbit by assumption.
      destruct (Z.eqb_spec (Z.of_nat i) m) as [<-|NE].
      * destruct (Z.ltb_spec (Z.of_nat i) (Z.of_nat (S i))); [|lia].
        now destruct (Z.testbit (uval this) (Z.of_nat i)).
      * destruct (Z.ltb_spec m (Z.of_nat i)), (Z.ltb_spec m (Z.of_nat (S i)));
          try reflexivity; lia.
    + rewrite assign_index_Width, assign_index_length in *.
      replace (i + S k)%nat with (S i + k)%nat by lia. auto.
Qed.

Lemma Get_Inverse_spec (x : Integer) :
  wf x ->
  let r := Get_Inverse x in
  wf r /\ Width r = Width x /\ length (_bits r) = length (_bits x) /\
  uval r = 2 ^ nbits x - 1 - uval x /\ sval r = - sval x - 1.
Proof.
  intros Hwf. pose proof (wf_words_ok x Hwf) as Hok.
  pose proof (uval_range x Hok) as Hr. pose proof (wf_nbits x Hwf) as Hn.
  assert (wf (Get_Inverse x) /\ Width (Get_Inverse x) = Width x /\
          length (_bits (Get_Inverse x)) = length (_bits x) /\
          uval (Get_Inverse x) = 2 ^ nbits x - 1 - uval x) as (H1 & H2 & H3 & H4).
  { unfold Get_Inverse, Is_Limited.
    destruct (Is_Unlimited (Width x)) eqn:EU; cbn [negb].
    - destruct (Get_Inverse_loop_spec (Get_Actual_Bits_Cnt x) 0 x x) as (R1 & R2 & R3 & R4); auto.
      + unfold Get_Actual_Bits_Cnt, kWord_Bits_Cnt. rewrite wf_Get_Actual_Width by assumption. lia.
      + cbn. now rewrite Z.lxor_0_r.
      + split; [|split; [exact R2 | split; [exact R3|]]].
        * destruct Hwf as (_ & Hmin & Hw). repeat split; auto; [lia|].
          rewrite R2, R3. exact Hw.
        * rewrite R4. cbn [Nat.add]. rewrite wf_Get_Actual_Bits_Cnt by assumption.
          apply lxor_ones; lia.
    - assert (length (_bits (Integer_new (Width x))) = length (_bits x)) as Hlen.
      { destruct (Integer_new_facts (Width x) (wf_admissible x Hwf)) as (_ & _ & _ & ->).
        destruct Hwf as (_ & _ & Hw). destruct (Width x); [auto | discriminate]. }
      pose proof (kBits_Cnt_wf x Hwf EU) as Hk.
      destruct (Integer_of_bitset_spec (Width x) (kBits_Cnt (Width x))
                  (Z.lxor (Get_Bitset x) (Z.ones (Z.of_nat (kBits_Cnt (Width x))))))
        as (R1 & R2 & R3 & R4).
      + now apply wf_admissible.
      + unfold kBits_Cnt, kWord_Bits_Cnt. destruct (Width x); [|reflexivity].
        apply Nat.Div0.mod_mul.
      + rewrite Hlen. unfold nbits in Hk. lia.
      + rewrite Get_Bitset_wf, Hk by assumption. rewrite lxor_ones by lia. lia.
      + split; [exact R1|]. split; [exact R2|]. split; [congruence|].
        rewrite R4, Get_Bitset_wf, Hk by assumption. apply lxor_ones; lia. }
  cbv zeta. split; [exact H1|]. split; [exact H2|]. split; [exact H3|]. split; [exact H4|].
  assert (nbits (Get_Inverse x) = nbits x) as Hnb by (unfold nbits; now rewrite H3).
  unfold sval. rewrite H4, Hnb.
  rewrite (pow2_half (nbits x)) in * by lia.
  destruct (Z.ltb_spec (2 * 2 ^ (nbits x - 1) - 1 - uval x) (2 ^ (nbits x - 1))),
    (Z.ltb_spec (uval x) (2 ^ (nbits x - 1))); lia.
Qed.

(** ** Complement *)

Lemma Get_Max_idem (W : t_Width) : Get_Max W W = W.
Proof. destruct W; cbn; [now rewrite Nat.max_id | reflexivity]. Qed.

Lemma Get_Complement_spec (x : Integer) :
  wf x ->
  exists y, Get_Complement x = Ok y /\ wf y /\ Width y = Width x /\
    if Is_Unlimited (Width x)
    then sval y = - sval x /\
         length (_bits y)
         = (if Z.eqb (sval x) (- 2 ^ (nbits x - 1))
            then S (length (_bits x)) else length (_bits x))
    else length (_bits y) = length (_bits x) /\
         uval y = (- sval x) mod 2 ^ nbits x.
Proof.
  intros Hwf.
  destruct (Get_Inverse_spec x Hwf) as (I1 & I2 & I3 & I4 & I5).
  destruct (kOne_facts (Width x) (wf_admissible x Hwf)) as (O1 & O2 & O3 & O4).
  destruct (Add_spec (Get_Inverse x) (kOne (Width x)) false false I1 O1)
    as (res & o & c & E & Hres & HW & _ & Hrest).
  rewrite I2, O2, Get_Max_idem in HW, Hrest.
  assert (Nat.max (length (_bits (Get_Inverse x))) (length (_bits (kOne (Width x))))
          = length (_bits x)) as HA.
  { rewrite I3. apply Nat.max_l.
    destruct O1 as (_ & _ & Hw1). destruct Hwf as (_ & Hmin & Hw). rewrite O2 in Hw1.
    unfold kOne in *. rewrite assign_index_length in *.
    destruct (Width x); [lia|]. cbn. exact Hmin. }
  rewrite HA, I5, O4 in Hrest.
  replace (- sval x - 1 + 1) with (- sval x) in Hrest by lia.
  exists res. unfold Get_Complement. rewrite E. cbn [bind].
  split; [reflexivity|]. split; [exact Hres|]. split; [exact HW|].
  destruct (Is_Unlimited (Width x)).
  - destruct Hrest as (H1 & _ & H3). split; [exact H1|]. rewrite H3.
    pose proof (sval_range x Hwf) as Hr. unfold in_range. fold (nbits x).
    destruct (Z.eqb_spec (sval x) (- 2 ^ (nbits x - 1))),
      (Z.leb_spec (- 2 ^ (nbits x - 1)) (- sval x)),
      (Z.ltb_spec (- sval x) (2 ^ (nbits x - 1))); cbn [andb]; try reflexivity; lia.
  - destruct Hrest as (H1 & H2 & _). auto.
Qed.

(** In a limited width the most negative value is its own complement. *)
Lemma Get_Complement_limited (x : Integer) :
  wf x -> Is_Unlimited (Width x) = false ->
  exists y, Get_Complement x = Ok y /\ wf y /\ Width y = Width x /\
    length (_bits y) = length (_bits x) /\
    sval y = (if Z.eqb (sval x) (- 2 ^ (nbits x - 1)) then sval x else - sval x).
Proof.
  intros Hwf EU. destruct (Get_Complement_spec x Hwf) as (y & E & Hy & HW & Hrest).
  rewrite EU in Hrest. destruct Hrest as (Hlen & Hu).
  exists y. repeat (split; [assumption|]).
  pose proof (sval_range x Hwf) as Hr. pose proof (wf_nbits x Hwf) as Hn.
  assert (nbits y = nbits x) as Hny by (unfold nbits; now rewrite Hlen).
  assert (0 < 2 ^ (nbits x - 1)) as Hp by (apply pow2_pos; lia).
  pose proof (pow2_half (nbits x)) as Hh.
  destruct (Z.eqb_spec (sval x) (- 2 ^ (nbits x - 1))) as [Emin|NE].
  - assert (uval y = 2 ^ (nbits x - 1)) as Hu'.
    { rewrite Hu, Emin, Z.opp_involutive. apply Z.mod_small. lia. }
    apply eq_trans with (- 2 ^ (nbits x - 1)); [|symmetry; exact Emin].
    unfold sval. rewrite Hny, Hu'.
    destruct (Z.ltb_spec (2 ^ (nbits x - 1)) (2 ^ (nbits x - 1))); lia.
  - apply sval_unique; [now apply wf_words_ok | lia | now rewrite Hny | rewrite Hny; lia].
Qed.

(** ** Positive projection *)

Lemma Get_Positive_limited (x : Integer) :
  wf x -> Is_Unlimited (Width x) = false ->
  exists y, Get_Positive x = Ok y /\ wf y /\ Width y = Width x /\
    length (_bits y) = length (_bits x) /\ uval y = Z.abs (sval x).
Proof.
  intros Hwf EU. unfold Get_Positive.
  pose proof (sval_range x Hwf) as Hr. pose proof (wf_nbits x Hwf) as Hn.
  rewrite Is_Positive_sval by assumption.
  destruct (Z.leb_spec 0 (sval x)) as [Hpos|Hneg].
  - exists x. repeat (split; [auto|]).
    rewrite Z.abs_eq by lia.
    rewrite sval_Is_Positive, Is_Positive_sval by assumption.
    destruct (Z.leb_spec 0 (sval x)); [reflexivity | lia].
  - destruct (Get_Complement_spec x Hwf) as (y & E & Hy & HW & Hrest).
    rewrite EU in Hrest. destruct Hrest as (Hlen & Hu).
    exists y. repeat (split; [assumption|]).
    rewrite Hu, Z.abs_neq by lia. apply Z.mod_small.
    assert (0 < 2 ^ (nbits x - 1)) as Hp by (apply pow2_pos; lia).
    rewrite (pow2_half (nbits x)) by lia. lia.
Qed.

Lemma Get_Positive_unlimited (x : Integer) :
  wf x -> Is_Unlimited (Width x) = true ->
  exists y, Get_Positive x = Ok y /\ wf y /\ Width y = Width x /\
    sval y = Z.abs (sval x) /\
    length (_bits y)
    = (if Z.eqb (sval x) (- 2 ^ (nbits x - 1))
       then S (length (_bits x)) else length (_bits x)) /\
    (0 <= sval x -> y = x).
Proof.
  intros Hwf EU. unfold Get_Positive.
  rewrite Is_Positive_sval by assumption.
  destruct (Z.leb_spec 0 (sval x)) as [Hpos|Hneg].
  - exists x. split; [reflexivity|]. split; [exact Hwf|]. split; [reflexivity|].
    split; [now rewrite Z.abs_eq|]. split; [|auto].
    pose proof (pow2_pos (nbits x - 1)). pose proof (wf_nbits x Hwf).
    destruct (Z.eqb_spec (sval x) (- 2 ^ (nbits x - 1))); [lia | reflexivity].
  - destruct (Get_Complement_spec x Hwf) as (y & E & Hy & HW & Hrest).
    rewrite EU in Hrest. destruct Hrest as (Hs & Hlen).
    exists y. repeat (split; [assumption|]).
    split; [rewrite Hs; lia | split; [exact Hlen | lia]].
Qed.

(** ** Equality *)

Lemma forallb_bits (a b : Integer) (n : nat) :
  words_ok a -> words_ok b ->
  nbits a = Z.of_nat n -> nbits b = Z.of_nat n ->
  forallb (fun i => Bool.eqb (operator_index a i) (operator_index b i)) (seq 0 n)
  = Z.eqb (uval a) (uval b).
Proof.
  intros Ha Hb Hna Hnb.
  pose proof (uval_range a Ha) as Hra. pose proof (uval_range b Hb) as Hrb.
  destruct (Z.eqb_spec (uval a) (uval b)) as [E|NE].
  - apply forallb_forall. intros i _.
    rewrite !operator_index_testbit, E by assumption. apply eqb_reflx.
  - destruct (forallb _ _) eqn:F; [|reflexivity].
    exfalso. apply NE. apply Z.bits_inj'. intros m Hm.
    destruct (Z.ltb_spec m (Z.of_nat n)) as [Hlt|Hge].
    + rewrite forallb_forall in F. specialize (F (Z.to_nat m)).
      rewrite !operator_index_testbit, Z2Nat.id in F by (auto; lia).
      apply eqb_prop, F, in_seq. lia.
    + rewrite (testbit_high_false (uval a) (nbits a) m),
        (testbit_high_false (uval b) (nbits b) m) by (auto; lia). reflexivity.
Qed.

Lemma uval_eq_sval_eq (a b : Integer) :
  words_ok a -> words_ok b ->
  nbits a = nbits b -> Z.eqb (uval a) (uval b) = Z.eqb (sval a) (sval b).
Proof.
  intros Ha Hb Hn. pose proof (uval_range a Ha) as Hra. pose proof (uval_range b Hb) as Hrb.
  unfold sval. rewrite Hn in *.
  set (P := 2 ^ nbits b) in *. set (H := 2 ^ (nbits b - 1)) in *. clearbody P H.
  destruct (Z.ltb_spec (uval a) H), (Z.ltb_spec (uval b) H);
    match goal with |- Z.eqb ?p ?q = Z.eqb ?p' ?q' =>
      destruct (Z.eqb_spec p q), (Z.eqb_spec p' q') end;
    try reflexivity; lia.
Qed.

Lemma operator_eq_spec (lhs rhs : Integer) :
  wf lhs -> wf rhs -> operator_eq lhs rhs = Ok (Z.eqb (sval lhs) (sval rhs)).
Proof.
  intros Hl Hr. unfold operator_eq, Get_Normalized_Existing.
  rewrite !Is_Positive_sval by assumption.
  destruct (Z.leb_spec 0 (sval lhs)), (Z.leb_spec 0 (sval rhs)); cbn [xorb];
    try (destruct (Z.eqb_spec (sval lhs) (sval rhs)); [lia | reflexivity]).
  all: rewrite (wf_Get_Actual_Width lhs), (wf_Get_Actual_Width rhs) by assumption.
  all: pose proof (fits_Get_Max lhs rhs Hl Hr) as Hfit.
  all: set (W := Get_Max (Width lhs) (Width rhs)) in *.
  all: set (A := Nat.max (length (_bits lhs)) (length (_bits rhs))) in *.
  all: destruct (Get_Normalized_spec W lhs A Hl) as (l' & El & HWl & Hlenl & Hokl & Hsl); [lia|].
  all: destruct (Get_Normalized_spec W rhs A Hr) as (r' & Er & HWr & Hlenr & Hokr & Hsr); [lia|].
  all: pose proof (Get_Normalized_wf _ _ _ _ El HWl Hlenl Hokl Hfit) as Hwfl.
  all: pose proof (Get_Normalized_wf _ _ _ _ Er HWr Hlenr Hokr Hfit) as Hwfr.
  all: rewrite El, Er; cbn [bind].
  all: assert (nbits l' = nbits r') as Hnb by (unfold nbits; congruence).
  all: rewrite <- Hsl, <- Hsr, <- uval_eq_sval_eq by assumption.
  all: destruct (Is_Unlimited W) eqn:EU; cbn [negb].
  all: try (rewrite !Get_Bitset_wf by (auto; congruence); reflexivity).
  all: f_equal; apply forallb_bits; auto;
    rewrite <- wf_Get_Actual_Bits_Cnt by assumption;
    unfold Get_Actual_Bits_Cnt; rewrite !wf_Get_Actual_Width by assumption; congruence.
Qed.

Lemma operator_ne_spec (lhs rhs : Integer) :
  wf lhs -> wf rhs -> operator_ne lhs rhs = Ok (negb (Z.eqb (sval lhs) (sval rhs))).
Proof.
  intros Hl Hr. unfold operator_ne. now rewrite operator_eq_spec.
Qed.

(** ** Shifts by one *)

Lemma wf_of_parts (x y : Integer) :
  wf x -> words_ok y -> Width y = Width x -> length (_bits y) = length (_bits x) -> wf y.
Proof.
  intros (_ & Hmin & Hw) Hok HW Hlen. repeat split; auto; [lia|].
  rewrite HW, Hlen. exact Hw.
Qed.

Lemma wf_length (x : Integer) : wf x -> (4 <= length (_bits x))%nat.
Proof. intros (_ & H & _). exact H. Qed.

Lemma shl_loop_spec (k : nat) :
  forall result : Integer,
    words_ok result -> (k + 1 <= 8 * length (_bits result))%nat ->
    let r := shl_loop k 1 result in
    words_ok r /\ Width r = Width result /\ length (_bits r) = length (_bits result) /\
    forall m, 0 <= m ->
      Z.testbit (uval r) m
      = if (1 <=? m) && (m <? Z.of_nat k + 1)
        then Z.testbit (uval result) (m - 1) else Z.testbit (uval result) m.
Proof.
  induction k as [|k IH]; intros result Hok Hlen.
  - cbn [shl_loop]. repeat split; auto. intros m Hm.
    destruct (Z.leb_spec 1 m), (Z.ltb_spec m (Z.of_nat 0 + 1)); cbn [andb]; try reflexivity; lia.
  - cbn [shl_loop].
    set (result' := assign_index result (k + 1) (operator_index result k)).
    destruct (IH result') as (H1 & H2 & H3 & H4).
    + now apply assign_index_ok.
    + unfold result'. rewrite assign_index_length. lia.
    + unfold result' in H2, H3. rewrite assign_index_Width in H2. rewrite assign_index_length in H3.
      repeat split; auto. intros m Hm. rewrite H4 by lia. unfold result'.
      rewrite !testbit_assign_index by (auto; lia).
      rewrite operator_index_testbit by assumption.
      destruct (Z.leb_spec 1 m), (Z.ltb_spec m (Z.of_nat k + 1)), (Z.ltb_spec m (Z.of_nat (S k) + 1));
        cbn [andb]; try lia;
        repeat match goal with |- context [Z.eqb ?p ?q] => destruct (Z.eqb_spec p q) end;
        try lia; try reflexivity.
      f_equal. lia.
Qed.

Lemma shr_loop_spec (k : nat) :
  forall (i : nat) (result : Integer),
    words_ok result -> (1 <= i)%nat -> (i + k <= 8 * length (_bits result))%nat ->
    let r := shr_loop k i 1 result in
    words_ok r /\ Width r = Width result /\ length (_bits r) = length (_bits result) /\
    forall m, 0 <= m ->
      Z.testbit (uval r) m
      = if (Z.of_nat i - 1 <=? m) && (m <? Z.of_nat i - 1 + Z.of_nat k)
        then Z.testbit (uval result) (m + 1) else Z.testbit (uval result) m.
Proof.
  induction k as [|k IH]; intros i result Hok Hi Hlen.
  - cbn [shr_loop]. repeat split; auto. intros m Hm.
    destruct (Z.leb_spec (Z.of_nat i - 1) m), (Z.ltb_spec m (Z.of_nat i - 1 + Z.of_nat 0));
      cbn [andb]; try reflexivity; lia.
  - cbn [shr_loop].
    set (result' := assign_index result (i - 1) (operator_index result i)).
    destruct (IH (S i) result') as (H1 & H2 & H3 & H4).
    + now apply assign_index_ok.
    + lia.
    + unfold result'. rewrite assign_index_length. lia.
    + unfold result' in H2, H3. rewrite assign_index_Width in H2. rewrite assign_index_length in H3.
      repeat split; auto. intros m Hm. rewrite H4 by lia. unfold result'.
      rewrite !testbit_assign_index by (auto; lia).
      rewrite operator_index_testbit by assumption.
      destruct (Z.leb_spec (Z.of_nat (S i) - 1) m), (Z.ltb_spec m (Z.of_nat (S i) - 1 + Z.of_nat k)),
        (Z.leb_spec (Z.of_nat i - 1) m), (Z.ltb_spec m (Z.of_nat i - 1 + Z.of_nat (S k)));
        cbn [andb]; try lia;
        repeat match goal with |- context [Z.eqb ?p ?q] => destruct (Z.eqb_spec p q) end;
        try lia; try reflexivity.
      f_equal. lia.
Qed.

Lemma operator_shl_1 (x : Integer) :
  wf x ->
  let r := operator_shl x 1 in
  wf r /\ Width r = Width x /\ length (_bits r) = length (_bits x) /\
  uval r = (2 * uval x) mod 2 ^ nbits x.
Proof.
  intros Hwf. pose proof (wf_words_ok x Hwf) as Hok.
  pose proof (uval_range x Hok) as Hr. pose proof (wf_nbits x Hwf) as Hn.
  assert (0 < 2 ^ nbits x) as Hp by (apply pow2_pos; lia).
  unfold operator_shl. cbn [Nat.eqb]. unfold Is_Limited.
  destruct (Is_Unlimited (Width x)) eqn:EU; cbn [negb].
  - unfold clear_range. cbn [seq fold_left].
    destruct (shl_loop_spec (Get_Actual_Bits_Cnt x - 1) x Hok) as (H1 & H2 & H3 & H4).
    { unfold Get_Actual_Bits_Cnt, kWord_Bits_Cnt. rewrite wf_Get_Actual_Width by assumption.
      pose proof (wf_length x Hwf) as L4. clear - L4. lia. }
    set (r := shl_loop _ 1 x) in *.
    assert (Z.of_nat (Get_Actual_Bits_Cnt x - 1) + 1 = nbits x) as Hk.
    { rewrite <- wf_Get_Actual_Bits_Cnt by assumption.
      pose proof (wf_Get_Actual_Bits_Cnt x Hwf). lia. }
    cbv zeta. rewrite assign_index_Width, assign_index_length.
    split; [|split; [exact H2 | split; [exact H3|]]].
    + apply (wf_of_parts x);
        [exact Hwf | now apply assign_index_ok
        | now rewrite assign_index_Width | now rewrite assign_index_length].
    + apply Z.bits_inj'. intros m Hm.
      rewrite testbit_assign_index by (auto; rewrite H3; pose proof (wf_length x Hwf) as L4; clear - L4; lia).
      rewrite Z.testbit_mod_pow2 by lia.
      replace (2 * uval x) with (uval x * 2 ^ 1) by (rewrite Z.pow_1_r; ring).
      rewrite Z.mul_pow2_bits by lia.
      destruct (Z.eqb_spec (Z.of_nat 0) m) as [<-|NE].
      * change (Z.of_nat 0 - 1) with (-1). rewrite Z.testbit_neg_r by lia.
        now rewrite andb_false_r.
      * rewrite H4, Hk by lia.
        destruct (Z.leb_spec 1 m), (Z.ltb_spec m (nbits x)); cbn [andb]; try reflexivity; try lia.
        apply testbit_high_false with (nbits x); [exact Hr | lia].
  - pose proof (kBits_Cnt_wf x Hwf EU) as Hk.
    assert (length (_bits (Integer_new (Width x))) = length (_bits x)) as Hlen.
    { destruct (Integer_new_facts (Width x) (wf_admissible x Hwf)) as (_ & _ & _ & ->).
      destruct Hwf as (_ & _ & Hw). destruct (Width x); [auto | discriminate]. }
    rewrite Get_Bitset_wf, Z.shiftl_mul_pow2, Hk by (auto; lia).
    change (Z.of_nat 1) with 1.
    destruct (Integer_of_bitset_spec (Width x) (kBits_Cnt (Width x))
                ((uval x * 2 ^ 1) mod 2 ^ nbits x)) as (R1 & R2 & R3 & R4).
    + now apply wf_admissible.
    + unfold kBits_Cnt, kWord_Bits_Cnt. destruct (Width x); [|reflexivity].
      apply Nat.Div0.mod_mul.
    + rewrite Hlen. unfold nbits in Hk. lia.
    + rewrite Hk. apply Z.mod_pos_bound. lia.
    + cbv zeta. split; [exact R1|]. split; [exact R2|]. split; [congruence|].
      rewrite R4. f_equal. rewrite Z.pow_1_r. ring.
Qed.

Lemma operator_shr_1 (x : Integer) :
  wf x ->
  let r := operator_shr x 1 in
  wf r /\ Width r = Width x /\ length (_bits r) = length (_bits x) /\
  uval r = uval x / 2.
Proof.
  intros Hwf. pose proof (wf_words_ok x Hwf) as Hok.
  pose proof (uval_range x Hok) as Hr. pose proof (wf_nbits x Hwf) as Hn.
  assert (0 < 2 ^ nbits x) as Hp by (apply pow2_pos; lia).
  unfold operator_shr. cbn [Nat.eqb]. unfold Is_Limited.
  destruct (Is_Unlimited (Width x)) eqn:EU; cbn [negb].
  - unfold clear_range. cbn [seq fold_left].
    destruct (shr_loop_spec (Get_Actual_Bits_Cnt x - 1) 1 x Hok) as (H1 & H2 & H3 & H4).
    { lia. }
    { unfold Get_Actual_Bits_Cnt, kWord_Bits_Cnt. rewrite wf_Get_Actual_Width by assumption.
      pose proof (wf_length x Hwf) as L4. clear - L4. lia. }
    set (r := shr_loop _ 1 1 x) in *.
    assert (Z.of_nat (Get_Actual_Bits_Cnt x - 1) + 1 = nbits x) as Hk.
    { rewrite <- wf_Get_Actual_Bits_Cnt by assumption.
      pose proof (wf_Get_Actual_Bits_Cnt x Hwf). lia. }
    cbv zeta. rewrite assign_index_Width, assign_index_length.
    split; [|split; [exact H2 | split; [exact H3|]]].
    + apply (wf_of_parts x);
        [exact Hwf | now apply assign_index_ok
        | now rewrite assign_index_Width | now rewrite assign_index_length].
    + apply Z.bits_inj'. intros m Hm.
      rewrite testbit_assign_index.
      2: assumption.
      2:{ rewrite H3. unfold Get_Actual_Bits_Cnt, kWord_Bits_Cnt.
          rewrite wf_Get_Actual_Width by assumption.
          pose proof (wf_length x Hwf) as L4. clear - L4. lia. }
      change 2 with (2 ^ 1) at 1. rewrite Z.div_pow2_bits by lia.
      destruct (Z.eqb_spec (Z.of_nat (Get_Actual_Bits_Cnt x - 1)) m) as [E|NE].
      * symmetry. apply testbit_high_false with (nbits x); [exact Hr | lia].
      * rewrite H4 by lia.
        destruct (Z.leb_spec (Z.of_nat 1 - 1) m),
          (Z.ltb_spec m (Z.of_nat 1 - 1 + Z.of_nat (Get_Actual_Bits_Cnt x - 1)));
          cbn [andb]; try reflexivity; try lia.
        rewrite !(testbit_high_false (uval x) (nbits x)) by (auto; lia). reflexivity.
  - pose proof (kBits_Cnt_wf x Hwf EU) as Hk.
    assert (length (_bits (Integer_new (Width x))) = length (_bits x)) as Hlen.
    { destruct (Integer_new_facts (Width x) (wf_admissible x Hwf)) as (_ & _ & _ & ->).
      destruct Hwf as (_ & _ & Hw). destruct (Width x); [auto | discriminate]. }
    rewrite Get_Bitset_wf, Z.shiftr_div_pow2 by (auto; lia).
    change (2 ^ Z.of_nat 1) with 2.
    destruct (Integer_of_bitset_spec (Width x) (kBits_Cnt (Width x)) (uval x / 2))
      as (R1 & R2 & R3 & R4).
    + now apply wf_admissible.
    + unfold kBits_Cnt, kWord_Bits_Cnt. destruct (Width x); [|reflexivity].
      apply Nat.Div0.mod_mul.
    + rewrite Hlen. unfold nbits in Hk. lia.
    + rewrite Hk. split; [apply Z.div_pos; lia|].
      apply Z.div_lt_upper_bound; lia.
    + cbv zeta. split; [exact R1|]. split; [exact R2|]. split; [congruence|]. exact R4.
Qed.

(** ** Most significant set bit *)

Lemma Get_Msb_Idx_from_spec (x : Integer) (i : nat) :
  words_ok x -> uval x < 2 ^ (Z.of_nat i + 1) ->
  let m := Get_Msb_Idx_from x i in
  (m <= i)%nat /\ uval x < 2 ^ (Z.of_nat m + 1) /\
  (m <> 0%nat -> 2 ^ Z.of_nat m <= uval x).
Proof.
  intros Hok. pose proof (uval_range x Hok) as Hr.
  induction i as [|i IH]; intros Hlt; cbn [Get_Msb_Idx_from].
  - repeat split; auto. congruence.
  - rewrite operator_index_testbit by assumption.
    rewrite testbit_top by lia.
    destruct (Z.leb_spec (2 ^ Z.of_nat (S i)) (uval x)) as [Hge|Hlt'].
    + repeat split; auto.
    + destruct IH as (H1 & H2 & H3).
      * replace (Z.of_nat i + 1) with (Z.of_nat (S i)) by lia. exact Hlt'.
      * repeat split; auto.
Qed.

Lemma Get_Msb_Idx_spec (x : Integer) :
  wf x ->
  let m := Get_Msb_Idx x in
  Z.of_nat m < nbits x /\ uval x < 2 ^ (Z.of_nat m + 1) /\
  (m <> 0%nat -> 2 ^ Z.of_nat m <= uval x).
Proof.
  intros Hwf. pose proof (wf_words_ok x Hwf) as Hok.
  pose proof (uval_range x Hok) as Hr. pose proof (wf_nbits x Hwf) as Hn.
  pose proof (wf_Get_Actual_Bits_Cnt x Hwf) as Hb.
  unfold Get_Msb_Idx.
  destruct (Get_Msb_Idx_from_spec x (Get_Actual_Bits_Cnt x - 1) Hok) as (H1 & H2 & H3).
  - replace (Z.of_nat (Get_Actual_Bits_Cnt x - 1) + 1) with (nbits x) by lia. apply Hr.
  - cbv zeta. repeat split; auto. lia.
Qed.

(** ** The multiply loop *)

Lemma testbit_true_ge (a j : Z) : 0 <= a -> 0 <= j -> Z.testbit a j = true -> 2 ^ j <= a.
Proof.
  intros Ha Hj Hb. pose proof (mod_pow2_succ a j Hj) as E. rewrite Hb in E. cbn [Z.b2z] in E.
  assert (0 < 2 ^ j) by now apply pow2_pos.
  assert (0 < 2 ^ (j + 1)) by (apply pow2_pos; lia).
  pose proof (Z.mod_pos_bound a (2 ^ j) ltac:(lia)).
  pose proof (Z.mod_le a (2 ^ (j + 1)) Ha ltac:(lia)). lia.
Qed.

Lemma sval_nonneg_uval (x : Integer) : wf x -> 0 <= sval x -> uval x = sval x.
Proof.
  intros H Hs. rewrite sval_Is_Positive, Is_Positive_sval by assumption.
  destruct (Z.leb_spec 0 (sval x)); [reflexivity | lia].
Qed.

Lemma uval_small_sval (x : Integer) :
  wf x -> uval x < 2 ^ (nbits x - 1) -> sval x = uval x.
Proof.
  intros H Hu. unfold sval. destruct (Z.ltb_spec (uval x) (2 ^ (nbits x - 1))); [reflexivity | lia].
Qed.

Section MulLoop.
Variable W : t_Width.
Variable B : nat.
Variables L R : Z.
Hypothesis HL : 0 <= L.
Hypothesis HR : 0 <= R.
Hypothesis Hfits : L * R < 2 ^ (8 * Z.of_nat B - 1).
Hypothesis HB : (4 <= B)%nat.

Lemma Mul_loop_spec (k : nat) :
  forall (j : nat) (left right result : Integer) (carry_flag : bool),
    wf left -> wf right -> wf result ->
    Width left = W -> Width right = W -> Width result = W ->
    length (_bits left) = B -> length (_bits right) = B ->
    (Is_Unlimited W = false -> length (_bits result) = B) ->
    uval left = (L * 2 ^ Z.of_nat j) mod 2 ^ (8 * Z.of_nat B) ->
    uval right = R / 2 ^ Z.of_nat j ->
    sval result = L * (R mod 2 ^ Z.of_nat j) ->
    exists result' carry_flag',
      Mul_loop k left right result carry_flag = Ok (result', carry_flag') /\
      wf result' /\ Width result' = W /\
      sval result' = L * (R mod 2 ^ Z.of_nat (j + k)) /\
      (Is_Unlimited W = false ->
       length (_bits result') = B /\ (carry_flag = false -> carry_flag' = false)).
Proof.
  induction k as [|k IH];
    intros j left right result cf Hwl Hwr Hwres HWl HWr HWres Hll Hlr Hlres Hul Hur Hsres.
  - cbn [Mul_loop]. rewrite Nat.add_0_r. exists result, cf.
    split; [reflexivity|]. do 3 (split; [assumption|]). intros EU. split; auto.
  - cbn [Mul_loop].
    assert (0 < 2 ^ Z.of_nat j) as Hpj by (apply pow2_pos; lia).
    assert (operator_index right 0 = Z.testbit R (Z.of_nat j)) as Hbit.
    { rewrite operator_index_testbit by now apply wf_words_ok.
      rewrite Hur. change (Z.of_nat 0) with 0. rewrite Z.div_pow2_bits by lia. f_equal. }
    assert (R mod 2 ^ Z.of_nat (S j)
            = R mod 2 ^ Z.of_nat j + Z.b2z (Z.testbit R (Z.of_nat j)) * 2 ^ Z.of_nat j) as Hmod.
    { rewrite Nat2Z.inj_succ, <- Z.add_1_r. apply mod_pow2_succ. lia. }
    assert (exists result1 cf1,
               (if operator_index right 0
                then ' (r, _, c) <- Add result left false cf;; Ok (r, c)
                else Ok (result, cf)) = Ok (result1, cf1) /\
               wf result1 /\ Width result1 = W /\
               sval result1 = L * (R mod 2 ^ Z.of_nat (S j)) /\
               (Is_Unlimited W = false ->
                length (_bits result1) = B /\ (cf = false -> cf1 = false)))
      as (result1 & cf1 & E1 & Hw1 & HW1 & Hs1 & Hl1).
    { rewrite Hbit, Hmod. destruct (Z.testbit R (Z.of_nat j)) eqn:Eb; cbn [Z.b2z].
      - (* the bit is set: one addition *)
        pose proof (testbit_true_ge R (Z.of_nat j) HR ltac:(lia) Eb) as Hge.
        assert (L * 2 ^ Z.of_nat j <= L * R) as Hterm by (apply Z.mul_le_mono_nonneg_l; lia).
        assert (0 <= R mod 2 ^ Z.of_nat j < 2 ^ Z.of_nat j) as Hrm by (apply Z.mod_pos_bound; lia).
        assert (R mod 2 ^ Z.of_nat j + 2 ^ Z.of_nat j <= R) as Hpart.
        { pose proof (Z.mod_le R (2 ^ Z.of_nat (S j)) HR ltac:(apply pow2_pos; lia)).
          cbn [Z.b2z] in Hmod. lia. }
        assert (L * (R mod 2 ^ Z.of_nat j + 1 * 2 ^ Z.of_nat j) <= L * R) as Hsum
          by (apply Z.mul_le_mono_nonneg_l; lia).
        assert (nbits left = 8 * Z.of_nat B) as Hnl by (unfold nbits; now rewrite Hll).
        assert (2 ^ (8 * Z.of_nat B) = 2 * 2 ^ (8 * Z.of_nat B - 1)) as Hhalf
          by (apply pow2_half; lia).
        assert (0 < 2 ^ (8 * Z.of_nat B - 1)) as Hph by (apply pow2_pos; lia).
        assert (uval left = L * 2 ^ Z.of_nat j) as Hul'.
        { rewrite Hul. apply Z.mod_small. split; [apply Z.mul_nonneg_nonneg; lia | lia]. }
        assert (sval left = L * 2 ^ Z.of_nat j) as Hsl.
        { rewrite uval_small_sval; auto. rewrite Hnl, Hul'. lia. }
        destruct (Add_spec result left false cf Hwres Hwl) as (res & o & c & E & Hwf & HW & Hc & Hrest).
        rewrite HWres, HWl, Get_Max_idem in HW, Hrest.
        rewrite E. cbn [bind]. exists res, c.
        split; [reflexivity|]. split; [exact Hwf|]. split; [exact HW|].
        rewrite Hsres, Hsl in Hrest.
        replace (L * (R mod 2 ^ Z.of_nat j) + L * 2 ^ Z.of_nat j)
          with (L * (R mod 2 ^ Z.of_nat j + 1 * 2 ^ Z.of_nat j)) in Hrest by ring.
        assert (0 <= L * (R mod 2 ^ Z.of_nat j + 1 * 2 ^ Z.of_nat j)) as Hnn
          by (apply Z.mul_nonneg_nonneg; lia).
        destruct (Is_Unlimited W) eqn:EU.
        + destruct Hrest as (H1 & _ & _). split; [exact H1|]. discriminate.
        + specialize (Hlres eq_refl). rewrite Hlres, Hll, Nat.max_id in Hrest, Hc.
          destruct Hrest as (H1 & H2 & _).
          assert (nbits res = 8 * Z.of_nat B) as Hnr by (unfold nbits; now rewrite H1).
          split.
          * apply sval_unique; [now apply wf_words_ok | rewrite Hnr; lia | now rewrite Hnr | rewrite Hnr; lia].
          * intros _. split; [exact H1|]. intros ->. rewrite Hc. cbn [orb].
            rewrite Hsres, Hsl.
            assert (0 <= L * (R mod 2 ^ Z.of_nat j)) by (apply Z.mul_nonneg_nonneg; lia).
            assert (0 <= L * 2 ^ Z.of_nat j) by (apply Z.mul_nonneg_nonneg; lia).
            rewrite !Z.mod_small by lia.
            apply Z.leb_gt. lia.
      - (* the bit is clear *)
        exists result, cf. rewrite Z.mul_0_l, Z.add_0_r.
        split; [reflexivity|]. do 3 (split; [assumption|]). intros EU. split; auto. }
    rewrite E1. cbn [bind].
    destruct (operator_shl_1 left Hwl) as (S1 & S2 & S3 & S4).
    destruct (operator_shr_1 right Hwr) as (T1 & T2 & T3 & T4).
    destruct (IH (S j) (operator_shl left 1) (operator_shr right 1) result1 cf1)
      as (res' & cf' & E' & Hw' & HW' & Hs' & Hl'); auto; try congruence.
    + apply Hl1.
    + rewrite S4. unfold nbits. rewrite Hll, Hul.
      rewrite Z.mul_mod_idemp_r by (apply Z.pow_nonzero; lia).
      f_equal. rewrite Nat2Z.inj_succ, <- Z.add_1_r, pow2_succ by lia. ring.
    + rewrite T4, Hur. rewrite Z.div_div by lia.
      f_equal. rewrite Nat2Z.inj_succ, <- Z.add_1_r, pow2_succ by lia. ring.
    + exists res', cf'. replace (j + S k)%nat with (S j + k)%nat by lia.
      split; [exact E'|]. split; [exact Hw'|]. split; [exact HW'|]. split; [exact Hs'|].
      intros EU. destruct (Hl' EU) as [A1 A2]. destruct (Hl1 EU) as [_ A3].
      split; auto.
Qed.
End MulLoop.

(** ** Shrinking *)

Lemma Forall_firstn_ok (n : nat) (ws : list Z) :
  Forall word_ok ws -> Forall word_ok (firstn n ws).
Proof.
  intros H. revert n. induction H; intros [|n]; cbn [firstn]; auto.
Qed.

Lemma uval_words_firstn (n : nat) (ws : list Z) :
  Forall word_ok ws -> uval_words ws < 2 ^ (8 * Z.of_nat n) ->
  uval_words (firstn n ws) = uval_words ws.
Proof.
  intros Hok Hlt.
  destruct (Nat.le_gt_cases (length ws) n) as [Hle|Hgt].
  - now rewrite firstn_all2.
  - pose proof (firstn_skipn n ws) as E.
    assert (length (firstn n ws) = n) as Hlen by (rewrite length_firstn; lia).
    rewrite <- E in Hlt at 1. rewrite <- E at 2.
    rewrite uval_words_app, Hlen in *.
    pose proof (uval_words_range (firstn n ws) (Forall_firstn_ok n ws Hok)) as R1.
    assert (Forall word_ok (skipn n ws)) as Hsk.
    { rewrite <- E in Hok. apply Forall_app in Hok. apply Hok. }
    pose proof (uval_words_range (skipn n ws) Hsk) as R2.
    rewrite Hlen in R1.
    assert (0 < 2 ^ (8 * Z.of_nat n)) by (apply pow2_pos; lia).
    assert (uval_words (skipn n ws) = 0) as ->; [|lia].
    set (P := 2 ^ (8 * Z.of_nat n)) in *. clearbody P.
    destruct R2 as [R2 _]. nia.
Qed.

Lemma vec_resize_spec (n : nat) (ws : list Z) :
  Forall word_ok ws -> uval_words ws < 2 ^ (8 * Z.of_nat n) ->
  Forall word_ok (vec_resize ws n) /\ length (vec_resize ws n) = n /\
  uval_words (vec_resize ws n) = uval_words ws.
Proof.
  intros Hok Hlt. unfold vec_resize. split; [|split].
  - apply Forall_app. split; [now apply Forall_firstn_ok | apply Forall_repeat0].
  - rewrite length_app, length_firstn, repeat_length. lia.
  - rewrite uval_words_app, uval_words_repeat0, uval_words_firstn by assumption. lia.
Qed.

Lemma Shrink_spec (x : Integer) :
  wf x -> Width x = kUnlimited -> 0 <= sval x ->
  wf (Shrink x) /\ Width (Shrink x) = kUnlimited /\ sval (Shrink x) = sval x /\
  (sval x = 0 -> length (_bits (Shrink x)) = kWidth_Min).
Proof.
  intros Hwf HW Hs. pose proof (wf_words_ok x Hwf) as Hok.
  destruct (Get_Msb_Idx_spec x Hwf) as (M1 & M2 & M3).
  set (m := Get_Msb_Idx x) in *.
  set (size := Nat.max ((m + 1) / kWord_Bits_Cnt + 1) kWidth_Min).
  assert (Z.of_nat m + 2 <= 8 * Z.of_nat size) as Hsize.
  { unfold size, kWord_Bits_Cnt, kWidth_Min.
    pose proof (Nat.div_mod_eq (m + 1) 8). pose proof (Nat.mod_upper_bound (m + 1) 8). lia. }
  assert (4 <= size)%nat as Hs4 by (unfold size, kWidth_Min; lia).
  assert (2 ^ (Z.of_nat m + 1) <= 2 ^ (8 * Z.of_nat size - 1)) as Hpw by (apply pow2_le; lia).
  assert (2 ^ (8 * Z.of_nat size - 1) < 2 ^ (8 * Z.of_nat size)) as Hpw2 by (apply pow2_lt; lia).
  destruct (vec_resize_spec size (_bits x) Hok) as (R1 & R2 & R3).
  { fold (uval x). lia. }
  unfold Shrink. fold m size.
  assert (wf {| Width := Width x; _bits := vec_resize (_bits x) size |}) as Hwf'.
  { repeat split; cbn [_bits Width]; auto.
    - rewrite R2. exact Hs4.
    - rewrite HW. exact I. }
  split; [exact Hwf'|]. split; [exact HW|]. split.
  - rewrite uval_small_sval; auto.
    + unfold uval at 1. cbn [_bits]. rewrite R3. fold (uval x).
      now apply sval_nonneg_uval.
    + unfold uval, nbits. cbn [_bits]. rewrite R2, R3. fold (uval x). lia.
  - intros Hz. cbn [_bits]. rewrite R2.
    assert (m = 0%nat) as Hm0.
    { destruct (Nat.eq_dec m 0) as [|NE]; [assumption|].
      specialize (M3 NE). rewrite (sval_nonneg_uval x Hwf Hs), Hz in M3.
      pose proof (pow2_pos (Z.of_nat m)). lia. }
    unfold size. rewrite Hm0. reflexivity.
Qed.

(** ** The multiply kernel on non-negative operands *)

Lemma Mul_spec_nonneg (lhs rhs : Integer) (overflow_flag : bool) :
  wf lhs -> wf rhs -> 0 <= sval lhs -> 0 <= sval rhs ->
  let W := Get_Max (Width lhs) (Width rhs) in
  let A := Nat.max (length (_bits lhs)) (length (_bits rhs)) in
  (Is_Unlimited W = false -> sval lhs * sval rhs < 2 ^ (8 * Z.of_nat A - 1)) ->
  exists result,
    Mul lhs rhs overflow_flag = Ok (result, overflow_flag) /\
    wf result /\ Width result = W /\ sval result = sval lhs * sval rhs /\
    (Is_Unlimited W = false -> length (_bits result) = A).
Proof.
  intros Hl Hr Hl0 Hr0 W A Hfits.
  pose proof (fits_Get_Max lhs rhs Hl Hr) as Hfit. fold W A in Hfit.
  assert (4 <= A)%nat as HA4 by apply Hfit.
  assert (admissible W) as Hadm.
  { destruct Hfit as [F1 F2]. unfold admissible. destruct W; auto. lia. }
  destruct (Get_Normalized_spec W lhs A Hl) as (l0 & El & HWl & Hlenl & Hokl & Hsl); [lia|].
  destruct (Get_Normalized_spec W rhs A Hr) as (r0 & Er & HWr & Hlenr & Hokr & Hsr); [lia|].
  pose proof (Get_Normalized_wf _ _ _ _ El HWl Hlenl Hokl Hfit) as Hwfl.
  pose proof (Get_Normalized_wf _ _ _ _ Er HWr Hlenr Hokr Hfit) as Hwfr.
  destruct (Integer_new_facts W Hadm) as (Hwf0 & Hu0 & HW0 & Hlen0).
  assert (sval (Integer_new W) = 0) as Hs0 by apply (kZero_facts W Hadm).
  unfold Mul, Get_Positive, Get_Normalized_Existing.
  rewrite (wf_Get_Actual_Width lhs), (wf_Get_Actual_Width rhs) by assumption.
  rewrite !Is_Positive_sval by assumption.
  destruct (Z.leb_spec 0 (sval lhs)); [|lia]. destruct (Z.leb_spec 0 (sval rhs)); [|lia].
  cbn [bind xorb negb]. fold W A. rewrite El. cbn [bind]. rewrite Er. cbn [bind].
  assert (exists B left right,
             (if Is_Unlimited W then Get_Normalized W l0 (2 * A) else Ok l0) = Ok left /\
             (if Is_Unlimited W then Get_Normalized W r0 (2 * A) else Ok r0) = Ok right /\
             wf left /\ wf right /\ Width left = W /\ Width right = W /\
             length (_bits left) = B /\ length (_bits right) = B /\
             sval left = sval lhs /\ sval right = sval rhs /\ (4 <= B)%nat /\
             (Is_Unlimited W = false -> B = A) /\
             sval lhs * sval rhs < 2 ^ (8 * Z.of_nat B - 1))
    as (B & left & right & EL & ER & Hwl & Hwr & HWL & HWR & HlL & HlR & HsL & HsR & HB4 & HBA & Hprod).
  { destruct (Is_Unlimited W) eqn:EU.
    - destruct (Get_Normalized_spec W l0 (2 * A) Hwfl) as (l1 & El1 & ? & ? & ? & ?); [lia|].
      destruct (Get_Normalized_spec W r0 (2 * A) Hwfr) as (r1 & Er1 & ? & ? & ? & ?); [lia|].
      assert (fits_width W (2 * A)) as Hfit2.
      { split; [unfold kWidth_Min; lia|]. destruct W; [discriminate | exact I]. }
      exists (2 * A)%nat, l1, r1.
      split; [exact El1|]. split; [exact Er1|].
      split; [eapply Get_Normalized_wf; eauto|]. split; [eapply Get_Normalized_wf; eauto|].
      split; [assumption|]. split; [assumption|]. split; [assumption|]. split; [assumption|].
      split; [congruence|]. split; [congruence|]. split; [lia|]. split; [discriminate|].
      pose proof (sval_range l0 Hwfl) as R1. pose proof (sval_range r0 Hwfr) as R2.
      assert (nbits l0 = 8 * Z.of_nat A) as N1 by (unfold nbits; now rewrite Hlenl).
      assert (nbits r0 = 8 * Z.of_nat A) as N2 by (unfold nbits; now rewrite Hlenr).
      rewrite N1, Hsl in R1. rewrite N2, Hsr in R2.
      assert (2 ^ (8 * Z.of_nat A - 1) * 2 ^ (8 * Z.of_nat A - 1) <= 2 ^ (8 * Z.of_nat (2 * A) - 1)) as Hsq.
      { rewrite <- Z.pow_add_r by lia. apply pow2_le. lia. }
      assert (0 < 2 ^ (8 * Z.of_nat A - 1)) by (apply pow2_pos; lia).
      set (P := 2 ^ (8 * Z.of_nat A - 1)) in *. set (Q := 2 ^ (8 * Z.of_nat (2 * A) - 1)) in *.
      clearbody P Q. nia.
    - exists A, l0, r0. split; [reflexivity|]. split; [reflexivity|].
      do 8 (split; [assumption|]). split; [exact HA4|]. split; [reflexivity|]. auto. }
  rewrite EL. cbn [bind]. rewrite ER. cbn [bind].
  destruct (Get_Msb_Idx_spec right Hwr) as (M1 & M2 & M3).
  set (m := Get_Msb_Idx right) in *.
  assert (uval left = sval lhs) as HuL by (rewrite <- HsL; apply sval_nonneg_uval; auto; lia).
  assert (uval right = sval rhs) as HuR by (rewrite <- HsR; apply sval_nonneg_uval; auto; lia).
  destruct (Mul_loop_spec W B (sval lhs) (sval rhs) Hl0 Hr0 Hprod HB4 (S m) 0 left right
              (Integer_new W) false)
    as (res1 & cf & Eloop & Hw1 & HW1 & Hs1 & Hl1); auto.
  { intros EU. rewrite Hlen0, (HBA EU). destruct Hfit as [_ F]. destruct W; [auto | discriminate]. }
  { rewrite HuL. change (2 ^ Z.of_nat 0) with 1. rewrite Z.mul_1_r. symmetry. apply Z.mod_small.
    split; [lia|]. rewrite <- HuL. pose proof (uval_range left (wf_words_ok _ Hwl)) as RL.
    unfold nbits in RL. rewrite HlL in RL. lia. }
  { rewrite HuR. change (2 ^ Z.of_nat 0) with 1. now rewrite Z.div_1_r. }
  { rewrite Hs0. change (2 ^ Z.of_nat 0) with 1. rewrite Z.mod_1_r. lia. }
  rewrite Eloop. cbn [bind].
  assert (sval rhs mod 2 ^ Z.of_nat (0 + S m) = sval rhs) as Hfull.
  { apply Z.mod_small. split; [lia|]. rewrite <- HuR.
    replace (Z.of_nat (0 + S m)) with (Z.of_nat m + 1) by lia. exact M2. }
  rewrite Hfull in Hs1.
  assert (0 <= sval res1) as Hnn by (rewrite Hs1; apply Z.mul_nonneg_nonneg; lia).
  unfold Is_Limited. destruct (Is_Unlimited W) eqn:EU; cbn [negb].
  - destruct (Shrink_spec res1 Hw1) as (K1 & K2 & K3 & _); auto.
    { rewrite HW1. destruct W; [discriminate | reflexivity]. }
    exists (Shrink res1). split; [reflexivity|]. split; [exact K1|].
    split; [rewrite K2; destruct W; [discriminate | reflexivity]|].
    split; [congruence | discriminate].
  - destruct (Hl1 eq_refl) as [Hlen1 Hcf]. rewrite (Hcf eq_refl).
    rewrite Is_Positive_sval by assumption.
    destruct (Z.leb_spec 0 (sval res1)); [|lia]. cbn [negb orb].
    exists res1. split; [reflexivity|]. split; [exact Hw1|]. split; [exact HW1|].
    split; [exact Hs1|]. intros _. rewrite Hlen1. now apply HBA.
Qed.

(** ** Subtraction *)

Lemma operator_sub_spec (lhs rhs : Integer) :
  wf lhs -> wf rhs -> Width lhs = Width rhs ->
  length (_bits lhs) = length (_bits rhs) ->
  sval rhs <> - 2 ^ (nbits rhs - 1) ->
  in_range (nbits lhs) (sval lhs - sval rhs) = true ->
  exists result,
    operator_sub lhs rhs = Ok result /\ wf result /\ Width result = Width lhs /\
    length (_bits result) = length (_bits lhs) /\ sval result = sval lhs - sval rhs.
Proof.
  intros Hl Hr HW Hlen Hmin Hin.
  pose proof (sval_range rhs Hr) as Rr. pose proof (wf_nbits rhs Hr) as Nr.
  assert (nbits lhs = nbits rhs) as Hnb by (unfold nbits; now rewrite Hlen).
  destruct (Get_Complement_spec rhs Hr) as (c & Ec & Hc & HWc & Hrest).
  assert (sval c = - sval rhs /\ length (_bits c) = length (_bits rhs)) as [Hsc Hlc].
  { destruct (Is_Unlimited (Width rhs)).
    - destruct Hrest as [H1 H2]. split; [exact H1|]. rewrite H2.
      destruct (Z.eqb_spec (sval rhs) (- 2 ^ (nbits rhs - 1))); [contradiction | reflexivity].
    - destruct Hrest as [H1 H2]. split; [|exact H1].
      assert (nbits c = nbits rhs) as Hnc by (unfold nbits; now rewrite H1).
      apply sval_unique; [now apply wf_words_ok | lia | now rewrite Hnc | rewrite Hnc; lia]. }
  destruct (operator_add_spec lhs c Hl Hc) as (res & Hres & HWres & Hrest').
  rewrite HWc, <- HW, Get_Max_idem in HWres, Hrest'.
  rewrite Hlc, <- Hlen, Nat.max_id in Hrest'. fold (nbits lhs) in Hrest'.
  rewrite Hsc in Hrest'. replace (sval lhs + - sval rhs) with (sval lhs - sval rhs) in Hrest' by lia.
  rewrite Hin in Hrest'.
  exists res. unfold operator_sub. rewrite Ec. cbn [bind].
  destruct (Is_Unlimited (Width lhs)).
  - destruct Hrest' as (E & Hs & Hl'). auto.
  - destruct Hrest' as (Hl' & _ & E & Hs). auto.
Qed.

(** ** The long-division loop *)

Lemma div_pow2_step (n : Z) (idx : nat) :
  0 <= n ->
  n / 2 ^ Z.of_nat idx
  = 2 * (n / 2 ^ Z.of_nat (S idx)) + Z.b2z (Z.testbit n (Z.of_nat idx)).
Proof.
  intros Hn. rewrite Z.testbit_spec' by lia.
  rewrite Nat2Z.inj_succ, <- Z.add_1_r, pow2_succ by lia.
  replace (n / (2 * 2 ^ Z.of_nat idx)) with (n / 2 ^ Z.of_nat idx / 2).
  - apply Z.div_mod. lia.
  - rewrite Z.div_div by (try apply pow2_pos; lia). f_equal. ring.
Qed.

Section DivLoop.
Variable W : t_Width.
Variable A : nat.
Variables numerator denominator : Integer.
Local Abbreviation n := (uval numerator).
Local Abbreviation d := (sval denominator).
Hypothesis Hnum : words_ok numerator.
Hypothesis Hden : wf denominator.
Hypothesis HWden : Width denominator = W.
Hypothesis Hlden : length (_bits denominator) = A.
Hypothesis Hd : 0 < d.
Hypothesis Hd2 : 2 * d <= 2 ^ (8 * Z.of_nat A - 1).

Lemma Div_Mod_loop_spec (k : nat) :
  forall quotient remainder : Integer,
    wf quotient -> wf remainder ->
    Width quotient = W -> Width remainder = W ->
    length (_bits quotient) = A -> length (_bits remainder) = A ->
    (k <= 8 * A)%nat ->
    uval remainder = (n / 2 ^ Z.of_nat k) mod d ->
    uval quotient = (n / 2 ^ Z.of_nat k) / d * 2 ^ Z.of_nat k ->
    exists quotient' remainder',
      Div_Mod_loop k numerator denominator quotient remainder = Ok (quotient', remainder') /\
      wf quotient' /\ wf remainder' /\
      Width quotient' = W /\ Width remainder' = W /\
      length (_bits quotient') = A /\ length (_bits remainder') = A /\
      uval remainder' = n mod d /\ uval quotient' = n / d.
Proof.
  assert (0 <= n) as Hn0 by (apply uval_range, Hnum).
  assert (4 <= A)%nat as HA4 by (rewrite <- Hlden; now apply wf_length).
  assert (0 < 2 ^ (8 * Z.of_nat A - 1)) as Hph by (apply pow2_pos; lia).
  assert (2 ^ (8 * Z.of_nat A) = 2 * 2 ^ (8 * Z.of_nat A - 1)) as Hhalf by (apply pow2_half; lia).
  induction k as [|idx IH]; intros quotient remainder Hwq Hwr HWq HWr Hlq Hlr Hk Hur Huq.
  - cbn [Div_Mod_loop]. change (2 ^ Z.of_nat 0) with 1 in *.
    rewrite Z.div_1_r in *. rewrite Z.mul_1_r in Huq.
    exists quotient, remainder. repeat (split; [assumption || reflexivity|]). assumption.
  - cbn [Div_Mod_loop].
    set (m := n / 2 ^ Z.of_nat (S idx)) in *.
    set (bit := Z.testbit n (Z.of_nat idx)).
    assert (n / 2 ^ Z.of_nat idx = 2 * m + Z.b2z bit) as Hstep by (apply div_pow2_step; assumption).
    assert (0 <= m) as Hm0 by (apply Z.div_pos; [assumption | apply pow2_pos; lia]).
    assert (0 <= m mod d < d) as Hmd by (apply Z.mod_pos_bound; lia).
    assert (nbits remainder = 8 * Z.of_nat A) as Hnr by (unfold nbits; now rewrite Hlr).
    destruct (operator_shl_1 remainder Hwr) as (S1 & S2 & S3 & S4).
    set (remainder1 := operator_shl remainder 1) in *.
    assert (uval remainder1 = 2 * (m mod d)) as Hu1.
    { rewrite S4, Hur, Hnr. apply Z.mod_small. lia. }
    set (remainder2 := assign_index remainder1 0 (operator_index numerator idx)).
    assert (wf remainder2) as Hw2 by now apply assign_index_wf.
    assert (uval remainder2 = 2 * (m mod d) + Z.b2z bit) as Hu2.
    { unfold remainder2. rewrite uval_assign_index.
      2: now apply wf_words_ok.
      2:{ pose proof (wf_length remainder1 S1). lia. }
      rewrite assign_arith by lia. rewrite Hu1.
      change (Z.of_nat 0) with 0. rewrite Z.testbit_even_0.
      rewrite operator_index_testbit by assumption. fold n bit.
      cbn [Z.b2z]. change (2 ^ 0) with 1. lia. }
    assert (Z.b2z bit = 0 \/ Z.b2z bit = 1) as Hb by (destruct bit; cbn; auto).
    assert (nbits remainder2 = 8 * Z.of_nat A) as Hn2.
    { unfold nbits, remainder2. rewrite assign_index_length, S3, Hlr. reflexivity. }
    assert (sval remainder2 = 2 * (m mod d) + Z.b2z bit) as Hs2.
    { rewrite uval_small_sval; auto. rewrite Hn2, Hu2. lia. }
    destruct (operator_sub_spec remainder2 denominator) as (diff & Ed & Hwd & HWd & Hld & Hsd); auto.
    { unfold remainder2. rewrite assign_index_Width, S2. congruence. }
    { unfold remainder2. rewrite assign_index_length, S3. congruence. }
    { fold d. pose proof (pow2_pos (nbits denominator - 1)).
      pose proof (wf_nbits denominator Hden). lia. }
    { unfold in_range. rewrite Hn2, Hs2. fold d.
      apply andb_true_intro. split; [apply Z.leb_le | apply Z.ltb_lt]; lia. }
    rewrite Ed. cbn [bind].
    fold d in Hsd. rewrite Hs2 in Hsd.
    rewrite Is_Positive_sval, Hsd by assumption.
    assert (2 * m + Z.b2z bit = d * (2 * (m / d)) + (2 * (m mod d) + Z.b2z bit)) as Hdecomp.
    { pose proof (Z.div_mod m d ltac:(lia)). lia. }
    assert (Z.testbit (uval quotient) (Z.of_nat idx) = false) as Hqbit.
    { rewrite Huq. apply Z.mul_pow2_bits_low. lia. }
    assert (2 ^ Z.of_nat (S idx) = 2 * 2 ^ Z.of_nat idx) as Hp2.
    { rewrite Nat2Z.inj_succ, <- Z.add_1_r. apply pow2_succ. lia. }
    assert (Width remainder2 = W) as HW2.
    { unfold remainder2. rewrite assign_index_Width, S2. exact HWr. }
    assert (length (_bits remainder2) = A) as Hl2.
    { unfold remainder2. rewrite assign_index_length, S3. exact Hlr. }
    destruct (Z.leb_spec 0 (2 * (m mod d) + Z.b2z bit - d)) as [Hge|Hlt].
    + (* the denominator fits: subtract and set the quotient bit *)
      apply IH.
      * now apply assign_index_wf.
      * exact Hwd.
      * now rewrite assign_index_Width.
      * congruence.
      * now rewrite assign_index_length.
      * congruence.
      * lia.
      * rewrite (sval_nonneg_uval diff Hwd) by lia. rewrite Hsd, Hstep.
        apply Z.mod_unique with (2 * (m / d) + 1); lia.
      * rewrite uval_assign_index.
        2: now apply wf_words_ok.
        2: lia.
        rewrite setbit_clear_arith by (auto; lia).
        rewrite Huq, Hstep, Hp2.
        assert ((2 * m + Z.b2z bit) / d = 2 * (m / d) + 1) as ->.
        { symmetry. apply Z.div_unique with (2 * (m mod d) + Z.b2z bit - d); lia. }
        ring.
    + (* the denominator does not fit *)
      apply IH; auto.
      * lia.
      * rewrite Hu2, Hstep. apply Z.mod_unique with (2 * (m / d)); lia.
      * rewrite Huq, Hstep, Hp2.
        assert ((2 * m + Z.b2z bit) / d = 2 * (m / d)) as ->.
        { symmetry. apply Z.div_unique with (2 * (m mod d) + Z.b2z bit); lia. }
        ring.
Qed.
End DivLoop.

(** ** The divide/modulo kernel, positive divisor *)

Lemma Get_Normalized_uval (W' : t_Width) (x : Integer) (aw : nat) :
  wf x -> (length (_bits x) <= aw)%nat ->
  (length (_bits x) = aw \/ 0 <= sval x) ->
  exists y, Get_Normalized W' x aw = Ok y /\
            Width y = W' /\ length (_bits y) = aw /\ words_ok y /\
            sval y = sval x /\ uval y = uval x.
Proof.
  intros Hwf Hle Hcase.
  destruct (Get_Normalized_spec W' x aw Hwf Hle) as (y & E & HW & Hlen & Hok & Hs).
  exists y. repeat (split; [assumption|]).
  rewrite (uval_sval_mod x Hwf).
  assert (uval y = sval y mod 2 ^ nbits y) as ->.
  { unfold sval. pose proof (uval_range y Hok).
    destruct (Z.ltb (uval y) (2 ^ (nbits y - 1))).
    - now rewrite Z.mod_small.
    - replace (uval y - 2 ^ nbits y) with (uval y + (-1) * 2 ^ nbits y) by lia.
      rewrite Z.mod_add by lia. now rewrite Z.mod_small. }
  rewrite Hs. destruct Hcase as [Heq|Hnn].
  - unfold nbits. now rewrite Hlen, Heq.
  - pose proof (sval_range x Hwf) as Rx. pose proof (wf_nbits x Hwf) as Nx.
    assert (2 ^ (nbits x - 1) < 2 ^ nbits x) by (apply pow2_lt; lia).
    assert (2 ^ nbits x <= 2 ^ nbits y) by (apply pow2_le; unfold nbits; lia).
    rewrite !Z.mod_small by lia. reflexivity.
Qed.

Lemma Get_Normalized_New_spec (W : t_Width) (aw : nat) :
  fits_width W aw ->
  exists y, Get_Normalized_New W aw = Ok y /\ wf y /\ Width y = W /\
            length (_bits y) = aw /\ uval y = 0.
Proof.
  intros Hfit.
  assert (admissible W) as Hadm.
  { destruct Hfit as [F1 F2]. unfold admissible. destruct W; auto. lia. }
  destruct (Integer_new_facts W Hadm) as (Hwf0 & Hu0 & HW0 & Hlen0).
  destruct (Get_Normalized_spec W (Integer_new W) aw Hwf0) as (y & E & HW & Hlen & Hok & Hs).
  { rewrite Hlen0. destruct Hfit as [F1 F2]. destruct W; lia. }
  exists y. unfold Get_Normalized_New. split; [exact E|].
  assert (wf y) as Hwfy by (eapply Get_Normalized_wf; eauto).
  split; [exact Hwfy|]. split; [exact HW|]. split; [exact Hlen|].
  apply sval_zero_uval; auto. rewrite Hs. apply (kZero_facts W Hadm).
Qed.

Lemma Div_Mod_spec (lhs rhs : Integer) :
  wf lhs -> wf rhs -> Width lhs = Width rhs ->
  let A := Nat.max (length (_bits lhs)) (length (_bits rhs)) in
  0 < sval rhs -> 2 * sval rhs <= 2 ^ (8 * Z.of_nat A - 1) ->
  (Is_Unlimited (Width lhs) = true -> 0 <= sval lhs) ->
  sval lhs <> 0 ->
  exists quotient remainder,
    Div_Mod lhs rhs = Ok (quotient, remainder) /\
    wf quotient /\ wf remainder /\
    Width quotient = Width lhs /\ Width remainder = Width lhs /\
    length (_bits quotient) = A /\ length (_bits remainder) = A /\
    sval remainder = Z.abs (sval lhs) mod sval rhs /\
    sval quotient = Z.sgn (sval lhs) * (Z.abs (sval lhs) / sval rhs).
Proof.
  intros Hl Hr HW A Hd Hd2 Hunl Hnz.
  assert (length (_bits lhs) <= A)%nat as HlA by (unfold A; clear; lia).
  assert (length (_bits rhs) <= A)%nat as HrA by (unfold A; clear; lia).
  pose proof (fits_Get_Max lhs rhs Hl Hr) as Hfit. fold A in Hfit.
  rewrite <- HW, Get_Max_idem in Hfit.
  assert (4 <= A)%nat as HA4 by apply Hfit.
  set (W := Width lhs) in *.
  assert (admissible W) as Hadm by (now apply wf_admissible).
  destruct (kZero_facts W Hadm) as (Z1 & Z2 & Z3 & Z4).
  pose proof (sval_range lhs Hl) as Rl. pose proof (wf_nbits lhs Hl) as Nl.
  assert (0 < 2 ^ (8 * Z.of_nat A - 1)) as Hph by (apply pow2_pos; lia).
  assert (2 ^ (8 * Z.of_nat A) = 2 * 2 ^ (8 * Z.of_nat A - 1)) as Hhalf by (apply pow2_half; lia).
  assert (2 ^ (nbits lhs - 1) <= 2 ^ (8 * Z.of_nat A - 1)) as Hpl
    by (apply pow2_le; unfold nbits in *; clear - HlA Nl; lia).
  (* the positive projections, brought to the common length *)
  assert (exists numerator,
             (lpos <- Get_Positive lhs ;; Get_Normalized_Existing W lpos A) = Ok numerator /\
             wf numerator /\ Width numerator = W /\ length (_bits numerator) = A /\
             uval numerator = Z.abs (sval lhs)) as (numerator & En & Hwn & HWn & Hln & Hun).
  { unfold Get_Normalized_Existing. destruct (Is_Unlimited W) eqn:EU.
    - specialize (Hunl eq_refl).
      destruct (Get_Positive_unlimited lhs Hl EU) as (y & Ey & _ & _ & _ & _ & Hy).
      rewrite (Hy Hunl) in Ey. rewrite Ey. cbn [bind].
      destruct (Get_Normalized_uval W lhs A Hl) as (z & Ez & Hz1 & Hz2 & Hz3 & Hz4 & Hz5); [lia | auto |].
      exists z. split; [exact Ez|]. split; [eapply Get_Normalized_wf; eauto|].
      split; [exact Hz1|]. split; [exact Hz2|].
      rewrite Hz5, (sval_nonneg_uval lhs Hl Hunl). symmetry. now apply Z.abs_eq.
    - destruct (Get_Positive_limited lhs Hl EU) as (y & Ey & Hy1 & Hy2 & Hy3 & Hy4).
      rewrite Ey. cbn [bind].
      assert (length (_bits lhs) = A) as HlA'.
      { destruct Hl as (_ & _ & Hwl). destruct Hfit as [_ F]. fold W in Hwl.
        destruct W; [congruence | discriminate]. }
      destruct (Get_Normalized_uval W y A Hy1) as (z & Ez & Hz1 & Hz2 & Hz3 & Hz4 & Hz5); [lia | left; lia |].
      exists z. split; [exact Ez|]. split; [eapply Get_Normalized_wf; eauto|].
      split; [exact Hz1|]. split; [exact Hz2|]. congruence. }
  assert (exists denominator,
             (rpos <- Get_Positive rhs ;; Get_Normalized_Existing W rpos A) = Ok denominator /\
             wf denominator /\ Width denominator = W /\ length (_bits denominator) = A /\
             sval denominator = sval rhs) as (denominator & Ed & Hwd & HWd & Hld & Hsd).
  { unfold Get_Normalized_Existing, Get_Positive.
    rewrite Is_Positive_sval by assumption.
    destruct (Z.leb_spec 0 (sval rhs)); [|lia]. cbn [bind].
    destruct (Get_Normalized_spec W rhs A Hr) as (z & Ez & Hz1 & Hz2 & Hz3 & Hz4); [lia|].
    exists z. split; [exact Ez|]. split; [eapply Get_Normalized_wf; eauto|]. auto. }
  destruct (Get_Normalized_New_spec W A Hfit) as (zero & E0 & Hw0 & HW0 & Hl0 & Hu0).
  destruct (Get_Msb_Idx_spec numerator Hwn) as (M1 & M2 & M3).
  set (msb := Get_Msb_Idx numerator) in *.
  assert (nbits numerator = 8 * Z.of_nat A) as Hnn by (unfold nbits; now rewrite Hln).
  assert (uval numerator / 2 ^ Z.of_nat (S msb) = 0) as Hhigh.
  { apply Z.div_small. split; [apply uval_range; now apply wf_words_ok|].
    replace (Z.of_nat (S msb)) with (Z.of_nat msb + 1) by lia. exact M2. }
  destruct (Div_Mod_loop_spec W A numerator denominator (wf_words_ok _ Hwn) Hwd HWd Hld
              ltac:(lia) ltac:(lia) (S msb) zero zero)
    as (q & r & Eloop & Hwq & Hwr & HWq & HWr & Hlq & Hlr & Hur & Huq); auto.
  { lia. }
  { rewrite Hhigh, Hu0. now rewrite Z.mod_0_l by lia. }
  { rewrite Hhigh, Hu0. now rewrite Z.div_0_l by lia. }
  rewrite Hun, Hsd in Hur, Huq.
  assert (0 <= Z.abs (sval lhs) / sval rhs <= Z.abs (sval lhs)) as Hqr.
  { split; [apply Z.div_pos; lia|]. apply Z.div_le_upper_bound; [lia|]. nia. }
  assert (0 <= Z.abs (sval lhs) mod sval rhs < sval rhs) as Hrr by (apply Z.mod_pos_bound; lia).
  assert (nbits q = 8 * Z.of_nat A) as Hnq by (unfold nbits; now rewrite Hlq).
  assert (nbits r = 8 * Z.of_nat A) as Hnr by (unfold nbits; now rewrite Hlr).
  assert (sval r = Z.abs (sval lhs) mod sval rhs) as Hsr.
  { rewrite uval_small_sval; auto. rewrite Hnr, Hur. lia. }
  unfold Div_Mod. fold W.
  rewrite (operator_eq_spec rhs (kZero W)) by assumption. rewrite Z4. cbn [bind].
  destruct (Z.eqb_spec (sval rhs) 0); [lia|].
  rewrite (operator_eq_spec lhs (kZero W)) by assumption. rewrite Z4. cbn [bind].
  destruct (Z.eqb_spec (sval lhs) 0); [lia|].
  rewrite <- HW, Get_Max_idem.
  rewrite (wf_Get_Actual_Width lhs), (wf_Get_Actual_Width rhs) by assumption. fold A.
  destruct (Get_Positive lhs) as [lpos| | | |] eqn:ELp; cbn [bind] in En; try discriminate.
  cbn [bind]. rewrite En. cbn [bind].
  destruct (Get_Positive rhs) as [rpos| | | |] eqn:ERp; cbn [bind] in Ed; try discriminate.
  cbn [bind]. rewrite Ed. cbn [bind]. rewrite E0. cbn [bind].
  fold msb. rewrite Eloop. cbn [bind].
  rewrite !Is_Positive_sval by assumption.
  destruct (Z.leb_spec 0 (sval rhs)); [|lia].
  destruct (Z.leb_spec 0 (sval lhs)) as [Hpos|Hneg]; cbn [xorb negb].
  - exists q, r. split; [reflexivity|]. repeat (split; [assumption|]).
    rewrite Z.sgn_pos by lia. rewrite Z.mul_1_l.
    rewrite uval_small_sval; auto. rewrite Hnq, Huq.
    rewrite Z.abs_eq in * by lia. lia.
  - destruct (Get_Complement_spec q Hwq) as (c & Ec & Hwc & HWc & Hrest).
    rewrite Ec. cbn [bind]. exists c, r. split; [reflexivity|].
    assert (Is_Unlimited W = false) as EU.
    { destruct (Is_Unlimited W); [specialize (Hunl eq_refl); lia | reflexivity]. }
    rewrite HWq, EU in Hrest. destruct Hrest as [Hlc Huc].
    split; [exact Hwc|]. split; [exact Hwr|]. split; [congruence|]. split; [exact HWr|].
    split; [congruence|]. split; [exact Hlr|]. split; [exact Hsr|].
    rewrite Z.sgn_neg by lia.
    assert (nbits c = 8 * Z.of_nat A) as Hnc by (unfold nbits; rewrite Hlc; exact Hnq).
    apply sval_unique; [now apply wf_words_ok | lia | | ].
    + rewrite Hnc, Huc, Hnq. rewrite <- Huq.
      unfold sval. rewrite Hnq.
      destruct (Z.ltb (uval q) (2 ^ (8 * Z.of_nat A - 1))).
      * first [reflexivity | f_equal; lia].
      * replace (- (uval q - 2 ^ (8 * Z.of_nat A))) with (- uval q + 1 * 2 ^ (8 * Z.of_nat A)) by lia.
        rewrite Z.mod_add by lia. reflexivity.
    + rewrite Hnc. rewrite Z.abs_neq in * by lia. lia.
Qed.

(** ** Which calls can raise an arithmetic error *)

Lemma no_base_throw_bind {A B : Type} (m : outcome A) (k : A -> outcome B) :
  no_base_throw m -> (forall a, no_base_throw (k a)) -> no_base_throw (bind m k).
Proof. destruct m; cbn; auto. Qed.

Lemma no_base_throw_Get_Normalized (W : t_Width) (x : Integer) (aw : nat) :
  no_base_throw (Get_Normalized W x aw).
Proof.
  unfold Get_Normalized.
  repeat match goal with |- no_base_throw (if ?c then _ else _) => destruct c end; exact I.
Qed.

Lemma no_base_throw_Add (l r : Integer) (o c : bool) : no_base_throw (Add l r o c).
Proof.
  unfold Add, Get_Normalized_Existing.
  apply no_base_throw_bind; [apply no_base_throw_Get_Normalized | intros left].
  apply no_base_throw_bind; [apply no_base_throw_Get_Normalized | intros right].
  apply no_base_throw_bind.
  - destruct (Is_Unlimited _); [apply no_base_throw_Get_Normalized | exact I].
  - intros res0. destruct (Add_loop _ _ _ _ _ _). exact I.
Qed.

Lemma no_base_throw_Get_Complement (x : Integer) : no_base_throw (Get_Complement x).
Proof.
  unfold Get_Complement. apply no_base_throw_bind; [apply no_base_throw_Add|].
  intros [[? ?] ?]. exact I.
Qed.

Lemma no_base_throw_Get_Positive (x : Integer) : no_base_throw (Get_Positive x).
Proof.
  unfold Get_Positive. destruct (Is_Positive x); [exact I | apply no_base_throw_Get_Complement].
Qed.

Lemma no_base_throw_Mul_loop (k : nat) :
  forall l r res c, no_base_throw (Mul_loop k l r res c).
Proof.
  induction k as [|k IH]; intros l r res c; cbn [Mul_loop]; [exact I|].
  apply no_base_throw_bind.
  - destruct (operator_index r 0); [|exact I].
    apply no_base_throw_bind; [apply no_base_throw_Add|]. intros [[? ?] ?]. exact I.
  - intros [? ?]. apply IH.
Qed.

Lemma no_base_throw_Mul (l r : Integer) (o : bool) : no_base_throw (Mul l r o).
Proof.
  unfold Mul, Get_Normalized_Existing.
  apply no_base_throw_bind; [apply no_base_throw_Get_Positive | intros lpos].
  apply no_base_throw_bind; [apply no_base_throw_Get_Normalized | intros left0].
  apply no_base_throw_bind; [apply no_base_throw_Get_Positive | intros rpos].
  apply no_base_throw_bind; [apply no_base_throw_Get_Normalized | intros right0].
  apply no_base_throw_bind.
  { destruct (Is_Unlimited _); [apply no_base_throw_Get_Normalized | exact I]. }
  intros left. apply no_base_throw_bind.
  { destruct (Is_Unlimited _); [apply no_base_throw_Get_Normalized | exact I]. }
  intros right. apply no_base_throw_bind; [apply no_base_throw_Mul_loop|].
  intros [res cf]. destruct (negb _); [exact I|].
  apply no_base_throw_bind; [apply no_base_throw_Get_Complement | intros; exact I].
Qed.

Lemma no_base_throw_operator_eq (l r : Integer) : no_base_throw (operator_eq l r).
Proof.
  unfold operator_eq, Get_Normalized_Existing. destruct (xorb _ _); [exact I|].
  apply no_base_throw_bind; [apply no_base_throw_Get_Normalized | intros left].
  apply no_base_throw_bind; [apply no_base_throw_Get_Normalized | intros right].
  destruct (negb _); exact I.
Qed.

Lemma no_base_throw_operator_ne (l r : Integer) : no_base_throw (operator_ne l r).
Proof.
  unfold operator_ne. apply no_base_throw_bind; [apply no_base_throw_operator_eq | intros; exact I].
Qed.

Lemma no_base_throw_operator_add (l r : Integer) : no_base_throw (operator_add l r).
Proof.
  unfold operator_add. apply no_base_throw_bind; [apply no_base_throw_Add|].
  intros [[? o] ?]. destruct o; exact I.
Qed.

Lemma no_base_throw_Factorial_loop (fuel : nat) :
  forall this m res o, no_base_throw (Factorial_loop fuel this m res o).
Proof.
  induction fuel as [|fuel IH]; intros this m res o; cbn [Factorial_loop].
  - apply no_base_throw_bind; [apply no_base_throw_operator_ne|]. intros []; exact I.
  - apply no_base_throw_bind; [apply no_base_throw_operator_ne|]. intros []; [|exact I].
    apply no_base_throw_bind; [apply no_base_throw_Mul | intros [? ?]].
    apply no_base_throw_bind; [apply no_base_throw_operator_add | intros ?]. apply IH.
Qed.

(** ** Factorial *)

Lemma Zfact_succ (m : Z) : 0 <= m -> Zfact (m + 1) = (m + 1) * Zfact m.
Proof.
  intros Hm. unfold Zfact. replace (Z.to_nat (m + 1)) with (S (Z.to_nat m)) by lia.
  cbn [fact]. rewrite Nat2Z.inj_mul. f_equal. lia.
Qed.

Lemma Zfact_pred (m : Z) : 1 <= m -> m * Zfact (m - 1) = Zfact m.
Proof.
  intros Hm. replace (Zfact m) with (Zfact ((m - 1) + 1)) by (f_equal; lia).
  rewrite Zfact_succ by lia. f_equal. lia.
Qed.

Lemma Zfact_pos (m : Z) : 0 < Zfact m.
Proof. unfold Zfact. pose proof (lt_O_fact (Z.to_nat m)). lia. Qed.

Lemma Zfact_mono (a b : Z) : 0 <= a <= b -> Zfact a <= Zfact b.
Proof.
  intros H. unfold Zfact. apply Nat2Z.inj_le, fact_le. lia.
Qed.

Section FactorialLoop.
Variable this : Integer.
Local Abbreviation W := (Width this).
Local Abbreviation n := (sval this).
Hypothesis Hthis : wf this.
Hypothesis Hfits :
  Is_Unlimited W = false -> Zfact n < 2 ^ (nbits this - 1).

Lemma Factorial_loop_spec (fuel : nat) :
  forall (multiplier result : Integer) (overflow_flag : bool),
    wf multiplier -> wf result ->
    Width multiplier = W -> Width result = W ->
    2 <= sval multiplier <= n ->
    sval result = n * Zfact (sval multiplier - 1) ->
    (Z.to_nat (n - sval multiplier) <= fuel)%nat ->
    exists result',
      Factorial_loop fuel this multiplier result overflow_flag = Ok (result', overflow_flag) /\
      wf result' /\ Width result' = W /\ sval result' = Zfact n.
Proof.
  assert (forall x, wf x -> Width x = W -> Is_Unlimited W = false -> nbits x = nbits this) as Hsame.
  { intros x (_ & _ & Hx) HWx EU. destruct Hthis as (_ & _ & Ht).
    unfold nbits. fold W in Ht. rewrite HWx in Hx. destruct W; [congruence | discriminate]. }
  induction fuel as [|fuel IH]; intros multiplier result o Hwm Hwr HWm HWr Hm Hres Hfuel;
    cbn [Factorial_loop]; rewrite operator_ne_spec by assumption; cbn [bind]; fold n.
  - assert (sval multiplier = n) as E by lia. rewrite E, Z.eqb_refl. cbn [negb].
    exists result. repeat (split; [auto|]). rewrite Hres, E.
    apply Zfact_pred. lia.
  - destruct (Z.eqb_spec (sval multiplier) n) as [E|NE]; cbn [negb].
    + exists result. repeat (split; [auto|]). rewrite Hres, E.
      apply Zfact_pred. lia.
    + set (m := sval multiplier) in *.
      assert (sval result * m = n * Zfact m) as Hprod.
      { rewrite Hres, <- (Zfact_pred m) by lia. ring. }
      assert (n * Zfact m <= Zfact n) as Hle.
      { rewrite <- (Zfact_pred n) by lia.
        apply Z.mul_le_mono_nonneg_l; [lia|]. apply Zfact_mono. lia. }
      pose proof (Zfact_pos (m - 1)) as Hfp. pose proof (Zfact_pos m) as Hfm.
      destruct (Mul_spec_nonneg result multiplier o Hwr Hwm) as (res' & Em & Hw' & HW' & Hs' & Hl').
      * rewrite Hres. apply Z.mul_nonneg_nonneg; lia.
      * lia.
      * rewrite HWr, HWm, Get_Max_idem. intros EU. fold m. rewrite Hprod.
        specialize (Hfits EU).
        pose proof (Hsame result Hwr HWr EU) as N1. pose proof (Hsame multiplier Hwm HWm EU) as N2.
        assert (8 * Z.of_nat (Nat.max (length (_bits result)) (length (_bits multiplier))) = nbits this) as ->.
        { unfold nbits in *. lia. }
        lia.
      * rewrite HWr, HWm, Get_Max_idem in HW'. rewrite Em. cbn [bind].
        fold m in Hs'. rewrite Hprod in Hs'.
        rewrite HWm.
        assert (admissible W) as Hadm by (rewrite <- HWm; now apply wf_admissible).
        destruct (kOne_facts W Hadm) as (O1 & O2 & O3 & O4).
        destruct (operator_add_spec multiplier (kOne W) Hwm O1)
          as (m' & Hwm' & HWm' & Hrest).
        rewrite O2, HWm, Get_Max_idem in HWm', Hrest. rewrite O4 in Hrest. fold m in Hrest.
        assert (operator_add multiplier (kOne W) = Ok m' /\ sval m' = m + 1) as [Ea Hsm'].
        { destruct (Is_Unlimited W) eqn:EU.
          - destruct Hrest as (H1 & H2 & _). auto.
          - destruct Hrest as (H1 & _ & H3).
            assert (Nat.max (length (_bits multiplier)) (length (_bits (kOne W)))
                    = length (_bits multiplier)) as HA.
            { pose proof (Hsame multiplier Hwm HWm eq_refl) as N1.
              pose proof (Hsame (kOne W) O1 O2 eq_refl) as N2.
              unfold nbits in N1, N2. clear - N1 N2. lia. }
            rewrite HA in H3. fold (nbits multiplier) in H3.
            rewrite (Hsame multiplier Hwm HWm eq_refl) in H3.
            assert (in_range (nbits this) (m + 1) = true) as Hin.
            { unfold in_range. pose proof (sval_range this Hthis) as Rt. fold n in Rt.
              apply andb_true_intro. split; [apply Z.leb_le | apply Z.ltb_lt]; lia. }
            rewrite Hin in H3. exact H3. }
        rewrite Ea. cbn [bind].
        destruct (IH m' res' o) as (r & Er & Hwr' & HWr' & Hsr'); auto.
        -- lia.
        -- rewrite Hsm', Hs'. f_equal. f_equal. lia.
        -- lia.
        -- exists r. auto.
Qed.
End FactorialLoop.

(** ** Decimal digits *)

Lemma digit_char_spec (r : Integer) (v : Z) :
  wf r -> uval r = v -> 0 <= v < 256 -> digit_char r = digit_ascii v.
Proof.
  intros Hwf Hu Hv. unfold digit_char, digit_ascii, kWord_Bits_Cnt.
  rewrite (gather_bits (operator_index r) (uval r) 8).
  - rewrite Hu. change (2 ^ Z.of_nat 8) with 256. now rewrite (Z.mod_small v 256) by lia.
  - intros i _. apply operator_index_testbit. now apply wf_words_ok.
Qed.

Lemma div10_bound (u : Z) (f : nat) : 0 <= u < 2 ^ Z.of_nat (S f) -> 0 <= u / 10 < 2 ^ Z.of_nat f.
Proof.
  intros Hu. rewrite Nat2Z.inj_succ, <- Z.add_1_r, pow2_succ in Hu by lia.
  split; [apply Z.div_pos; lia|]. apply Z.div_lt_upper_bound; lia.
Qed.

Section SerializeLoop.
Variable W : t_Width.
Hypothesis Hadm : admissible W.

Lemma div_by_ten (copy : Integer) :
  wf copy -> Width copy = W -> sval copy <> 0 ->
  (Is_Unlimited W = true -> 0 <= sval copy) ->
  exists q r,
    Div_Mod copy (kTen W) = Ok (q, r) /\
    wf q /\ Width q = W /\ Z.abs (sval q) = Z.abs (sval copy) / 10 /\
    (0 <= sval copy -> 0 <= sval q) /\
    (sval copy < 0 -> sval q <= 0) /\
    wf r /\ uval r = Z.abs (sval copy) mod 10.
Proof.
  intros Hwf HW Hnz Hunl.
  destruct (kTen_facts W Hadm) as (T1 & T2 & T3 & T4).
  pose proof (wf_length copy Hwf) as L4.
  destruct (Div_Mod_spec copy (kTen W) Hwf T1) as
    (q & r & E & Hwq & Hwr & HWq & HWr & Hlq & Hlr & Hsr & Hsq).
  - congruence.
  - rewrite T4. lia.
  - rewrite T4.
    assert (2 ^ 5 <= 2 ^ (8 * Z.of_nat (Nat.max (length (_bits copy)) (length (_bits (kTen W)))) - 1))
      by (apply pow2_le; lia).
    change (2 ^ 5) with 32 in *. lia.
  - rewrite HW. exact Hunl.
  - exact Hnz.
  - rewrite T4 in Hsr, Hsq.
    assert (0 <= Z.abs (sval copy) / 10) as Hq0 by (apply Z.div_pos; lia).
    assert (0 <= Z.abs (sval copy) mod 10 < 10) as Hr0 by (apply Z.mod_pos_bound; lia).
    exists q, r. split; [exact E|]. split; [exact Hwq|]. split; [congruence|].
    split; [|split; [|split; [|split; [exact Hwr|]]]].
    + rewrite Hsq. destruct (Z.sgn_spec (sval copy)) as [[? ->]|[[? ->]|[? ->]]]; lia.
    + intros Hp. rewrite Hsq. rewrite Z.sgn_pos by lia. lia.
    + intros Hn. rewrite Hsq. rewrite Z.sgn_neg by lia. lia.
    + rewrite sval_nonneg_uval; auto. lia.
Qed.

Lemma Serialize_loop_spec (fuel : nat) :
  forall (copy : Integer) (acc : list Z),
    wf copy -> Width copy = W ->
    (Is_Unlimited W = true -> 0 <= sval copy) ->
    Z.abs (sval copy) < 2 ^ Z.of_nat fuel ->
    Serialize_loop fuel W copy (map digit_ascii acc)
    = Ok (map digit_ascii (decimal_digits fuel (Z.abs (sval copy)) acc)).
Proof.
  destruct (kZero_facts W Hadm) as (Z1 & Z2 & Z3 & Z4).
  induction fuel as [|fuel IH]; intros copy acc Hwf HW Hunl Hlt;
    cbn [Serialize_loop decimal_digits]; rewrite operator_ne_spec, Z4 by assumption; cbn [bind].
  - change (2 ^ Z.of_nat 0) with 1 in Hlt.
    assert (sval copy = 0) as -> by lia. reflexivity.
  - destruct (Z.eqb_spec (sval copy) 0) as [E|NE]; cbn [negb].
    + rewrite E. reflexivity.
    + destruct (Z.eqb_spec (Z.abs (sval copy)) 0) as [E'|_]; [lia|].
      destruct (div_by_ten copy Hwf HW NE Hunl) as (q & r & E & Hwq & HWq & Hq & Hq1 & Hq2 & Hwr & Hur).
      unfold operator_mod, operator_div. rewrite E. cbn [bind fst snd].
      assert (0 <= Z.abs (sval copy) mod 10 < 10) as Hr0 by (apply Z.mod_pos_bound; lia).
      rewrite (digit_char_spec r (Z.abs (sval copy) mod 10)) by (auto; lia).
      change (digit_ascii (Z.abs (sval copy) mod 10) :: map digit_ascii acc)
        with (map digit_ascii (Z.abs (sval copy) mod 10 :: acc)).
      rewrite (IH q (Z.abs (sval copy) mod 10 :: acc) Hwq HWq).
      * now rewrite Hq.
      * intros EU. apply Hq1, Hunl, EU.
      * rewrite Hq. apply div10_bound. lia.
Qed.
End SerializeLoop.

Lemma Serialize_spec (fuel : nat) (x : Integer) :
  wf x -> nbits x <= Z.of_nat fuel ->
  Serialize fuel x = Ok (decimal_string fuel (sval x)).
Proof.
  intros Hwf Hfuel.
  pose proof (wf_admissible x Hwf) as Hadm.
  destruct (kZero_facts (Width x) Hadm) as (Z1 & Z2 & Z3 & Z4).
  pose proof (sval_range x Hwf) as Rx. pose proof (wf_nbits x Hwf) as Nx.
  assert (2 ^ (nbits x - 1) < 2 ^ Z.of_nat fuel) as Hpw by (apply pow2_lt; lia).
  assert (exists copy,
             (if negb (Is_Positive x) then c <- Get_Complement x;; Ok (c, false) else Ok (x, true))
             = Ok (copy, Z.leb 0 (sval x)) /\
             wf copy /\ Width copy = Width x /\ Z.abs (sval copy) = Z.abs (sval x) /\
             (Is_Unlimited (Width x) = true -> 0 <= sval copy))
    as (copy & Ec & Hwc & HWc & Hsc & Hunl).
  { rewrite Is_Positive_sval by assumption.
    destruct (Z.leb_spec 0 (sval x)) as [Hp|Hn]; cbn [negb].
    - exists x. split; [reflexivity|]. split; [exact Hwf|]. split; [reflexivity|].
      split; [reflexivity | auto].
    - destruct (Get_Complement_spec x Hwf) as (c & E & Hc & HW & Hrest).
      rewrite E. cbn [bind]. exists c.
      split; [reflexivity|]. split; [exact Hc|]. split; [exact HW|].
      destruct (Is_Unlimited (Width x)) eqn:EU.
      + destruct Hrest as [H1 _]. split; [lia|]. intros _. lia.
      + split; [|discriminate].
        destruct (Get_Complement_limited x Hwf EU) as (c' & E' & _ & _ & _ & Hs').
        rewrite E in E'. inversion E'; subst c'. rewrite Hs'.
        destruct (Z.eqb_spec (sval x) (- 2 ^ (nbits x - 1))); lia. }
  unfold Serialize, decimal_string. rewrite Ec. cbn [bind].
  rewrite operator_eq_spec, Z4 by assumption. cbn [bind].
  destruct (Z.eqb_spec (sval x) 0) as [E|NE]; [reflexivity|].
  change (@nil ascii) with (map digit_ascii []).
  rewrite (Serialize_loop_spec (Width x) Hadm fuel copy []); auto.
  - cbn [bind]. rewrite Hsc. reflexivity.
  - rewrite Hsc. lia.
Qed.

(** ** Properties of the digit list *)

Lemma decimal_digits_acc (fuel : nat) :
  forall u acc, decimal_digits fuel u acc = decimal_digits fuel u [] ++ acc.
Proof.
  induction fuel as [|fuel IH]; intros u acc; cbn [decimal_digits].
  - destruct (u =? 0); reflexivity.
  - destruct (u =? 0); [reflexivity|].
    rewrite (IH (u / 10) (u mod 10 :: acc)), (IH (u / 10) [u mod 10]).
    now rewrite <- app_assoc.
Qed.

Lemma decimal_digits_step (fuel : nat) (u : Z) :
  u <> 0 ->
  decimal_digits (S fuel) u [] = decimal_digits fuel (u / 10) [] ++ [u mod 10].
Proof.
  intros Hu. cbn [decimal_digits]. destruct (Z.eqb_spec u 0); [contradiction|].
  apply decimal_digits_acc.
Qed.

Lemma decimal_digits_zero (fuel : nat) : decimal_digits fuel 0 [] = [].
Proof. destruct fuel; reflexivity. Qed.

Lemma horner_app (a : Z) (l1 l2 : list Z) : horner a (l1 ++ l2) = horner (horner a l1) l2.
Proof. unfold horner. apply fold_left_app. Qed.

Lemma decimal_digits_spec (fuel : nat) :
  forall u, 0 <= u < 2 ^ Z.of_nat fuel ->
    Forall is_digit (decimal_digits fuel u []) /\
    horner 0 (decimal_digits fuel u []) = u /\
    (0 < u -> exists d rest, decimal_digits fuel u [] = d :: rest /\ 1 <= d <= 9).
Proof.
  induction fuel as [|fuel IH]; intros u Hu.
  - change (2 ^ Z.of_nat 0) with 1 in Hu. assert (u = 0) as -> by lia.
    cbn. split; [constructor|]. split; [reflexivity|]. intros; lia.
  - destruct (Z.eq_dec u 0) as [->|NE].
    + rewrite decimal_digits_zero. cbn. split; [constructor|]. split; [reflexivity|]. intros; lia.
    + rewrite decimal_digits_step by assumption.
      destruct (IH (u / 10) (div10_bound u fuel Hu)) as (I1 & I2 & I3).
      assert (0 <= u mod 10 < 10) as Hm by (apply Z.mod_pos_bound; lia).
      pose proof (Z.div_mod u 10 ltac:(lia)) as Hdm.
      split; [|split].
      * apply Forall_app. split; [exact I1|]. constructor; [unfold is_digit; lia | constructor].
      * rewrite horner_app, I2. unfold horner. cbn [fold_left]. lia.
      * intros _. destruct (Z.eq_dec (u / 10) 0) as [E0|N0].
        -- rewrite E0, decimal_digits_zero. cbn [app]. exists (u mod 10), []. split; [reflexivity | lia].
        -- destruct I3 as (d & rest & E & Hd); [lia|].
           rewrite E. cbn [app]. exists d, (rest ++ [u mod 10]). auto.
Qed.

Lemma horner_ge (ds : list Z) :
  forall a, 0 <= a -> Forall is_digit ds -> a <= horner a ds.
Proof.
  induction ds as [|d ds IH]; intros a Ha Hds; unfold horner; cbn [fold_left]; [lia|].
  apply Forall_cons_iff in Hds. destruct Hds as [Hd Hrest]. unfold is_digit in Hd.
  specialize (IH (10 * a + d) ltac:(lia) Hrest). unfold horner in IH. lia.
Qed.

(** ** Digit characters *)

Lemma digit_cases (d : Z) :
  is_digit d ->
  d = 0 \/ d = 1 \/ d = 2 \/ d = 3 \/ d = 4 \/ d = 5 \/ d = 6 \/ d = 7 \/ d = 8 \/ d = 9.
Proof. unfold is_digit. lia. Qed.

Lemma digit_ascii_facts (d : Z) :
  is_digit d ->
  Ascii.eqb (digit_ascii d) "+" = false /\
  Ascii.eqb (digit_ascii d) "-" = false /\
  char_bits (digit_ascii d) = d.
Proof.
  intros H. destruct (digit_cases d H) as [->|[->|[->|[->|[->|[->|[->|[->|[->| ->]]]]]]]]];
    repeat split; reflexivity.
Qed.

Section DeserializeLoop.
Variable W : t_Width.
Hypothesis Hadm : admissible W.

Lemma digit_integer (d : Z) :
  is_digit d ->
  let x := Integer_of_bitset W kWord_Bits_Cnt d in
  wf x /\ Width x = W /\ sval x = d.
Proof.
  intros Hd. unfold is_digit in Hd.
  destruct (Integer_new_facts W Hadm) as (N1 & N2 & N3 & N4).
  pose proof (wf_length _ N1) as L4.
  destruct (Integer_of_bitset_spec W kWord_Bits_Cnt d Hadm) as (R1 & R2 & R3 & R4).
  - reflexivity.
  - unfold kWord_Bits_Cnt. lia.
  - unfold kWord_Bits_Cnt. change (2 ^ Z.of_nat 8) with 256. lia.
  - cbv zeta. split; [exact R1|]. split; [exact R2|].
    apply sval_small; auto. change (2 ^ 31) with 2147483648. lia.
Qed.

(** One digit character after the sign position has been decided. *)
Lemma Deserialize_digit (i : nat) (result : Integer) (d : Z) (overflow_flag : bool) :
  wf result -> Width result = W -> is_digit d ->
  0 <= sval result -> (i = 0%nat -> sval result = 0) ->
  (Is_Unlimited W = false -> 10 * sval result < 2 ^ (nbits result - 1)) ->
  exists result2 overflow2,
    ('(result1, overflow1) <-
       (if Nat.eqb i 0 then Ok (result, overflow_flag)
        else Mul result (kTen W) overflow_flag) ;;
     '(result2, overflow2, _) <-
       Add result1 (Integer_of_bitset W kWord_Bits_Cnt d) overflow1 false ;;
     Ok (result2, overflow2))
    = Ok (result2, overflow2) /\
    wf result2 /\ Width result2 = W /\
    if Is_Unlimited W
    then sval result2 = 10 * sval result + d /\ overflow2 = overflow_flag
    else nbits result2 = nbits result /\
         uval result2 = (10 * sval result + d) mod 2 ^ nbits result /\
         overflow2 = overflow_flag || negb (in_range (nbits result) (10 * sval result + d)).
Proof.
  intros Hwf HW Hd Ha Hi Hfit.
  destruct (kTen_facts W Hadm) as (T1 & T2 & T3 & T4).
  destruct (digit_integer d Hd) as (G1 & G2 & G3).
  assert (forall x, wf x -> Width x = W -> Is_Unlimited W = false -> length (_bits x) = length (_bits result)) as Hsame.
  { intros x (_ & _ & Hx) HWx EU. destruct Hwf as (_ & _ & Ht).
    rewrite HWx in Hx. rewrite HW in Ht. destruct W; [congruence | discriminate]. }
  assert (exists result1,
             (if Nat.eqb i 0 then Ok (result, overflow_flag)
              else Mul result (kTen W) overflow_flag) = Ok (result1, overflow_flag) /\
             wf result1 /\ Width result1 = W /\ sval result1 = 10 * sval result)
    as (result1 & E1 & Hw1 & HW1 & Hs1).
  { destruct (Nat.eqb_spec i 0) as [E|NE].
    - exists result. split; [reflexivity|]. split; [exact Hwf|]. split; [exact HW|].
      rewrite (Hi E). reflexivity.
    - destruct (Mul_spec_nonneg result (kTen W) overflow_flag Hwf T1 Ha) as (r & Er & Hr1 & Hr2 & Hr3 & _).
      + rewrite T4. lia.
      + rewrite HW, T2, Get_Max_idem. intros EU. rewrite T4.
        rewrite (Hsame (kTen W) T1 T2 EU), Nat.max_id. fold (nbits result).
        specialize (Hfit EU). lia.
      + rewrite HW, T2, Get_Max_idem in Hr2. rewrite T4 in Hr3.
        exists r. split; [exact Er|]. split; [exact Hr1|]. split; [exact Hr2|].
        rewrite Hr3. ring. }
  rewrite E1. cbn [bind].
  destruct (Add_spec result1 (Integer_of_bitset W kWord_Bits_Cnt d) overflow_flag false Hw1 G1)
    as (res & o & c & E & Hres & HWres & _ & Hrest).
  rewrite HW1, G2, Get_Max_idem in HWres, Hrest. rewrite Hs1, G3 in Hrest.
  rewrite E. cbn [bind]. exists res, o. split; [reflexivity|]. split; [exact Hres|].
  split; [exact HWres|].
  destruct (Is_Unlimited W) eqn:EU.
  - destruct Hrest as (H1 & H2 & _). auto.
  - rewrite (Hsame _ Hw1 HW1 eq_refl), (Hsame _ G1 G2 eq_refl), Nat.max_id in Hrest.
    fold (nbits result) in Hrest. destruct Hrest as (H1 & H2 & H3).
    split; [unfold nbits; now rewrite H1 | auto].
Qed.

Lemma Deserialize_loop_digits (ds : list Z) :
  forall (i : nat) (result : Integer) (is_positive overflow_flag : bool),
    wf result -> Width result = W -> Forall is_digit ds ->
    0 <= sval result -> (i = 0%nat -> sval result = 0) ->
    (Is_Unlimited W = false -> horner (sval result) ds < 2 ^ (nbits result - 1)) ->
    exists result',
      Deserialize_loop W i (map digit_ascii ds) result is_positive overflow_flag
      = Ok (result', is_positive, overflow_flag) /\
      wf result' /\ Width result' = W /\ sval result' = horner (sval result) ds /\
      (Is_Unlimited W = false -> nbits result' = nbits result).
Proof.
  induction ds as [|d ds IH]; intros i result pos o Hwf HW Hds Ha Hi Hfit.
  - cbn [map Deserialize_loop]. exists result.
    split; [reflexivity|]. split; [assumption|]. split; [assumption|].
    split; [reflexivity|]. intros; reflexivity.
  - apply Forall_cons_iff in Hds. destruct Hds as [Hd Hrest].
    destruct (digit_ascii_facts d Hd) as (C1 & C2 & C3).
    cbn [map Deserialize_loop]. rewrite C1, C2, !andb_false_r, C3.
    assert (0 <= 10 * sval result + d) as Hnn by (unfold is_digit in Hd; lia).
    pose proof (horner_ge ds (10 * sval result + d) Hnn Hrest) as Hmono.
    change (horner (sval result) (d :: ds)) with (horner (10 * sval result + d) ds) in *.
    destruct (Deserialize_digit i result d o Hwf HW Hd Ha Hi) as (r2 & o2 & E & Hw2 & HW2 & Hrest2).
    { intros EU. specialize (Hfit EU). unfold is_digit in Hd. lia. }
    set (body := bind _ _) in E.
    assert (exists r2', body = Ok (r2', o) /\ wf r2' /\ Width r2' = W /\
                         sval r2' = 10 * sval result + d /\
                         (Is_Unlimited W = false -> nbits r2' = nbits result))
      as (r2' & E' & Hw2' & HW2' & Hs2' & Hn2').
    { exists r2. rewrite E. destruct (Is_Unlimited W) eqn:EU.
      - destruct Hrest2 as [H1 ->].
        split; [reflexivity|]. split; [assumption|]. split; [assumption|].
        split; [assumption | discriminate].
      - destruct Hrest2 as (H1 & H2 & ->). specialize (Hfit eq_refl).
        pose proof (wf_nbits result Hwf).
        assert (in_range (nbits result) (10 * sval result + d) = true) as Hin.
        { unfold in_range. apply andb_true_intro.
          pose proof (pow2_pos (nbits result - 1)).
          split; [apply Z.leb_le | apply Z.ltb_lt]; lia. }
        rewrite Hin, orb_false_r.
        split; [reflexivity|]. split; [assumption|]. split; [assumption|].
        split; [|intros; assumption].
        apply sval_unique; [now apply wf_words_ok | lia | now rewrite H1 | rewrite H1].
        pose proof (pow2_pos (nbits result - 1)). lia. }
    clear E Hrest2.
    unfold body in E'. clear body.
    match goal with
    | |- context [bind ?m ?k] =>
        replace (bind m k)
          with (bind (Ok (r2', o)) (fun '(result2, overflow2) =>
                  Deserialize_loop W (S i) (map digit_ascii ds) result2 pos overflow2))
    end.
    + cbn [bind].
      destruct (IH (S i) r2' pos o Hw2' HW2' Hrest) as (r' & Er & Hwr & HWr & Hsr & Hnr).
      * lia.
      * discriminate.
      * intros EU. rewrite Hs2', (Hn2' EU). apply Hfit, EU.
      * exists r'. split; [exact Er|]. split; [exact Hwr|]. split; [exact HWr|].
        split; [congruence|]. intros EU. rewrite (Hnr EU). apply Hn2', EU.
    + rewrite <- E'.
      destruct (if Nat.eqb i 0 then Ok (result, o) else Mul result (kTen W) o)
        as [[r1 o1]| | | |]; cbn [bind]; try reflexivity.
      destruct (Add r1 (Integer_of_bitset W kWord_Bits_Cnt d) o1 false)
        as [[[r o'] c']| | | |]; cbn [bind]; reflexivity.
Qed.
End DeserializeLoop.

(** ** Deserializing what [Serialize] wrote *)

Lemma pow2_mod5 (k : nat) : 2 ^ Z.of_nat k mod 5 <> 0.
Proof.
  induction k as [|k IH].
  - cbn. lia.
  - rewrite Nat2Z.inj_succ, <- Z.add_1_r, pow2_succ by lia.
    rewrite <- Z.mul_mod_idemp_r by lia.
    pose proof (Z.mod_pos_bound (2 ^ Z.of_nat k) 5 ltac:(lia)) as Hb.
    set (r := 2 ^ Z.of_nat k mod 5) in *. clearbody r.
    assert (r = 1 \/ r = 2 \/ r = 3 \/ r = 4) as [->|[->|[->| ->]]] by lia; cbn; lia.
Qed.

Lemma pow2_mod10 (k : Z) : 0 <= k -> 2 ^ k mod 10 <> 0.
Proof.
  intros Hk E. apply (pow2_mod5 (Z.to_nat k)). rewrite Z2Nat.id by lia.
  pose proof (Z.div_mod (2 ^ k) 10 ltac:(lia)) as Hdm. rewrite E in Hdm.
  rewrite Hdm. replace (10 * (2 ^ k / 10) + 0) with ((2 * (2 ^ k / 10)) * 5) by lia.
  apply Z.mod_mul. lia.
Qed.

Lemma Deserialize_loop_app (W : t_Width) (l1 : list ascii) :
  forall (l2 : list ascii) (i : nat) (r : Integer) (p o : bool),
    Deserialize_loop W i (l1 ++ l2) r p o
    = bind (Deserialize_loop W i l1 r p o)
        (fun '(r', p', o') => Deserialize_loop W (i + length l1) l2 r' p' o').
Proof.
  induction l1 as [|c l1 IH]; intros l2 i r p o.
  - cbn [app Deserialize_loop bind length]. now rewrite Nat.add_0_r.
  - cbn [app Deserialize_loop length].
    replace (i + S (length l1))%nat with (S i + length l1)%nat by lia.
    destruct (Nat.eqb i 0 && Ascii.eqb c "+"); [apply IH|].
    destruct (Nat.eqb i 0 && Ascii.eqb c "-"); [apply IH|].
    destruct (if Nat.eqb i 0 then Ok (r, o) else Mul r (kTen W) o)
      as [[r1 o1]| | | |]; cbn [bind]; try reflexivity.
    destruct (Add r1 (Integer_of_bitset W kWord_Bits_Cnt (char_bits c)) o1 false)
      as [[[r2 o2] c2]| | | |]; cbn [bind]; try reflexivity.
    apply IH.
Qed.

Lemma list_ascii_decimal (fuel : nat) (v : Z) :
  v <> 0 ->
  list_ascii_of_string (decimal_string fuel v)
  = (if Z.leb 0 v then [] else ["-"%char])
    ++ map digit_ascii (decimal_digits fuel (Z.abs v) []).
Proof.
  intros Hv. unfold decimal_string. destruct (Z.eqb_spec v 0); [contradiction|].
  destruct (Z.leb 0 v); cbn [list_ascii_of_string app];
    now rewrite list_ascii_of_string_of_list_ascii.
Qed.

Section DeserializeString.
Variable W : t_Width.
Hypothesis Hadm : admissible W.

Lemma Deserialize_signed_digits (negative : bool) (ds : list Z) :
  Forall is_digit ds ->
  (Is_Unlimited W = false -> horner 0 ds < 2 ^ (nbits (Integer_new W) - 1)) ->
  exists result,
    Deserialize_loop W 0 ((if negative then ["-"%char] else []) ++ map digit_ascii ds)
      (Integer_new W) true false
    = Ok (result, negb negative, false) /\
    wf result /\ Width result = W /\ sval result = horner 0 ds /\
    (Is_Unlimited W = false -> nbits result = nbits (Integer_new W)).
Proof.
  intros Hds Hfit.
  destruct (kZero_facts W Hadm) as (Z1 & Z2 & Z3 & Z4). unfold kZero in *.
  destruct negative; cbn [app negb].
  - cbn [Deserialize_loop]. change (Nat.eqb 0 0 && Ascii.eqb "-" "+") with false.
    change (Nat.eqb 0 0 && Ascii.eqb "-" "-") with true. cbv iota.
    destruct (Deserialize_loop_digits W Hadm ds 1 (Integer_new W) false false Z1 Z2 Hds)
      as (r & E & H1 & H2 & H3 & H4).
    + rewrite Z4. lia.
    + discriminate.
    + rewrite Z4. exact Hfit.
    + rewrite Z4 in H3. exists r. auto.
  - destruct (Deserialize_loop_digits W Hadm ds 0 (Integer_new W) true false Z1 Z2 Hds)
      as (r & E & H1 & H2 & H3 & H4).
    + rewrite Z4. lia.
    + intros _. exact Z4.
    + rewrite Z4. exact Hfit.
    + rewrite Z4 in H3. exists r. auto.
Qed.

Lemma Deserialize_decimal_string (fuel : nat) (v : Z) :
  Z.abs v < 2 ^ Z.of_nat fuel ->
  (Is_Unlimited W = false -> Z.abs v < 2 ^ (nbits (Integer_new W) - 1)) ->
  exists y, Deserialize W (decimal_string fuel v) = Ok y /\
            wf y /\ Width y = W /\ sval y = v.
Proof.
  intros Hfuel Hfit.
  destruct (kZero_facts W Hadm) as (Z1 & Z2 & Z3 & Z4). unfold kZero in *.
  destruct (decimal_digits_spec fuel (Z.abs v) (conj (Z.abs_nonneg v) Hfuel)) as (D1 & D2 & D3).
  destruct (Z.eq_dec v 0) as [->|NE].
  - destruct (Deserialize_signed_digits false [0]) as (r & E & H1 & H2 & H3 & H4).
    + constructor; [unfold is_digit; lia | constructor].
    + intros EU. specialize (Hfit EU). cbn in *. lia.
    + exists r. unfold Deserialize. change (list_ascii_of_string (decimal_string fuel 0))
        with ([] ++ map digit_ascii [0]). cbn [app negb] in E |- *. rewrite E. cbn [bind].
      auto.
  - destruct (Deserialize_signed_digits (negb (Z.leb 0 v)) (decimal_digits fuel (Z.abs v) []) D1)
      as (r & E & H1 & H2 & H3 & H4).
    + rewrite D2. exact Hfit.
    + rewrite D2 in H3. unfold Deserialize. rewrite list_ascii_decimal by assumption.
      destruct (Z.leb_spec 0 v) as [Hp|Hn]; cbn [negb] in E; rewrite E; cbn [bind].
      * exists r. split; [reflexivity|]. split; [exact H1|]. split; [exact H2|].
        rewrite H3. now apply Z.abs_eq.
      * destruct (Get_Complement_spec r H1) as (c & Ec & Hc1 & Hc2 & Hrest).
        rewrite Ec. exists c. split; [reflexivity|]. split; [exact Hc1|]. split; [congruence|].
        rewrite H2 in Hrest. destruct (Is_Unlimited W) eqn:EU.
        -- destruct Hrest as [-> _]. rewrite H3, Z.abs_neq; [apply Z.opp_involutive|].
           apply Z.lt_le_incl. exact Hn.
        -- destruct Hrest as [Hl Hu]. specialize (Hfit eq_refl). specialize (H4 eq_refl).
           assert (nbits c = nbits r) as Hnc by (unfold nbits; now rewrite Hl).
           pose proof (wf_nbits r H1).
           apply sval_unique; [now apply wf_words_ok | lia | | rewrite Hnc, H4; lia].
           rewrite Hnc, Hu, H3. f_equal. lia.
Qed.

(** The most negative value of a limited width prints, but its digits
    overflow on the way back: the magnitude is built before the sign. *)
Lemma Deserialize_most_negative (fuel : nat) (v : Z) :
  Is_Unlimited W = false ->
  v = - 2 ^ (nbits (Integer_new W) - 1) ->
  Z.abs v < 2 ^ Z.of_nat fuel ->
  exists r, Deserialize W (decimal_string fuel v) = OverflowException r.
Proof.
  intros EU Hv Hfuel.
  destruct (kZero_facts W Hadm) as (Z1 & Z2 & Z3 & Z4). unfold kZero in *.
  pose proof (wf_nbits _ Z1) as N0.
  set (N := nbits (Integer_new W)) in *.
  assert (0 < 2 ^ (N - 1)) as Hp by (apply pow2_pos; lia).
  set (u := 2 ^ (N - 1)) in *.
  assert (Z.abs v = u) as Habs by lia.
  assert (v <> 0) as NE by lia.
  pose proof (pow2_mod10 (N - 1) ltac:(lia)) as Hm10. fold u in Hm10.
  assert (0 <= u mod 10 < 10) as Hm by (apply Z.mod_pos_bound; lia).
  pose proof (Z.div_mod u 10 ltac:(lia)) as Hdm.
  destruct fuel as [|fuel]; [change (2 ^ Z.of_nat 0) with 1 in Hfuel; lia|].
  destruct (decimal_digits_spec fuel (u / 10)) as (D1 & D2 & _).
  { apply div10_bound. lia. }
  unfold Deserialize. rewrite list_ascii_decimal by assumption.
  destruct (Z.leb_spec 0 v); [lia|].
  rewrite Habs, decimal_digits_step by lia.
  rewrite map_app, app_assoc, Deserialize_loop_app.
  destruct (Deserialize_signed_digits true (decimal_digits fuel (u / 10) []) D1)
    as (r & E & H1 & H2 & H3 & H4).
  { intros _. rewrite D2. fold N u. lia. }
  rewrite E. cbn [bind negb]. rewrite D2 in H3. specialize (H4 EU). fold N in H4.
  set (i := (0 + length _)%nat).
  assert (i <> 0%nat) as Hi by (unfold i; rewrite length_app; cbn [length]; lia).
  assert (is_digit (u mod 10)) as Hd by (unfold is_digit; lia).
  destruct (digit_ascii_facts _ Hd) as (C1 & C2 & C3).
  cbn [map Deserialize_loop]. rewrite C1, C2, !andb_false_r, C3.
  destruct (Deserialize_digit W Hadm i r (u mod 10) false H1 H2 Hd) as (r2 & o2 & E2 & Hw2 & HW2 & Hrest).
  { rewrite H3. apply Z.div_pos; lia. }
  { intros; contradiction. }
  { intros _. rewrite H3, H4. fold u. lia. }
  rewrite EU in Hrest. destruct Hrest as (_ & _ & Ho).
  rewrite H3, H4 in Ho. replace (10 * (u / 10) + u mod 10) with u in Ho by lia.
  assert (in_range N u = false) as Hout.
  { unfold in_range. fold u. destruct (Z.ltb_spec u u); [lia|]. apply andb_false_r. }
  rewrite Hout in Ho. cbn in Ho. subst o2.
  set (body := bind _ _) in E2.
  match goal with
  | |- context [bind ?m ?k] =>
      replace (bind m k)
        with (bind body (fun '(result2, overflow2) =>
                Deserialize_loop W (S i) [] result2 false overflow2))
  end.
  - rewrite E2. cbn [bind Deserialize_loop]. eauto.
  - unfold body.
    destruct (if Nat.eqb i 0 then Ok (r, false) else Mul r (kTen W) false)
      as [[r1 o1]| | | |]; cbn [bind]; try reflexivity.
    destruct (Add r1 (Integer_of_bitset W kWord_Bits_Cnt (u mod 10)) o1 false)
      as [[[r' o'] c']| | | |]; cbn [bind]; reflexivity.
Qed.
End DeserializeString.

(** ** Results are well-formed *)

Lemma Get_Normalized_Ok (W' : t_Width) (x y : Integer) (aw : nat) :
  wf x -> Get_Normalized W' x aw = Ok y ->
  Width y = W' /\ length (_bits y) = aw /\ words_ok y /\ sval y = sval x.
Proof.
  intros Hwf E.
  destruct (Nat.le_gt_cases (length (_bits x)) aw) as [Hle|Hgt].
  - destruct (Get_Normalized_spec W' x aw Hwf Hle) as (y' & E' & H).
    rewrite E in E'. inversion E'; subst y'. exact H.
  - unfold Get_Normalized in E. rewrite wf_Get_Actual_Width in E by assumption.
    destruct (Nat.eqb_spec (length (_bits x)) aw); [lia|].
    destruct (Nat.ltb_spec aw (length (_bits x))); [discriminate | lia].
Qed.

Lemma Get_Positive_wf (x : Integer) :
  wf x -> exists y, Get_Positive x = Ok y /\ wf y /\ Width y = Width x.
Proof.
  intros Hwf. destruct (Is_Unlimited (Width x)) eqn:EU.
  - destruct (Get_Positive_unlimited x Hwf EU) as (y & E & H1 & H2 & _). eauto.
  - destruct (Get_Positive_limited x Hwf EU) as (y & E & H1 & H2 & _). eauto.
Qed.

Lemma Mul_loop_wf (W : t_Width) (k : nat) :
  forall (left right result : Integer) (carry_flag : bool),
    wf left -> wf right -> wf result ->
    Width left = W -> Width right = W -> Width result = W ->
    exists result' carry_flag',
      Mul_loop k left right result carry_flag = Ok (result', carry_flag') /\
      wf result' /\ Width result' = W.
Proof.
  induction k as [|k IH]; intros left right result cf Hl Hr Hres HWl HWr HWres.
  - cbn [Mul_loop]. eauto.
  - cbn [Mul_loop].
    assert (exists r1 c1,
               (if operator_index right 0
                then ' (r, _, c) <- Add result left false cf;; Ok (r, c)
                else Ok (result, cf)) = Ok (r1, c1) /\ wf r1 /\ Width r1 = W)
      as (r1 & c1 & E1 & Hw1 & HW1).
    { destruct (operator_index right 0); [|eauto].
      destruct (Add_spec result left false cf Hres Hl) as (res & o & c & E & Hwf & HW & _).
      rewrite E. cbn [bind]. exists res, c. rewrite HWres, HWl, Get_Max_idem in HW. auto. }
    rewrite E1. cbn [bind].
    destruct (operator_shl_1 left Hl) as (S1 & S2 & _).
    destruct (operator_shr_1 right Hr) as (T1 & T2 & _).
    apply IH; auto; congruence.
Qed.

Lemma Shrink_general (x : Integer) :
  wf x -> Width x = kUnlimited ->
  wf (Shrink x) /\ Width (Shrink x) = kUnlimited /\ uval (Shrink x) = uval x /\
  0 <= sval (Shrink x) /\
  (uval x = 0 -> length (_bits (Shrink x)) = kWidth_Min).
Proof.
  intros Hwf HW. pose proof (wf_words_ok x Hwf) as Hok.
  destruct (Get_Msb_Idx_spec x Hwf) as (M1 & M2 & M3).
  set (m := Get_Msb_Idx x) in *.
  set (size := Nat.max ((m + 1) / kWord_Bits_Cnt + 1) kWidth_Min).
  assert (Z.of_nat m + 2 <= 8 * Z.of_nat size) as Hsize.
  { unfold size, kWord_Bits_Cnt, kWidth_Min.
    pose proof (Nat.div_mod_eq (m + 1) 8). pose proof (Nat.mod_upper_bound (m + 1) 8). lia. }
  assert (4 <= size)%nat as Hs4 by (unfold size, kWidth_Min; lia).
  assert (2 ^ (Z.of_nat m + 1) <= 2 ^ (8 * Z.of_nat size - 1)) as Hpw by (apply pow2_le; lia).
  assert (2 ^ (8 * Z.of_nat size - 1) < 2 ^ (8 * Z.of_nat size)) as Hpw2 by (apply pow2_lt; lia).
  destruct (vec_resize_spec size (_bits x) Hok) as (R1 & R2 & R3).
  { fold (uval x). lia. }
  unfold Shrink. fold m size.
  set (y := {| Width := Width x; _bits := vec_resize (_bits x) size |}).
  assert (wf y) as Hwf'.
  { unfold y. repeat split; cbn [_bits Width]; auto.
    - rewrite R2. exact Hs4.
    - rewrite HW. exact I. }
  assert (uval y = uval x) as Hu by exact R3.
  assert (nbits y = 8 * Z.of_nat size) as Hn by (unfold nbits, y; cbn [_bits]; now rewrite R2).
  pose proof (uval_range x Hok) as Rx.
  split; [exact Hwf'|]. split; [exact HW|]. split; [exact Hu|]. split.
  - rewrite uval_small_sval; auto; rewrite ?Hn, Hu; lia.
  - intros Hz. unfold y. cbn [_bits]. rewrite R2.
    assert (m = 0%nat) as Hm0.
    { destruct (Nat.eq_dec m 0) as [|NE]; [assumption|].
      specialize (M3 NE). rewrite Hz in M3.
      pose proof (pow2_pos (Z.of_nat m)). lia. }
    unfold size. rewrite Hm0. reflexivity.
Qed.

(** Whatever [Mul] returns on well-formed operands is well-formed, and an
    unlimited zero product has the minimal length. *)
Lemma Mul_wf (lhs rhs result : Integer) (overflow_flag overflow_flag' : bool) :
  wf lhs -> wf rhs ->
  Mul lhs rhs overflow_flag = Ok (result, overflow_flag') ->
  wf result /\ Width result = Get_Max (Width lhs) (Width rhs) /\
  (Is_Unlimited (Get_Max (Width lhs) (Width rhs)) = true -> sval result = 0 ->
   length (_bits result) = kWidth_Min).
Proof.
  intros Hl Hr E.
  pose proof (fits_Get_Max lhs rhs Hl Hr) as Hfit.
  unfold Mul, Get_Normalized_Existing in E.
  rewrite (wf_Get_Actual_Width lhs), (wf_Get_Actual_Width rhs) in E by assumption.
  set (W := Get_Max (Width lhs) (Width rhs)) in *.
  set (A := Nat.max (length (_bits lhs)) (length (_bits rhs))) in *.
  assert (admissible W) as Hadm.
  { destruct Hfit as [F1 F2]. unfold admissible. destruct W; auto. lia. }
  destruct (Get_Positive_wf lhs Hl) as (lpos & ELp & Hwlp & _).
  destruct (Get_Positive_wf rhs Hr) as (rpos & ERp & Hwrp & _).
  rewrite ELp in E. cbn [bind] in E.
  destruct (Get_Normalized W lpos A) as [left0| | | |] eqn:EL0; cbn [bind] in E; try discriminate.
  rewrite ERp in E. cbn [bind] in E.
  destruct (Get_Normalized W rpos A) as [right0| | | |] eqn:ER0; cbn [bind] in E; try discriminate.
  destruct (Get_Normalized_Ok _ _ _ _ Hwlp EL0) as (L1 & L2 & L3 & _).
  destruct (Get_Normalized_Ok _ _ _ _ Hwrp ER0) as (R1 & R2 & R3 & _).
  pose proof (Get_Normalized_wf _ _ _ _ EL0 L1 L2 L3 Hfit) as Hwl0.
  pose proof (Get_Normalized_wf _ _ _ _ ER0 R1 R2 R3 Hfit) as Hwr0.
  assert (exists left right,
             (if Is_Unlimited W then Get_Normalized W left0 (2 * A) else Ok left0) = Ok left /\
             (if Is_Unlimited W then Get_Normalized W right0 (2 * A) else Ok right0) = Ok right /\
             wf left /\ wf right /\ Width left = W /\ Width right = W)
    as (left & right & EL & ER & Hwl & Hwr & HWL & HWR).
  { destruct (Is_Unlimited W) eqn:EU.
    - destruct (Get_Normalized_spec W left0 (2 * A) Hwl0) as (l1 & El1 & ? & ? & ? & ?); [lia|].
      destruct (Get_Normalized_spec W right0 (2 * A) Hwr0) as (r1 & Er1 & ? & ? & ? & ?); [lia|].
      assert (fits_width W (2 * A)) as Hfit2.
      { destruct Hfit as [F _]. split; [unfold kWidth_Min in *; lia|].
        destruct W; [discriminate | exact I]. }
      exists l1, r1. split; [exact El1|]. split; [exact Er1|].
      split; [eapply Get_Normalized_wf; eauto|]. split; [eapply Get_Normalized_wf; eauto|]. auto.
    - exists left0, right0. auto 10. }
  rewrite EL in E. cbn [bind] in E. rewrite ER in E. cbn [bind] in E.
  destruct (Integer_new_facts W Hadm) as (Hwf0 & Hu0 & HW0 & Hlen0).
  destruct (Mul_loop_wf W (S (Get_Msb_Idx right)) left right (Integer_new W) false)
    as (res1 & cf & Eloop & Hw1 & HW1); auto.
  rewrite Eloop in E. cbn [bind] in E.
  destruct (Is_Unlimited W) eqn:EU.
  - destruct (Shrink_general res1 Hw1) as (K1 & K2 & K3 & K4 & K5).
    { rewrite HW1. destruct W; [discriminate | reflexivity]. }
    assert (Width (Shrink res1) = W) as KW by (rewrite K2; destruct W; [discriminate | reflexivity]).
    destruct (negb (xorb (Is_Positive lhs) (Is_Positive rhs))).
    + inversion E; subst. split; [exact K1|]. split; [exact KW|].
      intros _ Hz. apply K5. rewrite <- K3. now apply sval_zero_uval.
    + destruct (Get_Complement_spec (Shrink res1) K1) as (c & Ec & Hc1 & Hc2 & Hrest).
      rewrite Ec in E. cbn [bind] in E. inversion E; subst.
      split; [exact Hc1|]. split; [congruence|]. intros _ Hz.
      rewrite K2 in Hrest. cbn [Is_Unlimited] in Hrest. destruct Hrest as [Hs Hlen].
      rewrite Hlen.
      pose proof (pow2_pos (nbits (Shrink res1) - 1)). pose proof (wf_nbits _ K1).
      destruct (Z.eqb_spec (sval (Shrink res1)) (- 2 ^ (nbits (Shrink res1) - 1))); [lia|].
      apply K5. rewrite <- K3. apply sval_zero_uval; [exact K1 | lia].
  - destruct (negb (xorb (Is_Positive lhs) (Is_Positive rhs))).
    + inversion E; subst. split; [exact Hw1|]. split; [exact HW1 | discriminate].
    + destruct (Get_Complement_spec res1 Hw1) as (c & Ec & Hc1 & Hc2 & _).
      rewrite Ec in E. cbn [bind] in E. inversion E; subst.
      split; [exact Hc1|]. split; [congruence | discriminate].
Qed.

(** A well-formed value whose number is zero has every word zero. *)
Lemma uval_words_zero (ws : list Z) :
  Forall word_ok ws -> uval_words ws = 0 -> Forall (fun w => w = 0) ws.
Proof.
  induction 1 as [|w t Hw Ht IH]; intros E; constructor.
  - cbn [uval_words] in E. pose proof (uval_words_range t Ht). unfold word_ok in Hw. lia.
  - apply IH. cbn [uval_words] in E. pose proof (uval_words_range t Ht). unfold word_ok in Hw. lia.
Qed.

Lemma zero_all_bits (x : Integer) :
  wf x -> sval x = 0 -> Forall (fun w => w = 0) (_bits x).
Proof.
  intros Hwf Hs. apply uval_words_zero; [now apply wf_words_ok|].
  now apply sval_zero_uval.
Qed.

(** ** Zero operands, the most negative value, rebinding the receiver *)

Lemma wf_lengths_le (x : Integer) (A : nat) :
  wf x -> (length (_bits x) <= A)%nat ->
  in_range (8 * Z.of_nat A) (sval x) = true.
Proof.
  intros Hwf Hle. pose proof (sval_range x Hwf) as R. pose proof (wf_nbits x Hwf) as N.
  assert (2 ^ (nbits x - 1) <= 2 ^ (8 * Z.of_nat A - 1)) by (apply pow2_le; unfold nbits in *; lia).
  unfold in_range. apply andb_true_intro. split; [apply Z.leb_le | apply Z.ltb_lt]; lia.
Qed.

Lemma operator_add_zero_r (x z : Integer) :
  wf x -> wf z -> sval z = 0 ->
  exists r, operator_add x z = Ok r /\ wf r /\ sval r = sval x /\
            Width r = Get_Max (Width x) (Width z).
Proof.
  intros Hx Hz Hs.
  destruct (operator_add_spec x z Hx Hz) as (r & Hr & HW & Hrest).
  rewrite Hs, Z.add_0_r in Hrest. exists r.
  destruct (Is_Unlimited _).
  - destruct Hrest as (E & H1 & _). auto.
  - destruct Hrest as (_ & _ & Hin).
    rewrite (wf_lengths_le x) in Hin by (auto; lia). destruct Hin as [E H1]. auto.
Qed.

Lemma operator_add_zero_l (x z : Integer) :
  wf x -> wf z -> sval z = 0 ->
  exists r, operator_add z x = Ok r /\ wf r /\ sval r = sval x /\
            Width r = Get_Max (Width z) (Width x).
Proof.
  intros Hx Hz Hs.
  destruct (operator_add_spec z x Hz Hx) as (r & Hr & HW & Hrest).
  rewrite Hs, Z.add_0_l in Hrest. exists r.
  destruct (Is_Unlimited _).
  - destruct Hrest as (E & H1 & _). auto.
  - destruct Hrest as (_ & _ & Hin).
    rewrite (wf_lengths_le x) in Hin by (auto; lia). destruct Hin as [E H1]. auto.
Qed.

Lemma most_negative_facts (n : nat) :
  (4 <= n)%nat ->
  wf (most_negative n) /\ nbits (most_negative n) = 8 * Z.of_nat n /\
  sval (most_negative n) = - 2 ^ (8 * Z.of_nat n - 1).
Proof.
  intros Hn. unfold most_negative.
  assert (length (repeat 0 (n - 1) ++ [128]) = n) as Hlen.
  { rewrite length_app, repeat_length. cbn [length]. lia. }
  assert (uval_words (repeat 0 (n - 1) ++ [128]) = 2 ^ (8 * Z.of_nat n - 1)) as Hu.
  { rewrite uval_words_app, uval_words_repeat0, repeat_length. cbn [uval_words].
    replace (8 * Z.of_nat n - 1) with (8 * Z.of_nat (n - 1) + 7) by lia.
    rewrite Z.pow_add_r by lia. change (2 ^ 7) with 128. lia. }
  split; [|split].
  - repeat split; cbn [_bits Width]; auto.
    + apply Forall_app. split; [apply Forall_repeat0|]. constructor; [unfold word_ok; lia | constructor].
    + rewrite Hlen. exact Hn.
  - unfold nbits. cbn [_bits]. now rewrite Hlen.
  - unfold sval, uval, nbits. cbn [_bits]. rewrite Hu, Hlen.
    rewrite (pow2_half (8 * Z.of_nat n)) by lia.
    destruct (Z.ltb_spec (2 ^ (8 * Z.of_nat n - 1)) (2 ^ (8 * Z.of_nat n - 1))); lia.
Qed.

Lemma sval_inj (x y : Integer) :
  wf x -> wf y -> Width x = Width y -> length (_bits x) = length (_bits y) ->
  sval x = sval y -> x = y.
Proof.
  intros Hx Hy HW Hlen Hs.
  apply Integer_ext; auto using wf_words_ok.
  rewrite (uval_sval_mod x Hx), (uval_sval_mod y Hy), Hs. unfold nbits. now rewrite Hlen.
Qed.

Lemma assign_result_failed (op : Integer -> outcome Integer) (x : Integer) :
  failed (snd (assign_result op x)) = true -> fst (assign_result op x) = x.
Proof.
  unfold assign_result, member_bind, member_eval, member_assign.
  destruct (op x); cbn; intros H; [discriminate | reflexivity..].
Qed.

Lemma assign_result_ok (op : Integer -> outcome Integer) (x v : Integer) :
  op x = Ok v -> assign_result op x = (v, Ok tt).
Proof.
  intros E. unfold assign_result, member_bind, member_eval, member_assign. now rewrite E.
Qed.

(** * The documented properties, settled on the code *)

(** C1. The division identity [q*y + r == x] fails on the code for a
    negative dividend that is not a multiple of the divisor: with width
    Fixed(4), [-7 / 2] is [-3] and [-7 % 2] is [1], so [q*y + r] is [-5].
    The showcase operands [-123456] and [678] give quotient [-182] and
    remainder [60], and [-182 * 678 + 60] is [-123336]. *)
Theorem C1_division_identity_fails :
  (x <- Deserialize (Fixed 4) "-7" ;; y <- Deserialize (Fixed 4) "2" ;;
   q <- operator_div x y ;; r <- operator_mod x y ;;
   p <- operator_mul q y ;; s <- operator_add p r ;;
   same <- operator_eq s x ;;
   qs <- Serialize 32 q ;; rs <- Serialize 32 r ;; ss <- Serialize 32 s ;;
   Ok (qs, rs, ss, same))
  = Ok ("-3"%string, "1"%string, "-5"%string, false)
  /\
  (x <- Deserialize (Fixed 4) "-123456" ;; y <- Deserialize (Fixed 4) "678" ;;
   q <- operator_div x y ;; r <- operator_mod x y ;;
   p <- operator_mul q y ;; s <- operator_add p r ;;
   same <- operator_eq s x ;;
   qs <- Serialize 32 q ;; rs <- Serialize 32 r ;; ss <- Serialize 32 s ;;
   Ok (qs, rs, ss, same))
  = Ok ("-182"%string, "60"%string, "-123336"%string, false).
Proof. split; vm_compute; reflexivity. Qed.

(** C2. A fixed-width multiplication whose exact product is representable
    raises the overflow error: in Fixed(4), [-1073741824 * 2] is
    [-2147483648], which fits in four bytes, yet [operator*] throws
    (the magnitude [2^31] has its sign bit set before the sign is applied). *)
Theorem C2_overflow_on_representable_product :
  in_range 32 (-1073741824 * 2) = true /\
  (x <- Deserialize (Fixed 4) "-1073741824" ;; y <- Deserialize (Fixed 4) "2" ;;
   operator_mul x y)
  = OverflowException (mkInteger (Fixed 4) [0; 0; 0; 128]) /\
  sval (mkInteger (Fixed 4) [0; 0; 0; 128]) = -1073741824 * 2.
Proof. repeat split; vm_compute; reflexivity. Qed.

(** C3. An unlimited multiplication is undefined on the most negative value
    of its current length: [-2147483647 - 1] is the four-word value
    [-2^31]; its positive projection has five words, and [Mul] copies them
    into a vector resized to four. *)
Theorem C3_unlimited_product_out_of_bounds :
  (x <- Deserialize kUnlimited "-2147483647" ;; y <- Deserialize kUnlimited "1" ;;
   operator_sub x y)
  = Ok (mkInteger kUnlimited [0; 0; 0; 128]) /\
  sval (mkInteger kUnlimited [0; 0; 0; 128]) = - 2 ^ 31 /\
  Get_Positive (mkInteger kUnlimited [0; 0; 0; 128])
  = Ok (mkInteger kUnlimited [0; 0; 0; 128; 0]) /\
  operator_mul (mkInteger kUnlimited [0; 0; 0; 128]) (kOne kUnlimited) = OutOfBounds.
Proof. repeat split; vm_compute; reflexivity. Qed.

(** C4. [Serialize] writes the minimal decimal string of the value: ["0"]
    when the value is zero, otherwise an optional ['-'] (present exactly for
    a negative value) and digits with a non-zero leading digit whose value
    is the magnitude; and whenever [Deserialize] accepts that string at the
    same width, it returns a well-formed object of that width with the same
    value, which [==] finds equal to the original.  It does accept it,
    except for the most negative value of a limited width. *)
Theorem C4_serialize_round_trip (fuel : nat) (x : Integer) :
  wf x -> nbits x <= Z.of_nat fuel ->
  exists s,
    Serialize fuel x = Ok s /\
    (sval x = 0 -> s = "0"%string) /\
    (sval x <> 0 ->
     exists d ds,
       s = ((if Z.leb 0 (sval x) then "" else "-")
            ++ string_of_list_ascii (map digit_ascii (d :: ds)))%string /\
       Forall is_digit (d :: ds) /\ 1 <= d /\
       horner 0 (d :: ds) = Z.abs (sval x)) /\
    (forall y, Deserialize (Width x) s = Ok y ->
       wf y /\ Width y = Width x /\ sval y = sval x /\ operator_eq y x = Ok true) /\
    (Is_Unlimited (Width x) = true \/ sval x <> - 2 ^ (nbits x - 1) ->
     exists y, Deserialize (Width x) s = Ok y).
Proof.
  intros Hwf Hfuel.
  pose proof (wf_admissible x Hwf) as Hadm.
  pose proof (sval_range x Hwf) as Rx. pose proof (wf_nbits x Hwf) as Nx.
  assert (2 ^ (nbits x - 1) < 2 ^ Z.of_nat fuel) as Hpw by (apply pow2_lt; lia).
  assert (Z.abs (sval x) < 2 ^ Z.of_nat fuel) as Habs by lia.
  assert (Is_Unlimited (Width x) = false -> nbits (Integer_new (Width x)) = nbits x) as Hnb.
  { intros EU. destruct (Integer_new_facts (Width x) Hadm) as (_ & _ & _ & Hl).
    destruct Hwf as (_ & _ & Hw). unfold nbits. rewrite Hl.
    destruct (Width x); [now rewrite Hw | discriminate]. }
  exists (decimal_string fuel (sval x)).
  split; [now apply Serialize_spec|].
  split; [|split; [|split]].
  - intros E. rewrite E. reflexivity.
  - intros E.
    destruct (decimal_digits_spec fuel (Z.abs (sval x)) (conj (Z.abs_nonneg _) Habs))
      as (D1 & D2 & D3).
    destruct D3 as (d & ds & Ed & Hd); [lia|].
    exists d, ds. rewrite <- Ed. split; [|split; [exact D1 | split; [lia | exact D2]]].
    unfold decimal_string. destruct (Z.eqb_spec (sval x) 0); [contradiction|].
    destruct (Z.leb 0 (sval x)); reflexivity.
  - intros y Ey.
    assert (wf y /\ Width y = Width x /\ sval y = sval x) as (Hwy & HWy & Hsy).
    { destruct (Is_Unlimited (Width x)) eqn:EU.
      - destruct (Deserialize_decimal_string (Width x) Hadm fuel (sval x) Habs)
          as (y' & Ey' & H1 & H2 & H3); [intros HU; congruence|].
        rewrite Ey in Ey'. inversion Ey'; subst y'. auto.
      - destruct (Z.eq_dec (sval x) (- 2 ^ (nbits x - 1))) as [Emin|NE].
        + destruct (Deserialize_most_negative (Width x) Hadm fuel (sval x) EU) as (r & Er).
          * now rewrite (Hnb eq_refl).
          * exact Habs.
          * rewrite Ey in Er. discriminate.
        + destruct (Deserialize_decimal_string (Width x) Hadm fuel (sval x) Habs)
            as (y' & Ey' & H1 & H2 & H3).
          * intros _. rewrite (Hnb eq_refl). lia.
          * rewrite Ey in Ey'. inversion Ey'; subst y'. auto. }
    split; [exact Hwy|]. split; [exact HWy|]. split; [exact Hsy|].
    rewrite operator_eq_spec, Hsy, Z.eqb_refl by assumption. reflexivity.
  - intros Hcase.
    destruct (Deserialize_decimal_string (Width x) Hadm fuel (sval x) Habs)
      as (y & Ey & _).
    + intros EU. rewrite (Hnb EU). destruct Hcase as [EU'|NE]; [congruence | lia].
    + eauto.
Qed.

Lemma wf_x12345 : wf x12345.
Proof.
  unfold wf, words_ok, x12345, word_ok, kWidth_Min; cbn [_bits Width length].
  repeat split; try lia. repeat constructor; lia.
Defined.

Lemma C4_serialize_round_trip_witness :
  wf x12345 /\ nbits x12345 <= Z.of_nat 32 /\ sval x12345 = 12345 /\
  Serialize 32 x12345 = Ok "12345"%string /\
  exists y, Deserialize (Fixed 4) "12345" = Ok y /\
            wf y /\ Width y = Fixed 4 /\ sval y = 12345 /\
            operator_eq y x12345 = Ok true.
Proof.
  assert (nbits x12345 <= Z.of_nat 32) as Hf by (vm_compute; discriminate).
  assert (sval x12345 = 12345) as Hv by (vm_compute; reflexivity).
  assert (Serialize 32 x12345 = Ok "12345"%string) as HS by (vm_compute; reflexivity).
  split; [exact wf_x12345|]. split; [exact Hf|]. split; [exact Hv|]. split; [exact HS|].
  destruct (C4_serialize_round_trip 32 x12345 wf_x12345 Hf) as (s & E & _ & D & R & T).
  rewrite HS in E. injection E as E. subst s.
  destruct T as (y & Ey).
  { right. rewrite Hv. intros H. vm_compute in H. discriminate H. }
  destruct (R y Ey) as (Hw & HW & Hs & He).
  exists y. split; [exact Ey|]. split; [exact Hw|]. split; [exact HW|].
  split; [rewrite Hs; exact Hv | exact He].
Defined.

Lemma wf_x_min4 : wf x_min4. Proof. unfold x_min4. wf_concrete. Defined.
Lemma wf_x_max4 : wf x_max4. Proof. unfold x_max4. wf_concrete. Defined.
Lemma wf_x5 : wf x5. Proof. unfold x5. wf_concrete. Defined.
Lemma wf_u_2p31 : wf u_2p31. Proof. unfold u_2p31. wf_concrete. Defined.

(** C5, as stated, fails: for the most negative Fixed(4) value the sum
    [x + (-x)] does not return, it raises the overflow error. *)
Lemma C5_counterexample :
  (nx <- operator_neg x_min4 ;; operator_add x_min4 nx)
  = OverflowException (kZero (Fixed 4)) /\
  ~ exists r, (nx <- operator_neg x_min4 ;; operator_add x_min4 nx) = Ok r.
Proof.
  assert ((nx <- operator_neg x_min4 ;; operator_add x_min4 nx)
          = OverflowException (kZero (Fixed 4))) as E by (vm_compute; reflexivity).
  split; [exact E|]. intros [r Er]. rewrite E in Er. discriminate.
Qed.

(** C5, amended.  For every well-formed [x] and every zero [z] of any
    admissible width, [x + z] and [z + x] return a value equal to [x]; and
    [x + (-x)] returns a value equal to zero unless [x] is the most negative
    value of a limited width, where negation wraps and the sum raises the
    overflow error carrying the truncated sum, all bits zero. *)
Theorem C5_additive_identity_and_inverse (x z : Integer) :
  wf x -> wf z -> sval z = 0 ->
  (exists r, operator_add x z = Ok r /\ operator_eq r x = Ok true) /\
  (exists r, operator_add z x = Ok r /\ operator_eq r x = Ok true) /\
  exists nx,
    operator_neg x = Ok nx /\
    if Is_Limited (Width x) && Z.eqb (sval x) (- 2 ^ (nbits x - 1))
    then exists r, operator_add x nx = OverflowException r /\ uval r = 0
    else exists r, operator_add x nx = Ok r /\
                   operator_eq r (kZero (Width x)) = Ok true.
Proof.
  intros Hx Hz Hs. split; [|split].
  - destruct (operator_add_zero_r x z Hx Hz Hs) as (r & E & Hr & Hsr & _).
    exists r. split; [exact E|]. rewrite operator_eq_spec, Hsr, Z.eqb_refl by assumption. reflexivity.
  - destruct (operator_add_zero_l x z Hx Hz Hs) as (r & E & Hr & Hsr & _).
    exists r. split; [exact E|]. rewrite operator_eq_spec, Hsr, Z.eqb_refl by assumption. reflexivity.
  - pose proof (wf_admissible x Hx) as Hadm.
    destruct (kZero_facts (Width x) Hadm) as (Z1 & Z2 & Z3 & Z4).
    pose proof (sval_range x Hx) as Rx. pose proof (wf_nbits x Hx) as Nx.
    assert (0 < 2 ^ (nbits x - 1)) as Hp by (apply pow2_pos; lia).
    destruct (Get_Complement_spec x Hx) as (nx & En & Hnx & HWn & Hrest).
    exists nx. split; [exact En|].
    destruct (operator_add_spec x nx Hx Hnx) as (r & Hr & HWr & Hadd).
    rewrite HWn, Get_Max_idem in HWr, Hadd.
    unfold Is_Limited. destruct (Is_Unlimited (Width x)) eqn:EU; cbn [negb andb].
    + destruct Hrest as [Hsn _]. destruct Hadd as (E & Hsr & _).
      exists r. split; [exact E|].
      rewrite operator_eq_spec, Hsr, Hsn, Z4 by assumption.
      replace (sval x + - sval x) with 0 by lia. reflexivity.
    + destruct (Get_Complement_limited x Hx EU) as (nx' & En' & _ & _ & Hln & Hsn).
      rewrite En in En'. inversion En'; subst nx'.
      rewrite Hln, Nat.max_id in Hadd. fold (nbits x) in Hadd.
      destruct Hadd as (_ & Hur & Hin). rewrite Hsn in Hur, Hin.
      rewrite (pow2_half (nbits x)) in Hur by lia.
      destruct (Z.eqb_spec (sval x) (- 2 ^ (nbits x - 1))) as [Emin|NE].
      * assert (in_range (nbits x) (sval x + sval x) = false) as Hout.
        { unfold in_range. destruct (Z.leb_spec (- 2 ^ (nbits x - 1)) (sval x + sval x)); [lia|].
          reflexivity. }
        rewrite Hout in Hin. exists r. split; [exact Hin|].
        rewrite Hur, Emin.
        replace (- 2 ^ (nbits x - 1) + - 2 ^ (nbits x - 1)) with ((-1) * (2 * 2 ^ (nbits x - 1))) by lia.
        apply Z.mod_mul. lia.
      * assert (in_range (nbits x) (sval x + - sval x) = true) as Hok.
        { unfold in_range. replace (sval x + - sval x) with 0 by lia.
          apply andb_true_intro. split; [apply Z.leb_le | apply Z.ltb_lt]; lia. }
        rewrite Hok in Hin. destruct Hin as [E Hsr]. exists r. split; [exact E|].
        rewrite operator_eq_spec, Hsr, Z4 by assumption.
        replace (sval x + - sval x) with 0 by lia. reflexivity.
Qed.

Lemma C5_additive_identity_and_inverse_witness :
  wf x5 /\ wf (kZero (Fixed 4)) /\ sval (kZero (Fixed 4)) = 0 /\
  (exists r, operator_add x5 (kZero (Fixed 4)) = Ok r /\ operator_eq r x5 = Ok true) /\
  (exists r, operator_add (kZero (Fixed 4)) x5 = Ok r /\ operator_eq r x5 = Ok true).
Proof.
  assert (wf (kZero (Fixed 4))) as Hz by (unfold kZero, Integer_new; wf_concrete).
  assert (sval (kZero (Fixed 4)) = 0) as Hs by (vm_compute; reflexivity).
  split; [exact wf_x5|]. split; [exact Hz|]. split; [exact Hs|].
  destruct (C5_additive_identity_and_inverse x5 (kZero (Fixed 4)) wf_x5 Hz Hs) as (A & B & _).
  split; [exact A | exact B].
Defined.

(** C6. [Factorial] raises the arithmetic error exactly on a negative
    receiver; it returns one for zero and one; and for a non-negative
    receiver whose factorial is representable it returns that factorial,
    the loop needing at most as many passes as the receiver's value.
    In Fixed(4), the factorial of 12 serializes to ["479001600"]. *)
Theorem C6_factorial (fuel : nat) (x : Integer) :
  wf x ->
  (Is_Positive x = false <-> sval x < 0) /\
  (sval x < 0 ->
   Factorial fuel x = ArithmeticException "Factorial Of Negative Number") /\
  (0 <= sval x -> forall msg, Factorial fuel x <> ArithmeticException msg) /\
  (sval x = 0 \/ sval x = 1 ->
   Factorial fuel x = Ok (kOne (Width x)) /\ sval (kOne (Width x)) = 1) /\
  (0 <= sval x ->
   (Is_Unlimited (Width x) = false -> Zfact (sval x) < 2 ^ (nbits x - 1)) ->
   (Z.to_nat (sval x) <= fuel)%nat ->
   exists y, Factorial fuel x = Ok y /\ wf y /\ Width y = Width x /\
             sval y = Zfact (sval x)) /\
  (n <- Deserialize (Fixed 4) "12" ;; y <- Factorial 12 n ;; Serialize 32 y)
  = Ok "479001600"%string.
Proof.
  intros Hwf.
  pose proof (wf_admissible x Hwf) as Hadm.
  destruct (kZero_facts (Width x) Hadm) as (Z1 & Z2 & Z3 & Z4).
  destruct (kOne_facts (Width x) Hadm) as (O1 & O2 & O3 & O4).
  destruct (kTwo_facts (Width x) Hadm) as (T1 & T2 & T3 & T4).
  assert (Is_Positive x = false <-> sval x < 0) as Hsign.
  { rewrite Is_Positive_sval by assumption. destruct (Z.leb_spec 0 (sval x)); split; intros; try lia; discriminate. }
  assert (forall v, 0 <= v -> (v = 0 \/ v = 1) ->
                    sval x = v -> Factorial fuel x = Ok (kOne (Width x))) as Hsmall.
  { intros v Hv Hcase Hs. unfold Factorial.
    rewrite Is_Positive_sval by assumption.
    destruct (Z.leb_spec 0 (sval x)); [|lia]. cbn [negb].
    rewrite operator_eq_spec, Z4 by assumption. cbn [bind].
    destruct (Z.eqb_spec (sval x) 0); cbn [bind]; [reflexivity|].
    rewrite operator_eq_spec, O4 by assumption. cbn [bind].
    destruct (Z.eqb_spec (sval x) 1); [reflexivity | lia]. }
  split; [exact Hsign|]. split; [|split; [|split; [|split]]].
  - intros Hneg. unfold Factorial. apply Hsign in Hneg. now rewrite Hneg.
  - intros Hpos msg E.
    assert (Is_Positive x = true) as Hp.
    { rewrite Is_Positive_sval by assumption. now apply Z.leb_le. }
    assert (no_base_throw (Factorial fuel x)) as Hna.
    { unfold Factorial. rewrite Hp. cbn [negb].
      apply no_base_throw_bind; [apply no_base_throw_operator_eq | intros is_zero].
      apply no_base_throw_bind.
      - destruct is_zero; [exact I | apply no_base_throw_operator_eq].
      - intros is_one. destruct is_one; [exact I|].
        apply no_base_throw_bind; [apply no_base_throw_Factorial_loop|].
        intros [r o]. destruct o; exact I. }
    rewrite E in Hna. exact Hna.
  - intros Hcase. split; [|exact O4].
    destruct Hcase as [E|E]; [apply (Hsmall 0) | apply (Hsmall 1)]; auto; lia.
  - intros Hpos Hfits Hfuel.
    destruct (Z.le_gt_cases (sval x) 1) as [Hle|Hgt].
    + exists (kOne (Width x)).
      assert (sval x = 0 \/ sval x = 1) as Hcase by lia.
      split; [destruct Hcase as [E|E]; [apply (Hsmall 0) | apply (Hsmall 1)]; auto; lia|].
      split; [exact O1|]. split; [exact O2|]. rewrite O4.
      destruct Hcase as [-> | ->]; reflexivity.
    + unfold Factorial. rewrite Is_Positive_sval by assumption.
      destruct (Z.leb_spec 0 (sval x)); [|lia]. cbn [negb].
      rewrite operator_eq_spec, Z4 by assumption. cbn [bind].
      destruct (Z.eqb_spec (sval x) 0); [lia|].
      rewrite operator_eq_spec, O4 by assumption. cbn [bind].
      destruct (Z.eqb_spec (sval x) 1); [lia|].
      destruct (Factorial_loop_spec x Hwf Hfits fuel (kTwo (Width x)) x false)
        as (r & E & Hr & HWr & Hsr); auto.
      * rewrite T4. lia.
      * rewrite T4. change (Zfact (2 - 1)) with 1. lia.
      * rewrite T4. lia.
      * rewrite E. cbn [bind]. exists r. auto.
  - vm_compute. reflexivity.
Qed.

Lemma C6_factorial_witness :
  wf x5 /\ exists y, Factorial 5 x5 = Ok y /\ sval y = 120.
Proof.
  split; [exact wf_x5|].
  destruct (C6_factorial 5 x5 wf_x5) as (_ & _ & _ & _ & H & _).
  destruct H as (y & E & _ & _ & Hs).
  - vm_compute; discriminate.
  - intros _. vm_compute. reflexivity.
  - vm_compute. lia.
  - exists y. split; [exact E|]. rewrite Hs. vm_compute. reflexivity.
Defined.

(** C7. The zero-dividend half of the statement fails on the code.
    [Div_Mod] answers a zero dividend with [{kZero, kZero}]: the zero of
    the left operand's class, converted to the result class with its words
    copied as they are.  For the Fixed(4) zero divided by the Fixed(8)
    value 5, [Div_Mod], [/] and [%] return an object of width Fixed(8)
    that holds four words.  That is no quotient 0 and no remainder 0, it is
    no value at all: an [Integer<8>] has eight words, and the sign test of
    this one reads word 7 of a vector of four. *)
Theorem C7_zero_dividend_of_narrower_width :
  Deserialize (Fixed 4) "0" = Ok (kZero (Fixed 4)) /\
  Deserialize (Fixed 8) "5" = Ok (mkInteger (Fixed 8) [5; 0; 0; 0; 0; 0; 0; 0]) /\
  wf (kZero (Fixed 4)) /\ sval (kZero (Fixed 4)) = 0 /\
  wf (mkInteger (Fixed 8) [5; 0; 0; 0; 0; 0; 0; 0]) /\
  sval (mkInteger (Fixed 8) [5; 0; 0; 0; 0; 0; 0; 0]) = 5 /\
  Div_Mod (kZero (Fixed 4)) (mkInteger (Fixed 8) [5; 0; 0; 0; 0; 0; 0; 0])
  = Ok (mkInteger (Fixed 8) [0; 0; 0; 0], mkInteger (Fixed 8) [0; 0; 0; 0]) /\
  operator_div (kZero (Fixed 4)) (mkInteger (Fixed 8) [5; 0; 0; 0; 0; 0; 0; 0])
  = Ok (mkInteger (Fixed 8) [0; 0; 0; 0]) /\
  operator_mod (kZero (Fixed 4)) (mkInteger (Fixed 8) [5; 0; 0; 0; 0; 0; 0; 0])
  = Ok (mkInteger (Fixed 8) [0; 0; 0; 0]) /\
  Get_Actual_Width (mkInteger (Fixed 8) [0; 0; 0; 0]) = 8%nat /\
  length (_bits (mkInteger (Fixed 8) [0; 0; 0; 0])) = 4%nat /\
  ~ wf (mkInteger (Fixed 8) [0; 0; 0; 0]).
Proof.
  split; [vm_compute; reflexivity|]. split; [vm_compute; reflexivity|].
  split; [unfold kZero, Integer_new; wf_concrete|]. split; [vm_compute; reflexivity|].
  split; [wf_concrete|]. split; [vm_compute; reflexivity|].
  split; [vm_compute; reflexivity|]. split; [vm_compute; reflexivity|].
  split; [vm_compute; reflexivity|]. split; [reflexivity|]. split; [reflexivity|].
  intros (_ & _ & H). cbn in H. discriminate H.
Qed.

(** C8, as stated, fails: an unlimited sum that is zero keeps the word
    count of its operands.  [2147483648] has five words in the unlimited
    width, and [x + (-x)] is a zero of five words, not four. *)
Lemma C8_counterexample :
  Deserialize kUnlimited "2147483648" = Ok u_2p31 /\
  (nx <- operator_neg u_2p31 ;; operator_add u_2p31 nx)
  = Ok (mkInteger kUnlimited [0; 0; 0; 0; 0]) /\
  length (_bits (mkInteger kUnlimited [0; 0; 0; 0; 0])) <> min_words kUnlimited.
Proof.
  split; [vm_compute; reflexivity|]. split; [vm_compute; reflexivity|].
  cbn. discriminate.
Qed.

(** C8, amended.  A well-formed zero has every word zero.  It has the
    minimal word count when it comes from the default constructor, from an
    addition whose result width is limited, or from a multiplication (which
    shrinks an unlimited result); whatever [Add] and [Mul] return is
    well-formed, so a Fixed(n) result has exactly [n] words.  An unlimited
    addition does not shrink: a zero sum has the larger word count of the two
    operands. *)
Theorem C8_zero_word_count (lhs rhs : Integer) :
  wf lhs -> wf rhs ->
  let W := Get_Max (Width lhs) (Width rhs) in
  (uval (Integer_new W) = 0 /\ length (_bits (Integer_new W)) = min_words W) /\
  (sval lhs = 0 -> Forall (fun w => w = 0) (_bits lhs)) /\
  (forall overflow_flag carry_flag,
     exists result overflow_flag' carry_flag',
       Add lhs rhs overflow_flag carry_flag = Ok (result, overflow_flag', carry_flag') /\
       wf result /\ Width result = W /\
       (Is_Unlimited W = false -> length (_bits result) = min_words W) /\
       (Is_Unlimited W = true -> sval lhs + sval rhs = 0 ->
        sval result = 0 /\
        length (_bits result) = Nat.max (length (_bits lhs)) (length (_bits rhs)))) /\
  (forall overflow_flag result overflow_flag',
     Mul lhs rhs overflow_flag = Ok (result, overflow_flag') ->
     wf result /\ Width result = W /\
     (sval result = 0 -> length (_bits result) = min_words W)).
Proof.
  intros Hl Hr W.
  pose proof (fits_Get_Max lhs rhs Hl Hr) as Hfit. fold W in Hfit.
  assert (admissible W) as Hadm.
  { destruct Hfit as [F1 F2]. unfold admissible. destruct W; auto. lia. }
  assert (forall x, wf x -> Width x = W -> Is_Unlimited W = false ->
                    length (_bits x) = min_words W) as Hfixed.
  { intros x (_ & _ & Hx) HWx EU. rewrite HWx in Hx. unfold min_words.
    destruct W; [exact Hx | discriminate]. }
  split; [|split; [|split]].
  - destruct (Integer_new_facts W Hadm) as (_ & H2 & _ & H4). split; [exact H2 | exact H4].
  - intros Hz. now apply zero_all_bits.
  - intros o c.
    destruct (Add_spec lhs rhs o c Hl Hr) as (res & o' & c' & E & Hres & HW & _ & Hrest).
    fold W in HW, Hrest. exists res, o', c'.
    split; [exact E|]. split; [exact Hres|]. split; [exact HW|]. split.
    + intros EU. now apply Hfixed.
    + intros EU Hz. rewrite EU in Hrest. destruct Hrest as (Hs & _ & Hlen).
      split; [congruence|]. rewrite Hlen, Hz.
      assert (in_range (8 * Z.of_nat (Nat.max (length (_bits lhs)) (length (_bits rhs)))) 0 = true) as ->;
        [|reflexivity].
      unfold in_range. apply andb_true_intro.
      assert (0 < 2 ^ (8 * Z.of_nat (Nat.max (length (_bits lhs)) (length (_bits rhs))) - 1)).
      { apply pow2_pos. pose proof (wf_length lhs Hl). lia. }
      split; [apply Z.leb_le | apply Z.ltb_lt]; lia.
  - intros o res o' E.
    destruct (Mul_wf lhs rhs res o o' Hl Hr E) as (Hres & HW & Hzero). fold W in HW, Hzero.
    split; [exact Hres|]. split; [exact HW|]. intros Hz.
    destruct (Is_Unlimited W) eqn:EU.
    + rewrite (Hzero eq_refl Hz). unfold min_words. destruct W; [discriminate | reflexivity].
    + now apply Hfixed.
Qed.

Lemma C8_zero_word_count_witness :
  wf u_2p31 /\ wf (mkInteger kUnlimited [0; 0; 0; 128; 255]) /\
  exists result o c,
    Add u_2p31 (mkInteger kUnlimited [0; 0; 0; 128; 255]) false false = Ok (result, o, c) /\
    sval result = 0 /\ length (_bits result) = 5%nat.
Proof.
  assert (wf (mkInteger kUnlimited [0; 0; 0; 128; 255])) as Hn by wf_concrete.
  split; [exact wf_u_2p31|]. split; [exact Hn|].
  destruct (C8_zero_word_count u_2p31 (mkInteger kUnlimited [0; 0; 0; 128; 255]) wf_u_2p31 Hn)
    as (_ & _ & H & _).
  destruct (H false false) as (res & o & c & E & _ & _ & _ & Hz).
  exists res, o, c. split; [exact E|]. apply Hz; vm_compute; reflexivity.
Defined.

(** C9. Unary negation of a Fixed(n) value always returns a value of the
    same width; on the most negative value (sign bit set, all other bits
    clear) it returns that value unchanged, and on every other value the
    arithmetic opposite.  No overflow is reported in either case. *)
Theorem C9_negation_fixed (x : Integer) :
  wf x -> Is_Unlimited (Width x) = false ->
  exists y,
    operator_neg x = Ok y /\ wf y /\ Width y = Width x /\
    (sval x = - 2 ^ (nbits x - 1) -> y = x) /\
    (sval x <> - 2 ^ (nbits x - 1) -> sval y = - sval x) /\
    (forall n, (4 <= n)%nat ->
       sval (most_negative n) = - 2 ^ (nbits (most_negative n) - 1) /\
       operator_neg (most_negative n) = Ok (most_negative n)).
Proof.
  intros Hwf EU.
  destruct (Get_Complement_limited x Hwf EU) as (y & E & Hy & HW & Hlen & Hs).
  exists y. unfold operator_neg. split; [exact E|]. split; [exact Hy|]. split; [exact HW|].
  split; [|split].
  - intros Hmin. apply sval_inj; auto.
    rewrite Hs. destruct (Z.eqb_spec (sval x) (- 2 ^ (nbits x - 1))); [reflexivity | contradiction].
  - intros Hne. rewrite Hs.
    destruct (Z.eqb_spec (sval x) (- 2 ^ (nbits x - 1))); [contradiction | reflexivity].
  - intros n Hn. destruct (most_negative_facts n Hn) as (M1 & M2 & M3).
    split; [now rewrite M2|].
    destruct (Get_Complement_limited (most_negative n) M1 eq_refl) as (c & Ec & Hc & HWc & Hlc & Hsc).
    rewrite Ec. f_equal. apply sval_inj; auto.
    rewrite Hsc, M2, M3, Z.eqb_refl. reflexivity.
Qed.

Lemma C9_negation_fixed_witness :
  wf x_min4 /\ Is_Unlimited (Width x_min4) = false /\
  exists y, operator_neg x_min4 = Ok y /\ y = x_min4.
Proof.
  split; [exact wf_x_min4|]. split; [reflexivity|].
  destruct (C9_negation_fixed x_min4 wf_x_min4 eq_refl) as (y & E & _ & _ & H & _).
  exists y. split; [exact E|]. apply H. vm_compute. reflexivity.
Defined.

(** C10. When prefix increment, prefix decrement or a compound assignment
    ends in any failure, the receiver still holds the value it had before
    the call; when the underlying operator returns, the receiver holds its
    result. *)
Theorem C10_receiver_unchanged_on_failure (x rhs : Integer) :
  (failed (snd (operator_inc x)) = true -> fst (operator_inc x) = x) /\
  (failed (snd (operator_dec x)) = true -> fst (operator_dec x) = x) /\
  (failed (snd (operator_add_assign rhs x)) = true -> fst (operator_add_assign rhs x) = x) /\
  (failed (snd (operator_sub_assign rhs x)) = true -> fst (operator_sub_assign rhs x) = x) /\
  (failed (snd (operator_mul_assign rhs x)) = true -> fst (operator_mul_assign rhs x) = x) /\
  (failed (snd (operator_div_assign rhs x)) = true -> fst (operator_div_assign rhs x) = x) /\
  (failed (snd (operator_mod_assign rhs x)) = true -> fst (operator_mod_assign rhs x) = x) /\
  (forall v, operator_add x rhs = Ok v -> operator_add_assign rhs x = (v, Ok tt)).
Proof.
  unfold operator_inc, operator_dec, operator_add_assign, operator_sub_assign,
    operator_mul_assign, operator_div_assign, operator_mod_assign.
  repeat split; try apply assign_result_failed.
  intros v E. now apply assign_result_ok.
Qed.

Lemma C10_receiver_unchanged_on_failure_witness :
  failed (snd (operator_inc x_max4)) = true /\
  operator_inc x_max4 = (x_max4, OverflowException x_min4) /\
  failed (snd (operator_div_assign (kZero (Fixed 4)) x5)) = true /\
  fst (operator_div_assign (kZero (Fixed 4)) x5) = x5.
Proof.
  assert (failed (snd (operator_inc x_max4)) = true) as H1 by (vm_compute; reflexivity).
  assert (failed (snd (operator_div_assign (kZero (Fixed 4)) x5)) = true) as H2
    by (vm_compute; reflexivity).
  destruct (C10_receiver_unchanged_on_failure x_max4 (kZero (Fixed 4))) as (A & _).
  destruct (C10_receiver_unchanged_on_failure x5 (kZero (Fixed 4))) as (_ & _ & _ & _ & _ & B & _).
  split; [exact H1|]. split; [vm_compute; reflexivity|]. split; [exact H2|]. exact (B H2).
Defined.

(** * Further properties of the operators *)

(** ** Addition *)

Lemma Get_Max_comm (a b : t_Width) : Get_Max a b = Get_Max b a.
Proof. destruct a, b; cbn; try reflexivity. now rewrite Nat.max_comm. Qed.

Lemma in_range_bounds (n s : Z) :
  in_range n s = true <-> - 2 ^ (n - 1) <= s < 2 ^ (n - 1).
Proof.
  unfold in_range. rewrite andb_true_iff, Z.leb_le, Z.ltb_lt. reflexivity.
Qed.

Lemma wf_limited_length (x : Integer) (n : nat) :
  wf x -> Width x = Fixed n -> length (_bits x) = n.
Proof. intros (_ & _ & H) E. now rewrite E in H. Qed.

(** [operator+] on limited widths: the exact sum when it is representable in
    the wider of the two widths, and otherwise the overflow error carrying
    the sum truncated to that width. *)
Theorem operator_add_limited (lhs rhs : Integer) (n m : nat) :
  wf lhs -> wf rhs -> Width lhs = Fixed n -> Width rhs = Fixed m ->
  let N := 8 * Z.of_nat (Nat.max n m) in
  let s := sval lhs + sval rhs in
  exists result,
    wf result /\ Width result = Fixed (Nat.max n m) /\
    uval result = s mod 2 ^ N /\
    (- 2 ^ (N - 1) <= s < 2 ^ (N - 1) ->
     operator_add lhs rhs = Ok result /\ sval result = s) /\
    (s < - 2 ^ (N - 1) ->
     operator_add lhs rhs = OverflowException result /\ sval result = s + 2 ^ N) /\
    (2 ^ (N - 1) <= s ->
     operator_add lhs rhs = OverflowException result /\ sval result = s - 2 ^ N).
Proof.
  intros Hl Hr Wl Wr N s.
  destruct (operator_add_spec lhs rhs Hl Hr) as (res & Hres & HW & Hrest).
  rewrite Wl, Wr in HW, Hrest. cbn [Get_Max Is_Unlimited] in HW, Hrest.
  rewrite (wf_limited_length lhs n Hl Wl), (wf_limited_length rhs m Hr Wr) in Hrest.
  fold N s in Hrest. destruct Hrest as (Hlen & Hu & Hcase).
  assert (nbits res = N) as Hn by (unfold nbits; now rewrite Hlen).
  pose proof (wf_nbits res Hres) as Hnb. rewrite Hn in Hnb.
  pose proof (sval_range lhs Hl) as Rl. pose proof (sval_range rhs Hr) as Rr.
  assert (nbits lhs <= N /\ nbits rhs <= N) as [Nl Nr].
  { unfold nbits, N.
    rewrite (wf_limited_length lhs n Hl Wl), (wf_limited_length rhs m Hr Wr). lia. }
  assert (2 ^ (nbits lhs - 1) <= 2 ^ (N - 1)) as Pl.
  { apply pow2_le. pose proof (wf_nbits lhs Hl). lia. }
  assert (2 ^ (nbits rhs - 1) <= 2 ^ (N - 1)) as Pr.
  { apply pow2_le. pose proof (wf_nbits rhs Hr). lia. }
  pose proof (pow2_half N ltac:(lia)) as Hh.
  assert (0 < 2 ^ (N - 1)) as Hp by (apply pow2_pos; lia).
  exists res. split; [exact Hres|]. split; [exact HW|]. split; [exact Hu|].
  split; [|split].
  - intros Hin. apply in_range_bounds in Hin. rewrite Hin in Hcase. exact Hcase.
  - intros Hlow.
    assert (in_range N s = false) as Hout.
    { destruct (in_range N s) eqn:E; [apply in_range_bounds in E; lia | reflexivity]. }
    rewrite Hout in Hcase. split; [exact Hcase|].
    apply sval_unique; [now apply wf_words_ok | lia | | ].
    + rewrite Hn, Hu. replace (s + 2 ^ N) with (s + 1 * 2 ^ N) by ring.
      now rewrite Z.mod_add by lia.
    + rewrite Hn. fold s in Hlow. clear - Rl Rr Pl Pr Hh Hp Hlow.
      set (P := 2 ^ (N - 1)) in *. set (Q := 2 ^ N) in *.
      set (a := 2 ^ (nbits lhs - 1)) in *. set (b := 2 ^ (nbits rhs - 1)) in *.
      clearbody P Q a b. subst s. lia.
  - intros Hhigh.
    assert (in_range N s = false) as Hout.
    { destruct (in_range N s) eqn:E; [apply in_range_bounds in E; lia | reflexivity]. }
    rewrite Hout in Hcase. split; [exact Hcase|].
    apply sval_unique; [now apply wf_words_ok | lia | | ].
    + rewrite Hn, Hu. replace (s - 2 ^ N) with (s + (-1) * 2 ^ N) by ring.
      now rewrite Z.mod_add by lia.
    + rewrite Hn. fold s in Hhigh. clear - Rl Rr Pl Pr Hh Hp Hhigh.
      set (P := 2 ^ (N - 1)) in *. set (Q := 2 ^ N) in *.
      set (a := 2 ^ (nbits lhs - 1)) in *. set (b := 2 ^ (nbits rhs - 1)) in *.
      clearbody P Q a b. subst s. lia.
Qed.

Lemma operator_add_limited_witness :
  wf x_max4 /\ wf x5 /\
  exists result,
    operator_add x_max4 x5 = OverflowException result /\
    sval result = 2147483647 + 5 - 2 ^ 32.
Proof.
  split; [exact wf_x_max4|]. split; [exact wf_x5|].
  destruct (operator_add_limited x_max4 x5 4 4 wf_x_max4 wf_x5 eq_refl eq_refl)
    as (r & _ & _ & _ & _ & _ & H).
  exists r. apply H. vm_compute. discriminate.
Defined.

(** [operator+] with an unlimited operand: always the exact sum, never an
    error; the result has the word count of the longer operand, or one word
    more when the sum does not fit in it. *)
Theorem operator_add_unlimited (lhs rhs : Integer) :
  wf lhs -> wf rhs ->
  Is_Unlimited (Get_Max (Width lhs) (Width rhs)) = true ->
  let A := Nat.max (length (_bits lhs)) (length (_bits rhs)) in
  exists result,
    operator_add lhs rhs = Ok result /\
    wf result /\ Width result = kUnlimited /\
    sval result = sval lhs + sval rhs /\
    (A <= length (_bits result) <= S A)%nat /\
    (length (_bits result) = S A <->
     ~ (- 2 ^ (8 * Z.of_nat A - 1) <= sval lhs + sval rhs < 2 ^ (8 * Z.of_nat A - 1))).
Proof.
  intros Hl Hr HU A.
  destruct (operator_add_spec lhs rhs Hl Hr) as (res & Hres & HW & Hrest).
  rewrite HU in Hrest. fold A in Hrest. destruct Hrest as (E & Hs & Hlen).
  exists res. split; [exact E|]. split; [exact Hres|]. split.
  { rewrite HW. destruct (Get_Max (Width lhs) (Width rhs)); [discriminate | reflexivity]. }
  split; [exact Hs|].
  destruct (in_range (8 * Z.of_nat A) (sval lhs + sval rhs)) eqn:Er; rewrite Hlen.
  - apply in_range_bounds in Er. split; [lia|]. split; [lia | intros H; contradiction].
  - split; [lia|]. split; [|reflexivity].
    intros _ Hin. apply in_range_bounds in Hin. congruence.
Qed.

Lemma operator_add_unlimited_witness :
  wf u_2p31 /\ exists result, operator_add u_2p31 u_2p31 = Ok result /\ sval result = 2 ^ 32.
Proof.
  split; [exact wf_u_2p31|].
  destruct (operator_add_unlimited u_2p31 u_2p31 wf_u_2p31 wf_u_2p31 eq_refl)
    as (r & E & _ & _ & Hs & _).
  exists r. split; [exact E|]. rewrite Hs. vm_compute. reflexivity.
Defined.

(** [operator+] is commutative: both orders return the same value, or raise
    the overflow error with the same truncated result. *)
Theorem operator_add_comm (lhs rhs : Integer) :
  wf lhs -> wf rhs -> operator_add lhs rhs = operator_add rhs lhs.
Proof.
  intros Hl Hr.
  destruct (operator_add_spec lhs rhs Hl Hr) as (r1 & H1 & W1 & R1).
  destruct (operator_add_spec rhs lhs Hr Hl) as (r2 & H2 & W2 & R2).
  rewrite (Get_Max_comm (Width rhs)) in W2, R2.
  rewrite (Nat.max_comm (length (_bits rhs))) in R2.
  rewrite (Z.add_comm (sval rhs)) in R2.
  destruct (Is_Unlimited (Get_Max (Width lhs) (Width rhs))).
  - destruct R1 as (E1 & S1 & L1), R2 as (E2 & S2 & L2).
    rewrite E1, E2. f_equal. apply sval_inj; congruence.
  - destruct R1 as (L1 & U1 & C1), R2 as (L2 & U2 & C2).
    assert (r1 = r2) as ->.
    { apply Integer_ext; try congruence; now apply wf_words_ok. }
    destruct (in_range _ _).
    + destruct C1 as [-> _], C2 as [-> _]. reflexivity.
    + congruence.
Qed.

Lemma operator_add_comm_witness :
  wf x_max4 /\ wf x5 /\ operator_add x_max4 x5 = operator_add x5 x_max4.
Proof.
  split; [exact wf_x_max4|]. split; [exact wf_x5|].
  exact (operator_add_comm x_max4 x5 wf_x_max4 wf_x5).
Defined.

(** ** Negation and subtraction *)

(** Unary minus on an unlimited value is the exact opposite and never
    fails; it grows the value by one word exactly when the operand is the
    most negative value of its current length. *)
Theorem operator_neg_unlimited (x : Integer) :
  wf x -> Width x = kUnlimited ->
  exists y,
    operator_neg x = Ok y /\ wf y /\ Width y = kUnlimited /\
    sval y = - sval x /\
    (sval x <> - 2 ^ (nbits x - 1) -> length (_bits y) = length (_bits x)) /\
    (sval x = - 2 ^ (nbits x - 1) -> length (_bits y) = S (length (_bits x))).
Proof.
  intros Hx HW.
  destruct (Get_Complement_spec x Hx) as (y & E & Hy & HWy & Hrest).
  rewrite HW in Hrest. cbn [Is_Unlimited] in Hrest. destruct Hrest as [Hs Hl].
  exists y. unfold operator_neg. split; [exact E|]. split; [exact Hy|].
  split; [congruence|]. split; [exact Hs|].
  destruct (Z.eqb_spec (sval x) (- 2 ^ (nbits x - 1))); split; intros; congruence.
Qed.

Lemma operator_neg_unlimited_witness :
  wf u_2p31 /\ exists y, operator_neg u_2p31 = Ok y /\ sval y = - 2 ^ 31.
Proof.
  split; [exact wf_u_2p31|].
  destruct (operator_neg_unlimited u_2p31 wf_u_2p31 eq_refl) as (y & E & _ & _ & Hs & _).
  exists y. split; [exact E|]. rewrite Hs. vm_compute. reflexivity.
Defined.

(** Negating twice gives back a value equal to the original, at every
    width; on a limited width it is the very same word vector. *)
Theorem operator_neg_involutive (x : Integer) :
  wf x ->
  exists y z,
    operator_neg x = Ok y /\ operator_neg y = Ok z /\
    wf z /\ sval z = sval x /\ operator_eq z x = Ok true /\
    (Is_Unlimited (Width x) = false -> z = x).
Proof.
  intros Hx. unfold operator_neg.
  destruct (Is_Unlimited (Width x)) eqn:EU.
  - destruct (Get_Complement_spec x Hx) as (y & Ey & Hy & HWy & Hry).
    rewrite EU in Hry. destruct Hry as [Hsy _].
    destruct (Get_Complement_spec y Hy) as (z & Ez & Hz & HWz & Hrz).
    rewrite HWy, EU in Hrz. destruct Hrz as [Hsz _].
    assert (sval z = sval x) as Hs by lia.
    exists y, z. split; [exact Ey|]. split; [exact Ez|]. split; [exact Hz|].
    split; [exact Hs|]. split; [|discriminate].
    rewrite operator_eq_spec, Hs, Z.eqb_refl by assumption. reflexivity.
  - destruct (Get_Complement_limited x Hx EU) as (y & Ey & Hy & HWy & Hly & Hsy).
    assert (Is_Unlimited (Width y) = false) as EUy by congruence.
    destruct (Get_Complement_limited y Hy EUy) as (z & Ez & Hz & HWz & Hlz & Hsz).
    assert (nbits y = nbits x) as Hn by (unfold nbits; now rewrite Hly).
    rewrite Hn in Hsz.
    pose proof (sval_range x Hx) as Rx. pose proof (wf_nbits x Hx) as Nx.
    assert (0 < 2 ^ (nbits x - 1)) as Hp by (apply pow2_pos; lia).
    assert (sval z = sval x) as Hs.
    { rewrite Hsz, Hsy. clear - Rx Hp. set (P := 2 ^ (nbits x - 1)) in *. clearbody P.
      destruct (Z.eqb_spec (sval x) (- P)) as [e|ne].
      - rewrite e, Z.eqb_refl. reflexivity.
      - destruct (Z.eqb_spec (- sval x) (- P)); lia. }
    exists y, z. split; [exact Ey|]. split; [exact Ez|]. split; [exact Hz|].
    split; [exact Hs|]. split.
    + rewrite operator_eq_spec, Hs, Z.eqb_refl by assumption. reflexivity.
    + intros _. apply sval_inj; congruence.
Qed.

Lemma operator_neg_involutive_witness :
  wf x_min4 /\
  exists y z, operator_neg x_min4 = Ok y /\ operator_neg y = Ok z /\ z = x_min4.
Proof.
  split; [exact wf_x_min4|].
  destruct (operator_neg_involutive x_min4 wf_x_min4) as (y & z & E1 & E2 & _ & _ & _ & H).
  exists y, z. split; [exact E1|]. split; [exact E2|]. apply H. reflexivity.
Defined.

(** [operator-] on limited widths.  When the right operand is not the most
    negative value of its width, the result is the exact difference if that
    is representable in the wider width, and otherwise the overflow error
    with the truncated difference.  When the right operand is the most
    negative value, its negation wraps and the call behaves as [lhs + rhs]. *)
Theorem operator_sub_limited (lhs rhs : Integer) (n m : nat) :
  wf lhs -> wf rhs -> Width lhs = Fixed n -> Width rhs = Fixed m ->
  let N := 8 * Z.of_nat (Nat.max n m) in
  let s := sval lhs - sval rhs in
  (sval rhs <> - 2 ^ (8 * Z.of_nat m - 1) ->
   exists result,
     wf result /\ Width result = Fixed (Nat.max n m) /\
     uval result = s mod 2 ^ N /\
     (- 2 ^ (N - 1) <= s < 2 ^ (N - 1) ->
      operator_sub lhs rhs = Ok result /\ sval result = s) /\
     (~ (- 2 ^ (N - 1) <= s < 2 ^ (N - 1)) ->
      operator_sub lhs rhs = OverflowException result)) /\
  (sval rhs = - 2 ^ (8 * Z.of_nat m - 1) ->
   operator_sub lhs rhs = operator_add lhs rhs).
Proof.
  intros Hl Hr Wl Wr N s.
  assert (Is_Unlimited (Width rhs) = false) as EU by now rewrite Wr.
  destruct (Get_Complement_limited rhs Hr EU) as (c & Ec & Hc & HWc & Hlc & Hsc).
  assert (nbits rhs = 8 * Z.of_nat m) as Hnr.
  { unfold nbits. now rewrite (wf_limited_length rhs m Hr Wr). }
  rewrite Hnr in Hsc.
  unfold operator_sub. rewrite Ec. cbn [bind].
  split.
  - intros Hne.
    destruct (Z.eqb_spec (sval rhs) (- 2 ^ (8 * Z.of_nat m - 1))) as [e|_]; [contradiction|].
    destruct (operator_add_spec lhs c Hl Hc) as (res & Hres & HW & Hrest).
    rewrite HWc, Wl, Wr in HW, Hrest. cbn [Get_Max Is_Unlimited] in HW, Hrest.
    rewrite Hlc, (wf_limited_length lhs n Hl Wl), (wf_limited_length rhs m Hr Wr) in Hrest.
    rewrite Hsc in Hrest. change (sval lhs + - sval rhs) with s in Hrest. fold N in Hrest.
    destruct Hrest as (Hlen & Hu & Hcase).
    exists res. split; [exact Hres|]. split; [exact HW|]. split; [exact Hu|].
    split.
    + intros Hin. apply in_range_bounds in Hin. rewrite Hin in Hcase. exact Hcase.
    + intros Hout. destruct (in_range N s) eqn:E; [|exact Hcase].
      apply in_range_bounds in E. contradiction.
  - intros Hmin. f_equal. apply sval_inj; try congruence.
    rewrite Hsc, Hmin, Z.eqb_refl. reflexivity.
Qed.

Lemma operator_sub_limited_witness :
  wf x5 /\ wf x_max4 /\
  exists result, operator_sub x5 x_max4 = Ok result /\ sval result = 5 - 2147483647.
Proof.
  split; [exact wf_x5|]. split; [exact wf_x_max4|].
  destruct (operator_sub_limited x5 x_max4 4 4 wf_x5 wf_x_max4 eq_refl eq_refl) as [H _].
  destruct H as (r & _ & _ & _ & Hin & _); [intros H; vm_compute in H; discriminate H|].
  exists r. apply Hin. vm_compute. split; [discriminate | reflexivity].
Defined.

(** [operator-] with an unlimited result: the exact difference, never an
    error, provided a limited right operand is not the most negative value
    of its width (whose negation wraps). *)
Theorem operator_sub_unlimited (lhs rhs : Integer) :
  wf lhs -> wf rhs ->
  Is_Unlimited (Get_Max (Width lhs) (Width rhs)) = true ->
  (Is_Unlimited (Width rhs) = false -> sval rhs <> - 2 ^ (nbits rhs - 1)) ->
  exists result,
    operator_sub lhs rhs = Ok result /\ wf result /\ Width result = kUnlimited /\
    sval result = sval lhs - sval rhs.
Proof.
  intros Hl Hr HU Hmin.
  assert (exists c, Get_Complement rhs = Ok c /\ wf c /\ Width c = Width rhs /\
                    sval c = - sval rhs) as (c & Ec & Hc & HWc & Hsc).
  { destruct (Is_Unlimited (Width rhs)) eqn:EU.
    - destruct (Get_Complement_spec rhs Hr) as (c & Ec & Hc & HWc & Hrest).
      rewrite EU in Hrest. destruct Hrest as [Hs _]. eauto.
    - destruct (Get_Complement_limited rhs Hr EU) as (c & Ec & Hc & HWc & _ & Hs).
      destruct (Z.eqb_spec (sval rhs) (- 2 ^ (nbits rhs - 1))) as [e|_].
      + now specialize (Hmin eq_refl).
      + eauto. }
  unfold operator_sub. rewrite Ec. cbn [bind].
  destruct (operator_add_spec lhs c Hl Hc) as (res & Hres & HW & Hrest).
  rewrite HWc, HU in Hrest. rewrite HWc in HW. destruct Hrest as (E & Hs & _).
  exists res. split; [exact E|]. split; [exact Hres|]. split.
  { rewrite HW. destruct (Get_Max (Width lhs) (Width rhs)); [discriminate | reflexivity]. }
  rewrite Hs, Hsc. lia.
Qed.

Lemma operator_sub_unlimited_witness :
  wf u_2p31 /\ wf x_max4 /\
  exists result, operator_sub u_2p31 x_max4 = Ok result /\ sval result = 1.
Proof.
  split; [exact wf_u_2p31|]. split; [exact wf_x_max4|].
  destruct (operator_sub_unlimited u_2p31 x_max4 wf_u_2p31 wf_x_max4 eq_refl)
    as (r & E & _ & _ & Hs).
  - intros _ H. vm_compute in H. discriminate H.
  - exists r. split; [exact E|]. rewrite Hs. vm_compute. reflexivity.
Defined.

(** ** Multiplication of signed operands *)

(** The magnitude of a value that is not the most negative one of its
    length: same width and word count, non-negative. *)
Lemma Get_Positive_magnitude (x : Integer) :
  wf x -> sval x <> - 2 ^ (nbits x - 1) ->
  exists p, Get_Positive x = Ok p /\ wf p /\ Width p = Width x /\
            length (_bits p) = length (_bits x) /\ sval p = Z.abs (sval x).
Proof.
  intros Hx Hne.
  pose proof (sval_range x Hx) as Rx. pose proof (wf_nbits x Hx) as Nx.
  destruct (Is_Unlimited (Width x)) eqn:EU.
  - destruct (Get_Positive_unlimited x Hx EU) as (p & E & Hp & HW & Hs & Hl & _).
    exists p. split; [exact E|]. split; [exact Hp|]. split; [exact HW|]. split; [|exact Hs].
    rewrite Hl. destruct (Z.eqb_spec (sval x) (- 2 ^ (nbits x - 1))); [contradiction | reflexivity].
  - destruct (Get_Positive_limited x Hx EU) as (p & E & Hp & HW & Hl & Hu).
    exists p. split; [exact E|]. split; [exact Hp|]. split; [exact HW|]. split; [exact Hl|].
    rewrite <- Hu. apply uval_small_sval; [exact Hp|].
    assert (nbits p = nbits x) as -> by (unfold nbits; now rewrite Hl).
    rewrite Hu. lia.
Qed.

(** [Mul] works on the magnitudes and applies the sign at the end. *)
Lemma Mul_by_magnitudes (lhs rhs pl pr : Integer) (overflow_flag : bool) :
  wf lhs -> wf rhs ->
  Get_Positive lhs = Ok pl -> Get_Positive rhs = Ok pr ->
  wf pl -> wf pr -> Width pl = Width lhs -> Width pr = Width rhs ->
  length (_bits pl) = length (_bits lhs) -> length (_bits pr) = length (_bits rhs) ->
  0 <= sval pl -> 0 <= sval pr ->
  Mul lhs rhs overflow_flag
  = ('(result, overflow_flag') <- Mul pl pr overflow_flag ;;
     if Bool.eqb (Is_Positive lhs) (Is_Positive rhs) then Ok (result, overflow_flag')
     else c <- Get_Complement result ;; Ok (c, overflow_flag')).
Proof.
  intros Hl Hr El Er Hpl Hpr HWl HWr Hll Hlr Hl0 Hr0.
  assert (Is_Positive pl = true) as Ppl.
  { rewrite Is_Positive_sval by assumption. now apply Z.leb_le. }
  assert (Is_Positive pr = true) as Ppr.
  { rewrite Is_Positive_sval by assumption. now apply Z.leb_le. }
  unfold Mul at 2. unfold Get_Positive at 1 2. rewrite Ppl, Ppr. cbn [xorb negb bind].
  unfold Mul. rewrite El, Er. cbn [bind].
  rewrite (wf_Get_Actual_Width pl), (wf_Get_Actual_Width pr),
    (wf_Get_Actual_Width lhs), (wf_Get_Actual_Width rhs) by assumption.
  rewrite HWl, HWr, Hll, Hlr.
  set (W := Get_Max (Width lhs) (Width rhs)).
  set (A := Nat.max (length (_bits lhs)) (length (_bits rhs))).
  replace (negb (xorb (Is_Positive lhs) (Is_Positive rhs)))
    with (Bool.eqb (Is_Positive lhs) (Is_Positive rhs))
    by (destruct (Is_Positive lhs), (Is_Positive rhs); reflexivity).
  destruct (Get_Normalized_Existing W pl A) as [l0| | | |]; cbn [bind]; try reflexivity.
  destruct (Get_Normalized_Existing W pr A) as [r0| | | |]; cbn [bind]; try reflexivity.
  destruct (if Is_Unlimited W then Get_Normalized_Existing W l0 (2 * A) else Ok l0)
    as [l1| | | |]; cbn [bind]; try reflexivity.
  destruct (if Is_Unlimited W then Get_Normalized_Existing W r0 (2 * A) else Ok r0)
    as [r1| | | |]; cbn [bind]; try reflexivity.
  destruct (Mul_loop (S (Get_Msb_Idx r1)) l1 r1 (Integer_new W) false)
    as [[res cf]| | | |]; cbn [bind]; reflexivity.
Qed.

(** [operator*] returns the exact product, without error, whenever neither
    operand is the most negative value of its length and, for a limited
    result width, the product of the magnitudes is representable. *)
Theorem operator_mul_exact (lhs rhs : Integer) :
  wf lhs -> wf rhs ->
  sval lhs <> - 2 ^ (nbits lhs - 1) -> sval rhs <> - 2 ^ (nbits rhs - 1) ->
  let W := Get_Max (Width lhs) (Width rhs) in
  let A := Nat.max (length (_bits lhs)) (length (_bits rhs)) in
  (Is_Unlimited W = false ->
   Z.abs (sval lhs) * Z.abs (sval rhs) < 2 ^ (8 * Z.of_nat A - 1)) ->
  exists result,
    operator_mul lhs rhs = Ok result /\ wf result /\ Width result = W /\
    sval result = sval lhs * sval rhs.
Proof.
  intros Hl Hr Nl Nr W A Hfits.
  destruct (Get_Positive_magnitude lhs Hl Nl) as (pl & El & Hpl & HWl & Hll & Hsl).
  destruct (Get_Positive_magnitude rhs Hr Nr) as (pr & Er & Hpr & HWr & Hlr & Hsr).
  assert (0 <= sval pl) as Pl0 by (rewrite Hsl; apply Z.abs_nonneg).
  assert (0 <= sval pr) as Pr0 by (rewrite Hsr; apply Z.abs_nonneg).
  unfold operator_mul.
  rewrite (Mul_by_magnitudes lhs rhs pl pr false) by assumption.
  destruct (Mul_spec_nonneg pl pr false Hpl Hpr Pl0 Pr0) as (res & E & Hres & HWres & Hs & Hlen).
  { rewrite HWl, HWr, Hll, Hlr, Hsl, Hsr. exact Hfits. }
  rewrite HWl, HWr in HWres. fold W in HWres.
  rewrite E. cbn [bind]. rewrite !Is_Positive_sval by assumption.
  rewrite Hsl, Hsr in Hs.
  destruct (Z.leb_spec 0 (sval lhs)) as [L0|L0], (Z.leb_spec 0 (sval rhs)) as [R0|R0];
    cbn [Bool.eqb bind].
  - exists res. split; [reflexivity|]. split; [exact Hres|]. split; [exact HWres|].
    rewrite Hs, !Z.abs_eq by lia. reflexivity.
  - destruct (Get_Complement_spec res Hres) as (c & Ec & Hc & HWc & Hrest).
    rewrite Ec. cbn [bind]. exists c. split; [reflexivity|]. split; [exact Hc|].
    split; [congruence|].
    assert (sval c = - sval res) as ->.
    { destruct (Is_Unlimited (Width res)) eqn:EU; [apply Hrest|].
      destruct (Get_Complement_limited res Hres EU) as (c' & Ec' & _ & _ & _ & Hsc).
      rewrite Ec in Ec'. inversion Ec'; subst c'. rewrite Hsc.
      pose proof (wf_nbits res Hres).
      assert (0 < 2 ^ (nbits res - 1)) by (apply pow2_pos; lia).
      assert (0 <= sval res) by (rewrite Hs; apply Z.mul_nonneg_nonneg; apply Z.abs_nonneg).
      destruct (Z.eqb_spec (sval res) (- 2 ^ (nbits res - 1))); [lia | reflexivity]. }
    rewrite Hs, (Z.abs_eq (sval lhs)), (Z.abs_neq (sval rhs)) by lia. ring.
  - destruct (Get_Complement_spec res Hres) as (c & Ec & Hc & HWc & Hrest).
    rewrite Ec. cbn [bind]. exists c. split; [reflexivity|]. split; [exact Hc|].
    split; [congruence|].
    assert (sval c = - sval res) as ->.
    { destruct (Is_Unlimited (Width res)) eqn:EU; [apply Hrest|].
      destruct (Get_Complement_limited res Hres EU) as (c' & Ec' & _ & _ & _ & Hsc).
      rewrite Ec in Ec'. inversion Ec'; subst c'. rewrite Hsc.
      pose proof (wf_nbits res Hres).
      assert (0 < 2 ^ (nbits res - 1)) by (apply pow2_pos; lia).
      assert (0 <= sval res) by (rewrite Hs; apply Z.mul_nonneg_nonneg; apply Z.abs_nonneg).
      destruct (Z.eqb_spec (sval res) (- 2 ^ (nbits res - 1))); [lia | reflexivity]. }
    rewrite Hs, (Z.abs_neq (sval lhs)), (Z.abs_eq (sval rhs)) by lia. ring.
  - exists res. split; [reflexivity|]. split; [exact Hres|]. split; [exact HWres|].
    rewrite Hs, !Z.abs_neq by lia. ring.
Qed.

Lemma operator_mul_exact_witness :
  wf x5 /\
  exists result, operator_mul x5 x5 = Ok result /\ sval result = 25.
Proof.
  split; [exact wf_x5|].
  destruct (operator_mul_exact x5 x5 wf_x5 wf_x5) as (r & E & _ & _ & Hs).
  - intros H. vm_compute in H. discriminate H.
  - intros H. vm_compute in H. discriminate H.
  - intros _. vm_compute. reflexivity.
  - exists r. split; [exact E|]. rewrite Hs. vm_compute. reflexivity.
Defined.

(** ** Division of signed operands *)

(** The long-division loop again, now for any positive denominator: the
    partial remainders stay below the numerator, which has its top bit
    clear. *)
Section DivLoopAnyDenominator.
Variable W : t_Width.
Variable A : nat.
Variables numerator denominator : Integer.
Local Abbreviation n := (uval numerator).
Local Abbreviation d := (sval denominator).
Hypothesis Hnum : words_ok numerator.
Hypothesis Hden : wf denominator.
Hypothesis HWden : Width denominator = W.
Hypothesis Hlden : length (_bits denominator) = A.
Hypothesis Hd : 0 < d.
Hypothesis Hntop : n < 2 ^ (8 * Z.of_nat A - 1).

Lemma Div_Mod_loop_exact (k : nat) :
  forall quotient remainder : Integer,
    wf quotient -> wf remainder ->
    Width quotient = W -> Width remainder = W ->
    length (_bits quotient) = A -> length (_bits remainder) = A ->
    (k <= 8 * A)%nat ->
    uval remainder = (n / 2 ^ Z.of_nat k) mod d ->
    uval quotient = (n / 2 ^ Z.of_nat k) / d * 2 ^ Z.of_nat k ->
    exists quotient' remainder',
      Div_Mod_loop k numerator denominator quotient remainder = Ok (quotient', remainder') /\
      wf quotient' /\ wf remainder' /\
      Width quotient' = W /\ Width remainder' = W /\
      length (_bits quotient') = A /\ length (_bits remainder') = A /\
      uval remainder' = n mod d /\ uval quotient' = n / d.
Proof.
  assert (0 <= n) as Hn0 by (apply uval_range, Hnum).
  assert (4 <= A)%nat as HA4 by (rewrite <- Hlden; now apply wf_length).
  assert (0 < 2 ^ (8 * Z.of_nat A - 1)) as Hph by (apply pow2_pos; lia).
  assert (2 ^ (8 * Z.of_nat A) = 2 * 2 ^ (8 * Z.of_nat A - 1)) as Hhalf by (apply pow2_half; lia).
  induction k as [|idx IH]; intros quotient remainder Hwq Hwr HWq HWr Hlq Hlr Hk Hur Huq.
  - cbn [Div_Mod_loop]. change (2 ^ Z.of_nat 0) with 1 in *.
    rewrite Z.div_1_r in *. rewrite Z.mul_1_r in Huq.
    exists quotient, remainder. repeat (split; [assumption || reflexivity|]). assumption.
  - cbn [Div_Mod_loop].
    set (m := n / 2 ^ Z.of_nat (S idx)) in *.
    set (bit := Z.testbit n (Z.of_nat idx)).
    assert (n / 2 ^ Z.of_nat idx = 2 * m + Z.b2z bit) as Hstep by (apply div_pow2_step; assumption).
    assert (0 <= m) as Hm0 by (apply Z.div_pos; [assumption | apply pow2_pos; lia]).
    assert (0 <= m mod d < d) as Hmd by (apply Z.mod_pos_bound; lia).
    assert (m mod d <= m) as Hmle by (apply Z.mod_le; lia).
    assert (2 * m + Z.b2z bit <= n) as Hpart.
    { rewrite <- Hstep. apply Z.div_le_upper_bound; [apply pow2_pos; lia|].
      assert (1 <= 2 ^ Z.of_nat idx) by (pose proof (pow2_pos (Z.of_nat idx)); lia).
      nia. }
    assert (nbits remainder = 8 * Z.of_nat A) as Hnr by (unfold nbits; now rewrite Hlr).
    destruct (operator_shl_1 remainder Hwr) as (S1 & S2 & S3 & S4).
    set (remainder1 := operator_shl remainder 1) in *.
    assert (Z.b2z bit = 0 \/ Z.b2z bit = 1) as Hb by (destruct bit; cbn; auto).
    assert (uval remainder1 = 2 * (m mod d)) as Hu1.
    { rewrite S4, Hur, Hnr. apply Z.mod_small. lia. }
    set (remainder2 := assign_index remainder1 0 (operator_index numerator idx)).
    assert (wf remainder2) as Hw2 by now apply assign_index_wf.
    assert (uval remainder2 = 2 * (m mod d) + Z.b2z bit) as Hu2.
    { unfold remainder2. rewrite uval_assign_index.
      2: now apply wf_words_ok.
      2:{ pose proof (wf_length remainder1 S1). lia. }
      rewrite assign_arith by lia. rewrite Hu1.
      change (Z.of_nat 0) with 0. rewrite Z.testbit_even_0.
      rewrite operator_index_testbit by assumption. fold bit.
      cbn [Z.b2z]. change (2 ^ 0) with 1. lia. }
    assert (nbits remainder2 = 8 * Z.of_nat A) as Hn2.
    { unfold nbits, remainder2. rewrite assign_index_length, S3, Hlr. reflexivity. }
    assert (sval remainder2 = 2 * (m mod d) + Z.b2z bit) as Hs2.
    { rewrite uval_small_sval; auto. rewrite Hn2, Hu2. lia. }
    pose proof (sval_range denominator Hden) as Rd.
    assert (nbits denominator = 8 * Z.of_nat A) as Hnd by (unfold nbits; now rewrite Hlden).
    rewrite Hnd in Rd.
    destruct (operator_sub_spec remainder2 denominator) as (diff & Ed & Hwd & HWd & Hld & Hsd); auto.
    { unfold remainder2. rewrite assign_index_Width, S2. congruence. }
    { unfold remainder2. rewrite assign_index_length, S3. congruence. }
    { rewrite Hnd. lia. }
    { unfold in_range. rewrite Hn2, Hs2.
      apply andb_true_intro. split; [apply Z.leb_le | apply Z.ltb_lt]; lia. }
    rewrite Ed. cbn [bind].
    rewrite Hs2 in Hsd.
    rewrite Is_Positive_sval, Hsd by assumption.
    assert (2 * m + Z.b2z bit = d * (2 * (m / d)) + (2 * (m mod d) + Z.b2z bit)) as Hdecomp.
    { pose proof (Z.div_mod m d ltac:(lia)). lia. }
    assert (Z.testbit (uval quotient) (Z.of_nat idx) = false) as Hqbit.
    { rewrite Huq. apply Z.mul_pow2_bits_low. lia. }
    assert (2 ^ Z.of_nat (S idx) = 2 * 2 ^ Z.of_nat idx) as Hp2.
    { rewrite Nat2Z.inj_succ, <- Z.add_1_r. apply pow2_succ. lia. }
    assert (Width remainder2 = W) as HW2.
    { unfold remainder2. rewrite assign_index_Width, S2. exact HWr. }
    assert (length (_bits remainder2) = A) as Hl2.
    { unfold remainder2. rewrite assign_index_length, S3. exact Hlr. }
    destruct (Z.leb_spec 0 (2 * (m mod d) + Z.b2z bit - d)) as [Hge|Hlt].
    + apply IH.
      * now apply assign_index_wf.
      * exact Hwd.
      * now rewrite assign_index_Width.
      * congruence.
      * now rewrite assign_index_length.
      * congruence.
      * lia.
      * rewrite (sval_nonneg_uval diff Hwd) by lia. rewrite Hsd, Hstep.
        apply Z.mod_unique with (2 * (m / d) + 1); lia.
      * rewrite uval_assign_index.
        2: now apply wf_words_ok.
        2: lia.
        rewrite setbit_clear_arith by (auto; lia).
        rewrite Huq, Hstep, Hp2.
        assert ((2 * m + Z.b2z bit) / d = 2 * (m / d) + 1) as ->.
        { symmetry. apply Z.div_unique with (2 * (m mod d) + Z.b2z bit - d); lia. }
        ring.
    + apply IH; auto.
      * lia.
      * rewrite Hu2, Hstep. apply Z.mod_unique with (2 * (m / d)); lia.
      * rewrite Huq, Hstep, Hp2.
        assert ((2 * m + Z.b2z bit) / d = 2 * (m / d)) as ->.
        { symmetry. apply Z.div_unique with (2 * (m mod d) + Z.b2z bit); lia. }
        ring.
Qed.
End DivLoopAnyDenominator.

(** A magnitude brought to the common word count of two operands. *)
Lemma normalized_magnitude (W : t_Width) (A : nat) (x : Integer) :
  wf x -> sval x <> - 2 ^ (nbits x - 1) ->
  (length (_bits x) <= A)%nat -> fits_width W A ->
  exists p z,
    Get_Positive x = Ok p /\ Get_Normalized_Existing W p A = Ok z /\
    wf z /\ Width z = W /\ length (_bits z) = A /\
    uval z = Z.abs (sval x) /\ sval z = Z.abs (sval x) /\
    Z.abs (sval x) < 2 ^ (8 * Z.of_nat A - 1).
Proof.
  intros Hx Hne HA Hfit.
  destruct (Get_Positive_magnitude x Hx Hne) as (p & Ep & Hp & HWp & Hlp & Hsp).
  assert (0 <= sval p) as Hp0 by (rewrite Hsp; apply Z.abs_nonneg).
  destruct (Get_Normalized_uval W p A Hp) as (z & Ez & Hz1 & Hz2 & Hz3 & Hz4 & Hz5);
    [lia | now right |].
  exists p, z. split; [exact Ep|]. split; [exact Ez|].
  split; [eapply Get_Normalized_wf; eauto|]. split; [exact Hz1|]. split; [exact Hz2|].
  split; [rewrite Hz5, (sval_nonneg_uval p Hp Hp0); exact Hsp|].
  split; [congruence|].
  pose proof (sval_range x Hx) as Rx. pose proof (wf_nbits x Hx) as Nx.
  assert (2 ^ (nbits x - 1) <= 2 ^ (8 * Z.of_nat A - 1)) as Hpw
    by (apply pow2_le; unfold nbits in *; lia).
  clear - Rx Hne Hpw. set (P := 2 ^ (nbits x - 1)) in *. set (Q := 2 ^ _) in Hpw |- *.
  clearbody P Q. lia.
Qed.

(** [Div_Mod], [/] and [%] divide the magnitudes of the operands: the
    quotient is truncated toward zero and has the sign of the exact
    quotient, the remainder is the remainder of the magnitudes and is never
    negative.  For a non-negative dividend this is the division identity
    [q * y + r = x].  Neither operand may be zero or the most negative value
    of its length. *)
Theorem Div_Mod_truncates (lhs rhs : Integer) :
  wf lhs -> wf rhs ->
  sval lhs <> 0 -> sval rhs <> 0 ->
  sval lhs <> - 2 ^ (nbits lhs - 1) -> sval rhs <> - 2 ^ (nbits rhs - 1) ->
  exists quotient remainder,
    Div_Mod lhs rhs = Ok (quotient, remainder) /\
    operator_div lhs rhs = Ok quotient /\ operator_mod lhs rhs = Ok remainder /\
    wf quotient /\ wf remainder /\
    Width quotient = Get_Max (Width lhs) (Width rhs) /\
    Width remainder = Get_Max (Width lhs) (Width rhs) /\
    sval quotient = Z.quot (sval lhs) (sval rhs) /\
    sval remainder = Z.abs (sval lhs) mod Z.abs (sval rhs) /\
    (0 <= sval lhs -> sval quotient * sval rhs + sval remainder = sval lhs).
Proof.
  intros Hl Hr Hlz Hrz Hlm Hrm.
  set (W := Get_Max (Width lhs) (Width rhs)).
  set (A := Nat.max (length (_bits lhs)) (length (_bits rhs))).
  assert (length (_bits lhs) <= A)%nat as HlA by (unfold A; clear; lia).
  assert (length (_bits rhs) <= A)%nat as HrA by (unfold A; clear; lia).
  pose proof (fits_Get_Max lhs rhs Hl Hr) as Hfit. fold W A in Hfit.
  assert (4 <= A)%nat as HA4 by apply Hfit.
  assert (admissible (Width lhs)) as Hadm by now apply wf_admissible.
  destruct (kZero_facts (Width lhs) Hadm) as (Z1 & Z2 & Z3 & Z4).
  assert (0 < 2 ^ (8 * Z.of_nat A - 1)) as Hph by (apply pow2_pos; lia).
  destruct (normalized_magnitude W A lhs Hl Hlm HlA Hfit)
    as (pl & numerator & Epl & En & Hwn & HWn & Hln & Hun & _ & Hnb).
  destruct (normalized_magnitude W A rhs Hr Hrm HrA Hfit)
    as (pr & denominator & Epr & Ed & Hwd & HWd & Hld & _ & Hsd & _).
  destruct (Get_Normalized_New_spec W A Hfit) as (zero & E0 & Hw0 & HW0 & Hl0 & Hu0).
  destruct (Get_Msb_Idx_spec numerator Hwn) as (M1 & M2 & M3).
  set (msb := Get_Msb_Idx numerator) in *.
  assert (nbits numerator = 8 * Z.of_nat A) as Hnn by (unfold nbits; now rewrite Hln).
  assert (uval numerator / 2 ^ Z.of_nat (S msb) = 0) as Hhigh.
  { apply Z.div_small. split; [apply uval_range; now apply wf_words_ok|].
    replace (Z.of_nat (S msb)) with (Z.of_nat msb + 1) by lia. exact M2. }
  assert (0 < Z.abs (sval rhs)) as Hdpos by lia.
  destruct (Div_Mod_loop_exact W A numerator denominator (wf_words_ok _ Hwn) Hwd HWd Hld
              ltac:(lia) ltac:(lia) (S msb) zero zero)
    as (q & r & Eloop & Hwq & Hwr & HWq & HWr & Hlq & Hlr & Hur & Huq); auto.
  { lia. }
  { rewrite Hhigh, Hu0. now rewrite Z.mod_0_l by lia. }
  { rewrite Hhigh, Hu0. now rewrite Z.div_0_l by lia. }
  rewrite Hun, Hsd in Hur, Huq.
  set (ax := Z.abs (sval lhs)) in *. set (ay := Z.abs (sval rhs)) in *.
  assert (0 <= ax) as Hax by apply Z.abs_nonneg.
  assert (0 <= ax / ay <= ax) as Hqr.
  { split; [apply Z.div_pos; lia|]. apply Z.div_le_upper_bound; [lia|]. nia. }
  assert (0 <= ax mod ay < ay) as Hrr by (apply Z.mod_pos_bound; lia).
  assert (ax mod ay <= ax) as Hrle by (apply Z.mod_le; lia).
  assert (nbits q = 8 * Z.of_nat A) as Hnq by (unfold nbits; now rewrite Hlq).
  assert (nbits r = 8 * Z.of_nat A) as Hnr by (unfold nbits; now rewrite Hlr).
  assert (sval r = ax mod ay) as Hsr.
  { rewrite uval_small_sval; auto. rewrite Hnr, Hur. lia. }
  assert (sval q = ax / ay) as Hsq.
  { rewrite uval_small_sval; auto. rewrite Hnq, Huq. lia. }
  assert (exists quotient,
             Div_Mod lhs rhs = Ok (quotient, r) /\ wf quotient /\ Width quotient = W /\
             sval quotient
             = (if Bool.eqb (Z.leb 0 (sval lhs)) (Z.leb 0 (sval rhs)) then ax / ay
                else - (ax / ay))) as (quotient & EDM & Hwquot & HWquot & Hsquot).
  { unfold Div_Mod.
    rewrite (operator_eq_spec rhs (kZero (Width lhs))) by assumption. rewrite Z4. cbn [bind].
    destruct (Z.eqb_spec (sval rhs) 0); [contradiction|].
    rewrite (operator_eq_spec lhs (kZero (Width lhs))) by assumption. rewrite Z4. cbn [bind].
    destruct (Z.eqb_spec (sval lhs) 0); [contradiction|].
    rewrite (wf_Get_Actual_Width lhs), (wf_Get_Actual_Width rhs) by assumption. fold W A.
    rewrite Epl. cbn [bind]. rewrite En. cbn [bind].
    rewrite Epr. cbn [bind]. rewrite Ed. cbn [bind]. rewrite E0. cbn [bind].
    fold msb. rewrite Eloop. cbn [bind].
    rewrite !Is_Positive_sval by assumption.
    replace (negb (xorb (Z.leb 0 (sval lhs)) (Z.leb 0 (sval rhs))))
      with (Bool.eqb (Z.leb 0 (sval lhs)) (Z.leb 0 (sval rhs)))
      by (destruct (Z.leb 0 (sval lhs)), (Z.leb 0 (sval rhs)); reflexivity).
    destruct (Bool.eqb (Z.leb 0 (sval lhs)) (Z.leb 0 (sval rhs))).
    - exists q. split; [reflexivity|]. auto.
    - destruct (Get_Complement_spec q Hwq) as (c & Ec & Hwc & HWc & Hrest).
      rewrite Ec. cbn [bind]. exists c. split; [reflexivity|]. split; [exact Hwc|].
      split; [congruence|].
      destruct (Is_Unlimited (Width q)) eqn:EU.
      + destruct Hrest as [Hs _]. rewrite Hs, Hsq. reflexivity.
      + destruct (Get_Complement_limited q Hwq EU) as (c' & Ec' & _ & _ & _ & Hsc).
        rewrite Ec in Ec'. inversion Ec'; subst c'. rewrite Hsc, Hnq, Hsq.
        destruct (Z.eqb_spec (ax / ay) (- 2 ^ (8 * Z.of_nat A - 1))); [lia | reflexivity]. }
  exists quotient, r. split; [exact EDM|].
  unfold operator_div, operator_mod. rewrite EDM. cbn [bind fst snd].
  split; [reflexivity|]. split; [reflexivity|].
  split; [exact Hwquot|]. split; [exact Hwr|]. split; [exact HWquot|]. split; [exact HWr|].
  assert (sval quotient = Z.quot (sval lhs) (sval rhs)) as Hquot.
  { rewrite Hsquot, Z.quot_div by assumption. fold ax ay.
    destruct (Z.leb_spec 0 (sval lhs)), (Z.leb_spec 0 (sval rhs)); cbn [Bool.eqb].
    - rewrite !Z.sgn_pos by lia. ring.
    - rewrite Z.sgn_pos, Z.sgn_neg by lia. ring.
    - rewrite Z.sgn_neg, Z.sgn_pos by lia. ring.
    - rewrite !Z.sgn_neg by lia. ring. }
  split; [exact Hquot|]. split; [exact Hsr|].
  intros Hpos. rewrite Hsr, Hsquot.
  assert (ax = sval lhs) as Eax by (unfold ax; apply Z.abs_eq; exact Hpos).
  pose proof (Z.div_mod ax ay ltac:(lia)) as Hdm.
  destruct (Z.leb_spec 0 (sval lhs)) as [_|]; [|lia].
  destruct (Z.leb_spec 0 (sval rhs)) as [Hy|Hy]; cbn [Bool.eqb].
  - assert (ay = sval rhs) as Eay by (unfold ay; apply Z.abs_eq; exact Hy).
    rewrite <- Eay, <- Eax. lia.
  - assert (ay = - sval rhs) as Eay by (unfold ay; apply Z.abs_neq; lia).
    replace (sval rhs) with (- ay) by lia. rewrite <- Eax. lia.
Qed.

Lemma Div_Mod_truncates_witness :
  wf x_max4 /\ wf x5 /\
  exists q r, Div_Mod x_max4 x5 = Ok (q, r) /\ sval q = 429496729 /\ sval r = 2.
Proof.
  split; [exact wf_x_max4|]. split; [exact wf_x5|].
  destruct (Div_Mod_truncates x_max4 x5 wf_x_max4 wf_x5)
    as (q & r & E & _ & _ & _ & _ & _ & _ & Hq & Hr & _).
  - intros H. vm_compute in H. discriminate H.
  - intros H. vm_compute in H. discriminate H.
  - intros H. vm_compute in H. discriminate H.
  - intros H. vm_compute in H. discriminate H.
  - exists q, r. split; [exact E|]. rewrite Hq, Hr. vm_compute. split; reflexivity.
Defined.

(** ** Shifts by any count *)

Lemma shl_loop_bits (shift k : nat) :
  forall result : Integer,
    words_ok result -> (k + shift <= 8 * length (_bits result))%nat ->
    let r := shl_loop k shift result in
    words_ok r /\ Width r = Width result /\ length (_bits r) = length (_bits result) /\
    forall m, 0 <= m ->
      Z.testbit (uval r) m
      = if (Z.of_nat shift <=? m) && (m <? Z.of_nat k + Z.of_nat shift)
        then Z.testbit (uval result) (m - Z.of_nat shift) else Z.testbit (uval result) m.
Proof.
  induction k as [|k IH]; intros result Hok Hlen.
  - cbn [shl_loop]. repeat split; auto. intros m Hm.
    destruct (Z.leb_spec (Z.of_nat shift) m), (Z.ltb_spec m (Z.of_nat 0 + Z.of_nat shift));
      cbn [andb]; try reflexivity; lia.
  - cbn [shl_loop].
    set (result' := assign_index result (k + shift) (operator_index result k)).
    destruct (IH result') as (H1 & H2 & H3 & H4).
    + now apply assign_index_ok.
    + unfold result'. rewrite assign_index_length. lia.
    + unfold result' in H2, H3. rewrite assign_index_Width in H2. rewrite assign_index_length in H3.
      repeat split; auto. intros m Hm. rewrite H4 by lia. unfold result'.
      rewrite !testbit_assign_index by (auto; lia).
      rewrite operator_index_testbit by assumption.
      destruct (Z.leb_spec (Z.of_nat shift) m), (Z.ltb_spec m (Z.of_nat k + Z.of_nat shift)),
        (Z.ltb_spec m (Z.of_nat (S k) + Z.of_nat shift));
        cbn [andb]; try lia;
        repeat match goal with |- context [Z.eqb ?p ?q] => destruct (Z.eqb_spec p q) end;
        try lia; try reflexivity.
      f_equal. lia.
Qed.

Lemma shr_loop_bits (shift k : nat) :
  forall (i : nat) (result : Integer),
    words_ok result -> (shift <= i)%nat -> (i + k <= 8 * length (_bits result))%nat ->
    let r := shr_loop k i shift result in
    words_ok r /\ Width r = Width result /\ length (_bits r) = length (_bits result) /\
    forall m, 0 <= m ->
      Z.testbit (uval r) m
      = if (Z.of_nat i - Z.of_nat shift <=? m)
           && (m <? Z.of_nat i - Z.of_nat shift + Z.of_nat k)
        then Z.testbit (uval result) (m + Z.of_nat shift) else Z.testbit (uval result) m.
Proof.
  destruct shift as [|s].
  { (* a zero shift copies every bit onto itself *)
    induction k as [|k IH]; intros i result Hok Hi Hlen.
    - cbn [shr_loop]. repeat split; auto. intros m Hm.
      change (Z.of_nat 0) with 0. rewrite !Z.add_0_r.
      now destruct (_ && _).
    - cbn [shr_loop]. rewrite Nat.sub_0_r.
      set (result' := assign_index result i (operator_index result i)).
      destruct (IH (S i) result') as (H1 & H2 & H3 & H4).
      + now apply assign_index_ok.
      + lia.
      + unfold result'. rewrite assign_index_length. lia.
      + unfold result' in H2, H3. rewrite assign_index_Width in H2.
        rewrite assign_index_length in H3.
        repeat split; auto. intros m Hm. rewrite H4 by lia. unfold result'.
        change (Z.of_nat 0) with 0. rewrite !Z.add_0_r.
        rewrite !testbit_assign_index by (auto; lia).
        rewrite operator_index_testbit by assumption.
        assert (forall b : bool, (if b then Z.testbit (uval result) m
                                  else Z.testbit (uval result) m)
                                 = Z.testbit (uval result) m) as Hif by (now intros []).
        destruct (Z.eqb_spec (Z.of_nat i) m) as [<-|NE]; now rewrite !Hif. }
  induction k as [|k IH]; intros i result Hok Hi Hlen.
  - cbn [shr_loop]. repeat split; auto. intros m Hm.
    destruct (Z.leb_spec (Z.of_nat i - Z.of_nat (S s)) m),
      (Z.ltb_spec m (Z.of_nat i - Z.of_nat (S s) + Z.of_nat 0));
      cbn [andb]; try reflexivity; lia.
  - cbn [shr_loop].
    set (result' := assign_index result (i - S s) (operator_index result i)).
    destruct (IH (S i) result') as (H1 & H2 & H3 & H4).
    + now apply assign_index_ok.
    + lia.
    + unfold result'. rewrite assign_index_length. lia.
    + unfold result' in H2, H3. rewrite assign_index_Width in H2. rewrite assign_index_length in H3.
      repeat split; auto. intros m Hm. rewrite H4 by lia. unfold result'.
      rewrite !testbit_assign_index by (auto; lia).
      rewrite operator_index_testbit by assumption.
      destruct (Z.leb_spec (Z.of_nat (S i) - Z.of_nat (S s)) m),
        (Z.ltb_spec m (Z.of_nat (S i) - Z.of_nat (S s) + Z.of_nat k)),
        (Z.leb_spec (Z.of_nat i - Z.of_nat (S s)) m),
        (Z.ltb_spec m (Z.of_nat i - Z.of_nat (S s) + Z.of_nat (S k)));
        cbn [andb]; try lia;
        repeat match goal with |- context [Z.eqb ?p ?q] => destruct (Z.eqb_spec p q) end;
        try lia; try reflexivity.
      f_equal. lia.
Qed.

Lemma clear_range_bits (len : nat) :
  forall (start : nat) (result : Integer),
    words_ok result -> (start + len <= 8 * length (_bits result))%nat ->
    let r := clear_range start len result in
    words_ok r /\ Width r = Width result /\ length (_bits r) = length (_bits result) /\
    forall m, 0 <= m ->
      Z.testbit (uval r) m
      = if (Z.of_nat start <=? m) && (m <? Z.of_nat start + Z.of_nat len)
        then false else Z.testbit (uval result) m.
Proof.
  unfold clear_range.
  induction len as [|len IH]; intros start result Hok Hlen.
  - cbn [seq fold_left]. repeat split; auto. intros m Hm.
    destruct (Z.leb_spec (Z.of_nat start) m), (Z.ltb_spec m (Z.of_nat start + Z.of_nat 0));
      cbn [andb]; try reflexivity; lia.
  - cbn [seq fold_left].
    destruct (IH (S start) (assign_index result start false)) as (H1 & H2 & H3 & H4).
    + now apply assign_index_ok.
    + rewrite assign_index_length. lia.
    + rewrite assign_index_Width in H2. rewrite assign_index_length in H3.
      repeat split; auto. intros m Hm. rewrite H4 by lia.
      rewrite testbit_assign_index by (auto; lia).
      destruct (Z.leb_spec (Z.of_nat (S start)) m),
        (Z.ltb_spec m (Z.of_nat (S start) + Z.of_nat len)),
        (Z.leb_spec (Z.of_nat start) m),
        (Z.ltb_spec m (Z.of_nat start + Z.of_nat (S len)));
        cbn [andb]; try lia;
        repeat match goal with |- context [Z.eqb ?p ?q] => destruct (Z.eqb_spec p q) end;
        try lia; try reflexivity.
Qed.

(** The limited-width constructor from a bitset of the full width. *)
Lemma Integer_of_full_bitset (x : Integer) (bitset : Z) :
  wf x -> Is_Unlimited (Width x) = false ->
  0 <= bitset < 2 ^ nbits x ->
  let r := Integer_of_bitset (Width x) (kBits_Cnt (Width x)) bitset in
  wf r /\ Width r = Width x /\ length (_bits r) = length (_bits x) /\ uval r = bitset.
Proof.
  intros Hwf EU Hb.
  pose proof (kBits_Cnt_wf x Hwf EU) as Hk.
  assert (length (_bits (Integer_new (Width x))) = length (_bits x)) as Hlen.
  { destruct (Integer_new_facts (Width x) (wf_admissible x Hwf)) as (_ & _ & _ & ->).
    destruct Hwf as (_ & _ & Hw). destruct (Width x); [auto | discriminate]. }
  destruct (Integer_of_bitset_spec (Width x) (kBits_Cnt (Width x)) bitset)
    as (R1 & R2 & R3 & R4).
  - now apply wf_admissible.
  - unfold kBits_Cnt, kWord_Bits_Cnt. destruct (Width x); [|reflexivity].
    apply Nat.Div0.mod_mul.
  - rewrite Hlen. unfold nbits in Hk. lia.
  - now rewrite Hk.
  - cbv zeta. split; [exact R1|]. split; [exact R2|]. split; [congruence | exact R4].
Qed.

Lemma operator_shl_uval (x : Integer) (shift : nat) :
  wf x ->
  (Is_Unlimited (Width x) = true -> (shift <= 8 * length (_bits x))%nat) ->
  let r := operator_shl x shift in
  wf r /\ Width r = Width x /\ length (_bits r) = length (_bits x) /\
  uval r = (uval x * 2 ^ Z.of_nat shift) mod 2 ^ nbits x.
Proof.
  intros Hwf Hsh. pose proof (wf_words_ok x Hwf) as Hok.
  pose proof (uval_range x Hok) as Hr. pose proof (wf_nbits x Hwf) as Hn.
  assert (0 < 2 ^ nbits x) as Hp by (apply pow2_pos; lia).
  unfold operator_shl. destruct (Nat.eqb_spec shift 0) as [->|Hnz].
  { cbv zeta. repeat split; try apply Hwf.
    change (2 ^ Z.of_nat 0) with 1. rewrite Z.mul_1_r. symmetry. now apply Z.mod_small. }
  unfold Is_Limited. destruct (Is_Unlimited (Width x)) eqn:EU; cbn [negb].
  - specialize (Hsh eq_refl).
    assert (Get_Actual_Bits_Cnt x = (8 * length (_bits x))%nat) as Hbits.
    { unfold Get_Actual_Bits_Cnt, kWord_Bits_Cnt. rewrite wf_Get_Actual_Width by assumption. lia. }
    rewrite Hbits.
    destruct (shl_loop_bits shift (8 * length (_bits x) - shift) x Hok) as (H1 & H2 & H3 & H4).
    { lia. }
    set (r := shl_loop _ shift x) in *.
    destruct (clear_range_bits shift 0 r H1) as (C1 & C2 & C3 & C4).
    { rewrite H3. lia. }
    cbv zeta. split; [|split; [congruence | split; [congruence|]]].
    + apply (wf_of_parts x); [exact Hwf | exact C1 | congruence | congruence].
    + apply Z.bits_inj'. intros m Hm. rewrite C4, H4 by lia.
      rewrite Z.testbit_mod_pow2 by lia. rewrite Z.mul_pow2_bits by lia.
      change (Z.of_nat 0) with 0. unfold nbits.
      destruct (Z.leb_spec 0 m); [|lia].
      destruct (Z.ltb_spec m (0 + Z.of_nat shift)); cbn [andb].
      * rewrite Z.testbit_neg_r by lia. now rewrite andb_false_r.
      * destruct (Z.leb_spec (Z.of_nat shift) m); [|lia].
        destruct (Z.ltb_spec m (Z.of_nat (8 * length (_bits x) - shift) + Z.of_nat shift)),
          (Z.ltb_spec m (8 * Z.of_nat (length (_bits x)))); cbn [andb]; try reflexivity; try lia.
        apply testbit_high_false with (nbits x); [exact Hr | unfold nbits; lia].
  - pose proof (kBits_Cnt_wf x Hwf EU) as Hk.
    rewrite Get_Bitset_wf, Z.shiftl_mul_pow2, Hk by (auto; lia).
    apply Integer_of_full_bitset; auto. apply Z.mod_pos_bound. lia.
Qed.

Lemma operator_shr_uval (x : Integer) (shift : nat) :
  wf x ->
  (Is_Unlimited (Width x) = true -> (shift <= 8 * length (_bits x))%nat) ->
  let r := operator_shr x shift in
  wf r /\ Width r = Width x /\ length (_bits r) = length (_bits x) /\
  uval r = uval x / 2 ^ Z.of_nat shift.
Proof.
  intros Hwf Hsh. pose proof (wf_words_ok x Hwf) as Hok.
  pose proof (uval_range x Hok) as Hr. pose proof (wf_nbits x Hwf) as Hn.
  assert (0 < 2 ^ nbits x) as Hp by (apply pow2_pos; lia).
  assert (0 < 2 ^ Z.of_nat shift) as Hps by (apply pow2_pos; lia).
  unfold operator_shr. destruct (Nat.eqb_spec shift 0) as [->|Hnz].
  { cbv zeta. repeat split; try apply Hwf.
    change (2 ^ Z.of_nat 0) with 1. now rewrite Z.div_1_r. }
  unfold Is_Limited. destruct (Is_Unlimited (Width x)) eqn:EU; cbn [negb].
  - specialize (Hsh eq_refl).
    assert (Get_Actual_Bits_Cnt x = (8 * length (_bits x))%nat) as Hbits.
    { unfold Get_Actual_Bits_Cnt, kWord_Bits_Cnt. rewrite wf_Get_Actual_Width by assumption. lia. }
    rewrite Hbits.
    destruct (shr_loop_bits shift (8 * length (_bits x) - shift) shift x Hok)
      as (H1 & H2 & H3 & H4).
    { lia. }
    { lia. }
    set (r := shr_loop _ shift shift x) in *.
    destruct (clear_range_bits shift (8 * length (_bits x) - shift) r H1) as (C1 & C2 & C3 & C4).
    { rewrite H3. lia. }
    cbv zeta. split; [|split; [congruence | split; [congruence|]]].
    + apply (wf_of_parts x); [exact Hwf | exact C1 | congruence | congruence].
    + apply Z.bits_inj'. intros m Hm. rewrite C4, H4 by lia.
      rewrite Z.div_pow2_bits by lia.
      destruct (Z.leb_spec (Z.of_nat (8 * length (_bits x) - shift)) m),
        (Z.ltb_spec m (Z.of_nat (8 * length (_bits x) - shift) + Z.of_nat shift));
        cbn [andb].
      * symmetry. apply testbit_high_false with (nbits x); [exact Hr | unfold nbits; lia].
      * destruct (Z.leb_spec (Z.of_nat shift - Z.of_nat shift) m); [|lia].
        destruct (Z.ltb_spec m (Z.of_nat shift - Z.of_nat shift
                                + Z.of_nat (8 * length (_bits x) - shift))); cbn [andb]; [lia|].
        rewrite !(testbit_high_false (uval x) (nbits x)) by (auto; unfold nbits; lia).
        reflexivity.
      * destruct (Z.leb_spec (Z.of_nat shift - Z.of_nat shift) m); [|lia].
        destruct (Z.ltb_spec m (Z.of_nat shift - Z.of_nat shift
                                + Z.of_nat (8 * length (_bits x) - shift))); cbn [andb];
          [reflexivity | lia].
      * lia.
  - rewrite Get_Bitset_wf, Z.shiftr_div_pow2 by (auto; lia).
    apply Integer_of_full_bitset; auto.
    split; [apply Z.div_pos; lia|].
    apply Z.div_lt_upper_bound; [lia|]. nia.
Qed.

(** [operator<<] multiplies the unsigned reading of the words by
    [2^shift] and drops what leaves the top; [operator>>] divides it by
    [2^shift], filling with zeros, so a value shifted right by at least one
    bit is never negative.  Both keep the width and the word count.  On
    an unlimited value the shift may not exceed the bits it holds. *)
Theorem shift_operators_arithmetic (x : Integer) (shift : nat) :
  wf x ->
  (Is_Unlimited (Width x) = true -> (shift <= 8 * length (_bits x))%nat) ->
  let l := operator_shl x shift in
  let r := operator_shr x shift in
  wf l /\ Width l = Width x /\ length (_bits l) = length (_bits x) /\
  uval l = (uval x * 2 ^ Z.of_nat shift) mod 2 ^ nbits x /\
  wf r /\ Width r = Width x /\ length (_bits r) = length (_bits x) /\
  uval r = uval x / 2 ^ Z.of_nat shift /\
  ((1 <= shift)%nat -> Is_Positive r = true /\ sval r = uval x / 2 ^ Z.of_nat shift).
Proof.
  intros Hwf Hsh l r.
  destruct (operator_shl_uval x shift Hwf Hsh) as (L1 & L2 & L3 & L4).
  destruct (operator_shr_uval x shift Hwf Hsh) as (R1 & R2 & R3 & R4).
  fold l in L1, L2, L3, L4. fold r in R1, R2, R3, R4.
  repeat (split; [assumption|]).
  intros H1.
  pose proof (uval_range x (wf_words_ok x Hwf)) as Hr. pose proof (wf_nbits x Hwf) as Hn.
  assert (nbits r = nbits x) as Hnr by (unfold nbits; now rewrite R3).
  assert (uval r < 2 ^ (nbits r - 1)) as Hsmall.
  { rewrite R4, Hnr. apply Z.div_lt_upper_bound; [apply pow2_pos; lia|].
    assert (2 ^ 1 <= 2 ^ Z.of_nat shift) as Hp1 by (apply pow2_le; lia).
    rewrite Z.pow_1_r in Hp1.
    rewrite (pow2_half (nbits x)) in Hr by lia.
    assert (0 < 2 ^ (nbits x - 1)) by (apply pow2_pos; lia).
    set (P := 2 ^ (nbits x - 1)) in *. set (Q := 2 ^ Z.of_nat shift) in *.
    clearbody P Q. nia. }
  assert (sval r = uval r) as Hs by now apply uval_small_sval.
  split; [|congruence].
  rewrite Is_Positive_sval, Hs by assumption. apply Z.leb_le.
  apply uval_range. now apply wf_words_ok.
Qed.

Lemma shift_operators_arithmetic_witness :
  wf x_min4 /\ uval (operator_shr x_min4 31) = 1 /\ uval (operator_shl x5 40) = 0.
Proof.
  split; [exact wf_x_min4|].
  destruct (shift_operators_arithmetic x_min4 31 wf_x_min4) as (_ & _ & _ & _ & _ & _ & _ & H & _).
  - intros H. discriminate H.
  - destruct (shift_operators_arithmetic x5 40 wf_x5) as (_ & _ & _ & K & _).
    + intros H'. discriminate H'.
    + split; [rewrite H | rewrite K]; vm_compute; reflexivity.
Defined.

(** Shifting left and then right by the same count gives the value back
    when the bits shifted out at the top were clear. *)
Theorem shift_left_then_right (x : Integer) (shift : nat) :
  wf x -> (shift <= 8 * length (_bits x))%nat ->
  uval x < 2 ^ (nbits x - Z.of_nat shift) ->
  operator_shr (operator_shl x shift) shift = x.
Proof.
  intros Hwf Hsh Hfree.
  destruct (operator_shl_uval x shift Hwf (fun _ => Hsh)) as (L1 & L2 & L3 & L4).
  set (l := operator_shl x shift) in *.
  destruct (operator_shr_uval l shift L1) as (R1 & R2 & R3 & R4).
  { intros _. rewrite L3. exact Hsh. }
  pose proof (uval_range x (wf_words_ok x Hwf)) as Hr.
  assert (0 < 2 ^ Z.of_nat shift) as Hps by (apply pow2_pos; lia).
  apply Integer_ext; try (now apply wf_words_ok); try congruence.
  rewrite R4, L4, Z.mod_small.
  - now apply Z.div_mul; lia.
  - split; [apply Z.mul_nonneg_nonneg; lia|].
    assert (2 ^ nbits x = 2 ^ (nbits x - Z.of_nat shift) * 2 ^ Z.of_nat shift) as ->.
    { rewrite <- Z.pow_add_r by (unfold nbits; lia). f_equal. lia. }
    apply Z.mul_lt_mono_pos_r; assumption.
Qed.

Lemma shift_left_then_right_witness :
  wf x5 /\ operator_shr (operator_shl x5 20) 20 = x5.
Proof.
  split; [exact wf_x5|].
  apply (shift_left_then_right x5 20 wf_x5).
  - cbn. lia.
  - vm_compute. reflexivity.
Defined.

(** ** Comparison *)

(** [operator==] never fails and compares the numbers, whatever the widths
    and word counts of the two operands; it is symmetric, [operator!=] is
    its negation, and on one limited width it holds exactly for identical
    word vectors. *)
Theorem operator_eq_compares_values (lhs rhs : Integer) :
  wf lhs -> wf rhs ->
  exists b,
    operator_eq lhs rhs = Ok b /\ operator_eq rhs lhs = Ok b /\
    operator_ne lhs rhs = Ok (negb b) /\
    (b = true <-> sval lhs = sval rhs) /\
    (Width lhs = Width rhs -> Is_Unlimited (Width lhs) = false ->
     (b = true <-> lhs = rhs)).
Proof.
  intros Hl Hr. exists (Z.eqb (sval lhs) (sval rhs)).
  split; [now apply operator_eq_spec|].
  split; [rewrite Z.eqb_sym; now apply operator_eq_spec|].
  split; [now apply operator_ne_spec|].
  split; [apply Z.eqb_eq|].
  intros HW EU. rewrite Z.eqb_eq. split; [|now intros ->].
  intros Hs. apply sval_inj; auto.
  destruct Hl as (_ & _ & Hwl), Hr as (_ & _ & Hwr). rewrite <- HW in Hwr.
  destruct (Width lhs); [congruence | discriminate].
Qed.

Lemma operator_eq_compares_values_witness :
  wf x5 /\ wf (kOne kUnlimited) /\ operator_eq x5 (kOne kUnlimited) = Ok false.
Proof.
  assert (wf (kOne kUnlimited)) as H1 by exact (proj1 (kOne_facts kUnlimited I)).
  split; [exact wf_x5|]. split; [exact H1|].
  destruct (operator_eq_compares_values x5 (kOne kUnlimited) wf_x5 H1) as (b & E & _ & _ & Hb & _).
  rewrite E. f_equal. destruct b; [|reflexivity].
  destruct Hb as [Hb _]. specialize (Hb eq_refl). vm_compute in Hb. discriminate Hb.
Defined.

(** ** Bit-level utilities *)

(** [Get_Msb_Idx] is the position of the highest set bit, that is the
    binary logarithm of the unsigned reading; it is 0 both for the value
    with only bit 0 set and for zero. *)
Theorem Get_Msb_Idx_is_log2 (x : Integer) :
  wf x ->
  Z.of_nat (Get_Msb_Idx x) < nbits x /\
  (uval x = 0 -> Get_Msb_Idx x = 0%nat) /\
  (0 < uval x ->
   Z.of_nat (Get_Msb_Idx x) = Z.log2 (uval x) /\
   operator_index x (Get_Msb_Idx x) = true) /\
  (forall i, (Get_Msb_Idx x < i)%nat -> Z.of_nat i < nbits x -> operator_index x i = false).
Proof.
  intros Hwf. pose proof (wf_words_ok x Hwf) as Hok.
  destruct (Get_Msb_Idx_spec x Hwf) as (M1 & M2 & M3).
  set (m := Get_Msb_Idx x) in *.
  assert (0 < uval x -> 2 ^ Z.of_nat m <= uval x) as Hlow.
  { intros Hpos. destruct (Nat.eq_dec m 0) as [->|NE]; [|now apply M3].
    change (2 ^ Z.of_nat 0) with 1. lia. }
  split; [exact M1|]. split; [|split].
  - intros Hz. destruct (Nat.eq_dec m 0) as [E|NE]; [exact E|].
    specialize (M3 NE). pose proof (pow2_pos (Z.of_nat m)). lia.
  - intros Hpos. specialize (Hlow Hpos).
    assert (Z.log2 (uval x) = Z.of_nat m) as Hlog by (apply Z.log2_unique; lia).
    split; [now symmetry|].
    rewrite operator_index_testbit by assumption.
    rewrite <- Hlog. apply Z.bit_log2. exact Hpos.
  - intros i Hi _. rewrite operator_index_testbit by assumption.
    apply testbit_high_false with (Z.of_nat m + 1); [|lia].
    split; [now apply uval_range | exact M2].
Qed.

Lemma Get_Msb_Idx_is_log2_witness :
  wf x12345 /\ Get_Msb_Idx x12345 = 13%nat.
Proof.
  split; [exact wf_x12345|].
  destruct (Get_Msb_Idx_is_log2 x12345 wf_x12345) as (_ & _ & H & _).
  destruct H as [H _]; [vm_compute; reflexivity|].
  apply Nat2Z.inj. rewrite H. vm_compute. reflexivity.
Defined.

(** On a limited width, [Get_Bitset] and the constructor from a bitset are
    inverse to each other. *)
Theorem bitset_round_trip (x : Integer) (bitset : Z) :
  wf x -> Is_Unlimited (Width x) = false ->
  Integer_of_bitset (Width x) (kBits_Cnt (Width x)) (Get_Bitset x) = x /\
  (0 <= bitset < 2 ^ nbits x ->
   Get_Bitset (Integer_of_bitset (Width x) (kBits_Cnt (Width x)) bitset) = bitset).
Proof.
  intros Hwf EU. pose proof (wf_words_ok x Hwf) as Hok.
  pose proof (uval_range x Hok) as Hr.
  split.
  - rewrite Get_Bitset_wf by assumption.
    destruct (Integer_of_full_bitset x (uval x) Hwf EU Hr) as (R1 & R2 & R3 & R4).
    apply Integer_ext; auto. now apply wf_words_ok.
  - intros Hb.
    destruct (Integer_of_full_bitset x bitset Hwf EU Hb) as (R1 & R2 & R3 & R4).
    rewrite Get_Bitset_wf; [exact R4 | exact R1 | congruence].
Qed.

Lemma bitset_round_trip_witness :
  wf x12345 /\ Integer_of_bitset (Fixed 4) 32 (Get_Bitset x12345) = x12345.
Proof.
  split; [exact wf_x12345|].
  exact (proj1 (bitset_round_trip x12345 0 wf_x12345 eq_refl)).
Defined.

(** [Get_Inverse] flips every bit: the value becomes [-x - 1], the width and
    the word count stay, and applying it twice gives the original back. *)
Theorem Get_Inverse_involutive (x : Integer) :
  wf x ->
  wf (Get_Inverse x) /\ Width (Get_Inverse x) = Width x /\
  length (_bits (Get_Inverse x)) = length (_bits x) /\
  sval (Get_Inverse x) = - sval x - 1 /\
  (forall i, Z.of_nat i < nbits x ->
     operator_index (Get_Inverse x) i = negb (operator_index x i)) /\
  Get_Inverse (Get_Inverse x) = x.
Proof.
  intros Hwf.
  destruct (Get_Inverse_spec x Hwf) as (I1 & I2 & I3 & I4 & I5).
  destruct (Get_Inverse_spec (Get_Inverse x) I1) as (J1 & J2 & J3 & J4 & J5).
  pose proof (uval_range x (wf_words_ok x Hwf)) as Hr.
  repeat (split; [assumption|]). split.
  - intros i Hi. rewrite !operator_index_testbit by now apply wf_words_ok.
    rewrite I4, <- lxor_ones; [| unfold nbits; lia | exact Hr].
    rewrite Z.lxor_spec, Z.ones_spec_low by lia. apply xorb_true_r.
  - apply sval_inj; auto; try congruence. lia.
Qed.

Lemma Get_Inverse_involutive_witness :
  wf x5 /\ sval (Get_Inverse x5) = -6 /\ Get_Inverse (Get_Inverse x5) = x5.
Proof.
  split; [exact wf_x5|].
  destruct (Get_Inverse_involutive x5 wf_x5) as (_ & _ & _ & Hs & _ & Hi).
  split; [rewrite Hs; vm_compute; reflexivity | exact Hi].
Defined.

(** [Get_Normalized] to a word count that is not smaller than the current
    one extends the sign: the value is unchanged, the result has exactly
    the requested word count and the requested width tag, and the words
    already present are kept. *)
Theorem Get_Normalized_sign_extends (New_Width : t_Width) (x : Integer) (actual_width : nat) :
  wf x -> (length (_bits x) <= actual_width)%nat ->
  exists y,
    Get_Normalized New_Width x actual_width = Ok y /\
    Width y = New_Width /\ length (_bits y) = actual_width /\
    words_ok y /\ sval y = sval x /\
    firstn (length (_bits x)) (_bits y) = _bits x /\
    (forall k, (length (_bits x) <= k < actual_width)%nat ->
       nth k (_bits y) 0 = if Is_Positive x then 0 else 255).
Proof.
  intros Hwf Hle.
  destruct (Get_Normalized_spec New_Width x actual_width Hwf Hle) as (y & E & HW & Hlen & Hok & Hs).
  exists y. do 5 (split; [assumption|]).
  assert (forall r : list Z, firstn (length (_bits x)) (_bits x ++ r) = _bits x) as Hfirst.
  { intros r. rewrite firstn_app, Nat.sub_diag, firstn_all. cbn [firstn]. apply app_nil_r. }
  assert (forall r : list Z, skipn (length (_bits x)) (_bits x ++ r) = r) as Hskip.
  { intros r. rewrite skipn_app, Nat.sub_diag, skipn_all. reflexivity. }
  unfold Get_Normalized in E. rewrite wf_Get_Actual_Width in E by assumption.
  destruct (Nat.eqb_spec (length (_bits x)) actual_width) as [Heq|Hne].
  - inversion E; subst y. cbn [Integer_copy _bits]. split; [apply firstn_all | intros; lia].
  - destruct (Nat.ltb_spec actual_width (length (_bits x))); [lia|].
    destruct (Is_Positive x).
    + inversion E; subst y. cbn [_bits]. split; [apply Hfirst|].
      intros k Hk. rewrite app_nth2 by lia. apply nth_repeat.
    + inversion E; subst y. cbn [_bits]. rewrite Hfirst, Hskip, map_repeat.
      split; [apply Hfirst|].
      intros k Hk. rewrite app_nth2 by lia. apply nth_repeat_lt. lia.
Qed.

Lemma Get_Normalized_sign_extends_witness :
  wf x_min4 /\
  exists y, Get_Normalized kUnlimited x_min4 6 = Ok y /\ sval y = - 2 ^ 31 /\
            nth 5 (_bits y) 0 = 255.
Proof.
  split; [exact wf_x_min4|].
  destruct (Get_Normalized_sign_extends kUnlimited x_min4 6 wf_x_min4)
    as (y & E & _ & _ & _ & Hs & _ & Hk).
  - cbn. lia.
  - exists y. split; [exact E|]. split; [rewrite Hs; vm_compute; reflexivity|].
    rewrite Hk by (cbn; lia). reflexivity.
Defined.

(** ** Constants, increment and decrement *)

(** The static constants hold 0, 1, 2 and 10 at every admissible width,
    in a well-formed vector of the minimal word count. *)
Theorem constants_values (W : t_Width) :
  admissible W ->
  (wf (kZero W) /\ Width (kZero W) = W /\ sval (kZero W) = 0) /\
  (wf (kOne W) /\ Width (kOne W) = W /\ sval (kOne W) = 1) /\
  (wf (kTwo W) /\ Width (kTwo W) = W /\ sval (kTwo W) = 2) /\
  (wf (kTen W) /\ Width (kTen W) = W /\ sval (kTen W) = 10) /\
  length (_bits (kZero W)) = min_words W /\ length (_bits (kOne W)) = min_words W /\
  length (_bits (kTwo W)) = min_words W /\ length (_bits (kTen W)) = min_words W.
Proof.
  intros Hadm.
  destruct (kZero_facts W Hadm) as (Z1 & Z2 & _ & Z4).
  destruct (kOne_facts W Hadm) as (O1 & O2 & _ & O4).
  destruct (kTwo_facts W Hadm) as (T1 & T2 & _ & T4).
  destruct (kTen_facts W Hadm) as (D1 & D2 & _ & D4).
  destruct (Integer_new_facts W Hadm) as (_ & _ & _ & Hlen).
  unfold kZero, kOne, kTwo, kTen in *. rewrite !assign_index_length.
  unfold min_words. auto 20.
Qed.

Lemma constants_values_witness :
  admissible (Fixed 7) /\ sval (kTen (Fixed 7)) = 10 /\ length (_bits (kTen (Fixed 7))) = 7%nat.
Proof.
  assert (admissible (Fixed 7)) as H by (cbn; unfold kWidth_Min; lia).
  split; [exact H|].
  destruct (constants_values (Fixed 7) H) as (_ & _ & _ & (_ & _ & Hs) & _ & _ & _ & Hl).
  split; [exact Hs | exact Hl].
Defined.

(** Subtraction is addition of the complement; the complement is the exact
    opposite unless the operand is the most negative value of a limited
    width. *)
Lemma operator_sub_as_add (lhs rhs : Integer) :
  wf rhs ->
  (Is_Unlimited (Width rhs) = false -> sval rhs <> - 2 ^ (nbits rhs - 1)) ->
  exists c, Get_Complement rhs = Ok c /\ wf c /\ Width c = Width rhs /\
            sval c = - sval rhs /\
            (sval rhs <> - 2 ^ (nbits rhs - 1) -> length (_bits c) = length (_bits rhs)) /\
            operator_sub lhs rhs = operator_add lhs c.
Proof.
  intros Hr Hmin.
  destruct (Get_Complement_spec rhs Hr) as (c & Ec & Hc & HWc & Hrest).
  exists c. split; [exact Ec|]. split; [exact Hc|]. split; [exact HWc|].
  unfold operator_sub. rewrite Ec. cbn [bind].
  destruct (Is_Unlimited (Width rhs)) eqn:EU.
  - destruct Hrest as [Hs Hl]. split; [exact Hs|]. split; [|reflexivity].
    intros Hne. rewrite Hl.
    destruct (Z.eqb_spec (sval rhs) (- 2 ^ (nbits rhs - 1))); [contradiction | reflexivity].
  - destruct (Get_Complement_limited rhs Hr EU) as (c' & Ec' & _ & _ & Hl & Hs).
    rewrite Ec in Ec'. inversion Ec'; subst c'.
    specialize (Hmin eq_refl).
    destruct (Z.eqb_spec (sval rhs) (- 2 ^ (nbits rhs - 1))); [contradiction|].
    auto.
Qed.

(** Prefix increment adds one and prefix decrement takes it away again:
    after [++x; --x] the receiver equals its old value, and on a limited
    width it is the very same word vector.  On a limited width the
    increment needs [x] below the largest value. *)
Theorem increment_then_decrement (x : Integer) :
  wf x ->
  (Is_Unlimited (Width x) = false -> sval x <> 2 ^ (nbits x - 1) - 1) ->
  exists y z,
    operator_inc x = (y, Ok tt) /\ wf y /\ Width y = Width x /\ sval y = sval x + 1 /\
    operator_dec y = (z, Ok tt) /\ wf z /\ Width z = Width x /\ sval z = sval x /\
    (Is_Unlimited (Width x) = false -> z = x).
Proof.
  intros Hx Hmax.
  pose proof (wf_admissible x Hx) as Hadm.
  destruct (kOne_facts (Width x) Hadm) as (O1 & O2 & _ & O4).
  pose proof (sval_range x Hx) as Rx. pose proof (wf_nbits x Hx) as Nx.
  assert (length (_bits (kOne (Width x))) <= length (_bits x))%nat as Hlen1.
  { unfold kOne. rewrite assign_index_length.
    destruct (Integer_new_facts (Width x) Hadm) as (_ & _ & _ & ->).
    destruct Hx as (_ & H4 & Hw). destruct (Width x); [lia | exact H4]. }
  assert (nbits (kOne (Width x)) <= nbits x) as Hn1 by (unfold nbits; lia).
  pose proof (wf_nbits _ O1) as N1.
  (* the increment *)
  destruct (operator_add_spec x (kOne (Width x)) Hx O1) as (y & Hy & HWy & Hry).
  rewrite O2, Get_Max_idem in HWy, Hry. rewrite Nat.max_l in Hry by exact Hlen1.
  fold (nbits x) in Hry. rewrite O4 in Hry.
  assert (operator_add x (kOne (Width x)) = Ok y /\ sval y = sval x + 1 /\
          (Is_Unlimited (Width x) = false -> length (_bits y) = length (_bits x)))
    as (Ey & Hsy & Hly).
  { destruct (Is_Unlimited (Width x)) eqn:EU.
    - destruct Hry as (E & Hs & _). split; [exact E|]. split; [exact Hs | discriminate].
    - destruct Hry as (Hl & _ & Hcase). specialize (Hmax eq_refl).
      assert (in_range (nbits x) (sval x + 1) = true) as Hin.
      { apply in_range_bounds. lia. }
      rewrite Hin in Hcase. destruct Hcase as [E Hs]. auto. }
  (* the decrement *)
  assert (sval (kOne (Width y)) <> - 2 ^ (nbits (kOne (Width y)) - 1)) as Hone.
  { rewrite HWy, O4. pose proof (pow2_pos (nbits (kOne (Width x)) - 1)). lia. }
  destruct (operator_sub_as_add y (kOne (Width y))) as (c & _ & Hc & HWc & Hsc & Hlc & Esub).
  { rewrite HWy. exact O1. }
  { intros _. exact Hone. }
  specialize (Hlc Hone). rewrite HWy in HWc, Hsc, Hlc. rewrite O2 in HWc. rewrite O4 in Hsc.
  destruct (operator_add_spec y c Hy Hc) as (z & Hz & HWz & Hrz).
  rewrite HWy, HWc, Get_Max_idem in HWz, Hrz.
  rewrite Hsy in Hrz. replace (sval x + 1 + sval c) with (sval x) in Hrz by lia.
  assert (operator_add y c = Ok z /\ sval z = sval x /\
          (Is_Unlimited (Width x) = false -> length (_bits z) = length (_bits x)))
    as (Ez & Hsz & Hlz).
  { destruct (Is_Unlimited (Width x)) eqn:EU.
    - destruct Hrz as (E & Hs & _). split; [exact E|]. split; [exact Hs | discriminate].
    - destruct Hrz as (Hl & _ & Hcase).
      rewrite (Hly eq_refl), Hlc, Nat.max_l in Hl, Hcase by exact Hlen1.
      fold (nbits x) in Hcase.
      assert (in_range (nbits x) (sval x) = true) as Hin by (apply in_range_bounds; lia).
      rewrite Hin in Hcase. destruct Hcase as [E Hs]. auto. }
  exists y, z.
  split; [unfold operator_inc; now apply assign_result_ok|].
  split; [exact Hy|]. split; [exact HWy|]. split; [exact Hsy|].
  split; [unfold operator_dec; apply assign_result_ok; now rewrite Esub|].
  split; [exact Hz|]. split; [exact HWz|]. split; [exact Hsz|].
  intros EU. apply sval_inj; auto.
Qed.

Lemma increment_then_decrement_witness :
  wf x5 /\
  exists y, operator_inc x5 = (y, Ok tt) /\ sval y = 6 /\ operator_dec y = (x5, Ok tt).
Proof.
  split; [exact wf_x5|].
  destruct (increment_then_decrement x5 wf_x5)
    as (y & z & E1 & _ & _ & Hs & E2 & _ & _ & _ & Hz).
  - intros _ H. vm_compute in H. discriminate H.
  - exists y. split; [exact E1|]. split; [rewrite Hs; vm_compute; reflexivity|].
    rewrite <- (Hz eq_refl). exact E2.
Defined.

(** ** Reading and writing decimal strings *)

(** The digits of a number written without a leading zero are the digits
    [decimal_digits] finds. *)
Lemma decimal_digits_horner (ds : list Z) :
  forall fuel : nat,
    Forall is_digit ds -> 1 <= hd 1 ds -> horner 0 ds < 2 ^ Z.of_nat fuel ->
    decimal_digits fuel (horner 0 ds) [] = ds.
Proof.
  induction ds as [|d ds' IH] using rev_ind; intros fuel Hds Hhd Hlt.
  - unfold horner. cbn [fold_left]. apply decimal_digits_zero.
  - apply Forall_app in Hds. destruct Hds as [Hds' Hd].
    apply Forall_cons_iff in Hd. destruct Hd as [Hd _]. unfold is_digit in Hd.
    rewrite horner_app in *. unfold horner at 1 in Hlt. unfold horner at 1.
    cbn [fold_left] in *.
    set (h := horner 0 ds') in *.
    assert (0 <= h) as Hh0 by (apply (horner_ge ds' 0); [lia | exact Hds']).
    assert (10 * h + d <> 0) as Hnz.
    { destruct ds' as [|d0 rest]; [cbn [app hd] in Hhd; lia|].
      cbn [app hd] in Hhd. unfold h, horner. cbn [fold_left].
      apply Forall_cons_iff in Hds'. destruct Hds' as [_ Hrest].
      pose proof (horner_ge rest (10 * 0 + d0) ltac:(lia) Hrest) as Hge.
      unfold horner in Hge. lia. }
    destruct fuel as [|fuel]; [change (2 ^ Z.of_nat 0) with 1 in Hlt; lia|].
    rewrite decimal_digits_step by exact Hnz.
    replace ((10 * h + d) / 10) with h
      by (apply Z.div_unique with d; lia).
    replace ((10 * h + d) mod 10) with d
      by (apply Z.mod_unique with h; lia).
    f_equal. destruct ds' as [|d0 rest].
    + apply decimal_digits_zero.
    + apply IH; [exact Hds' | exact Hhd|].
      fold h. rewrite Nat2Z.inj_succ, <- Z.add_1_r, pow2_succ in Hlt by lia. lia.
Qed.

(** What the loop of [Deserialize] and its final sign step return on an
    optional sign followed by decimal digits. *)
Lemma Deserialize_sign_digits (W : t_Width) (sign : list ascii) (ds : list Z) :
  admissible W ->
  sign = [] \/ sign = ["+"%char] \/ sign = ["-"%char] ->
  Forall is_digit ds ->
  (Is_Unlimited W = false -> horner 0 ds < 2 ^ (nbits (kZero W) - 1)) ->
  exists y,
    Deserialize W (string_of_list_ascii (sign ++ map digit_ascii ds)) = Ok y /\
    wf y /\ Width y = W /\
    sval y = (if list_eq_dec ascii_dec sign ["-"%char] then - horner 0 ds else horner 0 ds).
Proof.
  intros Hadm Hsign Hds Hfit.
  destruct (kZero_facts W Hadm) as (Z1 & Z2 & Z3 & Z4). unfold kZero in *.
  unfold Deserialize. rewrite list_ascii_of_string_of_list_ascii.
  assert (exists r (positive : bool),
             Deserialize_loop W 0 (sign ++ map digit_ascii ds) (Integer_new W) true false
             = Ok (r, positive, false) /\
             wf r /\ Width r = W /\ sval r = horner 0 ds /\
             (Is_Unlimited W = false -> nbits r = nbits (Integer_new W)) /\
             positive = (if list_eq_dec ascii_dec sign ["-"%char] then false else true))
    as (r & positive & E & Hr & HWr & Hsr & Hnr & Hpos).
  { destruct Hsign as [->|[->| ->]].
    - destruct (Deserialize_signed_digits W Hadm false ds Hds Hfit) as (r & E & H1 & H2 & H3 & H4).
      exists r, true. cbn [app negb] in E |- *. auto 10.
    - cbn [app Deserialize_loop]. change (Nat.eqb 0 0 && Ascii.eqb "+" "+") with true. cbv iota.
      destruct (Deserialize_loop_digits W Hadm ds 1 (Integer_new W) true false Z1 Z2 Hds)
        as (r & E & H1 & H2 & H3 & H4).
      + rewrite Z4. lia.
      + discriminate.
      + rewrite Z4. exact Hfit.
      + rewrite Z4 in H3. exists r, true. auto 10.
    - destruct (Deserialize_signed_digits W Hadm true ds Hds Hfit) as (r & E & H1 & H2 & H3 & H4).
      exists r, false. cbn [app negb] in E |- *. auto 10. }
  rewrite E. cbn [bind]. subst positive.
  destruct (list_eq_dec ascii_dec sign ["-"%char]) as [_|_].
  - destruct (Get_Complement_spec r Hr) as (c & Ec & Hc & HWc & Hrest).
    rewrite Ec. exists c. split; [reflexivity|]. split; [exact Hc|]. split; [congruence|].
    rewrite HWr in Hrest. destruct (Is_Unlimited W) eqn:EU.
    + destruct Hrest as [-> _]. now rewrite Hsr.
    + destruct (Get_Complement_limited r Hr) as (c' & Ec' & _ & _ & _ & Hsc); [congruence|].
      rewrite Ec in Ec'. inversion Ec'; subst c'. rewrite Hsc, Hsr.
      assert (0 <= horner 0 ds) as H0 by (apply (horner_ge ds 0); [lia | exact Hds]).
      pose proof (pow2_pos (nbits r - 1)) as Hp. pose proof (wf_nbits r Hr).
      destruct (Z.eqb_spec (horner 0 ds) (- 2 ^ (nbits r - 1))); [lia | reflexivity].
  - exists r. auto.
Qed.

(** [Deserialize] reads an optional sign and decimal digits, leading zeros
    and the empty digit string included: the digits alone and the digits
    after ['+'] give their value, after ['-'] its opposite.  On a limited
    width the value of the digits has to be below [2^(bits-1)]. *)
Theorem Deserialize_reads_decimal (W : t_Width) (ds : list Z) :
  admissible W -> Forall is_digit ds ->
  (Is_Unlimited W = false -> horner 0 ds < 2 ^ (nbits (kZero W) - 1)) ->
  let digits := string_of_list_ascii (map digit_ascii ds) in
  exists p p' n,
    Deserialize W digits = Ok p /\
    Deserialize W (String "+" digits) = Ok p' /\
    Deserialize W (String "-" digits) = Ok n /\
    wf p /\ wf p' /\ wf n /\ Width p = W /\ Width p' = W /\ Width n = W /\
    sval p = horner 0 ds /\ sval p' = horner 0 ds /\ sval n = - horner 0 ds /\
    operator_eq p p' = Ok true.
Proof.
  intros Hadm Hds Hfit digits.
  destruct (Deserialize_sign_digits W [] ds Hadm (or_introl eq_refl) Hds Hfit)
    as (p & Ep & Hp & HWp & Hsp).
  destruct (Deserialize_sign_digits W ["+"%char] ds Hadm (or_intror (or_introl eq_refl)) Hds Hfit)
    as (p' & Ep' & Hp' & HWp' & Hsp').
  destruct (Deserialize_sign_digits W ["-"%char] ds Hadm (or_intror (or_intror eq_refl)) Hds Hfit)
    as (n & En & Hn & HWn & Hsn).
  destruct (list_eq_dec ascii_dec [] ["-"%char]) as [e|_]; [discriminate e|].
  destruct (list_eq_dec ascii_dec ["+"%char] ["-"%char]) as [e|_]; [discriminate e|].
  destruct (list_eq_dec ascii_dec ["-"%char] ["-"%char]) as [_|ne]; [|now contradiction ne].
  exists p, p', n. cbn [app string_of_list_ascii] in Ep, Ep', En.
  repeat (split; [assumption|]).
  rewrite operator_eq_spec, Hsp, Hsp', Z.eqb_refl by assumption. reflexivity.
Qed.

Lemma Deserialize_reads_decimal_witness :
  admissible (Fixed 4) /\
  exists n, Deserialize (Fixed 4) "-0042" = Ok n /\ sval n = -42.
Proof.
  assert (admissible (Fixed 4)) as H by (cbn; unfold kWidth_Min; lia).
  split; [exact H|].
  destruct (Deserialize_reads_decimal (Fixed 4) [0; 0; 4; 2] H)
    as (_ & _ & n & _ & _ & En & _ & _ & _ & _ & _ & _ & _ & _ & Hs & _).
  - repeat constructor; unfold is_digit; lia.
  - intros _. vm_compute. reflexivity.
  - exists n. split; [exact En|]. rewrite Hs. vm_compute. reflexivity.
Defined.

(** Reading a decimal string written without a leading zero and writing
    the result gives the same string back, with or without a minus sign. *)
Theorem Serialize_after_Deserialize (W : t_Width) (fuel : nat) (negative : bool)
  (d : Z) (ds : list Z) :
  admissible W -> Forall is_digit (d :: ds) -> 1 <= d ->
  (Is_Unlimited W = false -> horner 0 (d :: ds) < 2 ^ (nbits (kZero W) - 1)) ->
  let s := string_of_list_ascii
             ((if negative then ["-"%char] else []) ++ map digit_ascii (d :: ds)) in
  exists y,
    Deserialize W s = Ok y /\ wf y /\ Width y = W /\
    (nbits y <= Z.of_nat fuel -> Serialize fuel y = Ok s).
Proof.
  intros Hadm Hds Hd Hfit s.
  destruct (Deserialize_sign_digits W (if negative then ["-"%char] else []) (d :: ds) Hadm)
    as (y & Ey & Hy & HWy & Hsy); auto.
  { destruct negative; auto. }
  exists y. split; [exact Ey|]. split; [exact Hy|]. split; [exact HWy|].
  intros Hfuel. rewrite Serialize_spec by assumption.
  set (h := horner 0 (d :: ds)) in *.
  assert (1 <= h) as Hh.
  { unfold h, horner. cbn [fold_left]. apply Forall_cons_iff in Hds. destruct Hds as [_ Hrest].
    pose proof (horner_ge ds (10 * 0 + d) ltac:(lia) Hrest) as Hge. unfold horner in Hge. lia. }
  pose proof (sval_range y Hy) as Ry. pose proof (wf_nbits y Hy) as Ny.
  assert (2 ^ (nbits y - 1) < 2 ^ Z.of_nat fuel) as Hpw by (apply pow2_lt; lia).
  assert (h < 2 ^ Z.of_nat fuel) as Hlt.
  { destruct (list_eq_dec ascii_dec _ _) in Hsy; lia. }
  pose proof (decimal_digits_horner (d :: ds) fuel Hds Hd Hlt) as Hdigits. fold h in Hdigits.
  f_equal. unfold decimal_string, s.
  destruct negative.
  - destruct (list_eq_dec ascii_dec ["-"%char] ["-"%char]) as [_|ne]; [|now contradiction ne].
    rewrite Hsy. destruct (Z.eqb_spec (- h) 0); [lia|].
    destruct (Z.leb_spec 0 (- h)); [lia|].
    rewrite Z.abs_neq, Z.opp_involutive, Hdigits by lia. reflexivity.
  - destruct (list_eq_dec ascii_dec [] ["-"%char]) as [e|_]; [discriminate e|].
    rewrite Hsy. destruct (Z.eqb_spec h 0); [lia|].
    destruct (Z.leb_spec 0 h); [|lia].
    rewrite Z.abs_eq, Hdigits by lia. reflexivity.
Qed.

Lemma Serialize_after_Deserialize_witness :
  admissible (Fixed 4) /\
  exists y, Deserialize (Fixed 4) "-907" = Ok y /\ Serialize 32 y = Ok "-907"%string.
Proof.
  assert (admissible (Fixed 4)) as H by (cbn; unfold kWidth_Min; lia).
  split; [exact H|].
  destruct (Serialize_after_Deserialize (Fixed 4) 32 true 9 [0; 7] H)
    as (y & Ey & Hy & HWy & Hs).
  - repeat constructor; unfold is_digit; lia.
  - lia.
  - intros _. vm_compute. reflexivity.
  - exists y. split; [exact Ey|]. apply Hs.
    destruct Hy as (_ & _ & Hw). rewrite HWy in Hw. unfold nbits. rewrite Hw. cbn. lia.
Defined.

(** ** The flags of the kernels *)

(** The [bool &] flags of [Add] and [Mul] are latched: a call may set a
    flag, never clears one, and its result does not depend on the flags it
    was given.  With an unlimited result width the overflow flag is left as
    it was. *)
Theorem kernel_flags_are_latched (lhs rhs : Integer) (overflow_flag carry_flag : bool) :
  Add lhs rhs overflow_flag carry_flag
  = ('(result, overflow', carry') <- Add lhs rhs false false ;;
     Ok (result, overflow_flag || overflow', carry_flag || carry')) /\
  Mul lhs rhs overflow_flag
  = ('(result, overflow') <- Mul lhs rhs false ;;
     Ok (result, overflow_flag || overflow')) /\
  (Is_Unlimited (Get_Max (Width lhs) (Width rhs)) = true ->
   (forall result overflow' carry',
      Add lhs rhs overflow_flag carry_flag = Ok (result, overflow', carry') ->
      overflow' = overflow_flag) /\
   (forall result overflow',
      Mul lhs rhs overflow_flag = Ok (result, overflow') -> overflow' = overflow_flag)).
Proof.
  split; [|split].
  - unfold Add.
    destruct (Get_Normalized_Existing _ lhs _) as [l| | | |]; cbn [bind]; try reflexivity.
    destruct (Get_Normalized_Existing _ rhs _) as [r| | | |]; cbn [bind]; try reflexivity.
    destruct (if Is_Unlimited _ then _ else _) as [r0| | | |]; cbn [bind]; try reflexivity.
    destruct (Add_loop _ 0 l r r0 false) as [r1 c]. cbn [bind].
    destruct (Is_Limited _), c, overflow_flag, carry_flag;
      repeat match goal with |- context [if ?b then _ else _] => destruct b end;
      reflexivity.
  - unfold Mul.
    destruct (Get_Positive lhs) as [pl| | | |]; cbn [bind]; try reflexivity.
    destruct (Get_Normalized_Existing _ pl _) as [l0| | | |]; cbn [bind]; try reflexivity.
    destruct (Get_Positive rhs) as [pr| | | |]; cbn [bind]; try reflexivity.
    destruct (Get_Normalized_Existing _ pr _) as [r0| | | |]; cbn [bind]; try reflexivity.
    destruct (if Is_Unlimited _ then Get_Normalized_Existing _ l0 _ else _)
      as [l1| | | |]; cbn [bind]; try reflexivity.
    destruct (if Is_Unlimited _ then Get_Normalized_Existing _ r0 _ else _)
      as [r1| | | |]; cbn [bind]; try reflexivity.
    destruct (Mul_loop _ l1 r1 _ false) as [[res cf]| | | |]; cbn [bind]; try reflexivity.
    destruct (negb (xorb (Is_Positive lhs) (Is_Positive rhs))).
    + cbn [bind]. destruct (Is_Limited _), overflow_flag, (cf || negb (Is_Positive res));
        reflexivity.
    + destruct (Get_Complement _) as [c| | | |]; cbn [bind]; try reflexivity.
      destruct (Is_Limited _), overflow_flag, (cf || negb (Is_Positive res)); reflexivity.
  - intros HU. split.
    + intros result o' c'. unfold Add, Is_Limited. rewrite HU.
      destruct (Get_Normalized_Existing _ lhs _) as [l| | | |]; cbn [bind]; try discriminate.
      destruct (Get_Normalized_Existing _ rhs _) as [r| | | |]; cbn [bind]; try discriminate.
      destruct (Get_Normalized_Existing _ (Integer_new _) _) as [r0| | | |];
        cbn [bind]; try discriminate.
      destruct (Add_loop _ 0 l r r0 false) as [r1 c]. cbn [negb].
      intros E. inversion E. reflexivity.
    + intros result o'. unfold Mul, Is_Limited. rewrite HU. cbn [negb].
      destruct (Get_Positive lhs) as [pl| | | |]; cbn [bind]; try discriminate.
      destruct (Get_Normalized_Existing _ pl _) as [l0| | | |]; cbn [bind]; try discriminate.
      destruct (Get_Positive rhs) as [pr| | | |]; cbn [bind]; try discriminate.
      destruct (Get_Normalized_Existing _ pr _) as [r0| | | |]; cbn [bind]; try discriminate.
      destruct (Get_Normalized_Existing _ l0 _) as [l1| | | |]; cbn [bind]; try discriminate.
      destruct (Get_Normalized_Existing _ r0 _) as [r1| | | |]; cbn [bind]; try discriminate.
      destruct (Mul_loop _ l1 r1 _ false) as [[res cf]| | | |]; cbn [bind]; try discriminate.
      destruct (negb (xorb (Is_Positive lhs) (Is_Positive rhs))).
      * intros E. inversion E. reflexivity.
      * destruct (Get_Complement _) as [c| | | |]; cbn [bind]; try discriminate.
        intros E. inversion E. reflexivity.
Qed.

(** ** The terminal's bank *)

Lemma nth_error_removelast {A : Type} (l : list A) (k : nat) :
  (S k < length l)%nat -> nth_error (removelast l) k = nth_error l k.
Proof.
  revert k. induction l as [|a l IH]; intros k Hk; [cbn in Hk; lia|].
  destruct l as [|b l]; [cbn in Hk; lia|].
  cbn [removelast]. destruct k as [|k]; [reflexivity|].
  cbn [nth_error]. apply IH. cbn [length] in *. lia.
Qed.

Lemma length_removelast {A : Type} (l : list A) :
  length (removelast l) = (length l - 1)%nat.
Proof.
  induction l as [|a l IH]; [reflexivity|].
  destruct l as [|b l]; [reflexivity|].
  cbn [removelast length] in *. rewrite IH. lia.
Qed.

Lemma Save_Result_nth {Number : Type} (bank : list Number) (number : Number) :
  (length bank <= kBank_Size)%nat ->
  nth_error (Save_Result bank number) 0 = Some number /\
  (forall k, (S k < kBank_Size)%nat ->
     nth_error (Save_Result bank number) (S k) = nth_error bank k).
Proof.
  intros Hlen. unfold Save_Result, kBank_Size in *. split; [reflexivity|].
  intros k Hk. cbn [nth_error].
  destruct (Nat.leb_spec 5 (length bank)); [|reflexivity].
  apply nth_error_removelast. lia.
Qed.

(** [Save_Result] keeps at most [kBank_Size] results, newest first: the new
    result is the first entry, every older entry moves one place back, and
    the entry that was fifth is dropped. *)
Theorem Save_Result_bounded_queue {Number : Type} (bank : list Number) (number : Number) :
  (length bank <= kBank_Size)%nat ->
  length (Save_Result bank number) = Nat.min (S (length bank)) kBank_Size /\
  (length (Save_Result bank number) <= kBank_Size)%nat /\
  nth_error (Save_Result bank number) 0 = Some number /\
  (forall k, (S k < kBank_Size)%nat ->
     nth_error (Save_Result bank number) (S k) = nth_error bank k) /\
  (forall k, (kBank_Size <= k)%nat -> nth_error (Save_Result bank number) k = None).
Proof.
  intros Hlen. destruct (Save_Result_nth bank number Hlen) as [H0 Hk].
  assert (length (Save_Result bank number) = Nat.min (S (length bank)) kBank_Size) as Hl.
  { unfold Save_Result, kBank_Size in *. cbn [length].
    destruct (Nat.leb_spec 5 (length bank)).
    - rewrite length_removelast. lia.
    - lia. }
  split; [exact Hl|]. split; [lia|]. split; [exact H0|]. split; [exact Hk|].
  intros k Hge. apply nth_error_None. lia.
Qed.

Lemma Save_Result_bounded_queue_witness :
  (length [x5; x5; x5; x5; x_max4] <= kBank_Size)%nat /\
  length (Save_Result [x5; x5; x5; x5; x_max4] x_min4) = 5%nat /\
  nth_error (Save_Result [x5; x5; x5; x5; x_max4] x_min4) 0 = Some x_min4 /\
  nth_error (Save_Result [x5; x5; x5; x5; x_max4] x_min4) 4 = Some x5.
Proof.
  assert (length [x5; x5; x5; x5; x_max4] <= kBank_Size)%nat as H
    by (unfold kBank_Size; cbn; lia).
  split; [exact H|].
  destruct (Save_Result_bounded_queue [x5; x5; x5; x5; x_max4] x_min4 H)
    as (Hl & _ & H0 & Hk & _).
  split; [exact Hl|]. split; [exact H0|].
  rewrite Hk by (unfold kBank_Size; lia). reflexivity.
Defined.

Lemma placeholder_index_digit (k : nat) :
  (k <= 9)%nat -> placeholder_index (ascii_of_nat (48 + k)) = Z.of_nat k.
Proof.
  intros Hk. unfold placeholder_index. rewrite nat_ascii_embedding by lia.
  destruct (Z.ltb_spec (Z.of_nat (48 + k)) 128); [|lia].
  rewrite Z.mod_small; [lia|]. split; [lia|].
  apply Z.lt_le_trans with 10; [lia|]. now apply Z.lt_le_incl.
Qed.

(** [Get_Number] on a placeholder [$k], [k] from 1 to 9: the [k]-th newest
    result when the bank holds that many, and otherwise the error
    [std::out_of_range] with the text "Out Of Bank Range".  After
    [Save_Result], [$1] is the result just saved and [$(k+1)] is what [$k]
    was before.  A symbol that does not start with [$] is handed to the
    number's constructor. *)
Theorem Get_Number_placeholder {Number : Type} (Number_of_string : string -> outcome Number)
  (bank : list Number) (k : nat) (rest sym : string) :
  (1 <= k <= 9)%nat -> (length bank <= kBank_Size)%nat ->
  let placeholder (j : nat) := String "$" (String (ascii_of_nat (48 + j)) rest) in
  (forall number, nth_error bank (k - 1) = Some number ->
     Get_Number Number_of_string bank (placeholder k) = Returned (Ok number)) /\
  ((length bank < k)%nat ->
   Get_Number Number_of_string bank (placeholder k) = Out_Of_Range "Out Of Bank Range") /\
  (forall saved,
     Get_Number Number_of_string (Save_Result bank saved) (placeholder 1%nat)
     = Returned (Ok saved)) /\
  (forall saved older, (k < kBank_Size)%nat ->
     Get_Number Number_of_string bank (placeholder k) = Returned (Ok older) ->
     Get_Number Number_of_string (Save_Result bank saved) (placeholder (S k))
     = Returned (Ok older)) /\
  (match sym with String "$" _ => False | _ => True end ->
   Get_Number Number_of_string bank sym = Returned (Number_of_string sym)).
Proof.
  intros Hk Hlen placeholder.
  assert (forall (b : list Number) (j : nat), (1 <= j <= 9)%nat ->
            Get_Number Number_of_string b (placeholder j)
            = if (length b <? j)%nat then Out_Of_Range "Out Of Bank Range"
              else match nth_error b (j - 1) with
                   | Some number => Returned (Ok number)
                   | None => Returned OutOfBounds
                   end) as Hget.
  { intros b j Hj. unfold placeholder, Get_Number.
    rewrite placeholder_index_digit by lia.
    destruct (Nat.ltb_spec (length b) j), (Z.ltb_spec (Z.of_nat (length b)) (Z.of_nat j));
      try lia; [reflexivity|].
    destruct (Z.eqb_spec (Z.of_nat j) 0); [lia|].
    replace (Z.to_nat (Z.of_nat j - 1)) with (j - 1)%nat by lia. reflexivity. }
  split; [|split; [|split; [|split]]].
  - intros number Hn. rewrite Hget by exact Hk.
    assert (k - 1 < length bank)%nat as Hlt by (apply nth_error_Some; congruence).
    destruct (Nat.ltb_spec (length bank) k); [lia|]. now rewrite Hn.
  - intros Hshort. rewrite Hget by exact Hk.
    destruct (Nat.ltb_spec (length bank) k); [reflexivity | lia].
  - intros saved. rewrite Hget by lia. reflexivity.
  - intros saved older Hk5 Hold. unfold kBank_Size in Hk5, Hlen.
    rewrite Hget in Hold by exact Hk. rewrite Hget by lia.
    destruct (Save_Result_nth bank saved Hlen) as [_ Hs]. unfold kBank_Size in Hs.
    replace (S k - 1)%nat with (S (k - 1)) by lia. rewrite Hs by lia.
    destruct (Nat.ltb_spec (length bank) k); [discriminate|].
    destruct (nth_error bank (k - 1)) as [number|] eqn:En; [|discriminate].
    unfold Save_Result. cbn [length].
    destruct (Nat.leb_spec kBank_Size (length bank)) as [Hfull|Hroom]; unfold kBank_Size in *.
    + rewrite length_removelast.
      destruct (Nat.ltb_spec (S (length bank - 1)) (S k)); [lia | exact Hold].
    + destruct (Nat.ltb_spec (S (length bank)) (S k)); [lia | exact Hold].
  - intros Hsym. unfold Get_Number. destruct sym as [|c s]; [reflexivity|].
    destruct c as [[] [] [] [] [] [] [] []]; try reflexivity. contradiction.
Qed.

Lemma Get_Number_placeholder_witness :
  (length (Save_Result [x5] x_max4) <= kBank_Size)%nat /\
  Get_Number (Deserialize (Fixed 4)) (Save_Result [x5] x_max4) "$2" = Returned (Ok x5) /\
  Get_Number (Deserialize (Fixed 4)) (Save_Result [x5] x_max4) "$3"
  = Out_Of_Range "Out Of Bank Range".
Proof.
  assert (length (Save_Result [x5] x_max4) <= kBank_Size)%nat as H
    by (unfold kBank_Size; cbn; lia).
  split; [exact H|].
  destruct (Get_Number_placeholder (Deserialize (Fixed 4)) (Save_Result [x5] x_max4) 2
              EmptyString EmptyString) as (H1 & _); [lia | exact H |].
  destruct (Get_Number_placeholder (Deserialize (Fixed 4)) (Save_Result [x5] x_max4) 3
              EmptyString EmptyString) as (_ & H2 & _); [lia | exact H |].
  split; [apply H1; reflexivity | apply H2; cbn; lia].
Defined.

(** ** Stripping whitespace *)

Lemma find_first_not_of_spec (str : list ascii) :
  forall pos : nat,
    match find_first_not_of str pos with
    | None => forallb is_whitespace str = true
    | Some b =>
        exists pre c rest,
          str = pre ++ c :: rest /\ b = (pos + length pre)%nat /\
          forallb is_whitespace pre = true /\ is_whitespace c = false
    end.
Proof.
  induction str as [|a str IH]; intros pos; cbn [find_first_not_of]; [reflexivity|].
  destruct (is_whitespace a) eqn:Ea.
  - specialize (IH (S pos)). destruct (find_first_not_of str (S pos)) as [b|].
    + destruct IH as (pre & c & rest & -> & -> & Hpre & Hc).
      exists (a :: pre), c, rest. cbn [app length forallb]. rewrite Ea, Hpre.
      repeat split; auto; lia.
    + cbn [forallb]. now rewrite Ea, IH.
  - exists [], a, str. cbn [app length forallb]. repeat split; auto; lia.
Qed.

Lemma find_last_not_of_skips (pre : list ascii) :
  forall (str : list ascii) (pos : nat),
    forallb is_whitespace pre = true ->
    find_last_not_of (pre ++ str) pos = find_last_not_of str (pos + length pre).
Proof.
  induction pre as [|a pre IH]; intros str pos Hpre.
  - cbn [app length]. now rewrite Nat.add_0_r.
  - cbn [forallb] in Hpre. apply andb_prop in Hpre. destruct Hpre as [Ha Hpre].
    cbn [app find_last_not_of length]. rewrite IH by exact Hpre.
    replace (S pos + length pre)%nat with (pos + S (length pre))%nat by lia.
    rewrite Ha. now destruct (find_last_not_of str _).
Qed.

Lemma find_last_not_of_spec (str : list ascii) :
  forall pos : nat,
    match find_last_not_of str pos with
    | None => forallb is_whitespace str = true
    | Some e =>
        exists front c post,
          str = front ++ c :: post /\ e = (pos + length front)%nat /\
          is_whitespace c = false /\ forallb is_whitespace post = true
    end.
Proof.
  induction str as [|a str IH]; intros pos; cbn [find_last_not_of]; [reflexivity|].
  specialize (IH (S pos)). destruct (find_last_not_of str (S pos)) as [e|].
  - destruct IH as (front & c & post & -> & -> & Hc & Hpost).
    exists (a :: front), c, post. cbn [app length]. repeat split; auto; lia.
  - destruct (is_whitespace a) eqn:Ea.
    + cbn [forallb]. now rewrite Ea, IH.
    + exists [], a, str. cbn [app length]. repeat split; auto; lia.
Qed.

Lemma find_last_not_of_end (front : list ascii) (c : ascii) :
  forall pos : nat,
    is_whitespace c = false ->
    find_last_not_of (front ++ [c]) pos = Some (pos + length front)%nat.
Proof.
  induction front as [|a front IH]; intros pos Hc.
  - cbn [app find_last_not_of length]. rewrite Hc. f_equal. lia.
  - cbn [app find_last_not_of length]. rewrite IH by exact Hc. f_equal. lia.
Qed.

Lemma firstn_exact {A : Type} (l1 l2 : list A) : firstn (length l1) (l1 ++ l2) = l1.
Proof. rewrite firstn_app, Nat.sub_diag, firstn_all. cbn [firstn]. apply app_nil_r. Qed.

Lemma skipn_exact {A : Type} (l1 l2 : list A) : skipn (length l1) (l1 ++ l2) = l2.
Proof. rewrite skipn_app, Nat.sub_diag, skipn_all. reflexivity. Qed.

(** What [Strip_Whitespaces] keeps: the part of the string from its first
    to its last character that is no whitespace. *)
Lemma Strip_Whitespaces_parts (chars : list ascii) :
  (forallb is_whitespace chars = true /\
   Strip_Whitespaces (string_of_list_ascii chars) = EmptyString) \/
  (exists pre front c post,
     chars = pre ++ (front ++ [c]) ++ post /\
     forallb is_whitespace pre = true /\ forallb is_whitespace post = true /\
     is_whitespace (hd c front) = false /\ is_whitespace c = false /\
     Strip_Whitespaces (string_of_list_ascii chars) = string_of_list_ascii (front ++ [c])).
Proof.
  unfold Strip_Whitespaces. rewrite list_ascii_of_string_of_list_ascii.
  pose proof (find_first_not_of_spec chars 0) as Hfirst.
  destruct (find_first_not_of chars 0) as [b|]; [|left; auto].
  destruct Hfirst as (pre & a & rest & -> & -> & Hpre & Ha). right.
  rewrite find_last_not_of_skips by exact Hpre.
  pose proof (find_last_not_of_spec (a :: rest) (0 + length pre)) as Hlast.
  destruct (find_last_not_of (a :: rest) (0 + length pre)) as [e|].
  - destruct Hlast as (front & c & post & Hsplit & -> & Hc & Hpost).
    exists pre, front, c, post. rewrite Hsplit.
    split; [now rewrite <- !app_assoc|]. split; [exact Hpre|]. split; [exact Hpost|].
    split.
    { destruct front as [|f front]; cbn [hd]; [exact Hc|].
      cbn [app] in Hsplit. inversion Hsplit; subst f. exact Ha. }
    split; [exact Hc|].
    f_equal. unfold substr.
    replace (0 + length pre)%nat with (length pre) by lia. rewrite skipn_exact.
    replace (length pre + length front - length pre + 1)%nat with (length (front ++ [c]))
      by (rewrite length_app; cbn [length]; lia).
    change (front ++ c :: post) with (front ++ [c] ++ post). rewrite app_assoc.
    apply firstn_exact.
  - cbn [forallb] in Hlast. rewrite Ha in Hlast. discriminate Hlast.
Qed.

(** [Strip_Whitespaces] removes exactly the leading and the trailing
    whitespace: the string is whitespace, the result, whitespace; the
    result neither starts nor ends with whitespace; a string of whitespace
    only (the empty one included) gives the empty string; and stripping
    twice changes nothing more. *)
Theorem Strip_Whitespaces_trims (str : string) :
  let stripped := list_ascii_of_string (Strip_Whitespaces str) in
  (exists pre post,
     list_ascii_of_string str = pre ++ stripped ++ post /\
     forallb is_whitespace pre = true /\ forallb is_whitespace post = true) /\
  (forall c, is_whitespace (hd c stripped) = false /\ is_whitespace (last stripped c) = false
             \/ stripped = []) /\
  (forallb is_whitespace (list_ascii_of_string str) = true <-> stripped = []) /\
  Strip_Whitespaces (Strip_Whitespaces str) = Strip_Whitespaces str.
Proof.
  intros stripped. subst stripped.
  rewrite <- (string_of_list_ascii_of_string str).
  set (chars := list_ascii_of_string str).
  rewrite !(list_ascii_of_string_of_list_ascii chars).
  destruct (Strip_Whitespaces_parts chars) as [[Hall E]|Hparts].
  - rewrite E. cbn [list_ascii_of_string]. split; [|split; [|split]].
    + exists chars, []. cbn [app]. rewrite app_nil_r. auto.
    + intros c. now right.
    + split; auto.
    + reflexivity.
  - destruct Hparts as (pre & front & c & post & Hsplit & Hpre & Hpost & Hhd & Hc & E).
    rewrite E, list_ascii_of_string_of_list_ascii. split; [|split; [|split]].
    + exists pre, post. auto.
    + intros c0. left. rewrite last_last. split; [|exact Hc].
      destruct front; cbn [app hd] in *; assumption.
    + split.
      * intros Hall. rewrite Hsplit, !forallb_app in Hall. cbn [forallb] in Hall.
        rewrite Hc in Hall.
        destruct (forallb is_whitespace pre), (forallb is_whitespace front),
          (forallb is_whitespace post); discriminate Hall.
      * intros Hnil. destruct front; discriminate Hnil.
    + unfold Strip_Whitespaces.
      rewrite list_ascii_of_string_of_list_ascii.
      assert (find_first_not_of (front ++ [c]) 0 = Some 0%nat) as ->.
      { destruct front as [|f front]; cbn [app find_first_not_of hd] in *.
        - now rewrite Hc.
        - now rewrite Hhd. }
      rewrite find_last_not_of_end by exact Hc.
      f_equal. unfold substr. cbn [skipn].
      replace (0 + length front - 0 + 1)%nat with (length (front ++ [c]))
        by (rewrite length_app; cbn [length]; lia).
      apply firstn_all.
Qed.

(** ** The word count of unlimited products *)

(** [Shrink] keeps the words up to the highest set bit and one sign bit,
    and never less than [kWidth_Min] words. *)
Lemma Shrink_length (x : Integer) :
  wf x -> Width x = kUnlimited ->
  let n := length (_bits (Shrink x)) in
  wf (Shrink x) /\ Width (Shrink x) = kUnlimited /\
  sval (Shrink x) = uval x /\ uval x < 2 ^ (8 * Z.of_nat n - 1) /\
  ((4 < n)%nat -> 2 ^ (8 * (Z.of_nat n - 1) - 1) <= uval x).
Proof.
  intros Hwf HW n. pose proof (wf_words_ok x Hwf) as Hok.
  destruct (Shrink_general x Hwf HW) as (K1 & K2 & K3 & K4 & _).
  destruct (Get_Msb_Idx_spec x Hwf) as (M1 & M2 & M3).
  assert (n = Nat.max ((Get_Msb_Idx x + 1) / kWord_Bits_Cnt + 1) kWidth_Min) as Hn.
  { unfold n, Shrink, vec_resize. cbn [_bits].
    rewrite length_app, length_firstn, repeat_length. lia. }
  set (m := Get_Msb_Idx x) in *. unfold kWord_Bits_Cnt, kWidth_Min in Hn.
  pose proof (Nat.div_mod_eq (m + 1) 8) as Hdm.
  pose proof (Nat.mod_upper_bound (m + 1) 8 ltac:(lia)) as Hmod.
  split; [exact K1|]. split; [exact K2|].
  split; [rewrite <- K3; symmetry; now apply sval_nonneg_uval|].
  split.
  - apply Z.lt_le_trans with (2 ^ (Z.of_nat m + 1)); [exact M2|].
    apply pow2_le. lia.
  - intros Hbig.
    assert (m <> 0)%nat as Hm0 by lia.
    apply Z.le_trans with (2 ^ Z.of_nat m); [|now apply M3].
    apply pow2_le. lia.
Qed.

(** A product of unlimited width comes back at the smallest word count
    that holds its magnitude and a sign bit, and at least [kWidth_Min]
    words: [Mul] shrinks what its loop computed in twice the operands'
    words. *)
Theorem unlimited_product_minimal_length (lhs rhs result : Integer)
  (overflow_flag overflow_flag' : bool) :
  wf lhs -> wf rhs ->
  Is_Unlimited (Get_Max (Width lhs) (Width rhs)) = true ->
  Mul lhs rhs overflow_flag = Ok (result, overflow_flag') ->
  let n := length (_bits result) in
  wf result /\ (4 <= n)%nat /\
  Z.abs (sval result) < 2 ^ (8 * Z.of_nat n - 1) /\
  ((4 < n)%nat -> 2 ^ (8 * (Z.of_nat n - 1) - 1) <= Z.abs (sval result)).
Proof.
  intros Hl Hr HU E n.
  pose proof (fits_Get_Max lhs rhs Hl Hr) as Hfit.
  unfold Mul, Get_Normalized_Existing in E.
  rewrite (wf_Get_Actual_Width lhs), (wf_Get_Actual_Width rhs) in E by assumption.
  set (W := Get_Max (Width lhs) (Width rhs)) in *.
  set (A := Nat.max (length (_bits lhs)) (length (_bits rhs))) in *.
  assert (admissible W) as Hadm.
  { destruct Hfit as [F1 F2]. unfold admissible. destruct W; auto. lia. }
  destruct (Get_Positive_wf lhs Hl) as (lpos & ELp & Hwlp & _).
  destruct (Get_Positive_wf rhs Hr) as (rpos & ERp & Hwrp & _).
  rewrite ELp in E. cbn [bind] in E.
  destruct (Get_Normalized W lpos A) as [left0| | | |] eqn:EL0; cbn [bind] in E; try discriminate.
  rewrite ERp in E. cbn [bind] in E.
  destruct (Get_Normalized W rpos A) as [right0| | | |] eqn:ER0; cbn [bind] in E; try discriminate.
  destruct (Get_Normalized_Ok _ _ _ _ Hwlp EL0) as (L1 & L2 & L3 & _).
  destruct (Get_Normalized_Ok _ _ _ _ Hwrp ER0) as (R1 & R2 & R3 & _).
  pose proof (Get_Normalized_wf _ _ _ _ EL0 L1 L2 L3 Hfit) as Hwl0.
  pose proof (Get_Normalized_wf _ _ _ _ ER0 R1 R2 R3 Hfit) as Hwr0.
  rewrite HU in E.
  assert (fits_width W (2 * A)) as Hfit2.
  { destruct Hfit as [F _]. split; [unfold kWidth_Min in *; lia|].
    destruct W; [discriminate | exact I]. }
  destruct (Get_Normalized_spec W left0 (2 * A) Hwl0) as (l1 & El1 & Hl1W & Hl1l & Hl1ok & _); [lia|].
  destruct (Get_Normalized_spec W right0 (2 * A) Hwr0) as (r1 & Er1 & Hr1W & Hr1l & Hr1ok & _); [lia|].
  assert (wf l1) as Hwl1 by (eapply Get_Normalized_wf; eauto).
  assert (wf r1) as Hwr1 by (eapply Get_Normalized_wf; eauto).
  rewrite El1 in E. cbn [bind] in E. rewrite Er1 in E. cbn [bind] in E.
  destruct (Integer_new_facts W Hadm) as (Hwf0 & Hu0 & HW0 & Hlen0).
  destruct (Mul_loop_wf W (S (Get_Msb_Idx r1)) l1 r1 (Integer_new W) false)
    as (res1 & cf & Eloop & Hw1 & HW1); auto.
  rewrite Eloop in E. cbn [bind] in E.
  assert (Width res1 = kUnlimited) as HWu.
  { rewrite HW1. destruct W; [discriminate | reflexivity]. }
  destruct (Shrink_length res1 Hw1 HWu) as (K1 & K2 & K3 & K4 & K5).
  pose proof (uval_range res1 (wf_words_ok _ Hw1)) as Ru.
  destruct (negb (xorb (Is_Positive lhs) (Is_Positive rhs))).
  - inversion E; subst result overflow_flag'. subst n.
    split; [exact K1|]. split; [now apply wf_length|].
    rewrite K3, Z.abs_eq by lia. split; [exact K4 | exact K5].
  - destruct (Get_Complement_spec (Shrink res1) K1) as (c & Ec & Hc1 & Hc2 & Hrest).
    rewrite Ec in E. cbn [bind] in E. inversion E; subst result overflow_flag'. subst n.
    rewrite K2 in Hrest. cbn [Is_Unlimited] in Hrest. destruct Hrest as [Hs Hlen].
    pose proof (pow2_pos (nbits (Shrink res1) - 1)) as Hp. pose proof (wf_nbits _ K1) as Hn.
    destruct (Z.eqb_spec (sval (Shrink res1)) (- 2 ^ (nbits (Shrink res1) - 1))) as [e|_]; [lia|].
    split; [exact Hc1|]. split; [now apply wf_length|].
    rewrite Hlen, Hs, K3, Z.abs_neq by lia. rewrite Z.opp_involutive.
    split; [exact K4 | exact K5].
Qed.

Lemma unlimited_product_minimal_length_witness :
  wf u_2p31 /\ wf (kTwo kUnlimited) /\
  exists result,
    Mul u_2p31 (kTwo kUnlimited) false = Ok (result, false) /\
    length (_bits result) = 5%nat /\ 2 ^ 31 <= Z.abs (sval result).
Proof.
  assert (wf (kTwo kUnlimited)) as H2 by exact (proj1 (kTwo_facts kUnlimited I)).
  split; [exact wf_u_2p31|]. split; [exact H2|].
  assert (Mul u_2p31 (kTwo kUnlimited) false
          = Ok (mkInteger kUnlimited [0; 0; 0; 0; 1], false)) as E by (vm_compute; reflexivity).
  exists (mkInteger kUnlimited [0; 0; 0; 0; 1]). split; [exact E|]. split; [reflexivity|].
  destruct (unlimited_product_minimal_length u_2p31 (kTwo kUnlimited) _ false false
              wf_u_2p31 H2 eq_refl E) as (_ & _ & _ & H).
  apply H. cbn. lia.
Defined.

(** ** Where the arithmetic error comes from *)

Lemma no_base_throw_operator_sub (l r : Integer) : no_base_throw (operator_sub l r).
Proof.
  unfold operator_sub. apply no_base_throw_bind; [apply no_base_throw_Get_Complement|].
  intros c. apply no_base_throw_operator_add.
Qed.

Lemma no_base_throw_Div_Mod_loop (k : nat) :
  forall numerator denominator quotient remainder,
    no_base_throw (Div_Mod_loop k numerator denominator quotient remainder).
Proof.
  induction k as [|k IH]; intros n d q r; cbn [Div_Mod_loop]; [exact I|].
  apply no_base_throw_bind; [apply no_base_throw_operator_sub|].
  intros diff. destruct (Is_Positive diff); apply IH.
Qed.

Lemma no_base_throw_Deserialize_loop (W : t_Width) (str : list ascii) :
  forall i result is_positive overflow_flag,
    no_base_throw (Deserialize_loop W i str result is_positive overflow_flag).
Proof.
  induction str as [|c str IH]; intros i result p o; cbn [Deserialize_loop]; [exact I|].
  destruct (Nat.eqb i 0 && Ascii.eqb c "+"); [apply IH|].
  destruct (Nat.eqb i 0 && Ascii.eqb c "-"); [apply IH|].
  apply no_base_throw_bind.
  - destruct (Nat.eqb i 0); [exact I | apply no_base_throw_Mul].
  - intros [r1 o1]. apply no_base_throw_bind; [apply no_base_throw_Add|].
    intros [[r2 o2] c2]. apply IH.
Qed.

Lemma quiet_bind {A B : Type} (m : outcome A) (k : A -> outcome B) :
  is_ArithmeticException m = false ->
  (forall a, is_ArithmeticException (k a) = false) ->
  is_ArithmeticException (bind m k) = false.
Proof. destruct m; cbn; auto. Qed.

Lemma quiet_Get_Normalized (W : t_Width) (x : Integer) (aw : nat) :
  is_ArithmeticException (Get_Normalized W x aw) = false.
Proof.
  unfold Get_Normalized.
  repeat match goal with
         | |- is_ArithmeticException (if ?c then _ else _) = false => destruct c
         end; reflexivity.
Qed.

Lemma quiet_Add (l r : Integer) (o c : bool) :
  is_ArithmeticException (Add l r o c) = false.
Proof.
  unfold Add, Get_Normalized_Existing.
  apply quiet_bind; [apply quiet_Get_Normalized | intros left].
  apply quiet_bind; [apply quiet_Get_Normalized | intros right].
  apply quiet_bind.
  - destruct (Is_Unlimited _); [apply quiet_Get_Normalized | reflexivity].
  - intros res0. destruct (Add_loop _ _ _ _ _ _). reflexivity.
Qed.

Lemma quiet_Get_Complement (x : Integer) :
  is_ArithmeticException (Get_Complement x) = false.
Proof.
  unfold Get_Complement. apply quiet_bind; [apply quiet_Add|].
  intros [[? ?] ?]. reflexivity.
Qed.

Lemma quiet_operator_eq (l r : Integer) :
  is_ArithmeticException (operator_eq l r) = false.
Proof.
  unfold operator_eq, Get_Normalized_Existing. destruct (xorb _ _); [reflexivity|].
  apply quiet_bind; [apply quiet_Get_Normalized | intros left].
  apply quiet_bind; [apply quiet_Get_Normalized | intros right].
  destruct (negb _); reflexivity.
Qed.

Lemma no_base_throw_overflow {A : Type} (o : outcome A) :
  no_base_throw o -> is_ArithmeticException o = true ->
  exists result, o = OverflowException result.
Proof.
  destruct o as [a|msg|r| |]; cbn; intros N E; try discriminate E; [contradiction|].
  exists r. reflexivity.
Qed.

(** The exceptions of class [ArithmeticException], by the statement that
    throws them.  The base class is thrown as such in two places only: by
    [Div_Mod] (so by [/] and [%]) for a zero divisor, with the text
    "Division By Zero", and by [Factorial] for a negative receiver.
    [OverflowException] derives from [ArithmeticException], so every
    overflow is an arithmetic error as well: whenever addition,
    subtraction, multiplication or [Deserialize] (which does not validate
    its characters) raise an [ArithmeticException], it is an
    [OverflowException]; negation and the comparisons raise none at all;
    and whenever [Div_Mod], [/], [%] or [Factorial] raise one, it is
    either the base-class error above or an [OverflowException].  [Div_Mod] does raise the latter, from the
    subtraction in its loop: the most negative Fixed(4) value divided by
    [2^30 + 1] ends in an overflow that carries [2^30 - 1]. *)
Theorem ArithmeticException_sources (lhs rhs : Integer) (W : t_Width) (str : string)
  (fuel : nat) :
  (is_ArithmeticException (operator_add lhs rhs) = true ->
     exists r, operator_add lhs rhs = OverflowException r) /\
  (is_ArithmeticException (operator_sub lhs rhs) = true ->
     exists r, operator_sub lhs rhs = OverflowException r) /\
  (is_ArithmeticException (operator_mul lhs rhs) = true ->
     exists r, operator_mul lhs rhs = OverflowException r) /\
  is_ArithmeticException (operator_neg lhs) = false /\
  is_ArithmeticException (operator_eq lhs rhs) = false /\
  is_ArithmeticException (operator_ne lhs rhs) = false /\
  (is_ArithmeticException (Deserialize W str) = true ->
     exists r, Deserialize W str = OverflowException r) /\
  (is_ArithmeticException (Div_Mod lhs rhs) = true ->
     (Div_Mod lhs rhs = ArithmeticException "Division By Zero" /\
      operator_eq rhs (kZero (Width lhs)) = Ok true) \/
     exists r, Div_Mod lhs rhs = OverflowException r) /\
  (is_ArithmeticException (operator_div lhs rhs) = true ->
     (operator_div lhs rhs = ArithmeticException "Division By Zero" /\
      operator_eq rhs (kZero (Width lhs)) = Ok true) \/
     exists r, operator_div lhs rhs = OverflowException r) /\
  (is_ArithmeticException (operator_mod lhs rhs) = true ->
     (operator_mod lhs rhs = ArithmeticException "Division By Zero" /\
      operator_eq rhs (kZero (Width lhs)) = Ok true) \/
     exists r, operator_mod lhs rhs = OverflowException r) /\
  (is_ArithmeticException (Factorial fuel lhs) = true ->
     (Factorial fuel lhs = ArithmeticException "Factorial Of Negative Number" /\
      Is_Positive lhs = false) \/
     exists r, Factorial fuel lhs = OverflowException r) /\
  (sval x_min4 = - 2 ^ 31 /\
   sval (mkInteger (Fixed 4) [1; 0; 0; 64]) = 2 ^ 30 + 1 /\
   sval (mkInteger (Fixed 4) [255; 255; 255; 63]) = 2 ^ 30 - 1 /\
   Div_Mod x_min4 (mkInteger (Fixed 4) [1; 0; 0; 64])
   = OverflowException (mkInteger (Fixed 4) [255; 255; 255; 63]) /\
   is_ArithmeticException (Div_Mod x_min4 (mkInteger (Fixed 4) [1; 0; 0; 64])) = true).
Proof.
  assert (forall msg, Div_Mod lhs rhs = ArithmeticException msg ->
            msg = "Division By Zero"%string /\ operator_eq rhs (kZero (Width lhs)) = Ok true)
    as Hdiv.
  { intros msg E. unfold Div_Mod in E.
    pose proof (no_base_throw_operator_eq rhs (kZero (Width lhs))) as N1.
    destruct (operator_eq rhs (kZero (Width lhs))) as [[|]| | | |]; cbn [bind] in E;
      try discriminate E; try contradiction.
    { inversion E. auto. }
    pose proof (no_base_throw_operator_eq lhs (kZero (Width lhs))) as N2.
    destruct (operator_eq lhs (kZero (Width lhs))) as [[|]| | | |]; cbn [bind] in E;
      try discriminate E; try contradiction.
    exfalso. revert E.
    match goal with |- ?m = _ -> False => assert (no_base_throw m) as N end.
    { unfold Get_Normalized_Existing, Get_Normalized_New.
      apply no_base_throw_bind; [apply no_base_throw_Get_Positive | intros lpos].
      apply no_base_throw_bind; [apply no_base_throw_Get_Normalized | intros numerator].
      apply no_base_throw_bind; [apply no_base_throw_Get_Positive | intros rpos].
      apply no_base_throw_bind; [apply no_base_throw_Get_Normalized | intros denominator].
      apply no_base_throw_bind; [apply no_base_throw_Get_Normalized | intros q0].
      apply no_base_throw_bind; [apply no_base_throw_Get_Normalized | intros r0].
      apply no_base_throw_bind; [apply no_base_throw_Div_Mod_loop | intros [q r]].
      destruct (negb _); [exact I|].
      apply no_base_throw_bind; [apply no_base_throw_Get_Complement | intros; exact I]. }
    intros E. rewrite E in N. exact N. }
  assert (forall msg, Factorial fuel lhs = ArithmeticException msg ->
            msg = "Factorial Of Negative Number"%string /\ Is_Positive lhs = false)
    as Hfact.
  { intros msg E. unfold Factorial in E.
    destruct (Is_Positive lhs); cbn [negb] in E; [|inversion E; auto].
    exfalso.
    pose proof (no_base_throw_operator_eq lhs (kZero (Width lhs))) as N1.
    destruct (operator_eq lhs (kZero (Width lhs))) as [[|]| | | |]; cbn [bind] in E;
      try discriminate E; try contradiction.
    pose proof (no_base_throw_operator_eq lhs (kOne (Width lhs))) as N2.
    destruct (operator_eq lhs (kOne (Width lhs))) as [[|]| | | |]; cbn [bind] in E;
      try discriminate E; try contradiction.
    pose proof (no_base_throw_Factorial_loop fuel lhs (kTwo (Width lhs)) lhs false) as N3.
    destruct (Factorial_loop fuel lhs (kTwo (Width lhs)) lhs false) as [[r o]| | | |];
      cbn [bind] in E; try discriminate E; try contradiction.
    destruct o; discriminate E. }
  split; [apply no_base_throw_overflow, no_base_throw_operator_add|].
  split; [apply no_base_throw_overflow, no_base_throw_operator_sub|].
  split.
  { apply no_base_throw_overflow.
    unfold operator_mul. apply no_base_throw_bind; [apply no_base_throw_Mul|].
    intros [r o]. destruct o; exact I. }
  split; [apply quiet_Get_Complement|].
  split; [apply quiet_operator_eq|].
  split; [unfold operator_ne; apply quiet_bind; [apply quiet_operator_eq | reflexivity]|].
  split.
  { apply no_base_throw_overflow.
    unfold Deserialize. apply no_base_throw_bind; [apply no_base_throw_Deserialize_loop|].
    intros [[r p] o]. destruct o; [exact I|]. destruct p; [exact I|].
    apply no_base_throw_Get_Complement. }
  split; [|split; [|split; [|split]]].
  - intros E. destruct (Div_Mod lhs rhs) as [p|m|r| |] eqn:ED; try discriminate E.
    + left. destruct (Hdiv m eq_refl) as [-> H]. auto.
    + right. eauto.
  - intros E. unfold operator_div in *.
    destruct (Div_Mod lhs rhs) as [p|m|r| |] eqn:ED; cbn [bind] in *; try discriminate E.
    + left. destruct (Hdiv m eq_refl) as [-> H]. auto.
    + right. eauto.
  - intros E. unfold operator_mod in *.
    destruct (Div_Mod lhs rhs) as [p|m|r| |] eqn:ED; cbn [bind] in *; try discriminate E.
    + left. destruct (Hdiv m eq_refl) as [-> H]. auto.
    + right. eauto.
  - intros E. destruct (Factorial fuel lhs) as [p|m|r| |] eqn:EF; try discriminate E.
    + left. destruct (Hfact m eq_refl) as [-> H]. auto.
    + right. eauto.
  - repeat split; vm_compute; reflexivity.
Qed.

(** ** The most negative value in decimal *)

(** The most negative value of a fixed width is written by [Serialize],
    but [Deserialize] does not read that string back at the same width: it
    builds the magnitude [2^(bits-1)] before it applies the sign, and the
    magnitude overflows. *)
Theorem most_negative_is_not_read_back (n fuel : nat) :
  (4 <= n)%nat -> (8 * n <= fuel)%nat ->
  exists s r,
    Serialize fuel (most_negative n) = Ok s /\
    s = decimal_string fuel (- 2 ^ (8 * Z.of_nat n - 1)) /\
    substring 0 1 s = "-"%string /\
    Deserialize (Fixed n) s = OverflowException r.
Proof.
  intros Hn Hfuel.
  destruct (most_negative_facts n Hn) as (M1 & M2 & M3).
  assert (admissible (Fixed n)) as Hadm by exact Hn.
  assert (nbits (Integer_new (Fixed n)) = 8 * Z.of_nat n) as Hnb.
  { unfold nbits. destruct (Integer_new_facts (Fixed n) Hadm) as (_ & _ & _ & ->). reflexivity. }
  assert (0 < 2 ^ (8 * Z.of_nat n - 1)) as Hp by (apply pow2_pos; lia).
  assert (2 ^ (8 * Z.of_nat n - 1) < 2 ^ Z.of_nat fuel) as Hlt by (apply pow2_lt; lia).
  destruct (Deserialize_most_negative (Fixed n) Hadm fuel (- 2 ^ (8 * Z.of_nat n - 1)))
    as (r & Er).
  - reflexivity.
  - now rewrite Hnb.
  - rewrite Z.abs_neq by lia. lia.
  - exists (decimal_string fuel (- 2 ^ (8 * Z.of_nat n - 1))), r.
    split; [rewrite Serialize_spec, M3 by (auto; rewrite M2; lia); reflexivity|].
    split; [reflexivity|]. split; [|exact Er].
    unfold decimal_string.
    destruct (Z.eqb_spec (- 2 ^ (8 * Z.of_nat n - 1)) 0); [lia|].
    destruct (Z.leb_spec 0 (- 2 ^ (8 * Z.of_nat n - 1))); [lia|].
    cbn [substring]. now destruct (string_of_list_ascii _).
Qed.

Lemma most_negative_is_not_read_back_witness :
  Serialize 32 (most_negative 4) = Ok "-2147483648"%string /\
  exists r, Deserialize (Fixed 4) "-2147483648" = OverflowException r.
Proof.
  destruct (most_negative_is_not_read_back 4 32) as (s & r & Es & Hs & _ & Ed); [lia | lia |].
  assert (s = "-2147483648"%string) as -> by (rewrite Hs; vm_compute; reflexivity).
  split; [exact Es | exists r; exact Ed].
Defined.

(** ** Fixed-width products modulo the width *)

(** The multiply loop on a limited width, read modulo [2^bits]: no bound on
    the product is needed. *)
Section MulLoopModular.
Variable W : t_Width.
Variable B : nat.
Variables L R : Z.
Hypothesis HU : Is_Unlimited W = false.
Hypothesis HB : (4 <= B)%nat.

Lemma Mul_loop_modular (k : nat) :
  forall (j : nat) (left right result : Integer) (carry_flag : bool),
    wf left -> wf right -> wf result ->
    Width left = W -> Width right = W -> Width result = W ->
    length (_bits left) = B -> length (_bits right) = B -> length (_bits result) = B ->
    uval left = (L * 2 ^ Z.of_nat j) mod 2 ^ (8 * Z.of_nat B) ->
    uval right = R / 2 ^ Z.of_nat j ->
    uval result = (L * (R mod 2 ^ Z.of_nat j)) mod 2 ^ (8 * Z.of_nat B) ->
    exists result' carry_flag',
      Mul_loop k left right result carry_flag = Ok (result', carry_flag') /\
      wf result' /\ Width result' = W /\ length (_bits result') = B /\
      uval result' = (L * (R mod 2 ^ Z.of_nat (j + k))) mod 2 ^ (8 * Z.of_nat B).
Proof.
  assert (0 < 2 ^ (8 * Z.of_nat B)) as HM by (apply pow2_pos; lia).
  induction k as [|k IH];
    intros j left right result cf Hwl Hwr Hwres HWl HWr HWres Hll Hlr Hlres Hul Hur Hures.
  - cbn [Mul_loop]. rewrite Nat.add_0_r. exists result, cf. auto 10.
  - cbn [Mul_loop].
    assert (0 < 2 ^ Z.of_nat j) as Hpj by (apply pow2_pos; lia).
    assert (operator_index right 0 = Z.testbit R (Z.of_nat j)) as Hbit.
    { rewrite operator_index_testbit by now apply wf_words_ok.
      rewrite Hur. change (Z.of_nat 0) with 0. rewrite Z.div_pow2_bits by lia. f_equal. }
    assert (R mod 2 ^ Z.of_nat (S j)
            = R mod 2 ^ Z.of_nat j + Z.b2z (Z.testbit R (Z.of_nat j)) * 2 ^ Z.of_nat j) as Hmod.
    { rewrite Nat2Z.inj_succ, <- Z.add_1_r. apply mod_pow2_succ. lia. }
    assert (exists result1 cf1,
               (if operator_index right 0
                then ' (r, _, c) <- Add result left false cf;; Ok (r, c)
                else Ok (result, cf)) = Ok (result1, cf1) /\
               wf result1 /\ Width result1 = W /\ length (_bits result1) = B /\
               uval result1 = (L * (R mod 2 ^ Z.of_nat (S j))) mod 2 ^ (8 * Z.of_nat B))
      as (result1 & cf1 & E1 & Hw1 & HW1 & Hl1 & Hu1).
    { rewrite Hbit, Hmod. destruct (Z.testbit R (Z.of_nat j)) eqn:Eb; cbn [Z.b2z].
      - destruct (Add_spec result left false cf Hwres Hwl)
          as (res & o & c & E & Hwf & HW & Hc & Hrest).
        rewrite HWres, HWl, Get_Max_idem, HU in Hrest. rewrite HWres, HWl, Get_Max_idem in HW.
        rewrite Hlres, Hll, Nat.max_id in Hrest. destruct Hrest as (H1 & H2 & _).
        rewrite E. cbn [bind]. exists res, c.
        split; [reflexivity|]. split; [exact Hwf|]. split; [exact HW|]. split; [exact H1|].
        rewrite H2, Z.add_mod by lia.
        assert (sval result mod 2 ^ (8 * Z.of_nat B) = uval result) as ->.
        { rewrite (uval_sval_mod result Hwres). unfold nbits. now rewrite Hlres. }
        assert (sval left mod 2 ^ (8 * Z.of_nat B) = uval left) as ->.
        { rewrite (uval_sval_mod left Hwl). unfold nbits. now rewrite Hll. }
        rewrite Hures, Hul, <- Z.add_mod by lia. f_equal. ring.
      - exists result, cf. rewrite Z.mul_0_l, Z.add_0_r. auto 10. }
    rewrite E1. cbn [bind].
    destruct (operator_shl_1 left Hwl) as (S1 & S2 & S3 & S4).
    destruct (operator_shr_1 right Hwr) as (T1 & T2 & T3 & T4).
    destruct (IH (S j) (operator_shl left 1) (operator_shr right 1) result1 cf1)
      as (res' & cf' & E' & Hw' & HW' & Hl' & Hu'); auto; try congruence.
    + rewrite S4. unfold nbits. rewrite Hll, Hul.
      rewrite Z.mul_mod_idemp_r by (apply Z.pow_nonzero; lia).
      f_equal. rewrite Nat2Z.inj_succ, <- Z.add_1_r, pow2_succ by lia. ring.
    + rewrite T4, Hur. rewrite Z.div_div by lia.
      f_equal. rewrite Nat2Z.inj_succ, <- Z.add_1_r, pow2_succ by lia. ring.
    + exists res', cf'. replace (j + S k)%nat with (S j + k)%nat by lia. auto 10.
Qed.
End MulLoopModular.

(** On a limited result width, what [operator*] returns or attaches to its
    overflow error is always the exact product truncated to that width,
    and a product whose magnitude is at least [2^(bits-1)] and below
    [2^bits] always raises the overflow error.  Neither operand may be the
    most negative value of its width. *)
Theorem operator_mul_truncates (lhs rhs : Integer) :
  wf lhs -> wf rhs ->
  sval lhs <> - 2 ^ (nbits lhs - 1) -> sval rhs <> - 2 ^ (nbits rhs - 1) ->
  let W := Get_Max (Width lhs) (Width rhs) in
  let N := 8 * Z.of_nat (Nat.max (length (_bits lhs)) (length (_bits rhs))) in
  Is_Unlimited W = false ->
  exists result,
    (operator_mul lhs rhs = Ok result \/ operator_mul lhs rhs = OverflowException result) /\
    wf result /\ Width result = W /\ nbits result = N /\
    uval result = (sval lhs * sval rhs) mod 2 ^ N /\
    (2 ^ (N - 1) <= Z.abs (sval lhs) * Z.abs (sval rhs) < 2 ^ N ->
     operator_mul lhs rhs = OverflowException result).
Proof.
  intros Hl Hr Nl Nr W N HU.
  set (A := Nat.max (length (_bits lhs)) (length (_bits rhs))) in *.
  assert (length (_bits lhs) <= A)%nat as HlA by (unfold A; clear; lia).
  assert (length (_bits rhs) <= A)%nat as HrA by (unfold A; clear; lia).
  pose proof (fits_Get_Max lhs rhs Hl Hr) as Hfit. fold W A in Hfit.
  assert (4 <= A)%nat as HA4 by apply Hfit.
  assert (admissible W) as Hadm.
  { destruct Hfit as [F1 F2]. unfold admissible. destruct W; auto. lia. }
  assert (0 < 2 ^ N) as HM by (apply pow2_pos; unfold N; lia).
  destruct (normalized_magnitude W A lhs Hl Nl HlA Hfit)
    as (pl & left & Epl & El & Hwl & HWl & Hll & Hul & _ & Hbx).
  destruct (normalized_magnitude W A rhs Hr Nr HrA Hfit)
    as (pr & right & Epr & Er & Hwr & HWr & Hlr & Hur & _ & Hby).
  destruct (Integer_new_facts W Hadm) as (Hwf0 & Hu0 & HW0 & Hlen0).
  assert (length (_bits (Integer_new W)) = A) as Hl0.
  { rewrite Hlen0. destruct Hfit as [_ F]. destruct W; [now symmetry | discriminate]. }
  set (ax := Z.abs (sval lhs)) in *. set (ay := Z.abs (sval rhs)) in *.
  assert (0 <= ax) as Hax by apply Z.abs_nonneg.
  assert (0 <= ay) as Hay by apply Z.abs_nonneg.
  destruct (Get_Msb_Idx_spec right Hwr) as (M1 & M2 & M3).
  set (m := Get_Msb_Idx right) in *.
  destruct (Mul_loop_modular W A ax ay HU HA4 (S m) 0 left right (Integer_new W) false)
    as (res1 & cf & Eloop & Hw1 & HW1 & Hl1 & Hu1); auto.
  { rewrite Hul. change (2 ^ Z.of_nat 0) with 1. rewrite Z.mul_1_r.
    symmetry. apply Z.mod_small. split; [exact Hax|].
    apply Z.lt_trans with (2 ^ (8 * Z.of_nat A - 1)); [exact Hbx | apply pow2_lt; lia]. }
  { rewrite Hur. change (2 ^ Z.of_nat 0) with 1. now rewrite Z.div_1_r. }
  { rewrite Hu0. change (2 ^ Z.of_nat 0) with 1.
    rewrite Z.mod_1_r, Z.mul_0_r. symmetry. apply Z.mod_0_l. fold N. lia. }
  assert (ay mod 2 ^ Z.of_nat (0 + S m) = ay) as Hfull.
  { apply Z.mod_small. split; [lia|]. rewrite <- Hur.
    replace (Z.of_nat (0 + S m)) with (Z.of_nat m + 1) by lia. exact M2. }
  rewrite Hfull in Hu1. fold N in Hu1.
  assert (nbits res1 = N) as Hn1 by (unfold nbits, N; now rewrite Hl1).
  (* the value computed by [Mul] *)
  assert (exists result overflow,
             Mul lhs rhs false = Ok (result, overflow) /\
             wf result /\ Width result = W /\ nbits result = N /\
             uval result = (sval lhs * sval rhs) mod 2 ^ N /\
             overflow = cf || negb (Is_Positive res1))
    as (result & overflow & EM & Hwres & HWres & Hnres & Hures & Hov).
  { unfold Mul. rewrite (wf_Get_Actual_Width lhs), (wf_Get_Actual_Width rhs) by assumption.
    fold W A. rewrite Epl. cbn [bind]. rewrite El. cbn [bind].
    rewrite Epr. cbn [bind]. rewrite Er. cbn [bind]. rewrite HU. cbn [bind].
    fold m. rewrite Eloop. cbn [bind]. unfold Is_Limited. rewrite HU. cbn [negb].
    rewrite !(Is_Positive_sval lhs), !(Is_Positive_sval rhs) by assumption.
    assert ((if cf || negb (Is_Positive res1) then true else false)
            = cf || negb (Is_Positive res1)) as -> by now destruct (cf || _).
    destruct (Z.leb_spec 0 (sval lhs)) as [L0|L0], (Z.leb_spec 0 (sval rhs)) as [R0|R0];
      cbn [xorb negb bind].
    - exists res1, (cf || negb (Is_Positive res1)). split; [reflexivity|].
      split; [exact Hw1|]. split; [exact HW1|]. split; [exact Hn1|]. split; [|reflexivity].
      rewrite Hu1. unfold ax, ay. rewrite !Z.abs_eq by lia. reflexivity.
    - destruct (Get_Complement_spec res1 Hw1) as (c & Ec & Hc & HWc & Hrest).
      rewrite HW1, HU in Hrest. destruct Hrest as [Hlc Huc].
      rewrite Ec. cbn [bind]. exists c, (cf || negb (Is_Positive res1)).
      split; [reflexivity|]. split; [exact Hc|]. split; [congruence|].
      split; [unfold nbits; rewrite Hlc; exact Hn1|]. split; [|reflexivity].
      rewrite Huc, Hn1, <- Z.sub_0_l, <- Zminus_mod_idemp_r.
      rewrite <- Hn1 at 1. rewrite <- (uval_sval_mod res1 Hw1), Hu1, Zminus_mod_idemp_r.
      f_equal. unfold ax, ay. rewrite (Z.abs_eq (sval lhs)), (Z.abs_neq (sval rhs)) by lia. ring.
    - destruct (Get_Complement_spec res1 Hw1) as (c & Ec & Hc & HWc & Hrest).
      rewrite HW1, HU in Hrest. destruct Hrest as [Hlc Huc].
      rewrite Ec. cbn [bind]. exists c, (cf || negb (Is_Positive res1)).
      split; [reflexivity|]. split; [exact Hc|]. split; [congruence|].
      split; [unfold nbits; rewrite Hlc; exact Hn1|]. split; [|reflexivity].
      rewrite Huc, Hn1, <- Z.sub_0_l, <- Zminus_mod_idemp_r.
      rewrite <- Hn1 at 1. rewrite <- (uval_sval_mod res1 Hw1), Hu1, Zminus_mod_idemp_r.
      f_equal. unfold ax, ay. rewrite (Z.abs_neq (sval lhs)), (Z.abs_eq (sval rhs)) by lia. ring.
    - exists res1, (cf || negb (Is_Positive res1)). split; [reflexivity|].
      split; [exact Hw1|]. split; [exact HW1|]. split; [exact Hn1|]. split; [|reflexivity].
      rewrite Hu1. unfold ax, ay. rewrite !Z.abs_neq by lia. f_equal. ring. }
  exists result. unfold operator_mul. rewrite EM. cbn [bind].
  split; [destruct overflow; auto|].
  split; [exact Hwres|]. split; [exact HWres|]. split; [exact Hnres|]. split; [exact Hures|].
  intros Hrange. subst overflow.
  assert (Is_Positive res1 = false) as ->.
  { rewrite Is_Positive_uval, Hn1, Hu1, Z.mod_small by (auto; lia).
    apply Z.ltb_ge. apply Hrange. }
  now rewrite orb_true_r.
Qed.

Lemma operator_mul_truncates_witness :
  wf x_max4 /\ wf x5 /\
  exists result,
    operator_mul x_max4 x5 = OverflowException result /\
    uval result = (2147483647 * 5) mod 2 ^ 32.
Proof.
  split; [exact wf_x_max4|]. split; [exact wf_x5|].
  destruct (operator_mul_truncates x_max4 x5 wf_x_max4 wf_x5)
    as (r & Hcase & _ & _ & _ & Hu & _).
  - intros H. vm_compute in H. discriminate H.
  - intros H. vm_compute in H. discriminate H.
  - reflexivity.
  - exists r. split; [|exact Hu].
    destruct Hcase as [E|E]; [|exact E].
    assert (operator_mul x_max4 x5
            = OverflowException (mkInteger (Fixed 4) [251; 255; 255; 127])) as E'
      by (vm_compute; reflexivity).
    rewrite E' in E. discriminate E.
Defined.

(** ** Division with a zero operand *)

(** A zero divisor of any width makes [Div_Mod], [/] and [%] raise the
    error "Division By Zero", whatever the dividend, so there is no
    quotient and no remainder.  A zero dividend with a non-zero divisor
    returns twice the zero of the left operand's width, labelled with the
    result width.  When the result width is the left operand's width or
    unlimited, that is the well-formed zero of the result width; when the
    divisor has a wider fixed width than the dividend, it is an object of
    the wider width holding the narrower number of words. *)
Theorem Div_Mod_zero_operands (x y : Integer) :
  wf x -> wf y ->
  (sval y = 0 ->
   Div_Mod x y = ArithmeticException "Division By Zero" /\
   operator_div x y = ArithmeticException "Division By Zero" /\
   operator_mod x y = ArithmeticException "Division By Zero" /\
   forall q r, Div_Mod x y <> Ok (q, r)) /\
  (sval y <> 0 -> sval x = 0 ->
   exists q,
     Div_Mod x y = Ok (q, q) /\ operator_div x y = Ok q /\ operator_mod x y = Ok q /\
     Width q = Get_Max (Width x) (Width y) /\
     length (_bits q) = min_words (Width x) /\
     Forall (fun w => w = 0) (_bits q) /\
     (Get_Max (Width x) (Width y) = Width x \/
      Get_Max (Width x) (Width y) = kUnlimited ->
      wf q /\ sval q = 0) /\
     (forall n m, Width x = Fixed n -> Width y = Fixed m -> (n < m)%nat ->
      Width q = Fixed m /\ length (_bits q) = n /\ ~ wf q)).
Proof.
  intros Hx Hy.
  pose proof (wf_admissible x Hx) as Hadm.
  destruct (kZero_facts (Width x) Hadm) as (Z1 & Z2 & Z3 & Z4).
  destruct (Integer_new_facts (Width x) Hadm) as (_ & _ & _ & Zl).
  split.
  - intros Hz.
    assert (Div_Mod x y = ArithmeticException "Division By Zero") as E.
    { unfold Div_Mod. rewrite operator_eq_spec, Z4, Hz by assumption. reflexivity. }
    unfold operator_div, operator_mod. rewrite E.
    repeat split; try reflexivity. intros q r H. discriminate H.
  - intros Hnz Hz.
    set (zero := Integer_copy (Get_Max (Width x) (Width y)) (kZero (Width x))).
    assert (Div_Mod x y = Ok (zero, zero)) as E.
    { unfold Div_Mod. rewrite operator_eq_spec, Z4 by assumption.
      destruct (Z.eqb_spec (sval y) 0); [contradiction|]. cbn [bind].
      rewrite operator_eq_spec, Z4, Hz by assumption. reflexivity. }
    assert (length (_bits zero) = min_words (Width x)) as Hlen by exact Zl.
    exists zero. unfold operator_div, operator_mod. rewrite E. cbn [bind fst snd].
    split; [reflexivity|]. split; [reflexivity|]. split; [reflexivity|].
    split; [reflexivity|]. split; [exact Hlen|].
    split; [apply uval_words_zero; [apply (wf_words_ok _ Z1) | exact Z3]|].
    split.
    + intros HW. split; [|exact Z4].
      destruct Z1 as (W1 & W2 & W3). split; [exact W1|]. split; [exact W2|].
      unfold zero. cbn [Width Integer_copy _bits].
      destruct HW as [HW|HW]; rewrite HW; [|exact I].
      rewrite Z2 in W3. exact W3.
    + intros n m En Em Hlt.
      assert (Width zero = Fixed m) as HWz.
      { unfold zero. cbn [Width Integer_copy]. rewrite En, Em. cbn [Get_Max].
        f_equal. lia. }
      assert (length (_bits zero) = n) as Hln.
      { rewrite Hlen, En. reflexivity. }
      split; [exact HWz|]. split; [exact Hln|].
      intros (_ & _ & H). rewrite HWz in H. lia.
Qed.

Lemma Div_Mod_zero_operands_witness :
  wf x5 /\ sval x5 = 5 /\ wf (kZero (Fixed 4)) /\ sval (kZero (Fixed 4)) = 0 /\
  operator_div x5 (kZero (Fixed 4)) = ArithmeticException "Division By Zero" /\
  operator_mod x5 (kZero (Fixed 4)) = ArithmeticException "Division By Zero" /\
  exists q, operator_div (kZero (Fixed 4)) x5 = Ok q /\
            operator_mod (kZero (Fixed 4)) x5 = Ok q /\ wf q /\ sval q = 0.
Proof.
  assert (wf (kZero (Fixed 4))) as Hz by (unfold kZero, Integer_new; wf_concrete).
  assert (sval (kZero (Fixed 4)) = 0) as Hs by (vm_compute; reflexivity).
  assert (sval x5 = 5) as H5 by (vm_compute; reflexivity).
  split; [exact wf_x5|]. split; [exact H5|]. split; [exact Hz|]. split; [exact Hs|].
  destruct (Div_Mod_zero_operands x5 (kZero (Fixed 4)) wf_x5 Hz) as [H _].
  destruct (H Hs) as (_ & A & B & _). split; [exact A|]. split; [exact B|].
  destruct (Div_Mod_zero_operands (kZero (Fixed 4)) x5 Hz wf_x5) as [_ H'].
  destruct H' as (q & _ & Dq & Mq & _ & _ & _ & Hq & _).
  - rewrite H5. discriminate.
  - exact Hs.
  - destruct Hq as [Hw Hv]; [left; reflexivity|].
    exists q. auto.
Defined.
